(** * SkShaper (HarfBuzz back end): segmentation, line breaking and emission

    A shallow embedding of [modules/skshaper/src/SkShaper_harfbuzz.cpp].

    Conventions of the embedding.
    - A [const char*] into the input is the byte offset from [utf8]; the
      input itself is a list of bytes.
    - [SkScalar] is [float], IEEE 754 binary32, and [double] is binary64:
      every [+], [-], [*], [/] and conversion rounds to nearest, ties to
      even, and [<] and [==] are those of IEEE 754 (false on NaN), as
      [SpecFloat] of the Standard Library defines them.
    - ICU, HarfBuzz, SkUTF, SkFontMgr, SkTypeface, SkFont and the run
      handler are collaborators: their behaviour is a field of [Env].
    - [SkASSERT] and [SkDebugf] are debug-only and are left out.
    - Undefined behaviour of the C++ (null dereference, index out of
      range, reading a variable that was never written) is the outcome
      [Fault]; a loop that runs out of the fuel of its model is the
      outcome [Timeout]. *)

From Stdlib Require Import ZArith Lia SpecFloat.
From stdpp Require Import base tactics option list numbers sorting.

Open Scope Z_scope.

(** ** Outcomes *)

Inductive outcome (A : Type) : Type :=
  | Ret (a : A)
  | Fault
  | Timeout.
Arguments Ret {A} a.
Arguments Fault {A}.
Arguments Timeout {A}.

#[global] Instance outcome_ret : MRet outcome := @Ret.
#[global] Instance outcome_bind : MBind outcome := fun A B f m =>
  match m with
  | Ret a => f a
  | Fault => Fault
  | Timeout => Timeout
  end.

(** [a[i]] on a C++ array: reading outside the array is a fault. *)
Definition index {A : Type} (l : list A) (i : nat) : outcome A :=
  match l !! i with
  | Some a => Ret a
  | None => Fault
  end.

(** The same with a signed C++ index. *)
Definition indexZ {A : Type} (l : list A) (i : Z) : outcome A :=
  if decide (0 <= i) then index l (Z.to_nat i) else Fault.

(** ** Scalars *)

Definition SkScalar : Type := spec_float.

(** The literal [0] as a scalar. *)
Definition scalar_zero : SkScalar := S754_zero false.

Definition scalar_add (a b : SkScalar) : SkScalar := SFadd 24 128 a b.
Definition scalar_sub (a b : SkScalar) : SkScalar := SFsub 24 128 a b.
Definition scalar_mul (a b : SkScalar) : SkScalar := SFmul 24 128 a b.
Definition scalar_div (a b : SkScalar) : SkScalar := SFdiv 24 128 a b.
Definition scalar_lt (a b : SkScalar) : bool := SFltb a b.
Definition scalar_eq (a b : SkScalar) : bool := SFeqb a b.
Definition scalar_le (a b : SkScalar) : bool := SFleb a b.

(** The conversions that the arithmetic of [shape] makes: [int] to
    [float], [float] to [double] (exact), [int] to [double] (exact on 32
    bits), and [double] to [float]. *)
Definition int_to_float (n : Z) : SkScalar := binary_normalize 24 128 n 0 false.
Definition int_to_double (n : Z) : spec_float := binary_normalize 53 1024 n 0 false.
Definition float_to_double (x : SkScalar) : spec_float :=
  match x with
  | S754_finite s m e => binary_normalize 53 1024 (cond_Zopp s (Zpos m)) e s
  | _ => x
  end.
Definition double_to_float (x : spec_float) : SkScalar :=
  match x with
  | S754_finite s m e => binary_normalize 24 128 (cond_Zopp s (Zpos m)) e s
  | _ => x
  end.
Definition double_mul (a b : spec_float) : spec_float := SFmul 53 1024 a b.

(** Modelled from the spec: [SkTMin] and [SkTMax] (SkTypes.h is not among
    the sources), the lesser and the greater of two values by [<]:
    [a < b ? a : b] and [b < a ? a : b]. *)
Definition SkTMin (a b : SkScalar) : SkScalar := if scalar_lt a b then a else b.
Definition SkTMax (a b : SkScalar) : SkScalar := if scalar_lt b a then a else b.

(** ** Data model *)

Record SkPoint : Type := MkPoint { fX : SkScalar; fY : SkScalar }.

Definition SkTypeface : Type := Z.

(** [SkFont]: the typeface, the size and the horizontal scale are what the
    shaper reads or overrides. *)
Record SkFont : Type := MkFont {
  font_typeface : option SkTypeface;
  font_size : SkScalar;
  font_scaleX : SkScalar
}.

Definition setTypeface (f : SkFont) (tf : option SkTypeface) : SkFont :=
  {| font_typeface := tf; font_size := font_size f; font_scaleX := font_scaleX f |}.

Record SkFontMetrics : Type := MkMetrics {
  fAscent : SkScalar;
  fDescent : SkScalar;
  fLeading : SkScalar
}.

Record ShapedGlyph : Type := MkGlyph {
  fID : Z;
  fCluster : Z;
  fOffset : SkPoint;
  fAdvance : SkPoint;
  fMayLineBreakBefore : bool;
  fMustLineBreakBefore : bool;
  fHasVisual : bool
}.

(** [ShapedRun]; the array [fGlyphs] has [fNumGlyphs] elements, so the
    count is the length of the list ([fRunAdvance] is the field [fAdvance]
    of the run). *)
Record ShapedRun : Type := MkRun {
  fUtf8Start : Z;
  fUtf8End : Z;
  fFont : SkFont;
  fLevel : Z;
  fGlyphs : list ShapedGlyph;
  fRunAdvance : SkPoint
}.

Definition fNumGlyphs (run : ShapedRun) : nat := length (fGlyphs run).

Definition is_LTR (level : Z) : bool := Z.land level 1 =? 0.

(** ** Collaborators *)

Definition hb_script_t : Type := Z.
(** [HB_TAG('Z','i','n','h')], [HB_TAG('Z','y','y','y')], [HB_TAG('Z','z','z','z')]. *)
Definition HB_SCRIPT_INHERITED : hb_script_t := 0x5A696E68.
Definition HB_SCRIPT_COMMON : hb_script_t := 0x5A797979.
Definition HB_SCRIPT_UNKNOWN : hb_script_t := 0x5A7A7A7A.

Inductive hb_direction_t : Type := HB_DIRECTION_LTR | HB_DIRECTION_RTL.

#[global] Instance hb_direction_eq_dec : EqDecision hb_direction_t.
Proof. solve_decision. Defined.

(** An [hb_font_t*] made by [create_hb_font]: the typeface it was made of. *)
Definition hb_font_t : Type := SkTypeface.

(** What one shaping call puts in the [hb_buffer_t]: the context before,
    the items as (code point, cluster), the context after (each context a
    range of bytes of the input), the script and the direction. *)
Record hb_buffer : Type := MkBuffer {
  buf_precontext : Z * Z;
  buf_items : list (Z * Z);
  buf_postcontext : Z * Z;
  buf_script : hb_script_t;
  buf_direction : hb_direction_t
}.

(** [hb_glyph_info_t] and [hb_glyph_position_t] of one output glyph. *)
Record hb_glyph : Type := MkHBGlyph {
  codepoint : Z;
  cluster : Z;
  x_offset : Z;
  y_offset : Z;
  x_advance : Z;
  y_advance : Z
}.

(** An open [UBiDi] after [ubidi_setPara]. *)
Record UBiDi : Type := MkBiDi {
  ubidi_getLength : Z;
  ubidi_getLevelAt : Z -> Z
}.

Definition UBIDI_DEFAULT_LTR : Z := 0xfe.
Definition UBIDI_DEFAULT_RTL : Z := 0xff.
Definition UBRK_DONE : Z := -1.

(** [SkShaper::RunHandler::RunInfo]. *)
Record RunInfo : Type := MkInfo {
  info_lineIndex : Z;
  info_advance : SkPoint;
  info_ascent : SkScalar;
  info_descent : SkScalar;
  info_leading : SkScalar
}.

(** Which optional arrays the [Buffer] of the handler carries. *)
Record Buffer : Type := MkBufferShape {
  has_utf8text : bool;
  has_clusters : bool
}.

Record Env : Type := MkEnv {
  (** [SkUTF::NextUTF8(&ptr, end)] on the input: the code point, or a
      negative value, and the new [ptr]. *)
  NextUTF8 : list Z -> Z -> Z -> Z * Z;
  (** [u_strFromUTF8(nullptr, 0, &utf16Units, utf8, utf8Bytes, &status)]:
      the length it writes to [utf16Units], [None] when it returns without
      writing it (as it does on ill-formed input). *)
  u_strFromUTF8_length : list Z -> option Z;
  (** [u_strFromUTF8(utf16, utf16Units, nullptr, utf8, utf8Bytes, &status)]
      into a buffer of [utf16Units] units: [false] on [U_FAILURE]. *)
  u_strFromUTF8 : list Z -> Z -> bool;
  (** [ubidi_openSized] succeeds. *)
  ubidi_openSized : Z -> bool;
  (** [ubidi_setPara] at a paragraph level, [None] on [U_FAILURE]. *)
  ubidi_setPara : list Z -> Z -> option UBiDi;
  (** [ubidi_reorderVisual]: the index map it writes. *)
  ubidi_reorderVisual : list Z -> list Z;
  (** [utext_openUTF8] and [ubrk_setUText] succeed. *)
  utext_openUTF8 : list Z -> bool;
  ubrk_setUText : list Z -> bool;
  (** [ubrk_next] from a position of the break iterator: the following
      boundary, or [UBRK_DONE]. *)
  ubrk_next : list Z -> Z -> Z;
  hb_unicode_script : Z -> hb_script_t;
  (** [tf->charsToGlyphs(&u, kUTF32_Encoding, nullptr, 1)] is not zero. *)
  charsToGlyphs : SkTypeface -> Z -> bool;
  (** [fallbackMgr->matchFamilyStyleCharacter(nullptr, tf->fontStyle(),
      nullptr, 0, u)] for the primary typeface [tf]. *)
  matchFamilyStyleCharacter : SkTypeface -> Z -> option SkTypeface;
  (** [tf->openStream] gives data, and [hb_face_create] and
      [hb_font_create] give an object, for a typeface. *)
  openStream : SkTypeface -> bool;
  hb_face_create : SkTypeface -> bool;
  hb_font_create : SkTypeface -> bool;
  hb_font_get_scale : hb_font_t -> Z * Z;
  (** [hb_shape] followed by [hb_buffer_get_glyph_infos] and
      [hb_buffer_get_glyph_positions]. *)
  hb_shape : hb_font_t -> hb_buffer -> list hb_glyph;
  getMetrics : SkFont -> SkFontMetrics;
  (** [handler->newRunBuffer(info, font, glyphCount, utf8Bytes)]. *)
  newRunBuffer : RunInfo -> SkFont -> Z -> Z -> Buffer
}.

(** [for (i = lo; i < lo + n; ++i) body]. *)
Fixpoint for_loop {S : Type} (n : nat) (i : nat) (body : nat -> S -> outcome S) (s : S)
  : outcome S :=
  match n with
  | O => Ret s
  | S n' => s' ← body i s; for_loop n' (Datatypes.S i) body s'
  end.

(** ** Text helpers *)

(** [SkTFitsIn<int32_t>] and [SkTFitsIn<int>] on a non-negative value. *)
Definition fits_int (n : Z) : bool := n <=? 2 ^ 31 - 1.

(** Conversion of an unsigned 32-bit sum to [int32_t]. *)
Definition to_int32 (n : Z) : Z := (n + 2 ^ 31) mod 2 ^ 32 - 2 ^ 31.

(** Modelled from the spec: [SkUTF::ToUTF16] (SkUTF.cpp is not among the
    sources), the UTF-16 width of a code point. *)
Definition ToUTF16 (u : Z) : Z := if u <? 0x10000 then 1 else 2.

(** This version replaces invalid utf-8 sequences with code point U+FFFD. *)
Definition utf8_next (env : Env) (utf8 : list Z) (ptr end_ : Z) : Z * Z :=
  let '(val, ptr') := NextUTF8 env utf8 ptr end_ in
  (if val <? 0 then 0xFFFD else val, ptr').

Definition create_hb_font (env : Env) (tf : option SkTypeface) : option hb_font_t :=
  match tf with
  | None => None
  | Some tf =>
    if negb (openStream env tf) then None
    else if negb (hb_face_create env tf) then None
    else if negb (hb_font_create env tf) then None
    else Some tf
  end.

(** ** The three run iterators *)

Module BiDiRunIterator.

Record t : Type := Mk {
  fBidi : UBiDi;
  fEndOfCurrentRun : Z;
  fEndOfAllRuns : Z;
  fUTF16LogicalPosition : Z;
  fLevel : Z
}.

(** [None] is the empty [SkTLazy]. [utf16Units] is declared without a
    value and the status of the first [u_strFromUTF8] is thrown away, so
    [new UChar[utf16Units]] reads it whether or not it was written; a
    negative length makes the array allocation fail. *)
Definition Make (env : Env) (utf8 : list Z) (utf8Bytes : Z) (level : Z)
  : outcome (option t) :=
  if negb (fits_int utf8Bytes) then Ret None
  else match u_strFromUTF8_length env utf8 with
       | None => Fault
       | Some utf16Units =>
         if utf16Units <? 0 then Fault
         else if negb (u_strFromUTF8 env utf8 utf16Units) then Ret None
         else if negb (ubidi_openSized env utf16Units) then Ret None
         else match ubidi_setPara env utf8 level with
              | None => Ret None
              | Some bidi =>
                Ret (Some {| fBidi := bidi; fEndOfCurrentRun := 0;
                             fEndOfAllRuns := utf8Bytes; fUTF16LogicalPosition := 0;
                             fLevel := UBIDI_DEFAULT_LTR |})
              end
       end.

(** [u = utf8_next(&fEndOfCurrentRun, fEndOfAllRuns);
     fUTF16LogicalPosition += SkUTF::ToUTF16(u);] *)
Definition advance (env : Env) (utf8 : list Z) (it : t) : t :=
  let '(u, p) := utf8_next env utf8 (fEndOfCurrentRun it) (fEndOfAllRuns it) in
  {| fBidi := fBidi it; fEndOfCurrentRun := p; fEndOfAllRuns := fEndOfAllRuns it;
     fUTF16LogicalPosition := fUTF16LogicalPosition it + ToUTF16 u;
     fLevel := fLevel it |}.

(** The [while (fUTF16LogicalPosition < endPosition)] loop. *)
Fixpoint consume_loop (env : Env) (utf8 : list Z) (fuel : nat) (endPosition : Z)
    (it : t) : outcome t :=
  if fUTF16LogicalPosition it <? endPosition then
    let level := ubidi_getLevelAt (fBidi it) (fUTF16LogicalPosition it) in
    if decide (level ≠ fLevel it) then Ret it
    else match fuel with
         | O => Timeout
         | S fuel' => consume_loop env utf8 fuel' endPosition (advance env utf8 it)
         end
  else Ret it.

Definition consume (env : Env) (utf8 : list Z) (it : t) : outcome t :=
  let endPosition := ubidi_getLength (fBidi it) in
  let it1 := {| fBidi := fBidi it; fEndOfCurrentRun := fEndOfCurrentRun it;
                fEndOfAllRuns := fEndOfAllRuns it;
                fUTF16LogicalPosition := fUTF16LogicalPosition it;
                fLevel := ubidi_getLevelAt (fBidi it) (fUTF16LogicalPosition it) |} in
  let it2 := advance env utf8 it1 in
  consume_loop env utf8 (Z.to_nat (endPosition - fUTF16LogicalPosition it2))
    endPosition it2.

Definition endOfCurrentRun (it : t) : Z := fEndOfCurrentRun it.

Definition atEnd (it : t) : bool :=
  fUTF16LogicalPosition it =? ubidi_getLength (fBidi it).

Definition currentLevel (it : t) : Z := fLevel it.

End BiDiRunIterator.

Module ScriptRunIterator.

Record t : Type := Mk {
  fCurrent : Z;
  fEnd : Z;
  fCurrentScript : hb_script_t
}.

Definition Make (utf8Bytes : Z) : option t :=
  Some {| fCurrent := 0; fEnd := utf8Bytes; fCurrentScript := HB_SCRIPT_UNKNOWN |}.

(** The [while (fCurrent < fEnd)] loop. *)
Fixpoint consume_loop (env : Env) (utf8 : list Z) (fuel : nat) (it : t) : outcome t :=
  if fCurrent it <? fEnd it then
    match fuel with
    | O => Timeout
    | S fuel' =>
      let prev := fCurrent it in
      let '(u, p) := utf8_next env utf8 (fCurrent it) (fEnd it) in
      let script := hb_unicode_script env u in
      if decide (script ≠ fCurrentScript it) then
        if decide (fCurrentScript it = HB_SCRIPT_INHERITED
                   ∨ fCurrentScript it = HB_SCRIPT_COMMON) then
          consume_loop env utf8 fuel' (Mk p (fEnd it) script)
        else if decide (script = HB_SCRIPT_INHERITED ∨ script = HB_SCRIPT_COMMON) then
          consume_loop env utf8 fuel' (Mk p (fEnd it) (fCurrentScript it))
        else Ret (Mk prev (fEnd it) (fCurrentScript it))
      else consume_loop env utf8 fuel' (Mk p (fEnd it) (fCurrentScript it))
    end
  else Ret it.

Definition consume (env : Env) (utf8 : list Z) (it : t) : outcome t :=
  let '(u, p) := utf8_next env utf8 (fCurrent it) (fEnd it) in
  it' ← consume_loop env utf8 (Z.to_nat (fEnd it - p))
          (Mk p (fEnd it) (hb_unicode_script env u));
  if decide (fCurrentScript it' = HB_SCRIPT_INHERITED) then
    Ret (Mk (fCurrent it') (fEnd it') HB_SCRIPT_COMMON)
  else Ret it'.

Definition endOfCurrentRun (it : t) : Z := fCurrent it.

Definition atEnd (it : t) : bool := fCurrent it =? fEnd it.

Definition currentScript (it : t) : hb_script_t := fCurrentScript it.

End ScriptRunIterator.

Module FontRunIterator.

(** [fFallbackMgr] is the [Env]; a null pointer is [None]. *)
Record t : Type := Mk {
  fCurrent : Z;
  fEnd : Z;
  fHBFont : option hb_font_t;
  fTypeface : SkTypeface;
  fFallbackHBFont : option hb_font_t;
  fFallbackTypeface : option SkTypeface;
  fCurrentHBFont : option hb_font_t;
  fCurrentTypeface : option SkTypeface
}.

Definition Make (utf8Bytes : Z) (typeface : SkTypeface) (hbFace : option hb_font_t)
  : option t :=
  Some {| fCurrent := 0; fEnd := utf8Bytes; fHBFont := hbFace; fTypeface := typeface;
          fFallbackHBFont := None; fFallbackTypeface := None;
          fCurrentHBFont := hbFace; fCurrentTypeface := Some typeface |}.

Definition with_current (it : t) (p : Z) : t :=
  {| fCurrent := p; fEnd := fEnd it; fHBFont := fHBFont it; fTypeface := fTypeface it;
     fFallbackHBFont := fFallbackHBFont it; fFallbackTypeface := fFallbackTypeface it;
     fCurrentHBFont := fCurrentHBFont it; fCurrentTypeface := fCurrentTypeface it |}.

(** The choice of the typeface for the first code point [u] of a run. *)
Definition select (env : Env) (u : Z) (it : t) : t :=
  if charsToGlyphs env (fTypeface it) u then
    {| fCurrent := fCurrent it; fEnd := fEnd it; fHBFont := fHBFont it;
       fTypeface := fTypeface it; fFallbackHBFont := fFallbackHBFont it;
       fFallbackTypeface := fFallbackTypeface it;
       fCurrentHBFont := fHBFont it; fCurrentTypeface := Some (fTypeface it) |}
  else if match fFallbackTypeface it with
          | Some fb => charsToGlyphs env fb u
          | None => false
          end then
    {| fCurrent := fCurrent it; fEnd := fEnd it; fHBFont := fHBFont it;
       fTypeface := fTypeface it; fFallbackHBFont := fFallbackHBFont it;
       fFallbackTypeface := fFallbackTypeface it;
       fCurrentHBFont := fFallbackHBFont it;
       fCurrentTypeface := fFallbackTypeface it |}
  else
    let fallback := matchFamilyStyleCharacter env (fTypeface it) u in
    let hbFont := create_hb_font env fallback in
    {| fCurrent := fCurrent it; fEnd := fEnd it; fHBFont := fHBFont it;
       fTypeface := fTypeface it; fFallbackHBFont := hbFont;
       fFallbackTypeface := fallback;
       fCurrentHBFont := hbFont; fCurrentTypeface := fallback |}.

(** The [while (fCurrent < fEnd)] loop; [fCurrentTypeface->charsToGlyphs]
    on a null [fCurrentTypeface] is a fault. *)
Fixpoint consume_loop (env : Env) (utf8 : list Z) (fuel : nat) (it : t) : outcome t :=
  if fCurrent it <? fEnd it then
    match fuel with
    | O => Timeout
    | S fuel' =>
      let prev := fCurrent it in
      let '(u, p) := utf8_next env utf8 (fCurrent it) (fEnd it) in
      if bool_decide (fCurrentTypeface it ≠ Some (fTypeface it))
         && charsToGlyphs env (fTypeface it) u then
        Ret (with_current it prev)
      else match fCurrentTypeface it with
           | None => Fault
           | Some cur =>
             if negb (charsToGlyphs env cur u) then Ret (with_current it prev)
             else consume_loop env utf8 fuel' (with_current it p)
           end
    end
  else Ret it.

Definition consume (env : Env) (utf8 : list Z) (it : t) : outcome t :=
  let '(u, p) := utf8_next env utf8 (fCurrent it) (fEnd it) in
  let it1 := select env u (with_current it p) in
  consume_loop env utf8 (Z.to_nat (fEnd it - p)) it1.

Definition endOfCurrentRun (it : t) : Z := fCurrent it.

Definition atEnd (it : t) : bool := fCurrent it =? fEnd it.

Definition currentTypeface (it : t) : option SkTypeface := fCurrentTypeface it.

Definition currentHBFont (it : t) : option hb_font_t := fCurrentHBFont it.

End FontRunIterator.

(** ** RunIteratorQueue

    The queue holds pointers to the three iterators, which live in the
    frame of [shape]: a pointer is a [RunIteratorRef] into the record that
    holds the three of them. *)

Inductive RunIteratorRef : Type := BidiRef | ScriptRef | FontRef.

#[global] Instance RunIteratorRef_eq_dec : EqDecision RunIteratorRef.
Proof. solve_decision. Defined.

Record RunIteratorQueue : Type := MkQueue {
  bidi : BiDiRunIterator.t;
  script : ScriptRunIterator.t;
  font : FontRunIterator.t;
  fRunIterators : list RunIteratorRef
}.

Definition ref_endOfCurrentRun (q : RunIteratorQueue) (r : RunIteratorRef) : Z :=
  match r with
  | BidiRef => BiDiRunIterator.endOfCurrentRun (bidi q)
  | ScriptRef => ScriptRunIterator.endOfCurrentRun (script q)
  | FontRef => FontRunIterator.endOfCurrentRun (font q)
  end.

Definition ref_atEnd (q : RunIteratorQueue) (r : RunIteratorRef) : bool :=
  match r with
  | BidiRef => BiDiRunIterator.atEnd (bidi q)
  | ScriptRef => ScriptRunIterator.atEnd (script q)
  | FontRef => FontRunIterator.atEnd (font q)
  end.

Definition with_queue (q : RunIteratorQueue) (l : list RunIteratorRef) : RunIteratorQueue :=
  {| bidi := bidi q; script := script q; font := font q; fRunIterators := l |}.

Definition ref_consume (env : Env) (utf8 : list Z) (q : RunIteratorQueue)
    (r : RunIteratorRef) : outcome RunIteratorQueue :=
  match r with
  | BidiRef =>
    it ← BiDiRunIterator.consume env utf8 (bidi q);
    Ret {| bidi := it; script := script q; font := font q;
           fRunIterators := fRunIterators q |}
  | ScriptRef =>
    it ← ScriptRunIterator.consume env utf8 (script q);
    Ret {| bidi := bidi q; script := it; font := font q;
           fRunIterators := fRunIterators q |}
  | FontRef =>
    it ← FontRunIterator.consume env utf8 (font q);
    Ret {| bidi := bidi q; script := script q; font := it;
           fRunIterators := fRunIterators q |}
  end.

(** Modelled from the spec: [SkTDPQueue] (SkTDPQueue.h is not among the
    sources), a min-priority queue ordered by [endOfCurrentRun]. The list
    is kept in ascending order; among equal ends the earlier inserted
    pointer stays in front. *)
Fixpoint pq_insert (q : RunIteratorQueue) (r : RunIteratorRef) (l : list RunIteratorRef)
  : list RunIteratorRef :=
  match l with
  | [] => [r]
  | r' :: l' =>
    if ref_endOfCurrentRun q r <? ref_endOfCurrentRun q r' then r :: l
    else r' :: pq_insert q r l'
  end.

Definition insert (q : RunIteratorQueue) (r : RunIteratorRef) : RunIteratorQueue :=
  with_queue q (pq_insert q r (fRunIterators q)).

(** [fRunIterators.peek()]; on an empty queue it reads outside the array. *)
Definition peek (q : RunIteratorQueue) : outcome RunIteratorRef :=
  index (fRunIterators q) 0.

Definition pop (q : RunIteratorQueue) : RunIteratorQueue :=
  with_queue q (tail (fRunIterators q)).

(** The [while ((currentRun = fRunIterators.peek())->endOfCurrentRun() <=
    leastEnd)] loop of [advanceRuns]. *)
Fixpoint advanceRuns_loop (env : Env) (utf8 : list Z) (fuel : nat) (leastEnd : Z)
    (q : RunIteratorQueue) : outcome RunIteratorQueue :=
  currentRun ← peek q;
  if ref_endOfCurrentRun q currentRun <=? leastEnd then
    match fuel with
    | O => Timeout
    | S fuel' =>
      q' ← ref_consume env utf8 (pop q) currentRun;
      advanceRuns_loop env utf8 fuel' leastEnd (insert q' currentRun)
    end
  else Ret q.

Definition advanceRuns (env : Env) (utf8 : list Z) (q : RunIteratorQueue)
  : outcome (bool * RunIteratorQueue) :=
  leastRun ← peek q;
  if ref_atEnd q leastRun then Ret (false, q)
  else
    let leastEnd := ref_endOfCurrentRun q leastRun in
    q' ← advanceRuns_loop env utf8 (length (fRunIterators q)) leastEnd q;
    Ret (true, q').

Definition queue_endOfCurrentRun (q : RunIteratorQueue) : outcome Z :=
  r ← peek q; Ret (ref_endOfCurrentRun q r).

(** The boundaries that successive calls of [advanceRuns] report, as
    [while (runSegmenter.advanceRuns()) ... runSegmenter.endOfCurrentRun()]
    reads them. *)
Fixpoint boundaries (env : Env) (utf8 : list Z) (fuel : nat) (q : RunIteratorQueue)
  : outcome (list Z) :=
  match fuel with
  | O => Timeout
  | S fuel' =>
    '(more, q') ← advanceRuns env utf8 q;
    if more : bool then
      e ← queue_endOfCurrentRun q';
      rest ← boundaries env utf8 fuel' q';
      Ret (e :: rest)
    else Ret []
  end.

(** ** The segment-and-shape pass (first block of [SkShaper::shape]) *)

Inductive ShapeError : Type :=
  | BidiError
  | ScriptError
  | FontError
  | UTextError
  | BreakIteratorError
  | Utf8TooLong
  | TooManyGlyphs.

(** The [while (utf8Current < utf8End)] loop that fills the buffer. *)
Fixpoint buffer_items (env : Env) (utf8 : list Z) (fuel : nat)
    (utf8Start utf8End utf8Current : Z) : outcome (list (Z * Z) * Z) :=
  if utf8Current <? utf8End then
    match fuel with
    | O => Timeout
    | S fuel' =>
      let cluster := (utf8Current - utf8Start) mod 2 ^ 32 in
      let '(u, p) := utf8_next env utf8 utf8Current utf8End in
      '(items, last) ← buffer_items env utf8 fuel' utf8Start utf8End p;
      Ret ((u, cluster) :: items, last)
    end
  else Ret ([], utf8Current).

(** [double textSizeY = run.fFont.getSize() / scaleY] and
    [double textSizeX = run.fFont.getSize() / scaleX * run.fFont.getScaleX()]:
    the quotient and the product are of [float]s. *)
Definition textSizeY (runFont : SkFont) (scaleY : Z) : spec_float :=
  float_to_double (scalar_div (font_size runFont) (int_to_float scaleY)).
Definition textSizeX (runFont : SkFont) (scaleX : Z) : spec_float :=
  float_to_double
    (scalar_mul (scalar_div (font_size runFont) (int_to_float scaleX))
                (font_scaleX runFont)).

(** [pos[i].x_offset * textSizeX] and the like: an [int32_t] times a
    [double], stored in a [float]. *)
Definition scaled (v : Z) (textSize : spec_float) : SkScalar :=
  double_to_float (double_mul (int_to_double v) textSize).

Definition fill_glyph (runFont : SkFont) (scaleX scaleY : Z) (g : hb_glyph)
  : ShapedGlyph :=
  {| fID := codepoint g mod 2 ^ 16;
     fCluster := cluster g;
     fOffset := MkPoint (scaled (x_offset g) (textSizeX runFont scaleX))
                        (scaled (y_offset g) (textSizeY runFont scaleY));
     fAdvance := MkPoint (scaled (x_advance g) (textSizeX runFont scaleX))
                         (scaled (y_advance g) (textSizeY runFont scaleY));
     fMayLineBreakBefore := false;
     fMustLineBreakBefore := false;
     fHasVisual := true |}.

(** [runAdvance += glyph.fAdvance]. *)
Definition add_advance (acc : SkPoint) (glyph : ShapedGlyph) : SkPoint :=
  MkPoint (scalar_add (fX acc) (fX (fAdvance glyph)))
          (scalar_add (fY acc) (fY (fAdvance glyph))).

(** [while (breakIteratorCurrent != UBRK_DONE && breakIteratorCurrent <
    glyphCluster) breakIteratorCurrent = ubrk_next(&breakIterator);] with
    the position of the break iterator, which stays where it is when
    [ubrk_next] reports [UBRK_DONE]. *)
Fixpoint ubrk_seek (env : Env) (utf8 : list Z) (fuel : nat) (glyphCluster : Z)
    (breakIteratorCurrent : Z) (position : Z) : outcome (Z * Z) :=
  if bool_decide (breakIteratorCurrent ≠ UBRK_DONE)
     && (breakIteratorCurrent <? glyphCluster) then
    match fuel with
    | O => Timeout
    | S fuel' =>
      let r := ubrk_next env utf8 position in
      ubrk_seek env utf8 fuel' glyphCluster r
        (if decide (r = UBRK_DONE) then position else r)
    end
  else Ret (breakIteratorCurrent, position).

Definition set_may (g : ShapedGlyph) (b : bool) : ShapedGlyph :=
  {| fID := fID g; fCluster := fCluster g; fOffset := fOffset g;
     fAdvance := fAdvance g; fMayLineBreakBefore := b;
     fMustLineBreakBefore := fMustLineBreakBefore g; fHasVisual := fHasVisual g |}.

(** The loop that sets [fMayLineBreakBefore]; [position] is the state of
    the break iterator, read by [ubrk_current]. *)
Fixpoint break_flags (env : Env) (utf8 : list Z) (clusterOffset : Z)
    (glyphs : list ShapedGlyph) (previousCluster : Z) (position : Z)
  : outcome (list ShapedGlyph * Z) :=
  match glyphs with
  | [] => Ret ([], position)
  | glyph :: rest =>
    let glyphCluster := to_int32 (fCluster glyph + clusterOffset) in
    '(breakIteratorCurrent, position') ←
      ubrk_seek env utf8 (Z.to_nat (glyphCluster - position)) glyphCluster
        position position;
    let glyph' := set_may glyph
      (bool_decide (fCluster glyph ≠ previousCluster)
       && bool_decide (breakIteratorCurrent = glyphCluster)) in
    '(rest', position'') ←
      break_flags env utf8 clusterOffset rest (fCluster glyph) position';
    Ret (glyph' :: rest', position'')
  end.

Record SegmentState : Type := MkSeg {
  runSegmenter : RunIteratorQueue;
  seg_utf8End : Z;
  seg_runs : list ShapedRun;
  breakIterator : Z
}.

(** The body of [while (runSegmenter.advanceRuns())] after the queue has
    moved: [inl] is [return point], [inr] the next state. *)
Definition shape_segment (env : Env) (srcFont : SkFont) (utf8 : list Z)
    (st : SegmentState) (q : RunIteratorQueue) : outcome (ShapeError + SegmentState) :=
  let utf8Bytes := Z.of_nat (length utf8) in
  let utf8Start := seg_utf8End st in
  utf8End ← queue_endOfCurrentRun q;
  '(items, utf8Current) ←
    buffer_items env utf8 (Z.to_nat (utf8End - utf8Start)) utf8Start utf8End utf8Start;
  let utf8runLength := utf8End - utf8Start in
  if negb (fits_int utf8runLength) then Ret (inl Utf8TooLong)
  else
    let level := BiDiRunIterator.currentLevel (bidi q) in
    let direction := if is_LTR level then HB_DIRECTION_LTR else HB_DIRECTION_RTL in
    let buffer := {| buf_precontext := (0, utf8Start); buf_items := items;
                     buf_postcontext := (utf8Current, utf8Bytes);
                     buf_script := ScriptRunIterator.currentScript (script q);
                     buf_direction := direction |} in
    let skip := MkSeg q utf8End (seg_runs st) (breakIterator st) in
    match FontRunIterator.currentHBFont (font q) with
    | None => Ret (inr skip)
    | Some hbFont =>
      let shaped := hb_shape env hbFont buffer in
      let len := Z.of_nat (length shaped) in
      if len =? 0 then Ret (inr skip)
      else
        let shaped := if decide (direction = HB_DIRECTION_RTL) then reverse shaped
                      else shaped in
        if negb (fits_int len) then Ret (inl TooManyGlyphs)
        else
          let runFont := setTypeface srcFont (FontRunIterator.currentTypeface (font q)) in
          let '(scaleX, scaleY) := hb_font_get_scale env hbFont in
          let glyphs := fill_glyph runFont scaleX scaleY <$> shaped in
          let runAdvance := foldl add_advance (MkPoint scalar_zero scalar_zero) glyphs in
          let clusterOffset := utf8Start in
          '(glyphs', position) ←
            break_flags env utf8 clusterOffset glyphs 0xFFFFFFFF (breakIterator st);
          let run := {| fUtf8Start := utf8Start; fUtf8End := utf8End; fFont := runFont;
                        fLevel := level; fGlyphs := glyphs';
                        fRunAdvance := runAdvance |} in
          Ret (inr (MkSeg q utf8End (seg_runs st ++ [run]) position))
    end.

Fixpoint shape_segments (env : Env) (srcFont : SkFont) (utf8 : list Z) (fuel : nat)
    (st : SegmentState) : outcome (ShapeError + list ShapedRun) :=
  match fuel with
  | O => Timeout
  | S fuel' =>
    '(more, q) ← advanceRuns env utf8 (runSegmenter st);
    if more : bool then
      r ← shape_segment env srcFont utf8 st q;
      match r with
      | inl e => Ret (inl e)
      | inr st' => shape_segments env srcFont utf8 fuel' st'
      end
    else Ret (inr (seg_runs st))
  end.

(** [SkShaper::Impl] of a shaper that has a typeface (the constructor
    leaves [fTypeface] null only when there is no default typeface): the
    primary typeface and its HarfBuzz font; the buffer and the break
    iterator carry no state into a call. *)
Record Impl : Type := MkImpl {
  fHarfBuzzFont : option hb_font_t;
  impl_fTypeface : SkTypeface
}.

(** The queue with the three iterators inserted, or the [return point]
    taken before the loop. *)
Definition make_segmenter (env : Env) (impl : Impl) (utf8 : list Z) (leftToRight : bool)
  : outcome (ShapeError + RunIteratorQueue) :=
  let utf8Bytes := Z.of_nat (length utf8) in
  let defaultLevel := if leftToRight then UBIDI_DEFAULT_LTR else UBIDI_DEFAULT_RTL in
  maybeBidi ← BiDiRunIterator.Make env utf8 utf8Bytes defaultLevel;
  match maybeBidi with
  | None => Ret (inl BidiError)
  | Some bidi =>
    match ScriptRunIterator.Make utf8Bytes with
    | None => Ret (inl ScriptError)
    | Some script =>
      match FontRunIterator.Make utf8Bytes (impl_fTypeface impl) (fHarfBuzzFont impl) with
      | None => Ret (inl FontError)
      | Some font =>
        let q0 := {| bidi := bidi; script := script; font := font;
                     fRunIterators := [] |} in
        let q := insert (insert (insert q0 BidiRef) ScriptRef) FontRef in
        if negb (utext_openUTF8 env utf8) then Ret (inl UTextError)
        else if negb (ubrk_setUText env utf8) then Ret (inl BreakIteratorError)
        else Ret (inr q)
      end
    end
  end.

(** The first block of [shape]: [inl] when it takes a [return point]. The
    boundary rises with every turn, so the loop takes at most one turn per
    byte and the exit test. *)
Definition segment_and_shape (env : Env) (impl : Impl) (srcFont : SkFont)
    (utf8 : list Z) (leftToRight : bool) : outcome (ShapeError + list ShapedRun) :=
  r ← make_segmenter env impl utf8 leftToRight;
  match r with
  | inl e => Ret (inl e)
  | inr q => shape_segments env srcFont utf8 (S (length utf8)) (MkSeg q 0 [] 0)
  end.

(** ** ShapedRunGlyphIterator

    All iterators of one [shape] call range over the same array [runs],
    which the model passes to each operation; a glyph pointer is the pair
    of indices it points at, [None] is [nullptr]. *)

Record ShapedRunGlyphIterator : Type := MkIter {
  fRunIndex : nat;
  fGlyphIndex : nat
}.

Definition GlyphPtr : Type := (nat * nat)%type.

Definition iter_start : ShapedRunGlyphIterator := MkIter 0 0.

Definition next (runs : list ShapedRun) (it : ShapedRunGlyphIterator)
  : outcome (ShapedRunGlyphIterator * option GlyphPtr) :=
  run ← index runs (fRunIndex it);
  let g := S (fGlyphIndex it) in
  if decide (g = fNumGlyphs run) then
    let r := S (fRunIndex it) in
    if decide (length runs <= r)%nat then Ret (MkIter r 0, None)
    else Ret (MkIter r 0, Some (r, 0%nat))
  else Ret (MkIter (fRunIndex it) g, Some (fRunIndex it, g)).

Definition current (runs : list ShapedRun) (it : ShapedRunGlyphIterator)
  : option GlyphPtr :=
  if decide (length runs <= fRunIndex it)%nat then None
  else Some (fRunIndex it, fGlyphIndex it).

(** [*ptr] for a glyph pointer. *)
Definition deref (runs : list ShapedRun) (ptr : GlyphPtr) : outcome ShapedGlyph :=
  run ← index runs ptr.1;
  index (fGlyphs run) ptr.2.

Definition set_must (g : ShapedGlyph) : ShapedGlyph :=
  {| fID := fID g; fCluster := fCluster g; fOffset := fOffset g;
     fAdvance := fAdvance g; fMayLineBreakBefore := fMayLineBreakBefore g;
     fMustLineBreakBefore := true; fHasVisual := fHasVisual g |}.

Definition with_glyphs (run : ShapedRun) (gs : list ShapedGlyph) : ShapedRun :=
  {| fUtf8Start := fUtf8Start run; fUtf8End := fUtf8End run; fFont := fFont run;
     fLevel := fLevel run; fGlyphs := gs; fRunAdvance := fRunAdvance run |}.

(** [ptr->fMustLineBreakBefore = true]. *)
Definition mark_must (runs : list ShapedRun) (ptr : GlyphPtr)
  : outcome (list ShapedRun) :=
  run ← index runs ptr.1;
  g ← index (fGlyphs run) ptr.2;
  Ret (<[ptr.1 := with_glyphs run (<[ptr.2 := set_must g]> (fGlyphs run))]> runs).

(** ** The line-break pass (second block of [SkShaper::shape]) *)

Record LineBreakState : Type := MkLB {
  lb_runs : list ShapedRun;
  widthSoFar : SkScalar;
  previousBreakValid : bool;
  canAddBreakNow : bool;
  previousBreak : ShapedRunGlyphIterator;
  glyphIterator : ShapedRunGlyphIterator
}.

Definition linebreak_init (runs : list ShapedRun) : LineBreakState :=
  {| lb_runs := runs; widthSoFar := scalar_zero; previousBreakValid := false;
     canAddBreakNow := false; previousBreak := iter_start;
     glyphIterator := iter_start |}.

(** One turn of the [while (ShapedGlyph* glyph = glyphIterator.current())]
    loop; [None] when the loop exits. *)
Definition linebreak_step (width : SkScalar) (st : LineBreakState)
  : outcome (option LineBreakState) :=
  let runs := lb_runs st in
  match current runs (glyphIterator st) with
  | None => Ret None
  | Some ptr =>
    glyph ← deref runs ptr;
    let mark := canAddBreakNow st && fMayLineBreakBefore glyph in
    let valid := if mark then true else previousBreakValid st in
    let prev := if mark then glyphIterator st else previousBreak st in
    let glyphWidth := fX (fAdvance glyph) in
    if scalar_lt (scalar_add (widthSoFar st) glyphWidth) width then
      '(it, _) ← next runs (glyphIterator st);
      Ret (Some {| lb_runs := runs; widthSoFar := scalar_add (widthSoFar st) glyphWidth;
                   previousBreakValid := valid; canAddBreakNow := true;
                   previousBreak := prev; glyphIterator := it |})
    else
      prev' ← (if scalar_eq (widthSoFar st) scalar_zero then
                 '(it, _) ← next runs (glyphIterator st); Ret it
               else if negb valid then Ret (glyphIterator st)
               else Ret prev);
      runs' ← match current runs prev' with
              | Some ptr' => mark_must runs ptr'
              | None => Ret runs
              end;
      Ret (Some {| lb_runs := runs'; widthSoFar := scalar_zero;
                   previousBreakValid := false; canAddBreakNow := false;
                   previousBreak := prev'; glyphIterator := prev' |})
  end.

Fixpoint linebreak_loop (fuel : nat) (width : SkScalar) (st : LineBreakState)
  : outcome LineBreakState :=
  match fuel with
  | O => Timeout
  | S fuel' =>
    st' ← linebreak_step width st;
    match st' with
    | None => Ret st
    | Some st'' => linebreak_loop fuel' width st''
    end
  end.

(** The states at the head of the loop, one per turn. *)
Fixpoint linebreak_trace (fuel : nat) (width : SkScalar) (st : LineBreakState)
  : list LineBreakState :=
  match fuel with
  | O => []
  | S fuel' =>
    st :: match linebreak_step width st with
          | Ret (Some st') => linebreak_trace fuel' width st'
          | _ => []
          end
  end.

(** All glyphs of the runs in logical order, and their number. *)
Definition all_glyphs (runs : list ShapedRun) : list ShapedGlyph :=
  concat (fGlyphs <$> runs).

Definition glyph_count (runs : list ShapedRun) : nat := length (all_glyphs runs).

(** Turns that the loop can need: see [linebreak_loop_terminates]. *)
Definition linebreak_fuel (runs : list ShapedRun) : nat :=
  S (S (glyph_count runs) * S (glyph_count runs)).

Definition linebreak (runs : list ShapedRun) (width : SkScalar)
  : outcome (list ShapedRun) :=
  st ← linebreak_loop (linebreak_fuel runs) width (linebreak_init runs);
  Ret (lb_runs st).
(** ** [append] *)

(** One slot of the buffer after [append]: glyph, position, and the
    cluster when the buffer has a cluster array. *)
Record Slot : Type := MkSlot {
  slot_glyph : Z;
  slot_position : SkPoint;
  slot_cluster : option Z
}.

(** One call of [append]: its arguments [runInfo], [run], [start], [end],
    the request made to the handler ([glyphCount], [utf8Bytes]), the slice
    of the input copied to [utf8text] when the buffer has one, and the
    slots written. *)
Record AppendCall : Type := MkCall {
  call_info : RunInfo;
  call_run : ShapedRun;
  call_start : Z;
  call_end : Z;
  call_glyphCount : Z;
  call_utf8Bytes : Z;
  call_utf8text : option (Z * Z);
  call_slots : list Slot
}.

Definition append_glyph_index (run : ShapedRun) (start end_ : Z) (i : nat) : Z :=
  if is_LTR (fLevel run) then start + Z.of_nat i else end_ - 1 - Z.of_nat i.

Definition append_body (buffer : Buffer) (run : ShapedRun) (start end_ : Z)
    (i : nat) (acc : list Slot * SkPoint) : outcome (list Slot * SkPoint) :=
  let '(slots, p) := acc in
  glyph ← indexZ (fGlyphs run) (append_glyph_index run start end_ i);
  let slot := {| slot_glyph := fID glyph;
                 slot_position := MkPoint (scalar_add (fX p) (fX (fOffset glyph)))
                                          (scalar_sub (fY p) (fY (fOffset glyph)));
                 slot_cluster := if has_clusters buffer then Some (fCluster glyph)
                                 else None |} in
  Ret (slots ++ [slot],
       MkPoint (scalar_add (fX p) (fX (fAdvance glyph)))
               (scalar_add (fY p) (fY (fAdvance glyph)))).

Definition append (env : Env) (runInfo : RunInfo) (run : ShapedRun) (start end_ : Z)
    (p : SkPoint) : outcome (AppendCall * SkPoint) :=
  let len := (end_ - start) mod 2 ^ 32 in
  let utf8Bytes := fUtf8End run - fUtf8Start run in
  let buffer := newRunBuffer env runInfo (fFont run) len utf8Bytes in
  '(slots, p') ← for_loop (Z.to_nat len) 0 (append_body buffer run start end_) ([], p);
  Ret ({| call_info := runInfo; call_run := run; call_start := start;
          call_end := end_; call_glyphCount := len; call_utf8Bytes := utf8Bytes;
          call_utf8text := if has_utf8text buffer
                           then Some (fUtf8Start run, fUtf8End run) else None;
          call_slots := slots |}, p').

(** ** The reorder-and-emit pass (third block of [SkShaper::shape]) *)

(** A line as it is written out: [previousBreak] and the iterator of its
    last glyph ([runIndex], [glyphIndex]) when the line is complete, the
    pen when its first run is appended, and the calls of [append] in the
    order they are made. *)
Record EmittedLine : Type := MkLine {
  line_first : ShapedRunGlyphIterator;
  line_last : ShapedRunGlyphIterator;
  line_pen : SkPoint;
  line_calls : list AppendCall
}.

Record EmitState : Type := MkEmit {
  em_previousBreak : ShapedRunGlyphIterator;
  em_glyphIterator : ShapedRunGlyphIterator;
  maxAscent : SkScalar;
  maxDescent : SkScalar;
  maxLeading : SkScalar;
  previousRunIndex : Z;
  lineIndex : Z;
  currentPoint : SkPoint;
  em_lines : list EmittedLine
}.

Definition emit_init (point : SkPoint) : EmitState :=
  {| em_previousBreak := iter_start; em_glyphIterator := iter_start;
     maxAscent := scalar_zero; maxDescent := scalar_zero; maxLeading := scalar_zero;
     previousRunIndex := -1; lineIndex := 0; currentPoint := point; em_lines := [] |}.

(** [runLevels[i] = runs[previousBreak.fRunIndex + i].fLevel]. *)
Definition runLevels_body (runs : list ShapedRun) (first : nat) (i : nat) (acc : list Z)
  : outcome (list Z) :=
  run ← index runs (first + i);
  Ret (acc ++ [fLevel run]).

(** The body of the [for] loop that appends the runs of a line. *)
Definition emit_body (env : Env) (runs : list ShapedRun)
    (previousBreak : ShapedRunGlyphIterator) (runIndex glyphIndex : nat)
    (lineIndex : Z) (ascent descent leading : SkScalar) (logicalFromVisual : list Z)
    (i : nat) (acc : list AppendCall * SkPoint) : outcome (list AppendCall * SkPoint) :=
  let '(calls, p) := acc in
  lv ← index logicalFromVisual i;
  let logicalIndex := Z.of_nat (fRunIndex previousBreak) + lv in
  let startGlyphIndex :=
    if decide (logicalIndex = Z.of_nat (fRunIndex previousBreak))
    then Z.of_nat (fGlyphIndex previousBreak) else 0 in
  endGlyphIndex ←
    (if decide (logicalIndex = Z.of_nat runIndex) then Ret (Z.of_nat glyphIndex + 1)
     else run ← indexZ runs logicalIndex; Ret (Z.of_nat (fNumGlyphs run)));
  run ← indexZ runs logicalIndex;
  let info := {| info_lineIndex := lineIndex; info_advance := fRunAdvance run;
                 info_ascent := ascent; info_descent := descent;
                 info_leading := leading |} in
  '(call, p') ← append env info run startGlyphIndex endGlyphIndex p;
  Ret (calls ++ [call], p').

(** From [int numRuns = ...] to the end of the [for] loop. *)
Definition emit_line (env : Env) (runs : list ShapedRun)
    (previousBreak : ShapedRunGlyphIterator) (runIndex glyphIndex : nat)
    (lineIndex : Z) (ascent descent leading : SkScalar) (p : SkPoint)
  : outcome (list AppendCall * SkPoint) :=
  let numRuns := Z.of_nat runIndex - Z.of_nat (fRunIndex previousBreak) + 1 in
  runLevels ← for_loop (Z.to_nat numRuns) 0
                (runLevels_body runs (fRunIndex previousBreak)) [];
  let logicalFromVisual := ubidi_reorderVisual env runLevels in
  for_loop (Z.to_nat numRuns) 0
    (emit_body env runs previousBreak runIndex glyphIndex lineIndex ascent descent
       leading logicalFromVisual) ([], p).

(** One turn of the [while (glyphIterator.current())] loop; [None] when the
    loop exits. *)
Definition emit_step (env : Env) (point : SkPoint) (runs : list ShapedRun)
    (st : EmitState) : outcome (option EmitState) :=
  match current runs (em_glyphIterator st) with
  | None => Ret None
  | Some _ =>
    let runIndex := fRunIndex (em_glyphIterator st) in
    let glyphIndex := fGlyphIndex (em_glyphIterator st) in
    '(it, nextGlyph) ← next runs (em_glyphIterator st);
    '(ascent, descent, leading) ←
      (if decide (previousRunIndex st ≠ Z.of_nat runIndex) then
         run ← index runs runIndex;
         let metrics := getMetrics env (fFont run) in
         Ret (SkTMin (maxAscent st) (fAscent metrics),
              SkTMax (maxDescent st) (fDescent metrics),
              SkTMax (maxLeading st) (fLeading metrics))
       else Ret (maxAscent st, maxDescent st, maxLeading st));
    lineEnds ← match nextGlyph with
               | None => Ret true
               | Some ptr => glyph ← deref runs ptr; Ret (fMustLineBreakBefore glyph)
               end;
    if negb lineEnds then
      Ret (Some {| em_previousBreak := em_previousBreak st; em_glyphIterator := it;
                   maxAscent := ascent; maxDescent := descent; maxLeading := leading;
                   previousRunIndex := Z.of_nat runIndex; lineIndex := lineIndex st;
                   currentPoint := currentPoint st; em_lines := em_lines st |})
    else
      let pen := MkPoint (fX (currentPoint st))
                         (scalar_sub (fY (currentPoint st)) ascent) in
      '(calls, p) ← emit_line env runs (em_previousBreak st) runIndex glyphIndex
                      (lineIndex st) ascent descent leading pen;
      Ret (Some {| em_previousBreak := it; em_glyphIterator := it;
                   maxAscent := scalar_zero; maxDescent := scalar_zero;
                   maxLeading := scalar_zero;
                   previousRunIndex := -1; lineIndex := lineIndex st + 1;
                   currentPoint :=
                     MkPoint (fX point)
                             (scalar_add (fY p) (scalar_add descent leading));
                   em_lines := em_lines st ++
                               [MkLine (em_previousBreak st)
                                  (MkIter runIndex glyphIndex) pen calls] |})
  end.

Fixpoint emit_loop (fuel : nat) (env : Env) (point : SkPoint) (runs : list ShapedRun)
    (st : EmitState) : outcome EmitState :=
  match fuel with
  | O => Timeout
  | S fuel' =>
    st' ← emit_step env point runs st;
    match st' with
    | None => Ret st
    | Some st'' => emit_loop fuel' env point runs st''
    end
  end.

(** Every turn moves the iterator one glyph on: [glyph_count runs] turns
    and the exit test. *)
Definition emit (env : Env) (point : SkPoint) (runs : list ShapedRun)
  : outcome (SkPoint * list EmittedLine) :=
  st ← emit_loop (S (glyph_count runs)) env point runs (emit_init point);
  Ret (currentPoint st, em_lines st).

(** ** [SkShaper::shape] *)

(** The result is the returned point and the lines written to the handler. *)
Definition shape (env : Env) (impl : Impl) (srcFont : SkFont) (utf8 : list Z)
    (leftToRight : bool) (point : SkPoint) (width : SkScalar)
  : outcome (SkPoint * list EmittedLine) :=
  r ← segment_and_shape env impl srcFont utf8 leftToRight;
  match r with
  | inl _ => Ret (point, [])
  | inr runs =>
    runs' ← linebreak runs width;
    emit env point runs'
  end.

(** ** Vocabulary of the statements *)

(** The place of an iterator in the sequence of all glyphs. *)
Definition position (runs : list ShapedRun) (it : ShapedRunGlyphIterator) : nat :=
  (glyph_count (take (fRunIndex it) runs) + fGlyphIndex it)%nat.

(** An iterator points at a glyph, or is the one [next] leaves after the
    last glyph. *)
Definition valid_iterator (runs : list ShapedRun) (it : ShapedRunGlyphIterator) : Prop :=
  (exists run, runs !! fRunIndex it = Some run /\ (fGlyphIndex it < fNumGlyphs run)%nat)
  \/ (fRunIndex it = length runs /\ fGlyphIndex it = 0%nat).

(** What the first block guarantees of the runs it stores. *)
Definition wf_run (run : ShapedRun) : Prop :=
  (1 <= fNumGlyphs run)%nat /\ Z.of_nat (fNumGlyphs run) <= 2 ^ 31 - 1.

Definition wf_runs (runs : list ShapedRun) : Prop := Forall wf_run runs.

Definition advance_x (g : ShapedGlyph) : SkScalar := fX (fAdvance g).

(** The value of [widthSoFar] when the glyphs [gs] have been accepted one
    after the other from a reset: the binary32 sum of their x-advances,
    taken from 0 in this order. *)
Definition sum_x (gs : list ShapedGlyph) : SkScalar :=
  foldl (fun w g => scalar_add w (advance_x g)) scalar_zero gs.

(** The pen after the glyphs [gs] have been written one after the other:
    the advance of each is added to it, in this order. *)
Definition pen_after (p : SkPoint) (gs : list ShapedGlyph) : SkPoint :=
  foldl add_advance p gs.

(** The advance of glyphs together, as the first block adds it up for a
    run: from (0, 0), the advance of each glyph in the order stored. *)
Definition advance_sum (gs : list ShapedGlyph) : SkPoint :=
  pen_after (MkPoint scalar_zero scalar_zero) gs.

(** The glyphs [start, end) of a run in the order they are written: as
    stored for a run left to right, reversed for a run right to left. *)
Definition visual_range (run : ShapedRun) (start end_ : Z) : list ShapedGlyph :=
  let range := take (Z.to_nat (end_ - start)) (drop (Z.to_nat start) (fGlyphs run)) in
  if is_LTR (fLevel run) then range else reverse range.

(** The glyphs [start, end) of the run of a call, and of all calls of a line. *)
Definition call_glyphs (c : AppendCall) : list ShapedGlyph :=
  take (Z.to_nat (call_end c - call_start c))
       (drop (Z.to_nat (call_start c)) (fGlyphs (call_run c))).

Definition line_glyphs (l : EmittedLine) : list ShapedGlyph :=
  concat (call_glyphs <$> line_calls l).

(** The glyphs of a call and of a line in the order [append] writes them. *)
Definition call_written (c : AppendCall) : list ShapedGlyph :=
  visual_range (call_run c) (call_start c) (call_end c).

Definition line_written (l : EmittedLine) : list ShapedGlyph :=
  concat (call_written <$> line_calls l).

(** The glyphs of a line in logical order, from [line_first] to [line_last]. *)
Definition line_logical (runs : list ShapedRun) (l : EmittedLine) : list ShapedGlyph :=
  take (S (position runs (line_last l)) - position runs (line_first l))
       (drop (position runs (line_first l)) (all_glyphs runs)).

(** The runs with every [fMustLineBreakBefore] set: what the line-break
    pass leaves as it is. *)
Definition skeleton (runs : list ShapedRun) : list ShapedRun :=
  (fun run => with_glyphs run (set_must <$> fGlyphs run)) <$> runs.

(** [fMustLineBreakBefore] of the glyph at a place of the sequence. *)
Definition must_at (runs : list ShapedRun) (q : nat) : bool :=
  match all_glyphs runs !! q with
  | Some g => fMustLineBreakBefore g
  | None => false
  end.

(** The binary32 sum of the x-advances of the glyphs at the places
    [a, b), taken from 0 in logical order. *)
Definition seg_x (gs : list ShapedGlyph) (a b : nat) : SkScalar :=
  sum_x (take (b - a) (drop a gs)).

(** The places [a, b) are a line of the marks: [a] is the first glyph or
    a marked one, [b] the next marked glyph or the end. *)
Definition is_seg (runs : list ShapedRun) (a b : nat) : Prop :=
  (a < b)%nat /\ (a = 0%nat \/ must_at runs a = true) /\
  (b = glyph_count runs \/ must_at runs b = true) /\
  (forall q, (a < q < b)%nat -> must_at runs q = false).

(** A line fits: its sum is less than the width; or it is an emergency
    line: the glyphs before its last one sum to a value equal to 0 and
    with the last one the sum is not less than the width. *)
Definition line_ok (gs : list ShapedGlyph) (width : SkScalar) (a b : nat) : Prop :=
  scalar_lt (seg_x gs a b) width = true \/
  ((a < b)%nat /\ scalar_eq (seg_x gs a (b - 1)) scalar_zero = true /\
   scalar_lt (seg_x gs a b) width = false).

Definition no_must (runs : list ShapedRun) : Prop :=
  Forall (fun g => fMustLineBreakBefore g = false) (all_glyphs runs).

(** The places where the line-break pass starts a line: the iterator at
    the head of the loop whenever [canAddBreakNow] is false, which is at
    the start and after every break. *)
Definition line_starts (runs : list ShapedRun) (trace : list LineBreakState) : list nat :=
  (fun st => position runs (glyphIterator st)) <$>
    filter (fun st => canAddBreakNow st = false) trace.

(** The levels [runLevels] of the runs of a line from [first] to [last]. *)
Definition line_levels (runs : list ShapedRun) (first last : ShapedRunGlyphIterator)
  : list Z :=
  fLevel <$> take (fRunIndex last - fRunIndex first + 1) (drop (fRunIndex first) runs).

(** The spec's words for the [i]-th run handed to the handler on line [j],
    which goes from [first] to [last]: the logical run index is
    [first.run_index + logicalFromVisual[i]], the glyph range starts at
    the break glyph in the first run and at 0 elsewhere, and ends after
    the last glyph of the line in the last run and with the run elsewhere. *)
Definition call_of_line (env : Env) (runs : list ShapedRun)
    (first last : ShapedRunGlyphIterator) (j : Z) (i : nat) (c : AppendCall) : Prop :=
  exists lv, ubidi_reorderVisual env (line_levels runs first last) !! i = Some lv /\
    0 <= Z.of_nat (fRunIndex first) + lv /\
    runs !! Z.to_nat (Z.of_nat (fRunIndex first) + lv) = Some (call_run c) /\
    call_start c =
      (if decide (Z.of_nat (fRunIndex first) + lv = Z.of_nat (fRunIndex first))
       then Z.of_nat (fGlyphIndex first) else 0) /\
    call_end c =
      (if decide (Z.of_nat (fRunIndex first) + lv = Z.of_nat (fRunIndex last))
       then Z.of_nat (fGlyphIndex last) + 1
       else Z.of_nat (fNumGlyphs (call_run c))) /\
    info_lineIndex (call_info c) = j /\
    info_advance (call_info c) = fRunAdvance (call_run c).

(** The metrics of a line as its calls carry them in [RunInfo]. *)
Definition line_ascent (l : EmittedLine) : SkScalar :=
  match line_calls l with c :: _ => info_ascent (call_info c) | [] => scalar_zero end.
Definition line_descent (l : EmittedLine) : SkScalar :=
  match line_calls l with c :: _ => info_descent (call_info c) | [] => scalar_zero end.
Definition line_leading (l : EmittedLine) : SkScalar :=
  match line_calls l with c :: _ => info_leading (call_info c) | [] => scalar_zero end.

(** The pen where a line starts, when the current point is [cur]: the
    baseline is the y of the current point less the ascent of the line. *)
Definition baseline_pen (cur : SkPoint) (l : EmittedLine) : SkPoint :=
  MkPoint (fX cur) (scalar_sub (fY cur) (line_ascent l)).

(** The current point after a line, as the loop computes it in binary32:
    from the baseline the pen is moved by the advance of each glyph in
    the order written, then the sum of descent and leading is added to
    its y, and its x is that of the point given to [shape]. *)
Definition point_after_line (point cur : SkPoint) (l : EmittedLine) : SkPoint :=
  let p := pen_after (baseline_pen cur l) (line_written l) in
  MkPoint (fX point) (scalar_add (fY p) (scalar_add (line_descent l) (line_leading l))).

Definition point_after_lines (point : SkPoint) (lines : list EmittedLine) : SkPoint :=
  foldl (point_after_line point) point lines.

(** A zero of either sign; two scalars are the same value when they are
    equal or both a zero. *)
Definition is_zero (x : SkScalar) : Prop := exists s, x = S754_zero s.

Definition same_value (x y : SkScalar) : Prop := x = y \/ (is_zero x /\ is_zero y).

(** The spec's words for the current point after a line: its y is
    decreased by the ascent of the line and then increased by the sum of
    its descent and its leading, and its x is that of the origin. *)
Definition spec_point_after_line (point cur : SkPoint) (l : EmittedLine) : SkPoint :=
  MkPoint (fX point)
          (scalar_add (scalar_sub (fY cur) (line_ascent l))
                      (scalar_add (line_descent l) (line_leading l))).

Definition spec_point_after_lines (point : SkPoint) (lines : list EmittedLine) : SkPoint :=
  foldl (spec_point_after_line point) point lines.

(** No glyph written on the lines moves the pen in y. *)
Definition no_y_advance (lines : list EmittedLine) : Prop :=
  Forall (fun l => Forall (fun g => is_zero (fY (fAdvance g))) (line_written l)) lines.

(** [ubidi_reorderVisual] writes a permutation of the indices of the
    levels it is given. *)
Definition reorder_permutes (env : Env) : Prop :=
  forall levels, ubidi_reorderVisual env levels ≡ₚ seqZ 0 (Z.of_nat (length levels)).

(** [SkUTF::NextUTF8] moves the pointer forward and not past [end]. *)
Definition decoder_advances (env : Env) (utf8 : list Z) : Prop :=
  forall p e, p < e -> p < (NextUTF8 env utf8 p e).2 <= e.

(** The byte offsets that decoding from the start of the input reaches,
    each with the number of UTF-16 units before it. *)
Inductive decodes (env : Env) (utf8 : list Z) : Z -> Z -> Prop :=
  | decodes_start : decodes env utf8 0 0
  | decodes_next (p q : Z) :
      decodes env utf8 p q -> p < Z.of_nat (length utf8) ->
      decodes env utf8 (utf8_next env utf8 p (Z.of_nat (length utf8))).2
        (q + ToUTF16 (utf8_next env utf8 p (Z.of_nat (length utf8))).1).

(** The code point that starts at an offset. *)
Definition code_point_at (env : Env) (utf8 : list Z) (p : Z) : Z :=
  (utf8_next env utf8 p (Z.of_nat (length utf8))).1.

(** ICU reports the length of the text in UTF-16: the first call of
    [u_strFromUTF8] writes it, and it is not negative. *)
Definition length_reported (env : Env) (utf8 : list Z) : Prop :=
  exists n, u_strFromUTF8_length env utf8 = Some n /\ 0 <= n.

(** The length that ICU reports for the paragraph is the number of UTF-16
    units of the input as [utf8_next] decodes it. *)
Definition bidi_consistent (env : Env) (utf8 : list Z) : Prop :=
  forall level bidi, ubidi_setPara env utf8 level = Some bidi ->
    forall p q, decodes env utf8 p q ->
      (q = ubidi_getLength bidi <-> p = Z.of_nat (length utf8)).

(** [ubrk_next] reports a boundary after the current one, or [UBRK_DONE]. *)
Definition ubrk_advances (env : Env) (utf8 : list Z) : Prop :=
  forall position,
    ubrk_next env utf8 position = UBRK_DONE \/ position < ubrk_next env utf8 position.

(** The font manager finds a typeface for every code point. *)
Definition fallback_never_null (env : Env) : Prop :=
  forall tf u, matchFamilyStyleCharacter env tf u <> None.

(** The text never brings the font iterator to use a null typeface:
    where the primary typeface lacks a code point of the text and the
    font manager finds no typeface for it, the text ends after that code
    point or the primary typeface has a glyph for the next one. *)
Definition no_null_typeface (env : Env) (utf8 : list Z) (primary : SkTypeface) : Prop :=
  forall p q, decodes env utf8 p q -> p < Z.of_nat (length utf8) ->
    charsToGlyphs env primary (code_point_at env utf8 p) = false ->
    matchFamilyStyleCharacter env primary (code_point_at env utf8 p) = None ->
    (utf8_next env utf8 p (Z.of_nat (length utf8))).2 < Z.of_nat (length utf8) ->
    charsToGlyphs env primary
      (code_point_at env utf8 (utf8_next env utf8 p (Z.of_nat (length utf8))).2) = true.

(** A typeface has a glyph for every code point of the text. *)
Definition covers_text (env : Env) (utf8 : list Z) (tf : SkTypeface) : Prop :=
  forall p q, decodes env utf8 p q -> p < Z.of_nat (length utf8) ->
    charsToGlyphs env tf (code_point_at env utf8 p) = true.

(** HarfBuzz, given items whose clusters do not decrease, gives glyphs with
    clusters of the items, which do not decrease in the direction of the
    text: left to right they rise, right to left they fall. *)
Definition shaper_keeps_clusters (env : Env) : Prop :=
  forall hbFont buffer,
    StronglySorted Z.le (snd <$> buf_items buffer) ->
    Forall (fun g => cluster g ∈ (snd <$> buf_items buffer)) (hb_shape env hbFont buffer) /\
    StronglySorted
      (if decide (buf_direction buffer = HB_DIRECTION_RTL) then flip Z.le else Z.le)
      (cluster <$> hb_shape env hbFont buffer).

(** The clusters of a run are offsets into the bytes of the run, and do
    not decrease. *)
Definition clusters_in_run (run : ShapedRun) : Prop :=
  Forall (fun g => 0 <= fCluster g < fUtf8End run - fUtf8Start run) (fGlyphs run) /\
  StronglySorted Z.le (fCluster <$> fGlyphs run).

(** ** Stand-ins for the collaborators

    Concrete collaborators on which the model can be run: a UTF-8
    decoder, scripts and levels by code point, a font that maps every
    code point to one glyph, line breaks at given offsets, and the
    reordering rule of the Unicode bidirectional algorithm. *)

Definition byte_at (utf8 : list Z) (p : Z) : Z := default 0 (utf8 !! Z.to_nat p).

(** Decodes one well-formed sequence of one to four bytes; as
    [SkUTF::NextUTF8] does, it gives a negative value and moves the
    pointer to [end] otherwise. *)
Definition demo_NextUTF8 (utf8 : list Z) (ptr end_ : Z) : Z * Z :=
  if (ptr <? 0) || (end_ <=? ptr) then (-1, end_)
  else
    let c := byte_at utf8 ptr in
    let b1 := byte_at utf8 (ptr + 1) - 0x80 in
    let b2 := byte_at utf8 (ptr + 2) - 0x80 in
    let b3 := byte_at utf8 (ptr + 3) - 0x80 in
    if c <? 0x80 then (c, ptr + 1)
    else if (0xC2 <=? c) && (c <? 0xE0) && (ptr + 2 <=? end_)
      then ((c - 0xC0) * 64 + b1, ptr + 2)
    else if (0xE0 <=? c) && (c <? 0xF0) && (ptr + 3 <=? end_)
      then ((c - 0xE0) * 4096 + b1 * 64 + b2, ptr + 3)
    else if (0xF0 <=? c) && (c <? 0xF5) && (ptr + 4 <=? end_)
      then ((c - 0xF0) * 262144 + b1 * 4096 + b2 * 64 + b3, ptr + 4)
    else (-1, end_).

(** The code points of the input, U+FFFD for what does not decode. *)
Fixpoint demo_codepoints (utf8 : list Z) (fuel : nat) (ptr : Z) : list Z :=
  match fuel with
  | O => []
  | S fuel' =>
    if ptr <? Z.of_nat (length utf8) then
      let '(val, ptr') := demo_NextUTF8 utf8 ptr (Z.of_nat (length utf8)) in
      (if val <? 0 then 0xFFFD else val) :: demo_codepoints utf8 fuel' ptr'
    else []
  end.

(** The input is well-formed: every sequence decodes. *)
Fixpoint demo_well_formed (utf8 : list Z) (fuel : nat) (ptr : Z) : bool :=
  match fuel with
  | O => true
  | S fuel' =>
    if ptr <? Z.of_nat (length utf8) then
      let '(val, ptr') := demo_NextUTF8 utf8 ptr (Z.of_nat (length utf8)) in
      (0 <=? val) && demo_well_formed utf8 fuel' ptr'
    else true
  end.

(** One entry per UTF-16 unit: the code point the unit belongs to. *)
Definition demo_utf16 (utf8 : list Z) : list Z :=
  u ← demo_codepoints utf8 (length utf8) 0;
  replicate (Z.to_nat (ToUTF16 u)) u.

Definition is_hebrew (u : Z) : bool := (0x590 <=? u) && (u <? 0x600).

(** Level 1 for Hebrew letters, level 0 for the rest. *)
Definition demo_setPara (utf8 : list Z) (level : Z) : option UBiDi :=
  Some {| ubidi_getLength := Z.of_nat (length (demo_utf16 utf8));
          ubidi_getLevelAt := fun i =>
            if is_hebrew (default 0 (demo_utf16 utf8 !! Z.to_nat i)) then 1 else 0 |}.

(** Latin letters, Greek, Hebrew, combining marks (inherited), and common. *)
Definition demo_script (u : Z) : hb_script_t :=
  if ((0x41 <=? u) && (u <? 0x5B)) || ((0x61 <=? u) && (u <? 0x7B)) then 0x4C61746E
  else if (0x370 <=? u) && (u <? 0x400) then 0x4772656B
  else if is_hebrew u then 0x48656272
  else if (0x300 <=? u) && (u <? 0x370) then HB_SCRIPT_INHERITED
  else HB_SCRIPT_COMMON.

(** Rule L2: reverses, in the index map [m], every maximal run of
    positions whose level is at least [lv]; [acc] holds the run that is
    open, reversed. *)
Fixpoint reverse_runs (lv : Z) (levels m acc : list Z) : list Z :=
  match levels, m with
  | l :: ls, x :: xs =>
    if lv <=? l then reverse_runs lv ls xs (x :: acc)
    else acc ++ x :: reverse_runs lv ls xs []
  | _, _ => acc ++ m
  end.

Fixpoint reorder_down (n : nat) (lv minLevel : Z) (levels m : list Z) : list Z :=
  match n with
  | O => m
  | S n' =>
    if lv <? minLevel then m
    else reorder_down n' (lv - 1) minLevel levels (reverse_runs lv levels m [])
  end.

(** From the highest level down to the lowest odd level. *)
Definition demo_reorderVisual (levels : list Z) : list Z :=
  let maxLevel := foldr Z.max 0 levels in
  let minLevel := Z.lor (foldr Z.min maxLevel levels) 1 in
  reorder_down (Z.to_nat maxLevel + 1) maxLevel minLevel levels
    (seqZ 0 (Z.of_nat (length levels))).

(** The first of the break offsets after a position. *)
Fixpoint demo_ubrk_next (breaks : list Z) (position : Z) : Z :=
  match breaks with
  | [] => UBRK_DONE
  | b :: rest => if position <? b then b else demo_ubrk_next rest position
  end.

(** What varies between the stand-ins: the advance of the glyph of a code
    point in font units, the code points a typeface has glyphs for, the
    typeface the font manager finds for a code point, the break offsets,
    and whether the second call of the conversion to UTF-16 succeeds. The
    first call writes the length when the input is well-formed, as that
    of ICU does. *)
Record Demo : Type := MkDemo {
  demo_advance : Z -> Z;
  demo_covers : SkTypeface -> Z -> bool;
  demo_fallback : Z -> option SkTypeface;
  demo_breaks : list Z;
  demo_utf16_ok : bool
}.

(** One glyph per code point, with the code point as glyph id and the
    cluster of the item, no offset and no advance in y; in visual order,
    as HarfBuzz leaves them. *)
Definition demo_shape (d : Demo) (hbFont : hb_font_t) (buffer : hb_buffer) : list hb_glyph :=
  let glyphs := (fun item : Z * Z =>
    {| codepoint := item.1; cluster := item.2; x_offset := 0; y_offset := 0;
       x_advance := demo_advance d item.1; y_advance := 0 |})
    <$> buf_items buffer in
  if decide (buf_direction buffer = HB_DIRECTION_RTL) then reverse glyphs else glyphs.

Definition demo_env (d : Demo) : Env :=
  {| NextUTF8 := demo_NextUTF8;
     u_strFromUTF8_length := fun utf8 =>
       if demo_well_formed utf8 (length utf8) 0
       then Some (Z.of_nat (length (demo_utf16 utf8))) else None;
     u_strFromUTF8 := fun _ _ => demo_utf16_ok d;
     ubidi_openSized := fun _ => true;
     ubidi_setPara := demo_setPara;
     ubidi_reorderVisual := demo_reorderVisual;
     utext_openUTF8 := fun _ => true;
     ubrk_setUText := fun _ => true;
     ubrk_next := fun _ position => demo_ubrk_next (demo_breaks d) position;
     hb_unicode_script := demo_script;
     charsToGlyphs := demo_covers d;
     matchFamilyStyleCharacter := fun _ u => demo_fallback d u;
     openStream := fun _ => true;
     hb_face_create := fun _ => true;
     hb_font_create := fun _ => true;
     hb_font_get_scale := fun _ => (1, 1);
     hb_shape := demo_shape d;
     getMetrics := fun _ => {| fAscent := int_to_float (-10); fDescent := int_to_float 3;
                               fLeading := int_to_float 1 |};
     newRunBuffer := fun _ _ _ _ => {| has_utf8text := true; has_clusters := true |} |}.

(** A shaper on typeface 1, and a font of typeface 1, size 1 and
    horizontal scale 1: with the scale 1 of the HarfBuzz font an advance
    in font units is the same number as a scalar. *)
Definition demo_impl : Impl := {| fHarfBuzzFont := Some 1; impl_fTypeface := 1 |}.
Definition demo_font : SkFont :=
  {| font_typeface := Some 1; font_size := int_to_float 1; font_scaleX := int_to_float 1 |}.

(** A point with whole coordinates. *)
Definition demo_point (x y : Z) : SkPoint := MkPoint (int_to_float x) (int_to_float y).

(** Every glyph ten wide, every code point covered, a break at the end of
    a three-byte input. *)
Definition demo_plain : Demo :=
  {| demo_advance := fun _ => 10;
     demo_covers := fun _ _ => true; demo_fallback := fun _ => Some 2;
     demo_breaks := [3]; demo_utf16_ok := true |}.

(** "a" and GREEK SMALL LETTER BETA. *)
Definition text_a_beta : list Z := [0x61; 0xCE; 0xB2].

(** ZERO WIDTH NO-BREAK SPACE (the byte order mark), which has no width,
    before a "W" ten wide. *)
Definition demo_bom : Demo :=
  {| demo_advance := fun u => if u =? 0xFEFF then 0 else 10;
     demo_covers := fun _ _ => true; demo_fallback := fun _ => Some 2;
     demo_breaks := [4]; demo_utf16_ok := true |}.
Definition text_bom_W : list Z := [0xEF; 0xBB; 0xBF; 0x57].

Definition text_ab : list Z := [0x61; 0x62].

(** A primary typeface with glyphs for ASCII only and a font manager that
    finds no typeface. *)
Definition demo_no_fallback : Demo :=
  {| demo_advance := fun _ => 10;
     demo_covers := fun _ u => u <? 0x80; demo_fallback := fun _ => None;
     demo_breaks := [3; 6]; demo_utf16_ok := true |}.
(** U+4E2D and U+6587. *)
Definition text_cjk : list Z := [0xE4; 0xB8; 0xAD; 0xE6; 0x96; 0x87].

(** "a", U+4E2D and "b": the font manager finds no typeface for the
    second code point, and the primary typeface has the third. *)
Definition text_a_cjk_b : list Z := [0x61; 0xE4; 0xB8; 0xAD; 0x62].

(** An ill-formed text, the byte FF alone. *)
Definition text_ill_formed : list Z := [0xFF].

(** A conversion to UTF-16 whose second call fails. *)
Definition demo_bad_utf16 : Demo :=
  {| demo_advance := fun _ => 10;
     demo_covers := fun _ _ => true; demo_fallback := fun _ => Some 2;
     demo_breaks := [3]; demo_utf16_ok := false |}.

(** Two Hebrew letters, ALEF and BET, the second in a fallback typeface:
    two runs right to left. *)
Definition demo_hebrew : Demo :=
  {| demo_advance := fun _ => 10;
     demo_covers := fun tf u => if decide (tf = 1) then negb (u =? 0x5D1) else true;
     demo_fallback := fun _ => Some 2;
     demo_breaks := [4]; demo_utf16_ok := true |}.
Definition text_alef_bet : list Z := [0xD7; 0x90; 0xD7; 0x91].

(** The runs that the first block stores for "a" and beta, and what the
    line-break pass makes of them at width 15. *)
Definition runs_a_beta : list ShapedRun :=
  Eval vm_compute in
    match segment_and_shape (demo_env demo_plain) demo_impl demo_font text_a_beta true with
    | Ret (inr runs) => runs
    | _ => []
    end.

Definition broken_a_beta : list ShapedRun :=
  Eval vm_compute in
    match linebreak runs_a_beta (int_to_float 15) with
    | Ret runs => runs
    | _ => []
    end.

Definition lines_a_beta : SkPoint * list EmittedLine :=
  Eval vm_compute in
    match emit (demo_env demo_plain) (demo_point 0 0) broken_a_beta with
    | Ret r => r
    | _ => (demo_point 0 0, [])
    end.

(** What [shape] gives for "a" and beta at width 15. *)
Definition shape_a_beta : SkPoint * list EmittedLine :=
  Eval vm_compute in
    match shape (demo_env demo_plain) demo_impl demo_font text_a_beta true
            (demo_point 0 0) (int_to_float 15) with
    | Ret r => r
    | _ => (demo_point 0 0, [])
    end.


(** The same for ALEF and BET at width 100: one line of two runs. *)
Definition runs_alef_bet : list ShapedRun :=
  Eval vm_compute in
    match segment_and_shape (demo_env demo_hebrew) demo_impl demo_font text_alef_bet
            true with
    | Ret (inr runs) => runs
    | _ => []
    end.

Definition broken_alef_bet : list ShapedRun :=
  Eval vm_compute in
    match linebreak runs_alef_bet (int_to_float 100) with
    | Ret runs => runs
    | _ => []
    end.

Definition lines_alef_bet : SkPoint * list EmittedLine :=
  Eval vm_compute in
    match emit (demo_env demo_hebrew) (demo_point 0 0) broken_alef_bet with
    | Ret r => r
    | _ => (demo_point 0 0, [])
    end.
(** ** Invariants of the loops *)

(** The invariant of the loop; [s] is the place where the line that is
    being filled starts. *)
Record lb_inv (runs0 : list ShapedRun) (width : SkScalar) (st : LineBreakState) (s : nat)
  : Prop := MkLbInv {
  inv_skel : skeleton (lb_runs st) = skeleton runs0;
  inv_valid : valid_iterator runs0 (glyphIterator st);
  inv_le : (s <= position runs0 (glyphIterator st))%nat;
  inv_width :
    widthSoFar st = seg_x (all_glyphs runs0) s (position runs0 (glyphIterator st));
  inv_can_f : canAddBreakNow st = false -> position runs0 (glyphIterator st) = s;
  inv_can_t : canAddBreakNow st = true -> (s < position runs0 (glyphIterator st))%nat;
  inv_prev :
    previousBreakValid st = true ->
    valid_iterator runs0 (previousBreak st) /\
    (s < position runs0 (previousBreak st) <= position runs0 (glyphIterator st))%nat;
  inv_prefix :
    forall q, (s < q <= position runs0 (glyphIterator st))%nat ->
              scalar_lt (seg_x (all_glyphs runs0) s q) width = true;
  inv_start :
    no_must runs0 -> s = 0%nat \/ s = glyph_count runs0 \/ must_at (lb_runs st) s = true;
  inv_beyond : no_must runs0 -> forall q, (s < q)%nat -> must_at (lb_runs st) q = false;
  inv_zero : no_must runs0 -> must_at (lb_runs st) 0 = false;
  inv_lines :
    no_must runs0 ->
    forall a b, (b <= s)%nat -> is_seg (lb_runs st) a b ->
                line_ok (all_glyphs runs0) width a b
}.

(** An iterator that points at a glyph. *)
Definition at_glyph (runs : list ShapedRun) (it : ShapedRunGlyphIterator) : Prop :=
  exists run, runs !! fRunIndex it = Some run /\ (fGlyphIndex it < fNumGlyphs run)%nat.

Definition iter_le (a b : ShapedRunGlyphIterator) : Prop :=
  (fRunIndex a <= fRunIndex b)%nat /\
  (fRunIndex a = fRunIndex b -> (fGlyphIndex a <= fGlyphIndex b)%nat).

(** What holds of one call of a line. *)
Definition call_ok (env : Env) (runs : list ShapedRun)
    (first last : ShapedRunGlyphIterator) (j : Z) (ascent descent leading : SkScalar)
    (i : nat) (c : AppendCall) : Prop :=
  call_of_line env runs first last j i c /\
  info_ascent (call_info c) = ascent /\ info_descent (call_info c) = descent /\
  info_leading (call_info c) = leading /\
  call_glyphCount c = call_end c - call_start c /\ 1 <= call_glyphCount c /\
  0 <= call_start c /\ call_end c <= Z.of_nat (fNumGlyphs (call_run c)) /\
  forall k slot, call_slots c !! k = Some slot ->
    exists glyph,
      indexZ (fGlyphs (call_run c))
        (append_glyph_index (call_run c) (call_start c) (call_end c) k) = Ret glyph /\
      slot_glyph slot = fID glyph /\
      (slot_cluster slot = Some (fCluster glyph) \/ slot_cluster slot = None).

(** Where line [j] starts: at the first glyph, or after the last glyph of
    the line before. *)
Definition line_start_of (runs : list ShapedRun) (lines : list EmittedLine) (j : nat) : nat :=
  match j with
  | O => 0%nat
  | S j' => match lines !! j' with
            | Some l' => S (position runs (line_last l'))
            | None => 0%nat
            end
  end.

(** What holds of line [j] of the lines written. *)
Record line_spec (env : Env) (point : SkPoint) (runs : list ShapedRun)
    (lines : list EmittedLine) (j : nat) (l : EmittedLine) : Prop := MkLineSpec {
  lo_first : at_glyph runs (line_first l);
  lo_last : at_glyph runs (line_last l);
  lo_le : iter_le (line_first l) (line_last l);
  lo_pos : (position runs (line_first l) <= position runs (line_last l))%nat;
  lo_seg : is_seg runs (position runs (line_first l)) (S (position runs (line_last l)));
  lo_count :
    length (line_calls l) =
      (fRunIndex (line_last l) - fRunIndex (line_first l) + 1)%nat;
  lo_calls :
    forall i c, line_calls l !! i = Some c ->
      call_ok env runs (line_first l) (line_last l) (Z.of_nat j)
        (line_ascent l) (line_descent l) (line_leading l) i c;
  lo_start : position runs (line_first l) = line_start_of runs lines j;
  lo_pen : line_pen l = baseline_pen (point_after_lines point (take j lines)) l
}.

(** The invariant of the loop of the reorder-and-emit pass. *)
Record em_inv (env : Env) (point : SkPoint) (runs : list ShapedRun) (st : EmitState)
  : Prop := MkEmInv {
  ei_valid_it : valid_iterator runs (em_glyphIterator st);
  ei_valid_pb : valid_iterator runs (em_previousBreak st);
  ei_le : iter_le (em_previousBreak st) (em_glyphIterator st);
  ei_pos :
    (position runs (em_previousBreak st) <= position runs (em_glyphIterator st))%nat;
  ei_end :
    position runs (em_glyphIterator st) = glyph_count runs ->
    position runs (em_previousBreak st) = glyph_count runs;
  ei_start :
    position runs (em_previousBreak st) = 0%nat \/
    position runs (em_previousBreak st) = glyph_count runs \/
    must_at runs (position runs (em_previousBreak st)) = true;
  ei_mid :
    forall q, (position runs (em_previousBreak st) < q
               <= position runs (em_glyphIterator st))%nat ->
              must_at runs q = false;
  ei_index : lineIndex st = Z.of_nat (length (em_lines st));
  ei_point : currentPoint st = point_after_lines point (em_lines st);
  ei_lines :
    forall j l, em_lines st !! j = Some l ->
                line_spec env point runs (em_lines st) j l;
  ei_chain :
    position runs (em_previousBreak st) =
      line_start_of runs (em_lines st) (length (em_lines st))
}.

(** The parts of the runs [rs] that a line takes when it starts at glyph
    [g0] of the first of them and ends at glyph [g] of the one at [d]. *)
Fixpoint pieces (rs : list ShapedRun) (d g0 g : nat) : list (list ShapedGlyph) :=
  match rs with
  | [] => []
  | run :: rs' =>
    match d with
    | O => [take (S g - g0) (drop g0 (fGlyphs run))]
    | S d' => drop g0 (fGlyphs run) :: pieces rs' d' 0 g
    end
  end.

(** The buffer that [shape_segment] hands to HarfBuzz for a segment. *)
Definition segment_buffer (utf8 : list Z) (utf8Start utf8Current : Z)
    (items : list (Z * Z)) (q : RunIteratorQueue) : hb_buffer :=
  {| buf_precontext := (0, utf8Start); buf_items := items;
     buf_postcontext := (utf8Current, Z.of_nat (length utf8));
     buf_script := ScriptRunIterator.currentScript (script q);
     buf_direction := if is_LTR (BiDiRunIterator.currentLevel (bidi q))
                      then HB_DIRECTION_LTR else HB_DIRECTION_RTL |}.

(** The glyphs of HarfBuzz in logical order. *)
Definition logical_glyphs (env : Env) (hbFont : hb_font_t) (buffer : hb_buffer)
  : list hb_glyph :=
  if decide (buf_direction buffer = HB_DIRECTION_RTL)
  then reverse (hb_shape env hbFont buffer) else hb_shape env hbFont buffer.

(** What holds of a run that [shape_segment] stores. *)
Definition stored_run (env : Env) (utf8 : list Z) (st : SegmentState)
    (q : RunIteratorQueue) (run : ShapedRun) : Prop :=
  exists utf8End items utf8Current hbFont,
    queue_endOfCurrentRun q = Ret utf8End /\
    buffer_items env utf8 (Z.to_nat (utf8End - seg_utf8End st)) (seg_utf8End st)
      utf8End (seg_utf8End st) = Ret (items, utf8Current) /\
    fUtf8Start run = seg_utf8End st /\ fUtf8End run = utf8End /\
    utf8End - seg_utf8End st <= 2 ^ 31 - 1 /\
    fLevel run = BiDiRunIterator.currentLevel (bidi q) /\
    wf_run run /\
    Forall (fun g => fMustLineBreakBefore g = false) (fGlyphs run) /\
    fCluster <$> fGlyphs run =
      cluster <$> logical_glyphs env hbFont
                    (segment_buffer utf8 (seg_utf8End st) utf8Current items q).

Definition all_refs : list RunIteratorRef := [BidiRef; ScriptRef; FontRef].

(** The invariant of the three iterators over an input, for the [UBiDi]
    of the paragraph. *)
Record iters_inv (env : Env) (utf8 : list Z) (bidi0 : UBiDi) (q : RunIteratorQueue)
  : Prop := MkItersInv {
  qi_bidi_all : BiDiRunIterator.fEndOfAllRuns (bidi q) = Z.of_nat (length utf8);
  qi_bidi_obj : BiDiRunIterator.fBidi (bidi q) = bidi0;
  qi_bidi_dec :
    decodes env utf8 (BiDiRunIterator.fEndOfCurrentRun (bidi q))
      (BiDiRunIterator.fUTF16LogicalPosition (bidi q));
  qi_bidi_le : BiDiRunIterator.fEndOfCurrentRun (bidi q) <= Z.of_nat (length utf8);
  qi_script_end : ScriptRunIterator.fEnd (script q) = Z.of_nat (length utf8);
  qi_script_le : ScriptRunIterator.fCurrent (script q) <= Z.of_nat (length utf8);
  qi_font_end : FontRunIterator.fEnd (font q) = Z.of_nat (length utf8);
  qi_font_le : FontRunIterator.fCurrent (font q) <= Z.of_nat (length utf8);
  qi_font_dec : exists u, decodes env utf8 (FontRunIterator.fCurrent (font q)) u
}.

(** The states of the queue that [advanceRuns] goes through from [q0]:
    each time, the iterator at the head of the queue, whose run ends
    before the end of the input, is popped, consumed and inserted again. *)
Inductive consumed_from (env : Env) (utf8 : list Z) (q0 : RunIteratorQueue)
  : RunIteratorQueue -> Prop :=
  | consumed_start : consumed_from env utf8 q0 q0
  | consumed_step (q q' : RunIteratorQueue) (r : RunIteratorRef) :
      consumed_from env utf8 q0 q -> peek q = Ret r ->
      ref_endOfCurrentRun q r < Z.of_nat (length utf8) ->
      ref_consume env utf8 (pop q) r = Ret q' ->
      consumed_from env utf8 q0 (insert q' r).

(** Every call of [consume] that the queue makes from [q0] on returns,
    with the end of the run of the iterator moved forward. *)
Definition consume_advances (env : Env) (utf8 : list Z) (q0 : RunIteratorQueue) : Prop :=
  forall q r, consumed_from env utf8 q0 q -> peek q = Ret r ->
    ref_endOfCurrentRun q r < Z.of_nat (length utf8) ->
    exists q', ref_consume env utf8 (pop q) r = Ret q' /\
      ref_endOfCurrentRun q r < ref_endOfCurrentRun q' r.

(** The font iterator is at the head of the queue, before the end of the
    input, and its [consume] uses a null typeface. *)
Definition font_faults (env : Env) (utf8 : list Z) (q : RunIteratorQueue) : Prop :=
  peek q = Ret FontRef /\
  ref_endOfCurrentRun q FontRef < Z.of_nat (length utf8) /\
  FontRunIterator.consume env utf8 (font q) = Fault.

(** The queue is in ascending order and holds the three pointers. *)
Definition queue_ok (q : RunIteratorQueue) : Prop :=
  StronglySorted (fun a b => ref_endOfCurrentRun q a <= ref_endOfCurrentRun q b)
    (fRunIterators q) /\
  fRunIterators q ≡ₚ all_refs.

(** The pointers of a list whose run ends at or before [leastEnd]. *)
Definition behind (q : RunIteratorQueue) (leastEnd : Z) (l : list RunIteratorRef) : nat :=
  length (filter (fun r => ref_endOfCurrentRun q r <= leastEnd) l).


(** The states of the loop of the first block: [segment_steps k st st']
    when [k] turns of the loop, each of which stored or passed over a
    segment, lead from [st] to [st']. *)
Inductive segment_steps (env : Env) (srcFont : SkFont) (utf8 : list Z)
  : nat -> SegmentState -> SegmentState -> Prop :=
  | segment_steps_O (st : SegmentState) : segment_steps env srcFont utf8 0 st st
  | segment_steps_S (k : nat) (st st1 st' : SegmentState) (q : RunIteratorQueue) :
      advanceRuns env utf8 (runSegmenter st) = Ret (true, q) ->
      shape_segment env srcFont utf8 st q = Ret (inr st1) ->
      segment_steps env srcFont utf8 k st1 st' ->
      segment_steps env srcFont utf8 (S k) st st'.
(** ** Vocabulary for the iterators and for [append] *)

(** Decoding with [utf8_next] from the offset [p] with the end [e] gives
    the code points [us] and stops at the offset [q]. *)
Inductive decoded (env : Env) (utf8 : list Z) (e : Z) : Z -> list Z -> Z -> Prop :=
  | decoded_nil (p : Z) : decoded env utf8 e p [] p
  | decoded_cons (p q : Z) (us : list Z) :
      decoded env utf8 e (utf8_next env utf8 p e).2 us q ->
      decoded env utf8 e p ((utf8_next env utf8 p e).1 :: us) q.

(** The number of UTF-16 units of code points. *)
Definition utf16_length (us : list Z) : Z := foldr Z.add 0 (ToUTF16 <$> us).

(** A script that joins the script of the run it is in. *)
Definition joins (s : hb_script_t) : Prop :=
  s = HB_SCRIPT_INHERITED \/ s = HB_SCRIPT_COMMON.

(** The iterator behind a pointer is in the same state in two states of
    the queue, or has been consumed once from the one to the other. *)
Definition ref_same (q q' : RunIteratorQueue) (r : RunIteratorRef) : Prop :=
  match r with
  | BidiRef => bidi q' = bidi q
  | ScriptRef => script q' = script q
  | FontRef => font q' = font q
  end.

Definition ref_consumed (env : Env) (utf8 : list Z) (q q' : RunIteratorQueue)
    (r : RunIteratorRef) : Prop :=
  match r with
  | BidiRef => BiDiRunIterator.consume env utf8 (bidi q) = Ret (bidi q')
  | ScriptRef => ScriptRunIterator.consume env utf8 (script q) = Ret (script q')
  | FontRef => FontRunIterator.consume env utf8 (font q) = Ret (font q')
  end.

(** The states of the queue of [shape] after successful calls of
    [advanceRuns]. *)
Inductive advanced (env : Env) (utf8 : list Z) (q0 : RunIteratorQueue)
  : RunIteratorQueue -> Prop :=
  | advanced_start : advanced env utf8 q0 q0
  | advanced_step (q q' : RunIteratorQueue) :
      advanced env utf8 q0 q -> advanceRuns env utf8 q = Ret (true, q') ->
      advanced env utf8 q0 q'.

(** [n] calls of [next] on an iterator. *)
Fixpoint nexts (runs : list ShapedRun) (n : nat) (it : ShapedRunGlyphIterator)
  : outcome ShapedRunGlyphIterator :=
  match n with
  | O => Ret it
  | S n' => '(it', _) ← next runs it; nexts runs n' it'
  end.

(** The slots of glyphs set one after the other from the pen [p]: each at
    the pen moved by its offset, the y of the offset counted upwards, the
    pen moving by the advance of each glyph. *)
Fixpoint layout (clusters : bool) (p : SkPoint) (gs : list ShapedGlyph) : list Slot :=
  match gs with
  | [] => []
  | g :: gs' =>
    {| slot_glyph := fID g;
       slot_position := MkPoint (scalar_add (fX p) (fX (fOffset g)))
                                (scalar_sub (fY p) (fY (fOffset g)));
       slot_cluster := if clusters then Some (fCluster g) else None |}
    :: layout clusters (add_advance p g) gs'
  end.

(** A run of two glyphs that goes right to left, and a [RunInfo]. *)
Definition demo_glyph (id advance : Z) : ShapedGlyph :=
  {| fID := id; fCluster := 0; fOffset := demo_point 1 2;
     fAdvance := demo_point advance 0;
     fMayLineBreakBefore := false; fMustLineBreakBefore := false; fHasVisual := true |}.

Definition demo_run_rtl : ShapedRun :=
  {| fUtf8Start := 0; fUtf8End := 4; fFont := demo_font; fLevel := 1;
     fGlyphs := [demo_glyph 7 10; demo_glyph 8 20]; fRunAdvance := demo_point 30 0 |}.

Definition demo_info : RunInfo :=
  {| info_lineIndex := 0; info_advance := demo_point 30 0;
     info_ascent := int_to_float (-10); info_descent := int_to_float 3;
     info_leading := int_to_float 1 |}.

(** The byte ranges of the runs lie in the input up to [bound], none is
    empty, and each starts where the one before ends or later. *)
Definition ranges_ordered (runs : list ShapedRun) (bound : Z) : Prop :=
  Forall (fun r => 0 <= fUtf8Start r < fUtf8End r /\ fUtf8End r <= bound) runs /\
  StronglySorted (fun a b => fUtf8End a <= fUtf8Start b) runs.

(** An offset at which the break iterator can stand: the start of the
    text, or what [ubrk_next] has returned. *)
Definition is_boundary (env : Env) (utf8 : list Z) (b : Z) : Prop :=
  b = 0 \/ exists position, ubrk_next env utf8 position = b.

(** The glyphs of a run that can start a line have a cluster other than
    the glyph before, and the cluster is, as an offset into the input, one
    at which the break iterator can stand. *)
Definition breaks_at_boundaries (env : Env) (utf8 : list Z) (run : ShapedRun) : Prop :=
  forall i g, fGlyphs run !! i = Some g -> fMayLineBreakBefore g = true ->
    is_boundary env utf8 (to_int32 (fCluster g + fUtf8Start run)) /\
    forall j h, i = S j -> fGlyphs run !! j = Some h -> fCluster h <> fCluster g.

(** ** [SkShaper::SkShaper] and [SkShaper::good] *)

(** What the constructor asks of the platform: the default typeface
    ([SkTypeface::MakeDefault], which may be null), whether
    [hb_buffer_create] gives an object, and [ubrk_open]: [None] on
    [U_FAILURE], otherwise whether it gives an object. *)
Record Platform : Type := MkPlatform {
  MakeDefault : option SkTypeface;
  hb_buffer_create : bool;
  ubrk_open : option bool
}.

(** [SkShaper::Impl] with the members that [shape] takes for granted. *)
Record ShaperImpl : Type := MkShaperImpl {
  si_fHarfBuzzFont : option hb_font_t;
  si_fBuffer : bool;
  si_fTypeface : option SkTypeface;
  si_fBreakIterator : bool
}.

(** The constructor; [None] is [SK_ABORT]. [SkASSERT(fImpl->fBuffer)] is
    compiled out of a release build, as are the assertions of
    [create_hb_font]. *)
Definition SkShaper_new (env : Env) (platform : Platform) (tf : option SkTypeface)
  : option ShaperImpl :=
  let typeface := match tf with Some t => Some t | None => MakeDefault platform end in
  let hbFont := create_hb_font env typeface in
  let buffer := hb_buffer_create platform in
  match ubrk_open platform with
  | None => None
  | Some breakIterator =>
    Some {| si_fHarfBuzzFont := hbFont; si_fBuffer := buffer;
            si_fTypeface := typeface; si_fBreakIterator := breakIterator |}
  end.

Definition good (s : ShaperImpl) : bool :=
  bool_decide (si_fHarfBuzzFont s ≠ None) && si_fBuffer s
  && bool_decide (si_fTypeface s ≠ None) && si_fBreakIterator s.

(** The members that [shape] reads, for a shaper with a typeface. *)
Definition impl_of (s : ShaperImpl) : option Impl :=
  match si_fTypeface s with
  | Some tf => Some {| fHarfBuzzFont := si_fHarfBuzzFont s; impl_fTypeface := tf |}
  | None => None
  end.

(** ** The metrics of a line *)

(** The runs from that of the first glyph of a line to that of its last. *)
Definition line_runs (runs : list ShapedRun) (first last : nat) : list ShapedRun :=
  take (last - first + 1) (drop first runs).

Definition run_metrics (env : Env) (run : ShapedRun) : SkFontMetrics :=
  getMetrics env (fFont run).

(** The least of 0 and the ascents, and the greatest of 0 and the descents
    and leadings, of the fonts of runs, as [SkTMin] and [SkTMax] find them
    from 0 through the runs in their order. *)
Definition least_ascent (env : Env) (rs : list ShapedRun) : SkScalar :=
  foldl SkTMin scalar_zero ((fun run => fAscent (run_metrics env run)) <$> rs).
Definition greatest_descent (env : Env) (rs : list ShapedRun) : SkScalar :=
  foldl SkTMax scalar_zero ((fun run => fDescent (run_metrics env run)) <$> rs).
Definition greatest_leading (env : Env) (rs : list ShapedRun) : SkScalar :=
  foldl SkTMax scalar_zero ((fun run => fLeading (run_metrics env run)) <$> rs).

(** A scalar that is a number, not NaN. *)
Definition is_number (x : SkScalar) : Prop := x <> S754_nan.

(** [m] is one of [xs] and none of [xs] is less than it; and the same with
    greater. *)
Definition is_least (m : SkScalar) (xs : list SkScalar) : Prop :=
  m ∈ xs /\ forall x, x ∈ xs -> scalar_lt x m = false.

Definition is_greatest (m : SkScalar) (xs : list SkScalar) : Prop :=
  m ∈ xs /\ forall x, x ∈ xs -> scalar_lt m x = false.

(** Every metric of the fonts of runs is a number. *)
Definition metrics_are_numbers (env : Env) (rs : list ShapedRun) : Prop :=
  Forall (fun run => is_number (fAscent (run_metrics env run)) /\
                     is_number (fDescent (run_metrics env run)) /\
                     is_number (fLeading (run_metrics env run))) rs.

(** A key that orders the scalars that are numbers as [<] orders them:
    the class (negative infinity, negative, zero, positive, positive
    infinity), then exponent and mantissa, reversed for the negative. *)
Definition scalar_key (x : SkScalar) : Z * Z * Z :=
  match x with
  | S754_nan => (0, 0, 0)
  | S754_infinity true => (-2, 0, 0)
  | S754_infinity false => (2, 0, 0)
  | S754_zero _ => (0, 0, 0)
  | S754_finite true m e => (-1, - e, - Zpos m)
  | S754_finite false m e => (1, e, Zpos m)
  end.

Definition key_lt (a b : Z * Z * Z) : Prop :=
  a.1.1 < b.1.1 \/
  (a.1.1 = b.1.1 /\ (a.1.2 < b.1.2 \/ (a.1.2 = b.1.2 /\ a.2 < b.2))).

(** What the loop of the last pass keeps of [maxAscent], [maxDescent],
    [maxLeading] and [previousRunIndex]: at the start of a line they are
    reset; later they are those of the runs from that of the first glyph
    of the line to that of the glyph before the iterator. *)
Definition metrics_inv (env : Env) (runs : list ShapedRun) (st : EmitState) : Prop :=
  (em_glyphIterator st = em_previousBreak st /\ previousRunIndex st = -1 /\
   maxAscent st = scalar_zero /\ maxDescent st = scalar_zero /\
   maxLeading st = scalar_zero) \/
  (exists r, previousRunIndex st = Z.of_nat r /\
     (fRunIndex (em_previousBreak st) <= r)%nat /\
     (fRunIndex (em_glyphIterator st) = r \/ fRunIndex (em_glyphIterator st) = S r) /\
     maxAscent st = least_ascent env (line_runs runs (fRunIndex (em_previousBreak st)) r) /\
     maxDescent st =
       greatest_descent env (line_runs runs (fRunIndex (em_previousBreak st)) r) /\
     maxLeading st =
       greatest_leading env (line_runs runs (fRunIndex (em_previousBreak st)) r)).

(** The metrics that the calls of a line carry are those of its runs. *)
Definition line_metrics_ok (env : Env) (runs : list ShapedRun) (l : EmittedLine) : Prop :=
  let rs := line_runs runs (fRunIndex (line_first l)) (fRunIndex (line_last l)) in
  line_ascent l = least_ascent env rs /\
  line_descent l = greatest_descent env rs /\
  line_leading l = greatest_leading env rs.

(** ** Where the line-break pass puts its marks *)

(** [fMayLineBreakBefore] of the glyph at a place of the sequence. *)
Definition may_at (runs : list ShapedRun) (q : nat) : bool :=
  match all_glyphs runs !! q with
  | Some g => fMayLineBreakBefore g
  | None => false
  end.

(** The mark at [q] ends the line that starts at [a] as the loop does it:
    [p] is the first glyph of the line that does not fit; when the glyphs
    before it add no width the mark is after it; otherwise the mark is at
    the last glyph up to [p] that may be broken before, and at [p] itself
    when there is none. *)
Definition greedy_break (runs : list ShapedRun) (width : SkScalar) (a q : nat) : Prop :=
  exists p, (a <= p < glyph_count runs)%nat /\
    (forall x, (a < x <= p)%nat -> scalar_lt (seg_x (all_glyphs runs) a x) width = true) /\
    scalar_lt (seg_x (all_glyphs runs) a (S p)) width = false /\
    ((scalar_eq (seg_x (all_glyphs runs) a p) scalar_zero = true /\ q = S p) \/
     (scalar_eq (seg_x (all_glyphs runs) a p) scalar_zero = false /\ (a < q <= p)%nat /\
      may_at runs q = true /\
      forall x, (q < x <= p)%nat -> may_at runs x = false) \/
     (scalar_eq (seg_x (all_glyphs runs) a p) scalar_zero = false /\ q = p /\
      forall x, (a < x <= p)%nat -> may_at runs x = false)).

(** What the loop keeps of [previousBreakValid] and [previousBreak], and
    of the marks it has made; [s] is the start of the line being filled. *)
Record brk_inv (runs0 : list ShapedRun) (width : SkScalar) (st : LineBreakState) (s : nat)
  : Prop := MkBrkInv {
  bi_valid :
    previousBreakValid st = true ->
    may_at runs0 (position runs0 (previousBreak st)) = true /\
    forall x, (position runs0 (previousBreak st) < x
               < position runs0 (glyphIterator st))%nat -> may_at runs0 x = false;
  bi_none :
    previousBreakValid st = false ->
    forall x, (s < x < position runs0 (glyphIterator st))%nat -> may_at runs0 x = false;
  bi_marks :
    forall q, must_at (lb_runs st) q = true ->
      exists a, (a < q <= s)%nat /\ (a = 0%nat \/ must_at (lb_runs st) a = true) /\
        (forall x, (a < x < q)%nat -> must_at (lb_runs st) x = false) /\
        greedy_break runs0 width a q
}.

(** ** The code points of a run *)

(** The offset and the UTF-16 position after [n] steps of decoding from
    the start of the input. *)
Fixpoint nth_decode (env : Env) (utf8 : list Z) (n : nat) : Z * Z :=
  match n with
  | O => (0, 0)
  | S n' =>
    let '(p, q) := nth_decode env utf8 n' in
    let r := utf8_next env utf8 p (Z.of_nat (length utf8)) in
    (r.2, q + ToUTF16 r.1)
  end.

(** Every code point that starts in the bytes of a run has, at its UTF-16
    position, the level of the run. *)
Definition one_level (env : Env) (utf8 : list Z) (bidi0 : UBiDi) (run : ShapedRun) : Prop :=
  forall p q, decodes env utf8 p q -> fUtf8Start run <= p < fUtf8End run ->
    ubidi_getLevelAt bidi0 q = fLevel run.

(** The typeface [cur] of a run is right for the code point that starts
    at [p]: it is the primary typeface when that has a glyph for the code
    point; and it has a glyph for the code point, or is what the font
    manager gave for it. *)
Definition font_ok (env : Env) (utf8 : list Z) (primary : SkTypeface)
    (cur : option SkTypeface) (p : Z) : Prop :=
  let u := code_point_at env utf8 p in
  (charsToGlyphs env primary u = true -> cur = Some primary) /\
  ((exists tf, cur = Some tf /\ charsToGlyphs env tf u = true) \/
   cur = matchFamilyStyleCharacter env primary u).

Definition one_font (env : Env) (utf8 : list Z) (primary : SkTypeface) (run : ShapedRun)
  : Prop :=
  forall p q, decodes env utf8 p q -> fUtf8Start run <= p < fUtf8End run ->
    font_ok env utf8 primary (font_typeface (fFont run)) p.
(** * Properties *)

(** ** Outcomes and loops *)

Lemma bind_Ret {A B : Type} (m : outcome A) (f : A -> outcome B) (b : B) :
  m ≫= f = Ret b -> exists a, m = Ret a /\ f a = Ret b.
Proof. destruct m as [a| |]; simpl; intros H; try discriminate. eauto. Qed.

Lemma index_Ret {A : Type} (l : list A) (i : nat) (a : A) :
  index l i = Ret a <-> l !! i = Some a.
Proof.
  unfold index. destruct (l !! i); split; intros H; inversion H; reflexivity.
Qed.

Lemma indexZ_Ret {A : Type} (l : list A) (i : Z) (a : A) :
  indexZ l i = Ret a <-> 0 <= i /\ l !! Z.to_nat i = Some a.
Proof.
  unfold indexZ. destruct (decide (0 <= i)).
  - rewrite index_Ret. tauto.
  - split; [discriminate | tauto].
Qed.

(** Splits an equation [m ≫= f = Ret b] in the hypotheses. *)
Ltac inv_bind H :=
  let a := fresh "a" in
  let Ha := fresh "Ha" in
  apply bind_Ret in H as (a & Ha & H).

Tactic Notation "bind_inv" hyp(H) "as" ident(a) ident(Ha) :=
  apply bind_Ret in H as (a & Ha & H).

Ltac inv_ret :=
  repeat match goal with
  | H : Ret _ = Ret _ |- _ => inversion H; subst; clear H
  | H : @Fault _ = Ret _ |- _ => discriminate H
  | H : @Timeout _ = Ret _ |- _ => discriminate H
  | H : mret _ = Ret _ |- _ => inversion H; subst; clear H
  end.

(** An invariant of the body holds after a [for] loop. *)
Lemma for_loop_invariant {S : Type} (P : nat -> S -> Prop) (body : nat -> S -> outcome S) :
  forall n i s s',
    (forall j t t', (i <= j < i + n)%nat -> P j t -> body j t = Ret t' -> P (Datatypes.S j) t') ->
    P i s -> for_loop n i body s = Ret s' -> P (i + n)%nat s'.
Proof.
  induction n as [|n IH]; intros i s s' Hstep Hi Hrun; simpl in Hrun.
  - inv_ret. by rewrite Nat.add_0_r.
  - inv_bind Hrun. replace (i + Datatypes.S n)%nat with (Datatypes.S i + n)%nat by lia.
    eapply IH; [| |exact Hrun].
    + intros j t t' Hj. apply Hstep. lia.
    + eapply Hstep; [|exact Hi|exact Ha]. lia.
Qed.

(** ** Glyph sequences and iterators *)

Lemma all_glyphs_cons (run : ShapedRun) (runs : list ShapedRun) :
  all_glyphs (run :: runs) = fGlyphs run ++ all_glyphs runs.
Proof. reflexivity. Qed.

Lemma all_glyphs_app (l k : list ShapedRun) :
  all_glyphs (l ++ k) = all_glyphs l ++ all_glyphs k.
Proof.
  unfold all_glyphs. rewrite fmap_app. apply concat_app.
Qed.

Lemma glyph_count_app (l k : list ShapedRun) :
  glyph_count (l ++ k) = (glyph_count l + glyph_count k)%nat.
Proof. unfold glyph_count. by rewrite all_glyphs_app, length_app. Qed.

Lemma glyph_count_take_S (runs : list ShapedRun) (r : nat) (run : ShapedRun) :
  runs !! r = Some run ->
  glyph_count (take (S r) runs) = (glyph_count (take r runs) + fNumGlyphs run)%nat.
Proof.
  intros H. rewrite (take_S_r _ _ _ H), glyph_count_app.
  unfold glyph_count at 2. rewrite all_glyphs_cons. simpl.
  rewrite length_app. unfold fNumGlyphs. simpl. lia.
Qed.

Lemma glyph_count_take_le (runs : list ShapedRun) (r : nat) :
  (glyph_count (take r runs) <= glyph_count runs)%nat.
Proof.
  rewrite <- (take_drop r runs) at 2. rewrite glyph_count_app. lia.
Qed.

Lemma glyph_count_take_all (runs : list ShapedRun) (r : nat) :
  (length runs <= r)%nat -> glyph_count (take r runs) = glyph_count runs.
Proof. intros H. by rewrite take_ge. Qed.

Lemma glyph_count_take_mono (runs : list ShapedRun) (r r' : nat) :
  (r <= r')%nat -> (glyph_count (take r runs) <= glyph_count (take r' runs))%nat.
Proof.
  intros H. replace (take r runs) with (take r (take r' runs)).
  - apply glyph_count_take_le.
  - rewrite take_take. f_equal. lia.
Qed.

Lemma lookup_all_glyphs (runs : list ShapedRun) (r g : nat) (run : ShapedRun) :
  runs !! r = Some run ->
  all_glyphs runs !! position runs (MkIter r g) =
    if decide (g < fNumGlyphs run)%nat then fGlyphs run !! g
    else all_glyphs (drop (S r) runs) !! (g - fNumGlyphs run)%nat.
Proof.
  intros H. unfold position. simpl.
  assert (all_glyphs runs =
          all_glyphs (take r runs) ++ fGlyphs run ++ all_glyphs (drop (S r) runs)) as ->.
  { rewrite <- (take_drop_middle _ _ _ H) at 1.
    by rewrite all_glyphs_app, all_glyphs_cons. }
  rewrite lookup_app_r by (unfold glyph_count; lia).
  replace (glyph_count (take r runs) + g - length (all_glyphs (take r runs)))%nat
    with g by (unfold glyph_count; lia).
  destruct (decide (g < fNumGlyphs run)%nat).
  - by rewrite lookup_app_l.
  - rewrite lookup_app_r by (unfold fNumGlyphs in *; lia). reflexivity.
Qed.

Lemma position_lt (runs : list ShapedRun) (r g : nat) (run : ShapedRun) :
  runs !! r = Some run -> (g < fNumGlyphs run)%nat ->
  (position runs (MkIter r g) < glyph_count runs)%nat.
Proof.
  intros H Hg. unfold position. simpl.
  pose proof (glyph_count_take_S _ _ _ H).
  pose proof (glyph_count_take_le runs (S r)). lia.
Qed.

Lemma position_end (runs : list ShapedRun) :
  position runs (MkIter (length runs) 0) = glyph_count runs.
Proof. unfold position. simpl. rewrite glyph_count_take_all by lia. lia. Qed.

Lemma valid_position_le (runs : list ShapedRun) (it : ShapedRunGlyphIterator) :
  valid_iterator runs it -> (position runs it <= glyph_count runs)%nat.
Proof.
  destruct it as [r g]. intros [(run & H & Hg)|[H1 H2]]; simpl in *.
  - pose proof (position_lt _ _ _ _ H Hg). lia.
  - subst. rewrite position_end. lia.
Qed.

Lemma current_None (runs : list ShapedRun) (it : ShapedRunGlyphIterator) :
  valid_iterator runs it ->
  current runs it = None -> position runs it = glyph_count runs.
Proof.
  unfold current. destruct it as [r g]. simpl.
  intros [(run & H & Hg)|[H1 H2]] Hc; simpl in *.
  - apply lookup_lt_Some in H. destruct (decide (length runs <= r)%nat); [lia|discriminate].
  - subst. apply position_end.
Qed.

Lemma current_Some (runs : list ShapedRun) (it : ShapedRunGlyphIterator) (ptr : GlyphPtr) :
  valid_iterator runs it ->
  current runs it = Some ptr ->
  ptr = (fRunIndex it, fGlyphIndex it) /\
  exists run glyph,
    runs !! fRunIndex it = Some run /\ fGlyphs run !! fGlyphIndex it = Some glyph /\
    deref runs ptr = Ret glyph /\
    all_glyphs runs !! position runs it = Some glyph /\
    (position runs it < glyph_count runs)%nat.
Proof.
  unfold current. destruct it as [r g]. simpl.
  intros [(run & H & Hg)|[H1 H2]] Hc; simpl in *.
  - destruct (decide (length runs <= r)%nat); [discriminate|]. inversion Hc; subst.
    split; [reflexivity|].
    destruct (lookup_lt_is_Some_2 (fGlyphs run) g Hg) as [glyph Hglyph].
    exists run, glyph. repeat split; try assumption.
    + unfold deref, index. simpl. rewrite H. simpl. by rewrite Hglyph.
    + rewrite (lookup_all_glyphs _ _ _ _ H). by rewrite decide_True.
    + by apply (position_lt _ _ _ run).
  - subst. destruct (decide (length runs <= length runs)%nat); [discriminate|lia].
Qed.

Lemma next_valid (runs : list ShapedRun) (it : ShapedRunGlyphIterator) (run : ShapedRun) :
  Forall (fun r => (1 <= fNumGlyphs r)%nat) runs ->
  runs !! fRunIndex it = Some run -> (fGlyphIndex it < fNumGlyphs run)%nat ->
  exists it', next runs it = Ret (it', current runs it') /\
    valid_iterator runs it' /\ position runs it' = S (position runs it) /\
    (fRunIndex it <= fRunIndex it')%nat /\
    (fRunIndex it' = fRunIndex it -> fGlyphIndex it' = S (fGlyphIndex it)).
Proof.
  intros Hwf H Hg. destruct it as [r g]. simpl in *.
  unfold next, index. simpl. rewrite H. simpl.
  pose proof (lookup_lt_Some _ _ _ H) as Hr.
  destruct (decide (S g = fNumGlyphs run)) as [Heq|Hne].
  - destruct (decide (length runs <= S r)%nat) as [Hend|Hmore].
    + exists (MkIter (S r) 0). unfold current. simpl. rewrite decide_True by lia.
      assert (S r = length runs) as Hlen by lia.
      repeat split; try (simpl; lia).
      * right. simpl. lia.
      * rewrite Hlen, position_end. unfold position. simpl.
        rewrite <- (glyph_count_take_all runs (S r)) by lia.
        rewrite (glyph_count_take_S _ _ _ H). lia.
    + exists (MkIter (S r) 0). unfold current. simpl. rewrite decide_False by lia.
      repeat split; try (simpl; lia).
      * left. simpl.
        destruct (lookup_lt_is_Some_2 runs (S r) ltac:(lia)) as [run' Hrun'].
        exists run'. split; [assumption|].
        exact (Forall_lookup_1 _ _ _ _ Hwf Hrun').
      * unfold position. simpl. rewrite (glyph_count_take_S _ _ _ H). lia.
  - exists (MkIter r (S g)). unfold current. simpl. rewrite decide_False by lia.
    repeat split; try (simpl; lia).
    + left. exists run. simpl. split; [assumption|lia].
    + unfold position. simpl. lia.
Qed.
(** ** What marking a glyph keeps *)

Lemma set_must_idem (g : ShapedGlyph) : set_must (set_must g) = set_must g.
Proof. reflexivity. Qed.

Lemma all_glyphs_skeleton (runs : list ShapedRun) :
  all_glyphs (skeleton runs) = set_must <$> all_glyphs runs.
Proof.
  induction runs as [|run runs IH]; [reflexivity|].
  unfold skeleton in *. rewrite fmap_cons, !all_glyphs_cons, fmap_app, IH. reflexivity.
Qed.

Lemma skeleton_take (runs : list ShapedRun) (r : nat) :
  skeleton (take r runs) = take r (skeleton runs).
Proof. unfold skeleton. by rewrite fmap_take. Qed.

Lemma glyph_count_skeleton (runs : list ShapedRun) :
  glyph_count (skeleton runs) = glyph_count runs.
Proof. unfold glyph_count. by rewrite all_glyphs_skeleton, length_fmap. Qed.

Lemma position_skeleton (runs : list ShapedRun) (it : ShapedRunGlyphIterator) :
  position (skeleton runs) it = position runs it.
Proof.
  unfold position. by rewrite <- skeleton_take, glyph_count_skeleton.
Qed.

Lemma skeleton_lookup (runs : list ShapedRun) (r : nat) :
  skeleton runs !! r = (fun run => with_glyphs run (set_must <$> fGlyphs run)) <$> runs !! r.
Proof. unfold skeleton. apply list_lookup_fmap. Qed.

Section SameSkeleton.
Variables a b : list ShapedRun.
Hypothesis Hskel : skeleton a = skeleton b.

Lemma same_length : length a = length b.
Proof using Hskel.
  rewrite <- (length_fmap (fun run => with_glyphs run (set_must <$> fGlyphs run)) a).
  fold (skeleton a). rewrite Hskel. unfold skeleton. by rewrite length_fmap.
Qed.

Lemma same_glyph_count : glyph_count a = glyph_count b.
Proof using Hskel. by rewrite <- glyph_count_skeleton, Hskel, glyph_count_skeleton. Qed.

Lemma same_position (it : ShapedRunGlyphIterator) : position a it = position b it.
Proof using Hskel. by rewrite <- position_skeleton, Hskel, position_skeleton. Qed.

Lemma same_run (r : nat) (ra : ShapedRun) :
  a !! r = Some ra ->
  exists rb, b !! r = Some rb /\ fNumGlyphs rb = fNumGlyphs ra /\
    fLevel rb = fLevel ra /\ fFont rb = fFont ra /\
    fUtf8Start rb = fUtf8Start ra /\ fUtf8End rb = fUtf8End ra /\
    fRunAdvance rb = fRunAdvance ra /\
    set_must <$> fGlyphs rb = set_must <$> fGlyphs ra.
Proof using Hskel.
  intros Ha. pose proof (skeleton_lookup a r) as Hsa. rewrite Ha in Hsa.
  rewrite Hskel, skeleton_lookup in Hsa.
  destruct (b !! r) as [rb|]; [|discriminate]. simpl in Hsa.
  exists rb. split; [reflexivity|]. inversion Hsa as [Heq].
  repeat split; try congruence; try reflexivity.
  unfold fNumGlyphs.
  rewrite <- (length_fmap set_must (fGlyphs rb)), <- (length_fmap set_must (fGlyphs ra)).
  congruence.
Qed.

Lemma same_glyph (q : nat) (ga : ShapedGlyph) :
  all_glyphs a !! q = Some ga ->
  exists gb, all_glyphs b !! q = Some gb /\ set_must gb = set_must ga.
Proof using Hskel.
  intros Ha.
  assert ((set_must <$> all_glyphs b) !! q = Some (set_must ga)) as Hb.
  { rewrite <- all_glyphs_skeleton, <- Hskel, all_glyphs_skeleton.
    by rewrite list_lookup_fmap, Ha. }
  rewrite list_lookup_fmap in Hb. destruct (all_glyphs b !! q) as [gb|]; [|discriminate].
  exists gb. split; [reflexivity|]. simpl in Hb. congruence.
Qed.
End SameSkeleton.

Lemma same_valid (a b : list ShapedRun) (it : ShapedRunGlyphIterator) :
  skeleton a = skeleton b -> valid_iterator a it -> valid_iterator b it.
Proof.
  intros Hskel [(run & H & Hg)|[H1 H2]].
  - destruct (same_run a b Hskel _ _ H) as (rb & Hb & Hn & _).
    left. exists rb. split; [assumption|lia].
  - right. split; [|assumption]. by rewrite <- (same_length a b Hskel).
Qed.

Lemma same_nonempty (a b : list ShapedRun) :
  skeleton a = skeleton b ->
  Forall (fun r => (1 <= fNumGlyphs r)%nat) a -> Forall (fun r => (1 <= fNumGlyphs r)%nat) b.
Proof.
  intros Hskel Ha. apply Forall_lookup_2. intros r rb Hb.
  destruct (same_run b a (eq_sym Hskel) _ _ Hb) as (ra & Hra & Hn & _).
  pose proof (Forall_lookup_1 _ _ _ _ Ha Hra) as H. simpl in H. lia.
Qed.

Lemma set_must_advance (g g' : ShapedGlyph) :
  set_must g = set_must g' ->
  fAdvance g = fAdvance g' /\ fMayLineBreakBefore g = fMayLineBreakBefore g' /\
  fCluster g = fCluster g' /\ fID g = fID g' /\ fOffset g = fOffset g'.
Proof. destruct g, g'. unfold set_must. simpl. intros H. by inversion H. Qed.

Lemma mark_must_spec (runs : list ShapedRun) (r g : nat) (run : ShapedRun)
    (glyph : ShapedGlyph) :
  runs !! r = Some run -> fGlyphs run !! g = Some glyph ->
  exists runs', mark_must runs (r, g) = Ret runs' /\
    skeleton runs' = skeleton runs /\
    all_glyphs runs' = <[position runs (MkIter r g) := set_must glyph]> (all_glyphs runs).
Proof.
  intros Hr Hg. unfold mark_must, index. simpl. rewrite Hr. simpl. rewrite Hg. simpl.
  eexists. split; [reflexivity|]. split.
  - unfold skeleton. rewrite list_fmap_insert. apply list_insert_id.
    rewrite list_lookup_fmap, Hr. simpl. f_equal. unfold with_glyphs. simpl. f_equal.
    rewrite list_fmap_insert. symmetry. apply list_insert_id.
    by rewrite list_lookup_fmap, Hg.
  - pose proof (lookup_lt_Some _ _ _ Hr) as Hlt.
    pose proof (lookup_lt_Some _ _ _ Hg) as Hlg.
    rewrite insert_take_drop by assumption.
    rewrite all_glyphs_app, all_glyphs_cons. simpl.
    assert (all_glyphs runs =
            all_glyphs (take r runs) ++ fGlyphs run ++ all_glyphs (drop (S r) runs)) as ->.
    { rewrite <- (take_drop_middle _ _ _ Hr) at 1.
      by rewrite all_glyphs_app, all_glyphs_cons. }
    unfold position, glyph_count. simpl.
    rewrite insert_app_r. f_equal. by rewrite insert_app_l.
Qed.

(** ** Sums of advances *)

Lemma sum_x_snoc (l : list ShapedGlyph) (g : ShapedGlyph) :
  sum_x (l ++ [g]) = scalar_add (sum_x l) (advance_x g).
Proof. unfold sum_x. by rewrite foldl_app. Qed.

Lemma seg_x_nil (gs : list ShapedGlyph) (a : nat) : seg_x gs a a = scalar_zero.
Proof. unfold seg_x. by rewrite Nat.sub_diag. Qed.

Lemma seg_x_snoc (gs : list ShapedGlyph) (a b : nat) (g : ShapedGlyph) :
  (a <= b)%nat -> gs !! b = Some g ->
  seg_x gs a (S b) = scalar_add (seg_x gs a b) (advance_x g).
Proof.
  intros Hab Hg. unfold seg_x.
  replace (S b - a)%nat with (S (b - a)) by lia.
  rewrite (take_S_r _ _ g).
  - apply sum_x_snoc.
  - rewrite lookup_drop. by replace (a + (b - a))%nat with b by lia.
Qed.

Lemma foldl_advance_set_must (l : list ShapedGlyph) (w : SkScalar) :
  foldl (fun w g => scalar_add w (advance_x g)) w (set_must <$> l) =
  foldl (fun w g => scalar_add w (advance_x g)) w l.
Proof. revert w. induction l as [|g l IH]; intros w; simpl; [done|]. by rewrite IH. Qed.

Lemma seg_x_same (gs gs' : list ShapedGlyph) (a b : nat) :
  set_must <$> gs = set_must <$> gs' -> seg_x gs a b = seg_x gs' a b.
Proof.
  intros H. unfold seg_x, sum_x.
  rewrite <- (foldl_advance_set_must (take _ (drop _ gs))).
  rewrite <- (foldl_advance_set_must (take _ (drop _ gs'))).
  by rewrite !fmap_take, !fmap_drop, H.
Qed.

(** 0 is equal to 0, and a sum over no glyph is 0. *)
Lemma scalar_eq_zero : scalar_eq scalar_zero scalar_zero = true.
Proof. reflexivity. Qed.
(** ** The line-break pass *)

Lemma must_at_insert (runs runs' : list ShapedRun) (k : nat) (g : ShapedGlyph) (q : nat) :
  all_glyphs runs' = <[k := set_must g]> (all_glyphs runs) ->
  (k < glyph_count runs)%nat ->
  must_at runs' q = if decide (q = k) then true else must_at runs q.
Proof.
  intros H Hk. unfold must_at. rewrite H.
  destruct (decide (q = k)) as [->|Hne].
  - by rewrite list_lookup_insert_eq.
  - by rewrite list_lookup_insert_ne.
Qed.

Section LineBreakInvariant.
Variable runs0 : list ShapedRun.
Variable width : SkScalar.
Hypothesis Hnonempty : Forall (fun r => (1 <= fNumGlyphs r)%nat) runs0.

Lemma lb_inv_init : lb_inv runs0 width (linebreak_init runs0) 0.
Proof using Hnonempty.
  assert (no_must runs0 -> forall q, must_at runs0 q = false) as Hfalse.
  { intros Hno q. unfold must_at.
    destruct (all_glyphs runs0 !! q) as [g|] eqn:Hq; [|done].
    exact (Forall_lookup_1 _ _ _ _ Hno Hq). }
  split; simpl; try done; auto.
  - destruct runs0 as [|run runs] eqn:Hruns.
    + right. done.
    + left. exists run. split; [done|].
      exact (Forall_lookup_1 _ (run :: runs) 0%nat run Hnonempty eq_refl).
  - intros q. unfold position. simpl. unfold glyph_count, all_glyphs. simpl. lia.
  - intros _ a b Hb [Hab _]. lia.
Qed.

(** One turn of the loop from a state of the invariant. *)
Lemma linebreak_step_spec (st : LineBreakState) (s : nat) :
  lb_inv runs0 width st s ->
  (position runs0 (glyphIterator st) = glyph_count runs0 /\
   linebreak_step width st = Ret None) \/
  ((position runs0 (glyphIterator st) < glyph_count runs0)%nat /\
   exists st', linebreak_step width st = Ret (Some st') /\
     ((lb_inv runs0 width st' s /\
       position runs0 (glyphIterator st') = S (position runs0 (glyphIterator st)) /\
       canAddBreakNow st' = true /\ lb_runs st' = lb_runs st) \/
      (exists s', lb_inv runs0 width st' s' /\ (s < s')%nat /\
         position runs0 (glyphIterator st') = s' /\
         canAddBreakNow st' = false /\ widthSoFar st' = scalar_zero /\
         (s' = S (position runs0 (glyphIterator st)) \/
          (scalar_eq (widthSoFar st) scalar_zero = false /\
           (s' <= position runs0 (glyphIterator st))%nat))))).
Proof using Hnonempty.
  intros Hinv. destruct Hinv as [Hskel Hvalid Hle Hw Hcf Hct Hprev Hprefix Hstart Hbeyond Hzero Hlines].
  set (runs := lb_runs st) in *. set (it := glyphIterator st) in *.
  assert (valid_iterator runs it) as Hvalid' by (eapply same_valid; [symmetry|]; eassumption).
  assert (forall i, position runs i = position runs0 i) as Hpos
    by (intros i; by apply same_position).
  assert (glyph_count runs = glyph_count runs0) as Hcount by (by apply same_glyph_count).
  assert (Forall (fun r => (1 <= fNumGlyphs r)%nat) runs) as Hne'
    by (eapply same_nonempty; [symmetry|]; eassumption).
  unfold linebreak_step. fold runs. fold it.
  destruct (current runs it) as [ptr|] eqn:Hcur.
  2:{ left. split; [|reflexivity].
      rewrite <- Hpos, <- Hcount. by apply current_None. }
  right.
  destruct (current_Some _ _ _ Hvalid' Hcur)
    as (-> & run & glyph & Hrun & Hglyph & Hderef & Hall & Hlt).
  rewrite Hpos in Hall, Hlt. rewrite Hcount in Hlt. split; [assumption|].
  rewrite Hderef. simpl.
  destruct (same_glyph _ _ Hskel _ _ Hall) as (g0 & Hg0 & Hsame).
  destruct (set_must_advance _ _ Hsame) as (Hadv & Hmay & _).
  assert (advance_x g0 = fX (fAdvance glyph)) as Hax by (unfold advance_x; by rewrite Hadv).
  destruct (next_valid runs it run Hne' Hrun (lookup_lt_Some _ _ _ Hglyph))
    as (it' & Hnext & Hvit' & Hpit' & _).
  rewrite Hpos in Hpit'. rewrite Hpos in Hpit'.
  assert (valid_iterator runs0 it') as Hvit0 by (eapply same_valid; eassumption).
  pose proof (seg_x_snoc _ s _ _ Hle Hg0) as Hsnoc.
  set (mark := canAddBreakNow st && fMayLineBreakBefore glyph) in *.
  assert (mark = true -> (s < position runs0 it)%nat) as Hmark.
  { unfold mark. intros Hm. apply andb_true_iff in Hm as [Hm _]. auto. }
  assert (seg_x (all_glyphs runs0) s (S (position runs0 it)) =
          scalar_add (widthSoFar st) (fX (fAdvance glyph))) as Hsum
    by (by rewrite Hsnoc, Hax, Hw).
  destruct (scalar_lt (scalar_add (widthSoFar st) (fX (fAdvance glyph))) width) eqn:Hfit.
  - (* the glyph fits *)
    rewrite Hnext. simpl.
    eexists. split; [reflexivity|]. left.
    split; [|simpl; repeat split; (assumption || reflexivity)].
    constructor; simpl.
    + assumption.
    + assumption.
    + lia.
    + by rewrite Hpit', Hsum.
    + discriminate.
    + intros _. lia.
    + intros Hv. destruct mark.
      * split; [assumption|]. specialize (Hmark eq_refl). lia.
      * destruct (Hprev Hv) as [? ?]. split; [assumption|lia].
    + intros q Hq. rewrite Hpit' in Hq.
      destruct (decide (q = S (position runs0 it))) as [->|Hne].
      * by rewrite Hsum.
      * apply Hprefix. lia.
    + assumption.
    + assumption.
    + assumption.
    + assumption.
  - (* the glyph does not fit: a line ends *)
    set (valid := if mark then true else previousBreakValid st) in *.
    set (prev := if mark then it else previousBreak st) in *.
    (* the place of the break *)
    assert (exists prev',
      (if scalar_eq (widthSoFar st) scalar_zero then '(i, _) ← next runs it; Ret i
       else if negb valid then Ret it else Ret prev) = Ret prev' /\
      valid_iterator runs0 prev' /\
      (s < position runs0 prev' <= S (position runs0 it))%nat /\
      line_ok (all_glyphs runs0) width s (position runs0 prev') /\
      (position runs0 prev' = S (position runs0 it) \/
       (scalar_eq (widthSoFar st) scalar_zero = false /\
        (position runs0 prev' <= position runs0 it)%nat))) as Hbreak.
    { destruct (scalar_eq (widthSoFar st) scalar_zero) eqn:Hzw.
      - exists it'. rewrite Hnext. simpl.
        split; [reflexivity|]. split; [assumption|]. split; [lia|].
        split; [|by left].
        right. rewrite Hpit'. split; [lia|].
        replace (S (position runs0 it) - 1)%nat with (position runs0 it) by lia.
        split; [by rewrite <- Hw|by rewrite Hsum].
      - assert (s < position runs0 it)%nat as Hsp.
        { destruct (decide (s = position runs0 it)) as [Heq|]; [|lia].
          rewrite <- Heq, seg_x_nil in Hw. rewrite Hw in Hzw. discriminate. }
        destruct valid eqn:Hv; simpl.
        + exists prev. unfold valid, prev in *. destruct mark.
          * split; [reflexivity|]. split; [assumption|]. split; [lia|].
            split; [|right; split; [reflexivity|lia]]. left. apply Hprefix. lia.
          * destruct (Hprev Hv) as [Hvp Hpp].
            split; [reflexivity|]. split; [assumption|]. split; [lia|].
            split; [|right; split; [reflexivity|lia]]. left. apply Hprefix. lia.
        + exists it.
          split; [reflexivity|]. split; [assumption|]. split; [lia|].
          split; [|right; split; [reflexivity|lia]]. left. apply Hprefix. lia. }
    destruct Hbreak as (prev' & -> & Hvp & Hsp & Hok & Hadvance). simpl.
    assert (valid_iterator runs prev') as Hvp'
      by (eapply same_valid; [symmetry|]; eassumption).
    pose proof (valid_position_le _ _ Hvp) as Hpn.
    (* the mark *)
    assert (exists runs',
      match current runs prev' with
      | Some ptr' => mark_must runs ptr'
      | None => Ret runs
      end = Ret runs' /\
      skeleton runs' = skeleton runs /\
      (position runs0 prev' = glyph_count runs0 \/ must_at runs' (position runs0 prev') = true) /\
      forall q, q <> position runs0 prev' -> must_at runs' q = must_at runs q) as Hmarked.
    { destruct (current runs prev') as [ptr'|] eqn:Hcur'.
      - destruct (current_Some _ _ _ Hvp' Hcur')
          as (-> & run' & glyph' & Hrun' & Hglyph' & _ & _ & Hlt').
        destruct (mark_must_spec _ _ _ _ _ Hrun' Hglyph') as (runs' & Hm & Hs & Ha).
        replace (MkIter (fRunIndex prev') (fGlyphIndex prev')) with prev' in Ha
          by (by destruct prev').
        exists runs'. split; [assumption|]. split; [assumption|].
        rewrite <- Hpos. split.
        + right. rewrite (must_at_insert _ _ _ _ _ Ha Hlt'). by rewrite decide_True.
        + intros q Hq. rewrite (must_at_insert _ _ _ _ _ Ha Hlt'). by rewrite decide_False.
      - exists runs. split; [reflexivity|]. split; [reflexivity|]. split; [|reflexivity].
        left. rewrite <- Hpos, <- Hcount. by apply current_None. }
    destruct Hmarked as (runs' & -> & Hskel' & Hflag & Hother). simpl.
    eexists. split; [reflexivity|]. right.
    exists (position runs0 prev'). simpl.
    split; [|repeat split; (assumption || reflexivity || lia)].
    constructor; simpl.
    + congruence.
    + assumption.
    + lia.
    + by rewrite seg_x_nil.
    + reflexivity.
    + discriminate.
    + discriminate.
    + intros q Hq. lia.
    + destruct Hflag; auto.
    + intros Hno q Hq. rewrite Hother by lia. apply Hbeyond; [assumption|lia].
    + intros Hno. rewrite Hother by lia. auto.
    + (* the lines so far *)
      intros Hno a b Hb (Hab & Ha & Hbend & Hmid).
      specialize (Hstart Hno). specialize (Hbeyond Hno). specialize (Hlines Hno).
      assert (glyph_count runs' = glyph_count runs0) as Hcount'
        by (rewrite <- Hcount; by apply same_glyph_count).
      rewrite Hcount' in Hbend.
      destruct (decide (b <= s)%nat) as [Hbs|Hbs].
      * apply Hlines; [assumption|]. repeat split.
        -- assumption.
        -- destruct Ha as [?|Ha]; [by left|right]. rewrite <- Hother by lia. assumption.
        -- rewrite Hcount. destruct Hbend as [?|Hbend]; [by left|right].
           rewrite <- Hother by lia. assumption.
        -- intros q Hq. rewrite <- Hother by lia. by apply Hmid.
      * assert (b = position runs0 prev') as ->.
        { destruct Hbend as [->|Hbend]; [lia|].
          destruct (decide (b = position runs0 prev')); [assumption|].
          rewrite Hother in Hbend by assumption.
          rewrite Hbeyond in Hbend by lia. discriminate. }
        assert (a = s) as ->; [|assumption].
        destruct (decide (a = s)) as [|Hne]; [assumption|exfalso].
        destruct (decide (a < s)%nat) as [Has|Has].
        -- specialize (Hmid s ltac:(lia)). rewrite Hother in Hmid by lia.
           destruct Hstart as [?|[?|Hst]]; [lia|lia|congruence].
        -- destruct Ha as [?|Ha]; [lia|].
           rewrite Hother in Ha by lia. rewrite Hbeyond in Ha by lia. discriminate.
Qed.
End LineBreakInvariant.
Lemma linebreak_loop_more_fuel (width : SkScalar) (fuel k : nat) (st st' : LineBreakState) :
  linebreak_loop fuel width st = Ret st' ->
  linebreak_loop (fuel + k) width st = Ret st'.
Proof.
  revert st. induction fuel as [|fuel IH]; intros st H; simpl in *; [discriminate|].
  destruct (linebreak_step width st) as [[st1|]| |]; simpl in *; try discriminate.
  - by apply IH.
  - assumption.
Qed.

Section LineBreakResults.
Variable runs0 : list ShapedRun.
Variable width : SkScalar.
Hypothesis Hnonempty : Forall (fun r => (1 <= fNumGlyphs r)%nat) runs0.

Let n := glyph_count runs0.
Let pos (st : LineBreakState) := position runs0 (glyphIterator st).

Lemma linebreak_loop_terminates (fuel : nat) :
  forall st s, lb_inv runs0 width st s ->
    ((n - s) * (n + 1) + (n - pos st) < fuel)%nat ->
    exists st' s', linebreak_loop fuel width st = Ret st' /\
      lb_inv runs0 width st' s' /\ pos st' = n /\
      linebreak_step width st' = Ret None.
Proof using Hnonempty.
  induction fuel as [|fuel IH]; intros st s Hinv Hfuel; [by apply Nat.nlt_0_r in Hfuel|].
  simpl.
  destruct (linebreak_step_spec runs0 width Hnonempty st s Hinv)
    as [[Hend Hstep]|(Hlt & st' & Hstep & Hcase)]; rewrite Hstep; simpl.
  - exists st, s. unfold n, pos in *. auto.
  - destruct Hcase as [(Hinv' & Hp & _)|(s' & Hinv' & Hs & Hp & _)].
    + apply (IH st' s Hinv'). unfold n, pos in *. lia.
    + apply (IH st' s' Hinv').
      pose proof (valid_position_le _ _ (inv_valid _ _ _ _ Hinv')) as Hn.
      unfold n, pos in *. rewrite Hp in *.
      pose proof (Nat.mul_le_mono_r (S (glyph_count runs0 - s'))
                    (glyph_count runs0 - s) (glyph_count runs0 + 1) ltac:(lia)).
      lia.
Qed.

Lemma linebreak_trace_inv (fuel : nat) :
  forall st s, lb_inv runs0 width st s ->
    Forall (fun st' => exists s', lb_inv runs0 width st' s')
           (linebreak_trace fuel width st).
Proof using Hnonempty.
  induction fuel as [|fuel IH]; intros st s Hinv; simpl; [constructor|].
  constructor; [eauto|].
  destruct (linebreak_step_spec runs0 width Hnonempty st s Hinv)
    as [[Hend Hstep]|(Hlt & st' & Hstep & Hcase)]; rewrite Hstep; [constructor|].
  destruct Hcase as [(Hinv' & _)|(s' & Hinv' & _)]; eauto.
Qed.

(** After a turn that does not move the iterator one glyph on, the
    width is zero, and there is a next turn, which moves it one glyph on. *)
Lemma linebreak_step_progress (st st' : LineBreakState) (s : nat) :
  lb_inv runs0 width st s -> linebreak_step width st = Ret (Some st') ->
  pos st' = S (pos st) \/
  (widthSoFar st' = scalar_zero /\
   exists st'', linebreak_step width st' = Ret (Some st'') /\ pos st'' = S (pos st')).
Proof using Hnonempty.
  intros Hinv Hstep. unfold pos.
  destruct (linebreak_step_spec runs0 width Hnonempty st s Hinv)
    as [[_ Hnone]|(Hlt & st1 & Hstep1 & Hcase)]; [congruence|].
  assert (st1 = st') as -> by congruence.
  destruct Hcase as [(_ & Hp & _)|(s' & Hinv' & Hs & Hp & Hc & Hw & [Hadv|[Hnz Hle]])];
    [by left|left; lia|].
  right. split; [assumption|].
  destruct (linebreak_step_spec runs0 width Hnonempty st' s' Hinv')
    as [[Hend _]|(_ & st2 & Hstep2 & Hcase)]; [lia|].
  exists st2. split; [assumption|].
  destruct Hcase as [(_ & Hp' & _)|(s'' & _ & _ & Hp' & _ & _ & [Hadv|[Hnz' _]])];
    [assumption|lia|rewrite Hw in Hnz'; discriminate].
Qed.

Lemma line_starts_sorted (fuel : nat) :
  forall st s, lb_inv runs0 width st s ->
    StronglySorted lt (line_starts runs0 (linebreak_trace fuel width st)) /\
    Forall (fun q => (s <= q)%nat /\ (canAddBreakNow st = true -> (s < q)%nat))
           (line_starts runs0 (linebreak_trace fuel width st)).
Proof using Hnonempty.
  induction fuel as [|fuel IH]; intros st s Hinv; simpl.
  { split; constructor. }
  set (rest := match linebreak_step width st with
               | Ret (Some st') => linebreak_trace fuel width st'
               | _ => []
               end).
  assert (StronglySorted lt (line_starts runs0 rest) /\
          Forall (fun q => (s < q)%nat) (line_starts runs0 rest)) as [Hsorted Hall].
  { unfold rest.
    destruct (linebreak_step_spec runs0 width Hnonempty st s Hinv)
      as [[Hend Hstep]|(Hlt & st' & Hstep & Hcase)]; rewrite Hstep.
    { split; constructor. }
    destruct Hcase as [(Hinv' & _ & Hc & _)|(s' & Hinv' & Hs & _)].
    - destruct (IH st' s Hinv') as [H1 H2]. split; [assumption|].
      eapply Forall_impl; [exact H2|]. simpl. intros q [_ Hq]. auto.
    - destruct (IH st' s' Hinv') as [H1 H2]. split; [assumption|].
      eapply Forall_impl; [exact H2|]. simpl. intros q [Hq _]. lia. }
  unfold line_starts in *. rewrite filter_cons.
  destruct (decide (canAddBreakNow st = false)) as [Hc|Hc].
  - rewrite fmap_cons. rewrite (inv_can_f _ _ _ _ Hinv Hc). split.
    + constructor; assumption.
    + constructor.
      * split; [lia|]. intros Ht. congruence.
      * eapply Forall_impl; [exact Hall|]. simpl. intros q Hq. split; [lia|auto].
  - split; [assumption|].
    eapply Forall_impl; [exact Hall|]. simpl. intros q Hq. split; [lia|auto].
Qed.

(** The pass returns; it keeps everything but the marks, does not mark
    the first glyph, and every line of the marks is one the loop closed. *)
Lemma linebreak_spec :
  exists runs', (forall k, linebreak_loop (linebreak_fuel runs0 + k) width
                             (linebreak_init runs0) ≫= (fun st => Ret (lb_runs st))
                           = Ret runs') /\
    skeleton runs' = skeleton runs0 /\
    (no_must runs0 -> must_at runs' 0 = false /\
       forall a b, is_seg runs' a b -> line_ok (all_glyphs runs0) width a b).
Proof using Hnonempty.
  pose proof (lb_inv_init runs0 width Hnonempty) as Hinit.
  destruct (linebreak_loop_terminates (linebreak_fuel runs0) _ _ Hinit)
    as (st & s & Hloop & Hinv & Hend & _).
  { unfold linebreak_fuel. simpl. unfold position. simpl.
    replace (glyph_count (take 0 runs0)) with 0%nat by reflexivity.
    unfold n. lia. }
  exists (lb_runs st). split; [|split].
  - intros k. by rewrite (linebreak_loop_more_fuel _ _ k _ _ Hloop).
  - exact (inv_skel _ _ _ _ Hinv).
  - intros Hno. split; [exact (inv_zero _ _ _ _ Hinv Hno)|].
    intros a b Hseg.
    pose proof (inv_start _ _ _ _ Hinv Hno) as Hstart.
    pose proof (inv_beyond _ _ _ _ Hinv Hno) as Hbeyond.
    pose proof (inv_le _ _ _ _ Hinv) as Hle.
    assert (glyph_count (lb_runs st) = n) as Hcount
      by (apply same_glyph_count, (inv_skel _ _ _ _ Hinv)).
    destruct (decide (b <= s)%nat) as [Hbs|Hbs].
    { by apply (inv_lines _ _ _ _ Hinv Hno). }
    destruct Hseg as (Hab & Ha & Hb & Hmid). rewrite Hcount in Hb.
    assert (b = n) as ->.
    { destruct Hb as [?|Hb]; [assumption|]. rewrite Hbeyond in Hb by lia. discriminate. }
    assert (a = s) as ->.
    { destruct (decide (a = s)) as [|Hne]; [assumption|exfalso].
      destruct (decide (a < s)%nat) as [Has|Has].
      - specialize (Hmid s ltac:(lia)).
        destruct Hstart as [?|[?|Hst]]; [lia|lia|congruence].
      - destruct Ha as [?|Ha]; [lia|]. rewrite Hbeyond in Ha by lia. discriminate. }
    left. apply (inv_prefix _ _ _ _ Hinv). unfold n, pos in *. lia.
Qed.
End LineBreakResults.
(** ** [append] *)

Lemma append_Ret (env : Env) (info : RunInfo) (run : ShapedRun) (start end_ : Z)
    (p p' : SkPoint) (c : AppendCall) :
  append env info run start end_ p = Ret (c, p') ->
  let buffer := newRunBuffer env info (fFont run) ((end_ - start) mod 2 ^ 32)
                  (fUtf8End run - fUtf8Start run) in
  call_info c = info /\ call_run c = run /\ call_start c = start /\ call_end c = end_ /\
  call_glyphCount c = (end_ - start) mod 2 ^ 32 /\
  call_utf8Bytes c = fUtf8End run - fUtf8Start run /\
  length (call_slots c) = Z.to_nat ((end_ - start) mod 2 ^ 32) /\
  forall i slot, call_slots c !! i = Some slot ->
    exists glyph,
      indexZ (fGlyphs run) (append_glyph_index run start end_ i) = Ret glyph /\
      slot_glyph slot = fID glyph /\
      slot_cluster slot = (if has_clusters buffer then Some (fCluster glyph) else None).
Proof.
  intros H buffer. unfold append in H. fold buffer in H.
  inv_bind H. destruct a as [slots q]. inv_ret. simpl.
  repeat (split; [reflexivity|]).
  pose (P := fun (i : nat) (acc : list Slot * SkPoint) =>
    length acc.1 = i /\
    forall k slot, acc.1 !! k = Some slot ->
      exists glyph,
        indexZ (fGlyphs run) (append_glyph_index run start end_ k) = Ret glyph /\
        slot_glyph slot = fID glyph /\
        slot_cluster slot = (if has_clusters buffer then Some (fCluster glyph) else None)).
  assert (P (0 + Z.to_nat ((end_ - start) mod 2 ^ 32))%nat (slots, p')) as [Hlen Hslots].
  { eapply (for_loop_invariant P); [| |exact Ha].
    - intros j [sl q] [sl' q'] _ [Hl Hs] Hbody. unfold append_body in Hbody.
      inv_bind Hbody. inv_ret. split; simpl in *.
      + rewrite length_app. simpl. lia.
      + intros k slot Hk. destruct (decide (k < length sl)%nat) as [Hlt|Hge].
        * rewrite lookup_app_l in Hk by assumption. eauto.
        * rewrite lookup_app_r in Hk by lia.
          destruct (k - length sl)%nat eqn:Hd; simpl in Hk; [|done].
          inversion Hk; subst. simpl. exists a.
          replace k with (length sl) by lia. auto.
    - split; [reflexivity|]. intros k slot Hk. done. }
  simpl in *. split; [lia|assumption].
Qed.

Lemma pen_after_snoc (p : SkPoint) (l : list ShapedGlyph) (g : ShapedGlyph) :
  pen_after p (l ++ [g]) = add_advance (pen_after p l) g.
Proof. unfold pen_after. by rewrite foldl_app. Qed.

Lemma pen_after_app (p : SkPoint) (l k : list ShapedGlyph) :
  pen_after p (l ++ k) = pen_after (pen_after p l) k.
Proof. unfold pen_after. by rewrite foldl_app. Qed.

(** The pen moves by the advance of each glyph of the call, in the order
    the glyphs are written. *)
Lemma append_point (env : Env) (info : RunInfo) (run : ShapedRun) (start end_ : Z)
    (p p' : SkPoint) (c : AppendCall) :
  append env info run start end_ p = Ret (c, p') ->
  0 <= start <= end_ -> end_ <= Z.of_nat (fNumGlyphs run) -> end_ - start < 2 ^ 32 ->
  p' = pen_after p (call_written c).
Proof.
  intros H Hstart Hend Hsmall.
  destruct (append_Ret _ _ _ _ _ _ _ _ H) as (_ & Hrun & Hs & He & _).
  unfold call_written, visual_range. rewrite Hrun, Hs, He. clear Hrun Hs He.
  unfold append in H. inv_bind H. destruct a as [slots q]. inv_ret.
  rewrite Z.mod_small in Ha by lia.
  set (len := Z.to_nat (end_ - start)) in *.
  set (sub := take len (drop (Z.to_nat start) (fGlyphs run))).
  assert (length sub = len) as Hsublen.
  { unfold sub. rewrite length_take, length_drop. unfold fNumGlyphs in Hend. lia. }
  set (written := if is_LTR (fLevel run) then sub else reverse sub).
  assert (length written = len) as Hwlen.
  { unfold written. destruct (is_LTR (fLevel run)); [done|by rewrite length_reverse]. }
  pose (P := fun (i : nat) (acc : list Slot * SkPoint) =>
    acc.2 = pen_after p (take i written)).
  assert (P (0 + len)%nat (slots, p')) as HP.
  { eapply (for_loop_invariant P); [| |exact Ha].
    - intros j [sl q] [sl' q'] Hj HPj Hbody. unfold append_body in Hbody.
      inv_bind Hbody. inv_ret. unfold P in *. simpl in *. subst q.
      apply indexZ_Ret in Ha0 as [Hnn Hlook].
      assert (written !! j = Some a) as Hw.
      { unfold written, append_glyph_index in *. destruct (is_LTR (fLevel run)).
        - unfold sub. rewrite lookup_take_lt by lia. rewrite lookup_drop.
          rewrite <- Hlook. f_equal. lia.
        - rewrite reverse_lookup by lia. rewrite Hsublen.
          unfold sub. rewrite lookup_take_lt by lia. rewrite lookup_drop.
          rewrite <- Hlook. f_equal. lia. }
      by rewrite (take_S_r _ _ _ Hw), pen_after_snoc.
    - unfold P. simpl. by destruct written. }
  unfold P in HP. simpl in HP. rewrite HP. by rewrite take_ge by lia.
Qed.
(** ** The reorder-and-emit pass *)

Lemma valid_at_glyph (runs : list ShapedRun) (it : ShapedRunGlyphIterator) :
  valid_iterator runs it -> (position runs it < glyph_count runs)%nat -> at_glyph runs it.
Proof.
  intros [H|[H1 H2]] Hlt; [assumption|].
  destruct it as [r g]. simpl in *. subst. rewrite position_end in Hlt. lia.
Qed.

Lemma runLevels_loop (runs : list ShapedRun) (first : nat) (n : nat) (levels : list Z) :
  for_loop n 0 (runLevels_body runs first) [] = Ret levels ->
  levels = fLevel <$> take n (drop first runs).
Proof.
  intros H.
  pose (P := fun (i : nat) (acc : list Z) => acc = fLevel <$> take i (drop first runs)).
  change (P (0 + n)%nat levels).
  eapply (for_loop_invariant P); [| |exact H].
  - intros j t t' _ HP Hbody. unfold runLevels_body in Hbody. inv_bind Hbody. inv_ret.
    apply index_Ret in Ha. unfold P in *. subst t.
    rewrite (take_S_r _ _ a) by (by rewrite lookup_drop).
    by rewrite fmap_app.
  - reflexivity.
Qed.

Lemma emit_line_Ret (env : Env) (runs : list ShapedRun)
    (first last : ShapedRunGlyphIterator) (j : Z) (ascent descent leading : SkScalar)
    (p p' : SkPoint) (calls : list AppendCall) :
  wf_runs runs -> at_glyph runs first -> at_glyph runs last -> iter_le first last ->
  emit_line env runs first (fRunIndex last) (fGlyphIndex last) j ascent descent leading p
    = Ret (calls, p') ->
  length calls = (fRunIndex last - fRunIndex first + 1)%nat /\
  (forall i c, calls !! i = Some c ->
     call_ok env runs first last j ascent descent leading i c) /\
  p' = pen_after p (concat (call_written <$> calls)).
Proof.
  intros Hwf (run0 & Hrun0 & Hg0) (run1 & Hrun1 & Hg1) [Hle Hsame] H.
  unfold emit_line in H. inv_bind H.
  replace (Z.to_nat (Z.of_nat (fRunIndex last) - Z.of_nat (fRunIndex first) + 1))
    with (fRunIndex last - fRunIndex first + 1)%nat in * by lia.
  apply runLevels_loop in Ha. subst a. fold (line_levels runs first last) in H.
  pose (P := fun (i : nat) (acc : list AppendCall * SkPoint) =>
    length acc.1 = i /\
    (forall k c, acc.1 !! k = Some c ->
       call_ok env runs first last j ascent descent leading k c) /\
    acc.2 = pen_after p (concat (call_written <$> acc.1))).
  change (P (0 + (fRunIndex last - fRunIndex first + 1))%nat (calls, p')).
  eapply (for_loop_invariant P); [| |exact H].
  2:{ unfold P. simpl. split; [reflexivity|]. split; done. }
  clear H. intros i [cs q] [cs' q'] _ HP Hbody. simpl in *.
  unfold emit_body in Hbody.
  bind_inv Hbody as lv Hlv. apply index_Ret in Hlv.
  bind_inv Hbody as endGlyphIndex Hegi.
  bind_inv Hbody as run Hrun. apply indexZ_Ret in Hrun as [Hnn Hrun].
  bind_inv Hbody as cq Happ. destruct cq as [call q'']. inv_ret.
  destruct HP as (Hlen & Hcalls & Hq). simpl in *.
  set (L := Z.of_nat (fRunIndex first) + lv) in *.
  destruct (append_Ret _ _ _ _ _ _ _ _ Happ)
    as (Hci & Hcr & Hcs & Hce & Hcount & _ & _ & Hslots).
  assert (endGlyphIndex =
          if decide (L = Z.of_nat (fRunIndex last)) then Z.of_nat (fGlyphIndex last) + 1
          else Z.of_nat (fNumGlyphs run)) as Hend.
  { destruct (decide (L = Z.of_nat (fRunIndex last))); inv_ret; [reflexivity|].
    bind_inv Hegi as run' Hrun'. inv_ret. apply indexZ_Ret in Hrun' as [_ Hrun'].
    congruence. }
  clear Hegi.
  pose proof (Forall_lookup_1 _ _ _ _ Hwf Hrun) as [Hn1 Hn2].
  pose proof (Forall_lookup_1 _ _ _ _ Hwf Hrun0) as [Hn01 Hn02].
  pose proof (Forall_lookup_1 _ _ _ _ Hwf Hrun1) as [Hn11 Hn12].
  assert (0 <= call_start call < call_end call /\
          call_end call <= Z.of_nat (fNumGlyphs run)) as [Hrange1 Hrange2].
  { rewrite Hcs, Hce, Hend.
    destruct (decide (L = Z.of_nat (fRunIndex first))) as [HL0|HL0];
      destruct (decide (L = Z.of_nat (fRunIndex last))) as [HL1|HL1].
    - assert (fRunIndex first = fRunIndex last) as Heq by lia.
      specialize (Hsame Heq). rewrite HL1, Nat2Z.id, Hrun1 in Hrun.
      assert (run = run1) as -> by congruence. lia.
    - rewrite HL0, Nat2Z.id, Hrun0 in Hrun. assert (run = run0) as -> by congruence. lia.
    - rewrite HL1, Nat2Z.id, Hrun1 in Hrun. assert (run = run1) as -> by congruence. lia.
    - lia. }
  assert (q' = pen_after q (call_written call)) as Hq''.
  { eapply append_point; [exact Happ| | |]; rewrite <- ?Hcs, <- ?Hce; lia. }
  unfold P. simpl. split; [|split].
  - rewrite length_app. simpl. lia.
  - intros k c Hk. destruct (decide (k < length cs)%nat) as [Hlt|Hge].
    + rewrite lookup_app_l in Hk by assumption. auto.
    + rewrite lookup_app_r in Hk by lia.
      destruct (k - length cs)%nat eqn:Hd; simpl in Hk; [|done].
      inversion Hk; subst c. replace k with i by lia.
      unfold call_ok, call_of_line. rewrite Hci. simpl.
      split.
      * exists lv. fold L. rewrite Hcr. repeat split; try assumption; try reflexivity.
        congruence.
      * rewrite Hcount, Hcr. rewrite Z.mod_small by lia.
        repeat split; try reflexivity; try lia.
        intros k' slot Hslot. destruct (Hslots k' slot Hslot) as (glyph & Hsg1 & Hsg2 & Hsg3).
        exists glyph. rewrite Hcs, Hce. split; [assumption|]. split; [assumption|].
        rewrite Hsg3. destruct (has_clusters _); auto.
  - rewrite fmap_app, concat_app, pen_after_app. simpl.
    rewrite app_nil_r. by rewrite Hq'', Hq.
Qed.
Lemma point_after_lines_snoc (point : SkPoint) (lines : list EmittedLine)
    (l : EmittedLine) :
  point_after_lines point (lines ++ [l]) =
  point_after_line point (point_after_lines point lines) l.
Proof. unfold point_after_lines. by rewrite foldl_app. Qed.

Lemma line_spec_snoc (env : Env) (point : SkPoint) (runs : list ShapedRun)
    (lines : list EmittedLine) (new : EmittedLine) (j : nat) (l : EmittedLine) :
  lines !! j = Some l ->
  line_spec env point runs lines j l -> line_spec env point runs (lines ++ [new]) j l.
Proof.
  intros Hj [H1 H2 H3 H4 H5 H6 H7 H8 H9].
  pose proof (lookup_lt_Some _ _ _ Hj) as Hlt.
  constructor; try assumption.
  - rewrite H8. destruct j as [|j']; [reflexivity|]. simpl.
    by rewrite lookup_app_l by lia.
  - rewrite H9. by rewrite take_app_le by lia.
Qed.

Section EmitInvariant.
Variable env : Env.
Variable point : SkPoint.
Variable runs : list ShapedRun.
Hypothesis Hwf : wf_runs runs.

Lemma wf_nonempty : Forall (fun r => (1 <= fNumGlyphs r)%nat) runs.
Proof using Hwf. eapply Forall_impl; [exact Hwf|]. by intros r [H _]. Qed.

Lemma em_inv_init : em_inv env point runs (emit_init point).
Proof using Hwf.
  assert (valid_iterator runs iter_start) as Hv.
  { destruct (runs !! 0%nat) as [run|] eqn:Hrun.
    - left. exists run. split; [assumption|].
      exact (Forall_lookup_1 _ _ _ _ wf_nonempty Hrun).
    - right. apply lookup_ge_None in Hrun. simpl. split; lia. }
  constructor; simpl; try assumption; try done.
  - by left.
  - intros q Hq. lia.
Qed.

Lemma emit_step_None (st : EmitState) :
  em_inv env point runs st -> emit_step env point runs st = Ret None ->
  position runs (em_glyphIterator st) = glyph_count runs.
Proof using Hwf.
  intros Hinv H. unfold emit_step in H.
  destruct (current runs (em_glyphIterator st)) as [ptr|] eqn:Hcur.
  - exfalso. inv_bind H. destruct a as [it nextGlyph].
    inv_bind H. destruct a as [[asc desc] lead].
    inv_bind H. destruct (negb a); [inv_ret|].
    inv_bind H. destruct a0. inv_ret.
  - apply current_None; [exact (ei_valid_it _ _ _ _ Hinv)|assumption].
Qed.

Lemma emit_step_Some (st st' : EmitState) :
  em_inv env point runs st -> emit_step env point runs st = Ret (Some st') ->
  em_inv env point runs st' /\
  position runs (em_glyphIterator st') = S (position runs (em_glyphIterator st)).
Proof using Hwf.
  intros [Hvit Hvpb Hile Hpos Hend Hstart Hmid Hindex Hpoint Hlines Hchain] H.
  unfold emit_step in H.
  set (it := em_glyphIterator st) in *. set (pb := em_previousBreak st) in *.
  destruct (current runs it) as [ptr|] eqn:Hcur; [|inv_ret].
  destruct (current_Some _ _ _ Hvit Hcur)
    as (_ & run & glyph & Hrun & Hglyph & _ & _ & Hlt).
  pose proof (lookup_lt_Some _ _ _ Hglyph) as Hg.
  destruct (next_valid runs it run wf_nonempty Hrun Hg)
    as (it' & Hnext & Hvit' & Hpit' & Hrle & Hrsame).
  rewrite Hnext in H. simpl in H.
  bind_inv H as metrics Hmetrics. destruct metrics as [[ascent descent] leading].
  bind_inv H as lineEnds HlineEnds.
  assert (if lineEnds
          then position runs it' = glyph_count runs \/ must_at runs (position runs it') = true
          else (position runs it' < glyph_count runs)%nat /\
               must_at runs (position runs it') = false) as Hnextflag.
  { destruct (current runs it') as [ptr'|] eqn:Hcur'.
    - destruct (current_Some _ _ _ Hvit' Hcur')
        as (_ & run' & glyph' & _ & _ & Hderef & Hall & Hlt').
      rewrite Hderef in HlineEnds. simpl in HlineEnds. inv_ret.
      unfold must_at. rewrite Hall. destruct (fMustLineBreakBefore glyph'); auto.
    - inv_ret. left. by apply current_None. }
  assert (iter_le pb it') as Hile'.
  { destruct Hile as [Hr Hs]. split; [lia|]. intros Heq.
    assert (fRunIndex it' = fRunIndex it) as Heq' by lia.
    specialize (Hrsame Heq'). specialize (Hs ltac:(lia)). lia. }
  destruct lineEnds; simpl in H.
  - (* the line is complete *)
    bind_inv H as cp Hline. destruct cp as [calls p]. inv_ret. simpl.
    assert (at_glyph runs pb) as Hpbg by (apply valid_at_glyph; [assumption|lia]).
    assert (at_glyph runs it) as Hitg by (exists run; split; assumption).
    replace (MkIter (fRunIndex it) (fGlyphIndex it)) with it by (by destruct it).
    destruct (emit_line_Ret env runs pb it _ _ _ _ _ _ _ Hwf Hpbg Hitg Hile Hline)
      as (Hcount & Hcalls & Hp).
    set (pen := MkPoint (fX (currentPoint st)) (scalar_sub (fY (currentPoint st)) ascent))
      in *.
    set (new := MkLine pb it pen calls).
    assert (calls <> []) as Hne by (intros ->; simpl in Hcount; lia).
    assert (line_ascent new = ascent /\ line_descent new = descent /\
            line_leading new = leading) as (Hasc & Hdesc & Hlead).
    { unfold line_ascent, line_descent, line_leading. simpl.
      destruct calls as [|c0 cs]; [done|].
      destruct (Hcalls 0%nat c0 eq_refl) as (_ & ? & ? & ? & _). auto. }
    split; [|assumption].
    constructor; simpl; try assumption.
    + split; lia.
    + lia.
    + auto.
    + destruct Hnextflag as [?|?]; auto.
    + intros q Hq. lia.
    + rewrite length_app. simpl. lia.
    + fold new. rewrite point_after_lines_snoc. unfold point_after_line, baseline_pen.
      rewrite Hasc, Hdesc, Hlead, <- Hpoint. fold pen. unfold line_written. simpl.
      by rewrite <- Hp.
    + intros j l Hj. fold new in Hj |- *.
      destruct (decide (j < length (em_lines st))%nat) as [Hlt'|Hge].
      * rewrite lookup_app_l in Hj by assumption.
        apply line_spec_snoc; [assumption|]. auto.
      * rewrite lookup_app_r in Hj by lia.
        destruct (j - length (em_lines st))%nat eqn:Hd; simpl in Hj; [|done].
        inversion Hj; subst l. assert (j = length (em_lines st)) as -> by lia.
        constructor; simpl; try assumption.
        -- repeat split.
           ++ lia.
           ++ destruct Hstart as [?|[?|?]]; [by left|lia|by right].
           ++ rewrite <- Hpit'. destruct Hnextflag as [?|?]; auto.
           ++ intros q Hq. apply Hmid. lia.
        -- rewrite Hindex in Hcalls. rewrite Hasc, Hdesc, Hlead. assumption.
        -- rewrite Hchain. destruct (length (em_lines st)) eqn:Hl; [reflexivity|].
           simpl. rewrite lookup_app_l by lia. reflexivity.
        -- rewrite take_app_length. unfold baseline_pen. by rewrite Hasc, <- Hpoint.
    + fold new. rewrite length_app. simpl.
      replace (length (em_lines st) + 1)%nat with (S (length (em_lines st))) by lia.
      simpl. rewrite lookup_app_r by lia. rewrite Nat.sub_diag. simpl. assumption.
  - (* the line goes on *)
    inv_ret. simpl. destruct Hnextflag as [Hlt' Hflag].
    split; [|assumption].
    constructor; simpl; try assumption.
    + lia.
    + intros Heq. lia.
    + intros q Hq. destruct (decide (q = position runs it')) as [->|Hne]; [assumption|].
      apply Hmid. lia.
Qed.

Lemma emit_loop_inv (fuel : nat) :
  forall st st', em_inv env point runs st -> emit_loop fuel env point runs st = Ret st' ->
    em_inv env point runs st' /\ position runs (em_glyphIterator st') = glyph_count runs.
Proof using Hwf.
  induction fuel as [|fuel IH]; intros st st' Hinv H; simpl in H; [inv_ret|].
  bind_inv H as r Hstep. destruct r as [st1|].
  - destruct (emit_step_Some _ _ Hinv Hstep) as [Hinv1 _]. by apply (IH st1).
  - inv_ret. split; [assumption|]. by apply emit_step_None.
Qed.

(** What the pass leaves when it returns. *)
Lemma emit_spec (pt : SkPoint) (lines : list EmittedLine) :
  emit env point runs = Ret (pt, lines) ->
  pt = point_after_lines point lines /\
  (forall j l, lines !! j = Some l -> line_spec env point runs lines j l) /\
  line_start_of runs lines (length lines) = glyph_count runs.
Proof using Hwf.
  unfold emit. intros H. bind_inv H as st Hloop. inv_ret.
  destruct (emit_loop_inv _ _ _ em_inv_init Hloop) as [Hinv Hend].
  split; [exact (ei_point _ _ _ _ Hinv)|]. split; [exact (ei_lines _ _ _ _ Hinv)|].
  rewrite <- (ei_chain _ _ _ _ Hinv). exact (ei_end _ _ _ _ Hinv Hend).
Qed.
End EmitInvariant.
(** ** The pen when no glyph moves it in y *)

Lemma same_value_refl (x : SkScalar) : same_value x x.
Proof. by left. Qed.

Lemma same_value_trans (x y z : SkScalar) :
  same_value x y -> same_value y z -> same_value x z.
Proof.
  intros [->|[Hx Hy]] [->|[Hy' Hz]]; unfold same_value; auto.
Qed.

(** Adding a zero leaves the value. *)
Lemma scalar_add_zero (x z : SkScalar) : is_zero z -> same_value (scalar_add x z) x.
Proof.
  intros [sz ->]. unfold same_value, is_zero.
  destruct x as [sx|sx| |sx mx ex]; simpl; auto.
  right. destruct sx, sz; simpl; eauto.
Qed.

(** The sum and the difference depend on the value of the first term only. *)
Lemma scalar_add_same (x x' a : SkScalar) :
  same_value x x' -> same_value (scalar_add x a) (scalar_add x' a).
Proof.
  intros [->|[[s ->] [s' ->]]]; [by left|]. unfold same_value, is_zero.
  destruct a as [sa|sa| |sa ma ea]; simpl; auto.
  right. destruct s, s', sa; simpl; eauto.
Qed.

Lemma scalar_sub_same (x x' a : SkScalar) :
  same_value x x' -> same_value (scalar_sub x a) (scalar_sub x' a).
Proof.
  intros [->|[[s ->] [s' ->]]]; [by left|]. unfold same_value, is_zero.
  destruct a as [sa|sa| |sa ma ea]; simpl; auto.
  right. destruct s, s', sa; simpl; eauto.
Qed.

(** Glyphs that do not advance in y leave the y of the pen. *)
Lemma pen_after_no_y (gs : list ShapedGlyph) :
  forall p, Forall (fun g => is_zero (fY (fAdvance g))) gs ->
    same_value (fY (pen_after p gs)) (fY p).
Proof.
  induction gs as [|g gs IH]; intros p Hall; [apply same_value_refl|].
  apply Forall_cons in Hall as [Hg Hall]. unfold pen_after. simpl.
  apply (same_value_trans _ (fY (add_advance p g))); [by apply IH|].
  unfold add_advance. simpl. by apply scalar_add_zero.
Qed.

Lemma point_after_lines_fX (point : SkPoint) (lines : list EmittedLine) :
  fX (point_after_lines point lines) = fX point.
Proof.
  destruct (decide (lines = [])) as [->|Hne]; [reflexivity|].
  destruct (exists_last Hne) as (ls & l & ->).
  by rewrite point_after_lines_snoc.
Qed.

Lemma spec_point_after_lines_snoc (point : SkPoint) (lines : list EmittedLine)
    (l : EmittedLine) :
  spec_point_after_lines point (lines ++ [l]) =
  spec_point_after_line point (spec_point_after_lines point lines) l.
Proof. unfold spec_point_after_lines. by rewrite foldl_app. Qed.

(** Where no glyph advances in y, the current point after the lines is
    the one of the spec's words. *)
Lemma point_after_lines_spec (point : SkPoint) (lines : list EmittedLine) :
  no_y_advance lines ->
  same_value (fY (point_after_lines point lines))
             (fY (spec_point_after_lines point lines)).
Proof.
  induction lines as [|l lines IH] using rev_ind; intros Hall; [apply same_value_refl|].
  apply Forall_app in Hall as [Hlines Hl]. apply Forall_cons in Hl as [Hl _].
  rewrite point_after_lines_snoc, spec_point_after_lines_snoc.
  unfold point_after_line, spec_point_after_line. simpl.
  apply scalar_add_same.
  apply (same_value_trans _ (fY (baseline_pen (point_after_lines point lines) l)));
    [by apply pen_after_no_y|].
  unfold baseline_pen. simpl. apply scalar_sub_same. by apply IH.
Qed.
(** ** The order of the scalars that are numbers *)

Lemma scalar_lt_key (x y : SkScalar) :
  is_number x -> is_number y ->
  (scalar_lt x y = true <-> key_lt (scalar_key x) (scalar_key y)).
Proof.
  intros Hx Hy. unfold scalar_lt, SFltb, key_lt.
  destruct x as [sx|sx| |sx mx ex]; [| |done|];
    destruct y as [sy|sy| |sy my ey]; try done.
  - destruct sx, sy; simpl; split; (discriminate || lia).
  - destruct sx, sy; simpl; split; (discriminate || lia || done).
  - destruct sy; simpl; split; (discriminate || lia || done).
  - destruct sx, sy; simpl; split; (discriminate || lia || done).
  - destruct sx, sy; simpl; split; (discriminate || lia || done).
  - destruct sx, sy; simpl; split; (discriminate || lia || done).
  - destruct sx; simpl; split; (discriminate || lia || done).
  - destruct sx, sy; simpl; split; (discriminate || lia || done).
  - simpl SFcompare. change (Pos.compare_cont Eq mx my) with (Pos.compare mx my).
    destruct sx, sy; simpl; try (split; (discriminate || lia || done)).
    + destruct (Z.compare_spec ex ey) as [He|He|He];
        [destruct (Pos.compare_spec mx my) as [Hm|Hm|Hm]| |]; simpl;
        split; (discriminate || lia || done).
    + destruct (Z.compare_spec ex ey) as [He|He|He];
        [destruct (Pos.compare_spec mx my) as [Hm|Hm|Hm]| |]; simpl;
        split; (discriminate || lia || done).
Qed.

(** Between numbers, [<=] is "not greater". *)
Lemma scalar_le_key (x y : SkScalar) :
  is_number x -> is_number y ->
  (scalar_le x y = true <-> ~ key_lt (scalar_key y) (scalar_key x)).
Proof.
  intros Hx Hy. unfold scalar_le, SFleb, key_lt.
  destruct x as [sx|sx| |sx mx ex]; [| |done|];
    destruct y as [sy|sy| |sy my ey]; try done.
  - destruct sx, sy; simpl; split; (discriminate || lia).
  - destruct sx, sy; simpl; split; (discriminate || lia || done).
  - destruct sy; simpl; split; (discriminate || lia || done).
  - destruct sx, sy; simpl; split; (discriminate || lia || done).
  - destruct sx, sy; simpl; split; (discriminate || lia || done).
  - destruct sx, sy; simpl; split; (discriminate || lia || done).
  - destruct sx; simpl; split; (discriminate || lia || done).
  - destruct sx, sy; simpl; split; (discriminate || lia || done).
  - simpl SFcompare. change (Pos.compare_cont Eq mx my) with (Pos.compare mx my).
    destruct sx, sy; simpl; try (split; (discriminate || lia || done)).
    + destruct (Z.compare_spec ex ey) as [He|He|He];
        [destruct (Pos.compare_spec mx my) as [Hm|Hm|Hm]| |]; simpl;
        split; (discriminate || lia || done).
    + destruct (Z.compare_spec ex ey) as [He|He|He];
        [destruct (Pos.compare_spec mx my) as [Hm|Hm|Hm]| |]; simpl;
        split; (discriminate || lia || done).
Qed.

Lemma scalar_not_lt_le (x y : SkScalar) :
  is_number x -> is_number y -> scalar_lt y x = false -> scalar_le x y = true.
Proof.
  intros Hx Hy H. apply (scalar_le_key x y Hx Hy). intros K.
  apply (scalar_lt_key y x Hy Hx) in K. congruence.
Qed.

Lemma number_or_nan (x : SkScalar) : x = S754_nan \/ is_number x.
Proof. destruct x; (by left) || (by right). Qed.

Lemma scalar_lt_irrefl (x : SkScalar) : scalar_lt x x = false.
Proof.
  destruct (number_or_nan x) as [->|Hx]; [reflexivity|].
  destruct (scalar_lt x x) eqn:H; [|reflexivity].
  apply (scalar_lt_key x x Hx Hx) in H. unfold key_lt in H. lia.
Qed.

Lemma scalar_lt_asym (x y : SkScalar) : scalar_lt x y = true -> scalar_lt y x = false.
Proof.
  intros H.
  destruct (number_or_nan x) as [->|Hx]; [discriminate|].
  destruct (number_or_nan y) as [->|Hy]; [by destruct x|].
  destruct (scalar_lt y x) eqn:H'; [|reflexivity].
  apply (scalar_lt_key x y Hx Hy) in H. apply (scalar_lt_key y x Hy Hx) in H'.
  unfold key_lt in *. lia.
Qed.

(** Where [p] is not above [q] and [q] not above [r], [p] is not above [r]. *)
Lemma scalar_le_trans (p q r : SkScalar) :
  is_number p -> is_number q -> is_number r ->
  scalar_lt q p = false -> scalar_lt r q = false -> scalar_lt r p = false.
Proof.
  intros Hp Hq Hr H1 H2. destruct (scalar_lt r p) eqn:H; [|reflexivity].
  apply (scalar_lt_key r p Hr Hp) in H.
  assert (~ key_lt (scalar_key q) (scalar_key p)) as N1
    by (intros K; apply (scalar_lt_key q p Hq Hp) in K; congruence).
  assert (~ key_lt (scalar_key r) (scalar_key q)) as N2
    by (intros K; apply (scalar_lt_key r q Hr Hq) in K; congruence).
  unfold key_lt in *. lia.
Qed.

Lemma SkTMin_cases (a b : SkScalar) :
  (SkTMin a b = a \/ SkTMin a b = b) /\
  scalar_lt a (SkTMin a b) = false /\ scalar_lt b (SkTMin a b) = false.
Proof.
  unfold SkTMin. destruct (scalar_lt a b) eqn:H.
  - split; [by left|]. split; [apply scalar_lt_irrefl|by apply scalar_lt_asym].
  - split; [by right|]. split; [assumption|apply scalar_lt_irrefl].
Qed.

Lemma SkTMax_cases (a b : SkScalar) :
  (SkTMax a b = a \/ SkTMax a b = b) /\
  scalar_lt (SkTMax a b) a = false /\ scalar_lt (SkTMax a b) b = false.
Proof.
  unfold SkTMax. destruct (scalar_lt b a) eqn:H.
  - split; [by left|]. split; [apply scalar_lt_irrefl|by apply scalar_lt_asym].
  - split; [by right|]. split; [assumption|apply scalar_lt_irrefl].
Qed.

(** [SkTMin] through numbers, from a number, finds the least of them. *)
Lemma foldl_SkTMin_least (xs : list SkScalar) :
  forall a, is_number a -> Forall is_number xs ->
    is_least (foldl SkTMin a xs) (a :: xs) /\ is_number (foldl SkTMin a xs).
Proof.
  induction xs as [|x xs IH]; intros a Ha Hall; simpl.
  - split; [|assumption]. split; [by left|]. intros y Hy.
    apply list_elem_of_singleton in Hy as ->. apply scalar_lt_irrefl.
  - apply Forall_cons in Hall as [Hx Hall].
    destruct (SkTMin_cases a x) as (Hcase & Hma & Hmx).
    assert (is_number (SkTMin a x)) as Hm by (destruct Hcase as [-> | ->]; assumption).
    destruct (IH (SkTMin a x) Hm Hall) as [[Hin Hlow] Hnum].
    split; [|assumption]. split.
    + apply elem_of_cons in Hin as [Hin|Hin].
      * rewrite Hin. destruct Hcase as [-> | ->]; [by left|right; by left].
      * right. by right.
    + assert (scalar_lt (SkTMin a x) (foldl SkTMin (SkTMin a x) xs) = false) as Hmm
        by (apply Hlow; by left).
      intros y Hy. apply elem_of_cons in Hy as [->|Hy]; [|apply elem_of_cons in Hy as [->|Hy]].
      * by apply (scalar_le_trans _ (SkTMin a x) _).
      * by apply (scalar_le_trans _ (SkTMin a x) _).
      * apply Hlow. by right.
Qed.

Lemma foldl_SkTMax_greatest (xs : list SkScalar) :
  forall a, is_number a -> Forall is_number xs ->
    is_greatest (foldl SkTMax a xs) (a :: xs) /\ is_number (foldl SkTMax a xs).
Proof.
  induction xs as [|x xs IH]; intros a Ha Hall; simpl.
  - split; [|assumption]. split; [by left|]. intros y Hy.
    apply list_elem_of_singleton in Hy as ->. apply scalar_lt_irrefl.
  - apply Forall_cons in Hall as [Hx Hall].
    destruct (SkTMax_cases a x) as (Hcase & Hma & Hmx).
    assert (is_number (SkTMax a x)) as Hm by (destruct Hcase as [-> | ->]; assumption).
    destruct (IH (SkTMax a x) Hm Hall) as [[Hin Hup] Hnum].
    split; [|assumption]. split.
    + apply elem_of_cons in Hin as [Hin|Hin].
      * rewrite Hin. destruct Hcase as [-> | ->]; [by left|right; by left].
      * right. by right.
    + assert (scalar_lt (foldl SkTMax (SkTMax a x) xs) (SkTMax a x) = false) as Hmm
        by (apply Hup; by left).
      intros y Hy. apply elem_of_cons in Hy as [->|Hy]; [|apply elem_of_cons in Hy as [->|Hy]].
      * by apply (scalar_le_trans _ (SkTMax a x) _).
      * by apply (scalar_le_trans _ (SkTMax a x) _).
      * apply Hup. by right.
Qed.
(** ** The glyphs of a line: calls against logical order *)

Lemma concat_Permutation {A : Type} (l k : list (list A)) :
  l ≡ₚ k -> concat l ≡ₚ concat k.
Proof.
  induction 1 as [|x l k _ IH|x y l|l k m _ IH1 _ IH2]; simpl.
  - reflexivity.
  - by rewrite IH.
  - rewrite !app_assoc. f_equiv. apply Permutation_app_comm.
  - by rewrite IH1.
Qed.

Lemma pieces_concat (rs : list ShapedRun) :
  forall d g0 g run0 runR,
    rs !! 0%nat = Some run0 -> rs !! d = Some runR ->
    (g0 <= fNumGlyphs run0)%nat -> (g < fNumGlyphs runR)%nat ->
    concat (pieces rs d g0 g) =
      take (S (glyph_count (take d rs) + g) - g0) (drop g0 (all_glyphs rs)).
Proof.
  induction rs as [|run rs IH]; intros d g0 g run0 runR H0 Hd Hg0 Hg; [done|].
  simpl in H0. inversion H0; subst run0. rewrite all_glyphs_cons.
  rewrite drop_app_le by (unfold fNumGlyphs in Hg0; lia).
  destruct d as [|d]; simpl.
  - simpl in Hd. inversion Hd; subst runR. rewrite app_nil_r.
    replace (glyph_count []) with 0%nat by reflexivity. simpl.
    rewrite take_app_le; [reflexivity|].
    rewrite length_drop. unfold fNumGlyphs in *. lia.
  - simpl in Hd.
    assert (exists run1, rs !! 0%nat = Some run1) as [run1 Hrun1].
    { apply lookup_lt_is_Some_2. apply lookup_lt_Some in Hd. lia. }
    rewrite (IH d 0%nat g run1 runR Hrun1 Hd ltac:(lia) Hg).
    rewrite drop_0, Nat.sub_0_r.
    replace (run :: take d rs) with ([run] ++ take d rs) by reflexivity.
    rewrite glyph_count_app.
    replace (glyph_count [run]) with (fNumGlyphs run)
      by (unfold glyph_count, all_glyphs, fNumGlyphs; simpl; by rewrite app_nil_r).
    rewrite take_app_ge by (rewrite length_drop; unfold fNumGlyphs in *; lia).
    f_equal. f_equal. rewrite length_drop. unfold fNumGlyphs in *. lia.
Qed.

Lemma pieces_lookup (rs : list ShapedRun) :
  forall d g0 g k run,
    (k <= d)%nat -> rs !! k = Some run -> (d < length rs)%nat ->
    (k = 0%nat -> (g0 <= fNumGlyphs run)%nat) ->
    pieces rs d g0 g !! k =
      Some (take ((if decide (k = d) then S g else fNumGlyphs run)
                  - (if decide (k = 0%nat) then g0 else 0))
                 (drop (if decide (k = 0%nat) then g0 else 0%nat) (fGlyphs run))).
Proof.
  induction rs as [|run0 rs IH]; intros d g0 g k run Hk Hrun Hd Hg0; [done|].
  destruct d as [|d]; simpl.
  - assert (k = 0%nat) as -> by lia. simpl in Hrun. inversion Hrun; subst run0.
    reflexivity.
  - destruct k as [|k]; simpl.
    + simpl in Hrun. inversion Hrun; subst run0. simpl.
      rewrite take_ge; [reflexivity|]. rewrite length_drop. unfold fNumGlyphs. lia.
    + simpl in Hrun, Hd.
      rewrite (IH d 0%nat g k run ltac:(lia) Hrun ltac:(lia) ltac:(lia)).
      destruct (decide (k = d)); destruct (decide (S k = S d)); try lia;
        destruct (decide (k = 0%nat)); simpl; rewrite ?Nat.sub_0_r, ?drop_0;
        reflexivity.
Qed.

Lemma pieces_length (rs : list ShapedRun) :
  forall d g0 g, (d < length rs)%nat -> length (pieces rs d g0 g) = S d.
Proof.
  induction rs as [|run rs IH]; intros d g0 g Hd; simpl in *; [lia|].
  destruct d as [|d]; simpl; [reflexivity|]. rewrite IH by lia. reflexivity.
Qed.

(** The glyphs that the calls of a line hand over are those of the line in
    logical order, rearranged. *)
Lemma line_glyphs_logical (env : Env) (runs : list ShapedRun)
    (first last : ShapedRunGlyphIterator) (j : Z) (ascent descent leading : SkScalar)
    (calls : list AppendCall) :
  reorder_permutes env ->
  at_glyph runs first -> at_glyph runs last -> iter_le first last ->
  length calls = (fRunIndex last - fRunIndex first + 1)%nat ->
  (forall i c, calls !! i = Some c ->
     call_ok env runs first last j ascent descent leading i c) ->
  concat (call_glyphs <$> calls) ≡ₚ
    take (S (position runs last) - position runs first)
         (drop (position runs first) (all_glyphs runs)).
Proof.
  intros Hperm (run0 & Hrun0 & Hg0) (runR & HrunR & HgR) [Hle Hsame] Hlen Hcalls.
  set (R0 := fRunIndex first) in *. set (R := fRunIndex last) in *.
  set (rs := drop R0 runs). set (d := (R - R0)%nat).
  set (ps := pieces rs d (fGlyphIndex first) (fGlyphIndex last)).
  assert (rs !! 0%nat = Some run0) as Hrs0
    by (unfold rs; rewrite lookup_drop, Nat.add_0_r; assumption).
  assert (rs !! d = Some runR) as HrsR.
  { unfold rs, d. rewrite lookup_drop. replace (R0 + (R - R0))%nat with R by lia.
    assumption. }
  assert (d < length rs)%nat as Hdlt by (by eapply lookup_lt_Some).
  (* the interval is the concatenation of the pieces *)
  assert (take (S (position runs last) - position runs first)
               (drop (position runs first) (all_glyphs runs)) = concat ps) as ->.
  { unfold ps.
    rewrite (pieces_concat rs d (fGlyphIndex first) (fGlyphIndex last) run0 runR
               Hrs0 HrsR ltac:(lia) HgR).
    assert (all_glyphs runs = all_glyphs (take R0 runs) ++ all_glyphs rs) as ->.
    { unfold rs. by rewrite <- all_glyphs_app, take_drop. }
    unfold position. fold R0 R.
    rewrite drop_app_ge by (unfold glyph_count; lia).
    replace (glyph_count (take R0 runs) + fGlyphIndex first
             - length (all_glyphs (take R0 runs)))%nat
      with (fGlyphIndex first) by (unfold glyph_count; lia).
    f_equal.
    assert (glyph_count (take R runs) =
            (glyph_count (take R0 runs) + glyph_count (take d rs))%nat) as Hcnt.
    { rewrite <- glyph_count_app. f_equal. unfold rs, d.
      rewrite take_take_drop. f_equal. lia. }
    lia. }
  (* the levels of the line *)
  set (levels := line_levels runs first last) in *.
  assert (length levels = S d) as Hlevels.
  { unfold levels, line_levels. fold R0 R. rewrite length_fmap, length_take. fold rs.
    unfold d in *. lia. }
  specialize (Hperm levels). rewrite Hlevels in Hperm.
  set (lfv := ubidi_reorderVisual env levels) in *.
  set (f := fun lv : Z => default [] (ps !! Z.to_nat lv)).
  assert (call_glyphs <$> calls = f <$> lfv) as ->.
  { apply list_eq. intros i. rewrite !list_lookup_fmap.
    destruct (calls !! i) as [c|] eqn:Hc.
    - destruct (Hcalls i c Hc) as ((lv & Hlv & Hnn & Hrun & Hstart & Hend & _) & _
                                    & _ & _ & _ & _ & Hs0 & He & _).
      fold levels lfv R0 R in Hlv, Hrun, Hstart, Hend. rewrite Hlv. simpl. f_equal.
      assert (0 <= lv < Z.of_nat (S d)) as Hlvr.
      { assert (lv ∈ lfv) as Hin by (by eapply list_elem_of_lookup_2).
        rewrite Hperm in Hin. apply elem_of_seqZ in Hin. lia. }
      set (k := Z.to_nat lv).
      assert (rs !! k = Some (call_run c)) as Hrsk.
      { unfold rs. rewrite lookup_drop. rewrite <- Hrun. f_equal. lia. }
      unfold f. fold k. unfold ps.
      rewrite (pieces_lookup rs d (fGlyphIndex first) (fGlyphIndex last) k (call_run c)
                 ltac:(lia) Hrsk Hdlt).
      2:{ intros Hk0. rewrite Hk0 in Hrsk. rewrite Hrs0 in Hrsk.
          inversion Hrsk as [Heq]. rewrite <- Heq. lia. }
      simpl. unfold call_glyphs. rewrite Hstart, Hend.
      destruct (decide (k = 0%nat)) as [Hk0|Hk0];
        destruct (decide (Z.of_nat R0 + lv = Z.of_nat R0)) as [Hz0|Hz0]; try lia;
        destruct (decide (k = d)) as [Hkd|Hkd];
        destruct (decide (Z.of_nat R0 + lv = Z.of_nat R)) as [HzR|HzR];
        try (unfold d in *; lia); f_equal; try lia; f_equal; lia.
    - apply lookup_ge_None in Hc.
      assert (length lfv = S d) as Hl
        by (rewrite (Permutation_length Hperm), length_seqZ; lia).
      rewrite (proj2 (lookup_ge_None lfv i)); [reflexivity|]. unfold d in *. lia. }
  assert (f <$> seqZ 0 (Z.of_nat (S d)) = ps) as Hps.
  { apply list_eq. intros i. rewrite list_lookup_fmap.
    destruct (decide (i < S d)%nat) as [Hi|Hi].
    - rewrite lookup_seqZ_lt by lia. simpl. unfold f.
      replace (Z.to_nat (0 + Z.of_nat i)) with i by lia.
      destruct (lookup_lt_is_Some_2 ps i) as [x Hx].
      { unfold ps. rewrite pieces_length by assumption. lia. }
      by rewrite Hx.
    - rewrite lookup_seqZ_ge by lia. simpl. symmetry. apply lookup_ge_None.
      unfold ps. rewrite pieces_length by assumption. lia. }
  rewrite <- Hps. apply concat_Permutation. by apply fmap_Permutation.
Qed.
(** ** The segment-and-shape pass: the runs it stores *)

Lemma break_flags_keeps (env : Env) (utf8 : list Z) (clusterOffset : Z)
    (glyphs : list ShapedGlyph) :
  forall previousCluster position glyphs' position',
    break_flags env utf8 clusterOffset glyphs previousCluster position
      = Ret (glyphs', position') ->
    Forall2 (fun g g' => exists b, g' = set_may g b) glyphs glyphs'.
Proof.
  induction glyphs as [|g glyphs IH]; intros prev pos glyphs' pos' H; simpl in H.
  - inv_ret. constructor.
  - bind_inv H as r Hseek. destruct r as [cur pos1].
    bind_inv H as r Hrest. destruct r as [rest pos2]. inv_ret.
    constructor; [eauto|]. eapply IH. eassumption.
Qed.

Lemma set_may_fields (g : ShapedGlyph) (b : bool) :
  fCluster (set_may g b) = fCluster g /\
  fMustLineBreakBefore (set_may g b) = fMustLineBreakBefore g /\
  fAdvance (set_may g b) = fAdvance g /\ fID (set_may g b) = fID g.
Proof. by destruct g. Qed.

Lemma shape_segment_Ret (env : Env) (srcFont : SkFont) (utf8 : list Z)
    (st st' : SegmentState) (q : RunIteratorQueue) :
  shape_segment env srcFont utf8 st q = Ret (inr st') ->
  runSegmenter st' = q /\ queue_endOfCurrentRun q = Ret (seg_utf8End st') /\
  (seg_runs st' = seg_runs st \/
   exists run, seg_runs st' = seg_runs st ++ [run] /\ stored_run env utf8 st q run).
Proof.
  unfold shape_segment. intros H.
  bind_inv H as utf8End Hend. bind_inv H as r Hitems. destruct r as [items utf8Current].
  destruct (negb (fits_int (utf8End - seg_utf8End st))) eqn:Hfits; [inv_ret|].
  apply negb_false_iff in Hfits. unfold fits_int in Hfits. apply Z.leb_le in Hfits.
  destruct (FontRunIterator.currentHBFont (font q)) as [hbFont|] eqn:Hfont.
  2:{ inv_ret. simpl. auto. }
  set (buffer := segment_buffer utf8 (seg_utf8End st) utf8Current items q).
  change (MkBuffer _ _ _ _ _) with buffer in H.
  destruct (Z.of_nat (length (hb_shape env hbFont buffer)) =? 0) eqn:Hlen.
  { inv_ret. simpl. auto. }
  apply Z.eqb_neq in Hlen.
  destruct (negb (fits_int (Z.of_nat (length (hb_shape env hbFont buffer))))) eqn:Hfits2;
    [inv_ret|].
  apply negb_false_iff in Hfits2. unfold fits_int in Hfits2. apply Z.leb_le in Hfits2.
  destruct (hb_font_get_scale env hbFont) as [scaleX scaleY].
  bind_inv H as r Hflags. destruct r as [glyphs' position]. inv_ret. simpl.
  split; [reflexivity|]. split; [assumption|]. right. eexists. split; [reflexivity|].
  exists utf8End, items, utf8Current, hbFont. simpl.
  pose proof (break_flags_keeps _ _ _ _ _ _ _ _ Hflags) as Hkeep.
  set (shaped := if decide _ then reverse (hb_shape env hbFont buffer)
                 else hb_shape env hbFont buffer) in *.
  assert (length shaped = length (hb_shape env hbFont buffer)) as Hshaped.
  { unfold shaped. destruct (decide _); [apply length_reverse|reflexivity]. }
  pose proof (Forall2_length _ _ _ Hkeep) as Hlen'. rewrite length_fmap in Hlen'.
  repeat split; try assumption; try reflexivity.
  - unfold fNumGlyphs. simpl. lia.
  - unfold fNumGlyphs. simpl. lia.
  - apply Forall_lookup_2. intros i g' Hg'.
    destruct (Forall2_lookup_r _ _ _ _ _ Hkeep Hg') as (g & Hg & b & ->).
    rewrite list_lookup_fmap in Hg. destruct (shaped !! i); [|done].
    simpl in Hg. inversion Hg; subst g. reflexivity.
  - apply list_eq. intros i. rewrite !list_lookup_fmap.
    unfold logical_glyphs. fold buffer.
    replace (buf_direction buffer) with
      (if is_LTR (BiDiRunIterator.currentLevel (bidi q))
       then HB_DIRECTION_LTR else HB_DIRECTION_RTL) by reflexivity.
    fold shaped.
    destruct (glyphs' !! i) as [g'|] eqn:Hg'.
    + destruct (Forall2_lookup_r _ _ _ _ _ Hkeep Hg') as (g & Hg & b & ->).
      rewrite list_lookup_fmap in Hg. destruct (shaped !! i); [|done].
      simpl in *. inversion Hg; subst g. reflexivity.
    + apply lookup_ge_None in Hg'. rewrite (proj2 (lookup_ge_None shaped i)); [done|lia].
Qed.

Lemma shape_segments_runs (env : Env) (srcFont : SkFont) (utf8 : list Z) (fuel : nat) :
  forall st runs,
    shape_segments env srcFont utf8 fuel st = Ret (inr runs) ->
    wf_runs (seg_runs st) -> no_must (seg_runs st) ->
    wf_runs runs /\ no_must runs.
Proof.
  induction fuel as [|fuel IH]; intros st runs H Hwf Hno; simpl in H; [inv_ret|].
  bind_inv H as r Hadv. destruct r as [more q]. destruct more.
  - bind_inv H as r Hseg. destruct r as [e|st']; [inv_ret|].
    apply (IH st' runs H).
    + destruct (shape_segment_Ret _ _ _ _ _ _ Hseg) as (_ & _ & [->|(run & -> & Hrun)]);
        [assumption|].
      apply Forall_app. split; [assumption|].
      destruct Hrun as (? & ? & ? & ? & _ & _ & _ & _ & _ & _ & Hw & _).
      by constructor.
    + destruct (shape_segment_Ret _ _ _ _ _ _ Hseg) as (_ & _ & [->|(run & -> & Hrun)]);
        [assumption|].
      unfold no_must. rewrite all_glyphs_app. apply Forall_app. split; [assumption|].
      destruct Hrun as (? & ? & ? & ? & _ & _ & _ & _ & _ & _ & _ & Hm & _).
      unfold all_glyphs. simpl. by rewrite app_nil_r.
  - by inv_ret.
Qed.

Lemma segment_and_shape_runs (env : Env) (impl : Impl) (srcFont : SkFont)
    (utf8 : list Z) (leftToRight : bool) (runs : list ShapedRun) :
  segment_and_shape env impl srcFont utf8 leftToRight = Ret (inr runs) ->
  wf_runs runs /\ no_must runs.
Proof.
  unfold segment_and_shape. intros H.
  bind_inv H as mk Hmk. destruct mk as [e|q]; [inv_ret|].
  eapply shape_segments_runs; [exact H| |]; constructor.
Qed.

(** What the line-break pass makes of the runs of the first block. *)
Lemma linebreak_Ret (env : Env) (impl : Impl) (srcFont : SkFont) (utf8 : list Z)
    (leftToRight : bool) (width : SkScalar) (runs runs' : list ShapedRun) :
  segment_and_shape env impl srcFont utf8 leftToRight = Ret (inr runs) ->
  linebreak runs width = Ret runs' ->
  wf_runs runs' /\ skeleton runs' = skeleton runs /\ must_at runs' 0 = false /\
  forall a b, is_seg runs' a b -> line_ok (all_glyphs runs') width a b.
Proof.
  intros Hseg Hbreak.
  destruct (segment_and_shape_runs _ _ _ _ _ _ Hseg) as [Hwf Hno].
  assert (Forall (fun r => (1 <= fNumGlyphs r)%nat) runs) as Hne
    by (eapply Forall_impl; [exact Hwf|]; by intros r [? _]).
  destruct (linebreak_spec runs width Hne) as (runs1 & Hloop & Hskel & Hflags).
  assert (runs1 = runs') as ->.
  { specialize (Hloop 0%nat). rewrite Nat.add_0_r in Hloop.
    unfold linebreak in Hbreak. rewrite Hbreak in Hloop. by inversion Hloop. }
  destruct (Hflags Hno) as [Hzero Hlines].
  split; [|split; [assumption|split; [assumption|]]].
  - apply Forall_lookup_2. intros i r' Hr'.
    destruct (same_run _ _ Hskel _ _ Hr') as (r & Hr & Hn & _).
    pose proof (Forall_lookup_1 _ _ _ _ Hwf Hr) as [? ?].
    unfold wf_run. rewrite <- Hn. split; assumption.
  - intros a b Hseg'. specialize (Hlines a b Hseg').
    assert (forall x y, seg_x (all_glyphs runs') x y = seg_x (all_glyphs runs) x y) as Hsame.
    { intros x y. apply seg_x_same.
      by rewrite <- !all_glyphs_skeleton, Hskel. }
    unfold line_ok in *. by rewrite !Hsame.
Qed.

(** What [shape] is made of when it returns. *)
Lemma shape_Ret (env : Env) (impl : Impl) (srcFont : SkFont) (utf8 : list Z)
    (leftToRight : bool) (point : SkPoint) (width : SkScalar)
    (pt : SkPoint) (lines : list EmittedLine) :
  shape env impl srcFont utf8 leftToRight point width = Ret (pt, lines) ->
  (exists e, segment_and_shape env impl srcFont utf8 leftToRight = Ret (inl e) /\
             pt = point /\ lines = []) \/
  (exists runs runs',
     segment_and_shape env impl srcFont utf8 leftToRight = Ret (inr runs) /\
     linebreak runs width = Ret runs' /\ emit env point runs' = Ret (pt, lines)).
Proof.
  unfold shape. intros H. bind_inv H as r Hseg. destruct r as [e|runs].
  - inv_ret. left. eauto.
  - bind_inv H as runs' Hbreak. right. exists runs, runs'. auto.
Qed.
(** ** The run iterators *)

Lemma utf8_next_snd (env : Env) (utf8 : list Z) (p e : Z) :
  (utf8_next env utf8 p e).2 = (NextUTF8 env utf8 p e).2.
Proof. unfold utf8_next. by destruct (NextUTF8 env utf8 p e). Qed.

Lemma ToUTF16_pos (u : Z) : 1 <= ToUTF16 u.
Proof. unfold ToUTF16. destruct (u <? 65536); lia. Qed.

Section Iterators.
Variable env : Env.
Variable utf8 : list Z.
Hypothesis Hdec : decoder_advances env utf8.

Lemma utf8_next_advances (p e : Z) : p < e -> p < (utf8_next env utf8 p e).2 <= e.
Proof using Hdec. intros H. rewrite utf8_next_snd. by apply Hdec. Qed.

Lemma script_consume_loop (fuel : nat) :
  forall it : ScriptRunIterator.t,
    ScriptRunIterator.fCurrent it <= ScriptRunIterator.fEnd it ->
    ScriptRunIterator.fEnd it - ScriptRunIterator.fCurrent it <= Z.of_nat fuel ->
    exists it', ScriptRunIterator.consume_loop env utf8 fuel it = Ret it' /\
      ScriptRunIterator.fCurrent it <= ScriptRunIterator.fCurrent it'
        <= ScriptRunIterator.fEnd it /\
      ScriptRunIterator.fEnd it' = ScriptRunIterator.fEnd it.
Proof using Hdec.
  induction fuel as [|fuel IH]; intros [cur end_ scr] Hle Hfuel; simpl in *.
  - destruct (cur <? end_) eqn:Hlt; [apply Z.ltb_lt in Hlt; lia|].
    eexists. split; [reflexivity|]. simpl. lia.
  - destruct (cur <? end_) eqn:Hlt.
    2:{ eexists. split; [reflexivity|]. simpl. lia. }
    apply Z.ltb_lt in Hlt. pose proof (utf8_next_advances cur end_ Hlt) as Hadv.
    destruct (utf8_next env utf8 cur end_) as [u p]. simpl in Hadv.
    assert (forall s, exists it',
              ScriptRunIterator.consume_loop env utf8 fuel (ScriptRunIterator.Mk p end_ s)
                = Ret it' /\
              cur <= ScriptRunIterator.fCurrent it' <= end_ /\
              ScriptRunIterator.fEnd it' = end_) as Hrec.
    { intros s. destruct (IH (ScriptRunIterator.Mk p end_ s)) as (it' & H1 & H2 & H3);
        simpl; try lia. exists it'. simpl in *. split; [assumption|]. split; [lia|assumption]. }
    repeat case_decide; try apply Hrec.
    eexists. split; [reflexivity|]. simpl. lia.
Qed.

Lemma script_consume (it : ScriptRunIterator.t) :
  ScriptRunIterator.fCurrent it < ScriptRunIterator.fEnd it ->
  exists it', ScriptRunIterator.consume env utf8 it = Ret it' /\
    ScriptRunIterator.fCurrent it < ScriptRunIterator.fCurrent it'
      <= ScriptRunIterator.fEnd it /\
    ScriptRunIterator.fEnd it' = ScriptRunIterator.fEnd it.
Proof using Hdec.
  intros Hlt. unfold ScriptRunIterator.consume.
  pose proof (utf8_next_advances _ _ Hlt) as Hadv.
  destruct (utf8_next env utf8 _ _) as [u p]. simpl in Hadv.
  destruct (script_consume_loop
              (Z.to_nat (ScriptRunIterator.fEnd it - p))
              (ScriptRunIterator.Mk p (ScriptRunIterator.fEnd it)
                 (hb_unicode_script env u))) as (it' & H1 & H2 & H3); simpl; try lia.
  rewrite H1. simpl in *. case_decide; eexists; (split; [reflexivity|]); simpl; lia.
Qed.

Lemma font_consume_loop (fuel : nat) :
  forall it : FontRunIterator.t,
    FontRunIterator.fCurrentTypeface it <> None ->
    FontRunIterator.fCurrent it <= FontRunIterator.fEnd it ->
    FontRunIterator.fEnd it - FontRunIterator.fCurrent it <= Z.of_nat fuel ->
    exists it', FontRunIterator.consume_loop env utf8 fuel it = Ret it' /\
      FontRunIterator.fCurrent it <= FontRunIterator.fCurrent it'
        <= FontRunIterator.fEnd it /\
      FontRunIterator.fEnd it' = FontRunIterator.fEnd it /\
      FontRunIterator.fCurrentTypeface it' <> None.
Proof using Hdec.
  induction fuel as [|fuel IH]; intros it Hcur Hle Hfuel; simpl in *.
  - destruct (FontRunIterator.fCurrent it <? FontRunIterator.fEnd it) eqn:Hlt;
      [apply Z.ltb_lt in Hlt; lia|].
    eexists. split; [reflexivity|]. repeat split; (lia || assumption).
  - destruct (FontRunIterator.fCurrent it <? FontRunIterator.fEnd it) eqn:Hlt.
    2:{ eexists. split; [reflexivity|]. repeat split; (lia || assumption). }
    apply Z.ltb_lt in Hlt. pose proof (utf8_next_advances _ _ Hlt) as Hadv.
    destruct (utf8_next env utf8 _ _) as [u p]. simpl in Hadv.
    destruct (_ && _).
    { eexists. split; [reflexivity|]. simpl. repeat split; (lia || assumption). }
    destruct (FontRunIterator.fCurrentTypeface it) as [cur|] eqn:Hc; [|done].
    destruct (negb (charsToGlyphs env cur u)).
    { eexists. split; [reflexivity|]. simpl. rewrite Hc. repeat split; (lia || done). }
    destruct (IH (FontRunIterator.with_current it p)) as (it' & H1 & H2 & H3 & H4);
      simpl; try lia; [by rewrite Hc|].
    exists it'. simpl in *. repeat split; (lia || assumption).
Qed.

Lemma font_consume (it : FontRunIterator.t) :
  fallback_never_null env ->
  FontRunIterator.fCurrent it < FontRunIterator.fEnd it ->
  exists it', FontRunIterator.consume env utf8 it = Ret it' /\
    FontRunIterator.fCurrent it < FontRunIterator.fCurrent it'
      <= FontRunIterator.fEnd it /\
    FontRunIterator.fEnd it' = FontRunIterator.fEnd it.
Proof using Hdec.
  intros Hfb Hlt. unfold FontRunIterator.consume.
  pose proof (utf8_next_advances _ _ Hlt) as Hadv.
  destruct (utf8_next env utf8 _ _) as [u p]. simpl in Hadv.
  set (it1 := FontRunIterator.select env u (FontRunIterator.with_current it p)).
  assert (FontRunIterator.fCurrent it1 = p /\
          FontRunIterator.fEnd it1 = FontRunIterator.fEnd it /\
          FontRunIterator.fCurrentTypeface it1 <> None) as (Hp & He & Hc).
  { unfold it1, FontRunIterator.select. simpl.
    destruct (charsToGlyphs env (FontRunIterator.fTypeface it) u); simpl; [done|].
    destruct (FontRunIterator.fFallbackTypeface it) as [fb|] eqn:Hfbt; simpl.
    - destruct (charsToGlyphs env fb u); simpl; [done|].
      repeat split. apply Hfb.
    - repeat split. apply Hfb. }
  destruct (font_consume_loop (Z.to_nat (FontRunIterator.fEnd it - p)) it1)
    as (it' & H1 & H2 & H3 & _); try assumption; try lia.
  exists it'. split; [assumption|]. lia.
Qed.

(** [consume] of the font iterator returns or uses a null typeface; when
    it returns the run has moved forward to an offset that decoding
    reaches. *)
Lemma font_consume_loop_cases (fuel : nat) :
  forall it : FontRunIterator.t,
    FontRunIterator.fEnd it = Z.of_nat (length utf8) ->
    (exists u, decodes env utf8 (FontRunIterator.fCurrent it) u) ->
    FontRunIterator.fCurrent it <= FontRunIterator.fEnd it ->
    FontRunIterator.fEnd it - FontRunIterator.fCurrent it <= Z.of_nat fuel ->
    FontRunIterator.consume_loop env utf8 fuel it = Fault \/
    exists it', FontRunIterator.consume_loop env utf8 fuel it = Ret it' /\
      FontRunIterator.fCurrent it <= FontRunIterator.fCurrent it'
        <= FontRunIterator.fEnd it /\
      FontRunIterator.fEnd it' = FontRunIterator.fEnd it /\
      FontRunIterator.fTypeface it' = FontRunIterator.fTypeface it /\
      exists u', decodes env utf8 (FontRunIterator.fCurrent it') u'.
Proof using Hdec.
  induction fuel as [|fuel IH]; intros it Hend Hd Hle Hfuel; simpl in *.
  - destruct (FontRunIterator.fCurrent it <? FontRunIterator.fEnd it) eqn:Hlt;
      [apply Z.ltb_lt in Hlt; lia|].
    right. eexists. split; [reflexivity|]. repeat split; (lia || assumption).
  - destruct (FontRunIterator.fCurrent it <? FontRunIterator.fEnd it) eqn:Hlt.
    2:{ right. eexists. split; [reflexivity|]. repeat split; (lia || assumption). }
    apply Z.ltb_lt in Hlt. pose proof (utf8_next_advances _ _ Hlt) as Hadv.
    destruct Hd as [w Hw].
    assert (FontRunIterator.fCurrent it < Z.of_nat (length utf8)) as Hlt' by lia.
    pose proof (decodes_next _ _ _ _ Hw Hlt') as Hnext. rewrite <- Hend in Hnext.
    destruct (utf8_next env utf8 _ _) as [u p]. simpl in Hadv, Hnext.
    destruct (_ && _).
    { right. eexists. split; [reflexivity|]. simpl. repeat split; (lia || eauto). }
    destruct (FontRunIterator.fCurrentTypeface it) as [cur|] eqn:Hc; [|by left].
    destruct (negb (charsToGlyphs env cur u)).
    { right. eexists. split; [reflexivity|]. simpl. repeat split; (lia || eauto). }
    destruct (IH (FontRunIterator.with_current it p))
      as [Hfault|(it' & H1 & H2 & H3 & H4 & H5)]; simpl; try lia; eauto.
    right. exists it'. simpl in *. repeat split; (lia || assumption).
Qed.

Lemma select_fields (u : Z) (it : FontRunIterator.t) :
  FontRunIterator.fCurrent (FontRunIterator.select env u it) = FontRunIterator.fCurrent it /\
  FontRunIterator.fEnd (FontRunIterator.select env u it) = FontRunIterator.fEnd it /\
  FontRunIterator.fTypeface (FontRunIterator.select env u it) = FontRunIterator.fTypeface it.
Proof.
  unfold FontRunIterator.select.
  destruct (charsToGlyphs env (FontRunIterator.fTypeface it) u); [done|].
  by destruct (match FontRunIterator.fFallbackTypeface it with
               | Some fb => charsToGlyphs env fb u
               | None => false
               end).
Qed.

Lemma font_consume_cases (it : FontRunIterator.t) :
  FontRunIterator.fEnd it = Z.of_nat (length utf8) ->
  (exists u, decodes env utf8 (FontRunIterator.fCurrent it) u) ->
  FontRunIterator.fCurrent it < FontRunIterator.fEnd it ->
  FontRunIterator.consume env utf8 it = Fault \/
  exists it', FontRunIterator.consume env utf8 it = Ret it' /\
    FontRunIterator.fCurrent it < FontRunIterator.fCurrent it'
      <= FontRunIterator.fEnd it /\
    FontRunIterator.fEnd it' = FontRunIterator.fEnd it /\
    FontRunIterator.fTypeface it' = FontRunIterator.fTypeface it /\
    exists u', decodes env utf8 (FontRunIterator.fCurrent it') u'.
Proof using Hdec.
  intros Hend [w Hw] Hlt. unfold FontRunIterator.consume.
  pose proof (utf8_next_advances _ _ Hlt) as Hadv.
  assert (FontRunIterator.fCurrent it < Z.of_nat (length utf8)) as Hlt' by lia.
  pose proof (decodes_next _ _ _ _ Hw Hlt') as Hnext. rewrite <- Hend in Hnext.
  destruct (utf8_next env utf8 _ _) as [u p]. simpl in Hadv, Hnext.
  set (it1 := FontRunIterator.select env u (FontRunIterator.with_current it p)).
  destruct (select_fields u (FontRunIterator.with_current it p)) as (Hp & He & Ht).
  fold it1 in Hp, He, Ht. simpl in Hp, He, Ht.
  destruct (font_consume_loop_cases (Z.to_nat (FontRunIterator.fEnd it - p)) it1)
    as [Hfault|(it' & H1 & H2 & H3 & H4 & H5)]; rewrite ?Hp, ?He; try lia; eauto.
  right. exists it'. split; [assumption|]. rewrite Hp, He in H2.
  repeat split; (lia || congruence || assumption).
Qed.

(** On a text that never brings it to a null typeface, [consume] of the
    font iterator does not fault. *)
Lemma font_consume_safe (primary : SkTypeface) (it : FontRunIterator.t) :
  no_null_typeface env utf8 primary ->
  FontRunIterator.fTypeface it = primary ->
  FontRunIterator.fEnd it = Z.of_nat (length utf8) ->
  (exists u, decodes env utf8 (FontRunIterator.fCurrent it) u) ->
  FontRunIterator.fCurrent it < FontRunIterator.fEnd it ->
  FontRunIterator.consume env utf8 it <> Fault.
Proof using Hdec.
  intros Hnn Htf Hend [w Hw] Hlt. unfold FontRunIterator.consume.
  pose proof (utf8_next_advances _ _ Hlt) as Hadv.
  assert (FontRunIterator.fCurrent it < Z.of_nat (length utf8)) as Hlt' by lia.
  specialize (Hnn _ _ Hw Hlt'). unfold code_point_at in Hnn. rewrite <- Hend in Hnn.
  destruct (utf8_next env utf8 (FontRunIterator.fCurrent it) (FontRunIterator.fEnd it))
    as [u p] eqn:Hu. simpl in Hadv, Hnn.
  set (it1 := FontRunIterator.select env u (FontRunIterator.with_current it p)).
  destruct (select_fields u (FontRunIterator.with_current it p)) as (Hp & He & Ht).
  fold it1 in Hp, He, Ht. simpl in Hp, He, Ht.
  destruct (FontRunIterator.fCurrentTypeface it1) as [cur|] eqn:Hcur.
  - destruct (font_consume_loop (Z.to_nat (FontRunIterator.fEnd it - p)) it1)
      as (it' & H1 & _); rewrite ?Hp, ?He, ?Hcur; try lia; [done|].
    rewrite H1. discriminate.
  - assert (charsToGlyphs env primary u = false /\
            matchFamilyStyleCharacter env primary u = None) as [Hno Hmatch].
    { unfold it1, FontRunIterator.select in Hcur. simpl in Hcur. rewrite Htf in Hcur.
      destruct (charsToGlyphs env primary u); [discriminate|].
      destruct (match FontRunIterator.fFallbackTypeface it with
                | Some fb => charsToGlyphs env fb u
                | None => false
                end) eqn:Hfb; simpl in Hcur.
      - destruct (FontRunIterator.fFallbackTypeface it); discriminate.
      - done. }
    destruct (Z.to_nat (FontRunIterator.fEnd it - p)) as [|fuel] eqn:Hfuel; simpl.
    + rewrite Hp, He. destruct (p <? FontRunIterator.fEnd it) eqn:Hpe; [|discriminate].
      apply Z.ltb_lt in Hpe. lia.
    + rewrite Hp, He. destruct (p <? FontRunIterator.fEnd it) eqn:Hpe; [|discriminate].
      apply Z.ltb_lt in Hpe. specialize (Hnn Hno Hmatch Hpe).
      destruct (utf8_next env utf8 p (FontRunIterator.fEnd it)) as [u' p'].
      simpl in Hnn. rewrite Hcur, Ht, Htf, Hnn. simpl. discriminate.
Qed.

Lemma bidi_advance_decodes (it : BiDiRunIterator.t) :
  BiDiRunIterator.fEndOfAllRuns it = Z.of_nat (length utf8) ->
  decodes env utf8 (BiDiRunIterator.fEndOfCurrentRun it)
    (BiDiRunIterator.fUTF16LogicalPosition it) ->
  BiDiRunIterator.fEndOfCurrentRun it < Z.of_nat (length utf8) ->
  let it' := BiDiRunIterator.advance env utf8 it in
  BiDiRunIterator.fEndOfAllRuns it' = Z.of_nat (length utf8) /\
  BiDiRunIterator.fBidi it' = BiDiRunIterator.fBidi it /\
  decodes env utf8 (BiDiRunIterator.fEndOfCurrentRun it')
    (BiDiRunIterator.fUTF16LogicalPosition it') /\
  BiDiRunIterator.fEndOfCurrentRun it < BiDiRunIterator.fEndOfCurrentRun it'
    <= Z.of_nat (length utf8) /\
  BiDiRunIterator.fUTF16LogicalPosition it < BiDiRunIterator.fUTF16LogicalPosition it'.
Proof using Hdec.
  intros Hall Hdecodes Hlt. simpl. unfold BiDiRunIterator.advance. rewrite Hall.
  pose proof (decodes_next _ _ _ _ Hdecodes Hlt) as Hnext.
  pose proof (utf8_next_advances _ _ Hlt) as Hadv.
  destruct (utf8_next env utf8 _ _) as [u p]. simpl in *.
  pose proof (ToUTF16_pos u). repeat split; (assumption || lia).
Qed.

Lemma bidi_consume_loop (bidi0 : UBiDi) (fuel : nat) :
  (forall p q, decodes env utf8 p q ->
     (q = ubidi_getLength bidi0 <-> p = Z.of_nat (length utf8))) ->
  forall it : BiDiRunIterator.t,
    BiDiRunIterator.fEndOfAllRuns it = Z.of_nat (length utf8) ->
    BiDiRunIterator.fBidi it = bidi0 ->
    decodes env utf8 (BiDiRunIterator.fEndOfCurrentRun it)
      (BiDiRunIterator.fUTF16LogicalPosition it) ->
    BiDiRunIterator.fEndOfCurrentRun it <= Z.of_nat (length utf8) ->
    ubidi_getLength bidi0 - BiDiRunIterator.fUTF16LogicalPosition it <= Z.of_nat fuel ->
    exists it',
      BiDiRunIterator.consume_loop env utf8 fuel (ubidi_getLength bidi0) it = Ret it' /\
      BiDiRunIterator.fEndOfAllRuns it' = Z.of_nat (length utf8) /\
      BiDiRunIterator.fBidi it' = bidi0 /\
      decodes env utf8 (BiDiRunIterator.fEndOfCurrentRun it')
        (BiDiRunIterator.fUTF16LogicalPosition it') /\
      BiDiRunIterator.fEndOfCurrentRun it <= BiDiRunIterator.fEndOfCurrentRun it'
        <= Z.of_nat (length utf8).
Proof using Hdec.
  intros Hcons. induction fuel as [|fuel IH]; intros it Hall Hb Hd Hle Hfuel; simpl.
  - destruct (_ <? _) eqn:Hlt; [apply Z.ltb_lt in Hlt; lia|].
    exists it. repeat split; (assumption || lia).
  - destruct (_ <? _) eqn:Hlt.
    2:{ exists it. repeat split; (assumption || lia). }
    apply Z.ltb_lt in Hlt. case_decide.
    { exists it. repeat split; (assumption || lia). }
    assert (BiDiRunIterator.fEndOfCurrentRun it < Z.of_nat (length utf8)) as Hin.
    { destruct (decide (BiDiRunIterator.fEndOfCurrentRun it = Z.of_nat (length utf8)))
        as [Heq|]; [|lia].
      apply (Hcons _ _ Hd) in Heq. lia. }
    destruct (bidi_advance_decodes it Hall Hd Hin) as (Ha1 & Ha2 & Ha3 & Ha4 & Ha5).
    destruct (IH (BiDiRunIterator.advance env utf8 it)) as (it' & H1 & H2 & H3 & H4 & H5);
      try assumption; try lia; [congruence|].
    exists it'. repeat split; (assumption || lia).
Qed.

Lemma bidi_consume (it : BiDiRunIterator.t) :
  (forall p q, decodes env utf8 p q ->
     (q = ubidi_getLength (BiDiRunIterator.fBidi it) <-> p = Z.of_nat (length utf8))) ->
  BiDiRunIterator.fEndOfAllRuns it = Z.of_nat (length utf8) ->
  decodes env utf8 (BiDiRunIterator.fEndOfCurrentRun it)
    (BiDiRunIterator.fUTF16LogicalPosition it) ->
  BiDiRunIterator.fEndOfCurrentRun it < Z.of_nat (length utf8) ->
  exists it', BiDiRunIterator.consume env utf8 it = Ret it' /\
    BiDiRunIterator.fEndOfAllRuns it' = Z.of_nat (length utf8) /\
    BiDiRunIterator.fBidi it' = BiDiRunIterator.fBidi it /\
    decodes env utf8 (BiDiRunIterator.fEndOfCurrentRun it')
      (BiDiRunIterator.fUTF16LogicalPosition it') /\
    BiDiRunIterator.fEndOfCurrentRun it < BiDiRunIterator.fEndOfCurrentRun it'
      <= Z.of_nat (length utf8).
Proof using Hdec.
  intros Hcons Hall Hd Hlt. unfold BiDiRunIterator.consume.
  set (it1 := BiDiRunIterator.Mk _ _ _ _ _).
  destruct (bidi_advance_decodes it1 Hall Hd Hlt) as (Ha1 & Ha2 & Ha3 & Ha4 & Ha5).
  destruct (bidi_consume_loop (BiDiRunIterator.fBidi it)
              (Z.to_nat (ubidi_getLength (BiDiRunIterator.fBidi it) -
                         BiDiRunIterator.fUTF16LogicalPosition
                           (BiDiRunIterator.advance env utf8 it1)))
              Hcons (BiDiRunIterator.advance env utf8 it1))
    as (it' & H1 & H2 & H3 & H4 & H5); try assumption; try lia.
  exists it'. simpl in *. repeat split; (assumption || lia).
Qed.
End Iterators.
(** ** RunIteratorQueue *)

Lemma pq_insert_perm (q : RunIteratorQueue) (r : RunIteratorRef) (l : list RunIteratorRef) :
  pq_insert q r l ≡ₚ r :: l.
Proof.
  induction l as [|r' l IH]; simpl; [reflexivity|].
  destruct (_ <? _); [reflexivity|]. rewrite IH. apply Permutation_swap.
Qed.

Lemma pq_insert_sorted (q : RunIteratorQueue) (r : RunIteratorRef)
    (l : list RunIteratorRef) :
  StronglySorted (fun a b => ref_endOfCurrentRun q a <= ref_endOfCurrentRun q b) l ->
  StronglySorted (fun a b => ref_endOfCurrentRun q a <= ref_endOfCurrentRun q b)
    (pq_insert q r l).
Proof.
  induction 1 as [|r' l Hs IH Hall]; simpl.
  - repeat constructor.
  - destruct (_ <? _) eqn:Hlt.
    + apply Z.ltb_lt in Hlt. constructor; [by constructor|].
      constructor; [lia|]. eapply Forall_impl; [exact Hall|]. simpl. intros. lia.
    + apply Z.ltb_ge in Hlt. constructor; [assumption|].
      rewrite pq_insert_perm. constructor; assumption.
Qed.

Lemma all_refs_NoDup : NoDup all_refs.
Proof.
  unfold all_refs.
  repeat (constructor; [rewrite ?elem_of_cons, ?elem_of_nil; intuition discriminate|]).
  constructor.
Qed.

Lemma all_refs_elem (r : RunIteratorRef) : r ∈ all_refs.
Proof. unfold all_refs. destruct r; repeat constructor. Qed.

Lemma sorted_head_le (q : RunIteratorQueue) (r0 r : RunIteratorRef)
    (l : list RunIteratorRef) :
  StronglySorted (fun a b => ref_endOfCurrentRun q a <= ref_endOfCurrentRun q b) (r0 :: l) ->
  r ∈ r0 :: l -> ref_endOfCurrentRun q r0 <= ref_endOfCurrentRun q r.
Proof.
  intros Hs Hin. apply StronglySorted_inv in Hs as [_ Hall].
  apply elem_of_cons in Hin as [->|Hin]; [lia|].
  rewrite Forall_forall in Hall. by apply Hall.
Qed.

Lemma sorted_same_ends (q q1 : RunIteratorQueue) (l : list RunIteratorRef) :
  (forall r, r ∈ l -> ref_endOfCurrentRun q1 r = ref_endOfCurrentRun q r) ->
  StronglySorted (fun a b => ref_endOfCurrentRun q a <= ref_endOfCurrentRun q b) l ->
  StronglySorted (fun a b => ref_endOfCurrentRun q1 a <= ref_endOfCurrentRun q1 b) l.
Proof.
  intros Hsame Hs. induction Hs as [|a l Hs IH Hall]; constructor.
  - apply IH. intros r Hr. apply Hsame. by right.
  - rewrite Forall_forall in *. intros r Hr.
    rewrite (Hsame a) by (by left). rewrite (Hsame r) by (by right). by apply Hall.
Qed.

Lemma behind_same_ends (q q1 : RunIteratorQueue) (leastEnd : Z) (l : list RunIteratorRef) :
  (forall r, r ∈ l -> ref_endOfCurrentRun q1 r = ref_endOfCurrentRun q r) ->
  behind q1 leastEnd l = behind q leastEnd l.
Proof.
  unfold behind. induction l as [|a l IH]; intros Hsame; [reflexivity|].
  rewrite !filter_cons. rewrite (Hsame a) by (by left).
  specialize (IH (fun r Hr => Hsame r (list_elem_of_further _ _ _ Hr))).
  destruct (decide _); simpl; by rewrite IH.
Qed.

Lemma consumed_from_trans (env : Env) (utf8 : list Z) (q0 q1 q2 : RunIteratorQueue) :
  consumed_from env utf8 q0 q1 -> consumed_from env utf8 q1 q2 ->
  consumed_from env utf8 q0 q2.
Proof.
  intros H1 H2. induction H2 as [|q q' r _ IH Hpeek Hlt Hcons]; [assumption|].
  by eapply consumed_step.
Qed.

(** When every call of [consume] advances, none faults. *)
Lemma consume_advances_no_fault (env : Env) (utf8 : list Z) (q0 q : RunIteratorQueue) :
  consume_advances env utf8 q0 -> consumed_from env utf8 q0 q ->
  font_faults env utf8 q -> False.
Proof.
  intros Hadv Hfrom (Hpeek & Hlt & Hfault).
  destruct (Hadv q FontRef Hfrom Hpeek Hlt) as (q' & Hret & _).
  simpl in Hret. rewrite Hfault in Hret. discriminate.
Qed.

Section Queue.
Variable env : Env.
Variable utf8 : list Z.
Variable bidi0 : UBiDi.
Hypothesis Hdec : decoder_advances env utf8.
Hypothesis Hcons :
  forall p q, decodes env utf8 p q ->
    (q = ubidi_getLength bidi0 <-> p = Z.of_nat (length utf8)).

Let N : Z := Z.of_nat (length utf8).

Lemma ref_end_le (q : RunIteratorQueue) (r : RunIteratorRef) :
  iters_inv env utf8 bidi0 q -> ref_endOfCurrentRun q r <= N.
Proof. unfold N. intros [? ? ? ? ? ? ? ? ?]. destruct r; simpl; assumption. Qed.

Lemma ref_atEnd_iff (q : RunIteratorQueue) (r : RunIteratorRef) :
  iters_inv env utf8 bidi0 q ->
  (ref_atEnd q r = true <-> ref_endOfCurrentRun q r = N).
Proof using Hcons.
  unfold N in *. intros [Ha Hb Hd Hle Hse Hsl Hfe Hfl Hfd]. destruct r; simpl.
  - unfold BiDiRunIterator.atEnd, BiDiRunIterator.endOfCurrentRun.
    rewrite Z.eqb_eq, Hb. exact (Hcons _ _ Hd).
  - unfold ScriptRunIterator.atEnd, ScriptRunIterator.endOfCurrentRun.
    rewrite Z.eqb_eq, Hse. reflexivity.
  - unfold FontRunIterator.atEnd, FontRunIterator.endOfCurrentRun.
    rewrite Z.eqb_eq, Hfe. reflexivity.
Qed.

(** [consume] through a pointer returns with the run moved forward and
    the other iterators as they were; only that of the font iterator can
    fault instead. *)
Lemma ref_consume_spec (q : RunIteratorQueue) (r : RunIteratorRef) :
  iters_inv env utf8 bidi0 q -> ref_endOfCurrentRun q r < N ->
  (r = FontRef /\ FontRunIterator.consume env utf8 (font q) = Fault /\
   ref_consume env utf8 q r = Fault) \/
  exists q', ref_consume env utf8 q r = Ret q' /\
    iters_inv env utf8 bidi0 q' /\
    ref_endOfCurrentRun q r < ref_endOfCurrentRun q' r <= N /\
    (forall r', r' <> r -> ref_endOfCurrentRun q' r' = ref_endOfCurrentRun q r') /\
    fRunIterators q' = fRunIterators q.
Proof using Hdec Hcons.
  unfold N in *. intros [Ha Hb Hd Hle Hse Hsl Hfe Hfl Hfd] Hlt.
  destruct r; simpl in *.
  - right.
    destruct (bidi_consume env utf8 Hdec (bidi q)) as (it' & H1 & H2 & H3 & H4 & H5);
      try assumption; [by rewrite Hb|].
    rewrite H1. simpl. eexists. split; [reflexivity|].
    split; [constructor; simpl; (congruence || assumption || lia)|].
    split; [assumption|]. split; [|reflexivity]. intros r' Hr'. by destruct r'.
  - right. unfold ScriptRunIterator.endOfCurrentRun in Hlt.
    destruct (script_consume env utf8 Hdec (script q)) as (it' & H1 & H2 & H3);
      [lia|].
    rewrite H1. simpl. eexists. split; [reflexivity|].
    split; [constructor; simpl; (congruence || assumption || lia)|].
    split; [unfold ScriptRunIterator.endOfCurrentRun; simpl; lia|].
    split; [|reflexivity]. intros r' Hr'. by destruct r'.
  - unfold FontRunIterator.endOfCurrentRun in Hlt.
    destruct (font_consume_cases env utf8 Hdec (font q) Hfe Hfd)
      as [Hfault|(it' & H1 & H2 & H3 & H4 & H5)]; [lia| |].
    { left. rewrite Hfault. done. }
    right. rewrite H1. simpl. eexists. split; [reflexivity|].
    split; [constructor; simpl; (congruence || assumption || lia)|].
    split; [unfold FontRunIterator.endOfCurrentRun; simpl; lia|].
    split; [|reflexivity]. intros r' Hr'. by destruct r'.
Qed.

(** The loop of [advanceRuns] returns with every run ending beyond
    [leastEnd], unless a [consume] of the font iterator faults. *)
Lemma advanceRuns_loop_spec (leastEnd : Z) (fuel : nat) :
  leastEnd < N ->
  forall q, iters_inv env utf8 bidi0 q -> queue_ok q ->
    (forall r, leastEnd <= ref_endOfCurrentRun q r) ->
    (behind q leastEnd (fRunIterators q) <= fuel)%nat ->
    (advanceRuns_loop env utf8 fuel leastEnd q = Fault /\
     exists q1, consumed_from env utf8 q q1 /\ font_faults env utf8 q1) \/
    exists q', advanceRuns_loop env utf8 fuel leastEnd q = Ret q' /\
      consumed_from env utf8 q q' /\
      iters_inv env utf8 bidi0 q' /\ queue_ok q' /\
      (forall r, leastEnd < ref_endOfCurrentRun q' r).
Proof using Hdec Hcons.
  intros HleastEnd.
  induction fuel as [|fuel IH]; intros q Hinv [Hsorted Hperm] Hge Hfuel.
  - destruct (fRunIterators q) as [|r0 l] eqn:Hl.
    { apply Permutation_length in Hperm. simpl in Hperm. lia. }
    simpl. unfold peek, index. rewrite Hl. simpl.
    destruct (_ <=? _) eqn:Hcmp.
    { apply Z.leb_le in Hcmp. unfold behind in Hfuel. rewrite filter_cons in Hfuel.
      rewrite decide_True in Hfuel by assumption. simpl in Hfuel. lia. }
    apply Z.leb_gt in Hcmp. right. exists q. split; [reflexivity|].
    split; [constructor|]. split; [assumption|].
    split; [split; [by rewrite Hl|by rewrite Hl]|].
    intros r. assert (r ∈ r0 :: l) as Hin.
    { rewrite Hperm. apply all_refs_elem. }
    pose proof (sorted_head_le q r0 r l Hsorted Hin). lia.
  - destruct (fRunIterators q) as [|r0 l] eqn:Hl.
    { apply Permutation_length in Hperm. simpl in Hperm. lia. }
    assert (peek q = Ret r0) as Hpeek by (unfold peek, index; by rewrite Hl).
    simpl. rewrite Hpeek. simpl.
    destruct (_ <=? _) eqn:Hcmp.
    2:{ apply Z.leb_gt in Hcmp. right. exists q. split; [reflexivity|].
        split; [constructor|]. split; [assumption|].
        split; [split; [by rewrite Hl|by rewrite Hl]|].
        intros r. assert (r ∈ r0 :: l) as Hin.
        { rewrite Hperm. apply all_refs_elem. }
        pose proof (sorted_head_le q r0 r l Hsorted Hin). lia. }
    apply Z.leb_le in Hcmp.
    assert (iters_inv env utf8 bidi0 (pop q)) as Hinvp by (by destruct Hinv).
    assert (ref_endOfCurrentRun q r0 < N) as Hr0 by lia.
    destruct (ref_consume_spec (pop q) r0 Hinvp Hr0)
      as [(-> & Hfault & Hrc)|(q1 & H1 & Hinv1 & Hadv & Hother & Hlist)].
    { left. rewrite Hrc. split; [reflexivity|]. exists q. split; [constructor|].
      split; [assumption|]. split; assumption. }
    rewrite H1. simpl.
    change (ref_endOfCurrentRun (pop q) r0) with (ref_endOfCurrentRun q r0) in Hadv.
    assert (consumed_from env utf8 q (insert q1 r0)) as Hstep
      by (eapply consumed_step; [constructor|eassumption..]).
    assert (fRunIterators q1 = l) as Hl1.
    { rewrite Hlist. unfold pop. simpl. by rewrite Hl. }
    assert (NoDup (r0 :: l)) as Hnd by (rewrite Hperm; apply all_refs_NoDup).
    apply NoDup_cons in Hnd as [Hnotin Hnd].
    assert (forall r, r ∈ l -> ref_endOfCurrentRun q1 r = ref_endOfCurrentRun q r) as Hsame.
    { intros r Hr. rewrite Hother; [reflexivity|]. intros ->. contradiction. }
    apply StronglySorted_inv in Hsorted as [Hsl Hall].
    destruct (IH (insert q1 r0)) as [(Hf & q2 & Hfrom & Hfaults)|
                                     (q' & Hloop & Hfrom & Hrest)].
    + by destruct Hinv1.
    + split.
      * unfold insert. simpl. rewrite Hl1.
        apply (pq_insert_sorted q1 r0 l).
        by apply (sorted_same_ends q q1).
      * unfold insert. simpl. rewrite Hl1, pq_insert_perm. assumption.
    + intros r. change (leastEnd <= ref_endOfCurrentRun q1 r).
      destruct (decide (r = r0)) as [->|Hne]; [specialize (Hge r0); lia|].
      rewrite Hother by assumption. apply (Hge r).
    + assert (behind (insert q1 r0) leastEnd (fRunIterators (insert q1 r0)) =
              behind q leastEnd l) as ->.
      { unfold insert at 2. simpl. rewrite Hl1.
        rewrite (behind_same_ends q1 (insert q1 r0)) by (intros r _; by destruct r).
        rewrite <- (behind_same_ends q q1 leastEnd l Hsame).
        unfold behind.
        assert (filter (fun r => ref_endOfCurrentRun q1 r <= leastEnd) (pq_insert q1 r0 l)
                ≡ₚ filter (fun r => ref_endOfCurrentRun q1 r <= leastEnd) (r0 :: l)) as Hp
          by (by rewrite pq_insert_perm).
        rewrite (Permutation_length Hp). pose proof (Hge r0).
        by rewrite filter_cons, decide_False by (simpl; lia). }
      unfold behind in *.
      rewrite filter_cons, decide_True in Hfuel by assumption. simpl in Hfuel.
      lia.
    + left. split; [assumption|]. exists q2. split; [|assumption].
      by apply (consumed_from_trans _ _ _ (insert q1 r0)).
    + right. exists q'. split; [assumption|]. split; [|assumption].
      by apply (consumed_from_trans _ _ _ (insert q1 r0)).
Qed.
End Queue.
(** ** The boundaries of the segments *)

Lemma bidi_Make_Some (env : Env) (utf8 : list Z) (utf8Bytes level : Z)
    (it : BiDiRunIterator.t) :
  BiDiRunIterator.Make env utf8 utf8Bytes level = Ret (Some it) ->
  exists bidi, ubidi_setPara env utf8 level = Some bidi /\
    it = BiDiRunIterator.Mk bidi 0 utf8Bytes 0 UBIDI_DEFAULT_LTR.
Proof.
  unfold BiDiRunIterator.Make. intros H.
  destruct (negb (fits_int utf8Bytes)); [discriminate|].
  destruct (u_strFromUTF8_length env utf8) as [units|]; [|discriminate].
  destruct (units <? 0); [discriminate|].
  destruct (negb (u_strFromUTF8 env utf8 units)); [discriminate|].
  destruct (negb (ubidi_openSized env units)); [discriminate|].
  destruct (ubidi_setPara env utf8 level) as [bidi|]; [|discriminate].
  inversion H. eauto.
Qed.

Lemma make_segmenter_inr (env : Env) (impl : Impl) (utf8 : list Z) (leftToRight : bool)
    (q : RunIteratorQueue) :
  make_segmenter env impl utf8 leftToRight = Ret (inr q) ->
  exists level bidi0, ubidi_setPara env utf8 level = Some bidi0 /\
    bidi q = BiDiRunIterator.Mk bidi0 0 (Z.of_nat (length utf8)) 0 UBIDI_DEFAULT_LTR /\
    script q = ScriptRunIterator.Mk 0 (Z.of_nat (length utf8)) HB_SCRIPT_UNKNOWN /\
    FontRunIterator.fCurrent (font q) = 0 /\
    FontRunIterator.fEnd (font q) = Z.of_nat (length utf8) /\
    fRunIterators q = all_refs.
Proof.
  unfold make_segmenter. intros H. bind_inv H as b Hb.
  destruct b as [b|]; [|discriminate].
  apply bidi_Make_Some in Hb as (bidi0 & Hpara & ->).
  simpl in H.
  destruct (negb (utext_openUTF8 env utf8)); [discriminate|].
  destruct (negb (ubrk_setUText env utf8)); [discriminate|].
  inversion H; subst q. eexists _, bidi0. split; [exact Hpara|].
  simpl. repeat split.
Qed.

(** The font iterator of the queue that [shape] builds is on the typeface
    of the shaper. *)
Lemma make_segmenter_typeface (env : Env) (impl : Impl) (utf8 : list Z)
    (leftToRight : bool) (q : RunIteratorQueue) :
  make_segmenter env impl utf8 leftToRight = Ret (inr q) ->
  FontRunIterator.fTypeface (font q) = impl_fTypeface impl.
Proof.
  unfold make_segmenter. intros H. bind_inv H as b Hb.
  destruct b as [b|]; [|discriminate]. simpl in H.
  destruct (negb (utext_openUTF8 env utf8)); [discriminate|].
  destruct (negb (ubrk_setUText env utf8)); [discriminate|].
  by inversion H.
Qed.

Section Boundaries.
Variable env : Env.
Variable utf8 : list Z.
Variable bidi0 : UBiDi.
Hypothesis Hdec : decoder_advances env utf8.
Hypothesis Hcons :
  forall p q, decodes env utf8 p q ->
    (q = ubidi_getLength bidi0 <-> p = Z.of_nat (length utf8)).

Lemma queue_head (q : RunIteratorQueue) :
  iters_inv env utf8 bidi0 q -> queue_ok q ->
  exists r0, peek q = Ret r0 /\
    queue_endOfCurrentRun q = Ret (ref_endOfCurrentRun q r0) /\
    forall r, ref_endOfCurrentRun q r0 <= ref_endOfCurrentRun q r.
Proof.
  intros Hinv [Hsorted Hperm].
  destruct (fRunIterators q) as [|r0 l] eqn:Hl.
  { apply Permutation_length in Hperm. simpl in Hperm. lia. }
  exists r0. unfold queue_endOfCurrentRun, peek, index. rewrite Hl. simpl.
  repeat split. intros r. apply (sorted_head_le q r0 r l Hsorted).
  rewrite Hperm. apply all_refs_elem.
Qed.

(** [advanceRuns] on a queue whose least end is [e]: at the end of the
    input it returns false; before it, it returns true with a greater
    least end, unless a [consume] of the font iterator faults. *)
Lemma advanceRuns_spec (q : RunIteratorQueue) (e : Z) :
  iters_inv env utf8 bidi0 q -> queue_ok q -> queue_endOfCurrentRun q = Ret e ->
  e <= Z.of_nat (length utf8) /\
  ((e = Z.of_nat (length utf8) /\ advanceRuns env utf8 q = Ret (false, q)) \/
   (e < Z.of_nat (length utf8) /\
    ((advanceRuns env utf8 q = Fault /\
      exists q1, consumed_from env utf8 q q1 /\ font_faults env utf8 q1) \/
     exists q' e', advanceRuns env utf8 q = Ret (true, q') /\
       consumed_from env utf8 q q' /\
       iters_inv env utf8 bidi0 q' /\ queue_ok q' /\
       queue_endOfCurrentRun q' = Ret e' /\ e < e' <= Z.of_nat (length utf8)))).
Proof using Hdec Hcons.
  intros Hinv Hok He.
  destruct (queue_head q Hinv Hok) as (r0 & Hpeek & Hend & Hmin).
  rewrite Hend in He. inversion He; subst e. clear He.
  pose proof (ref_end_le env utf8 bidi0 q r0 Hinv) as Hle. split; [exact Hle|].
  unfold advanceRuns. rewrite Hpeek. simpl.
  destruct (ref_atEnd q r0) eqn:Hat.
  - left. split; [|reflexivity]. by apply (ref_atEnd_iff env utf8 bidi0 Hcons q r0 Hinv).
  - right.
    assert (ref_endOfCurrentRun q r0 < Z.of_nat (length utf8)) as Hlt.
    { destruct (decide (ref_endOfCurrentRun q r0 = Z.of_nat (length utf8))) as [Heq|];
        [|lia].
      apply (ref_atEnd_iff env utf8 bidi0 Hcons q r0 Hinv) in Heq. congruence. }
    split; [assumption|].
    destruct (advanceRuns_loop_spec env utf8 bidi0 Hdec Hcons
                (ref_endOfCurrentRun q r0) (length (fRunIterators q)) Hlt q Hinv Hok Hmin)
      as [(Hloop & Hfault)|(q' & Hloop & Hfrom & Hinv' & Hok' & Hgt)].
    { unfold behind. apply length_filter. }
    { left. rewrite Hloop. split; [reflexivity|assumption]. }
    right. rewrite Hloop. simpl.
    destruct (queue_head q' Hinv' Hok') as (r1 & _ & Hend' & _).
    exists q', (ref_endOfCurrentRun q' r1).
    split; [reflexivity|]. split; [assumption|]. split; [assumption|].
    split; [assumption|].
    split; [assumption|]. split; [apply Hgt|by apply (ref_end_le env utf8 bidi0)].
Qed.

(** What [advanceRuns] has done when it returns. *)
Lemma advanceRuns_Ret (q q' : RunIteratorQueue) (e : Z) (more : bool) :
  iters_inv env utf8 bidi0 q -> queue_ok q -> queue_endOfCurrentRun q = Ret e ->
  advanceRuns env utf8 q = Ret (more, q') ->
  e <= Z.of_nat (length utf8) /\
  (if more
   then e < Z.of_nat (length utf8) /\ consumed_from env utf8 q q' /\
        iters_inv env utf8 bidi0 q' /\ queue_ok q' /\
        exists e', queue_endOfCurrentRun q' = Ret e' /\ e < e' <= Z.of_nat (length utf8)
   else e = Z.of_nat (length utf8) /\ q' = q).
Proof using Hdec Hcons.
  intros Hinv Hok He Hadv.
  destruct (advanceRuns_spec q e Hinv Hok He)
    as [Hle [[-> H]|(Hlt & [[H _]|(q1 & e' & H & Hfrom & Hinv' & Hok' & He' & Hee')])]];
    rewrite H in Hadv; inversion Hadv; subst; (split; [assumption|]).
  - done.
  - split; [assumption|]. split; [assumption|]. split; [assumption|].
    split; [assumption|]. eauto.
Qed.

Section Advancing.
Variable q0 : RunIteratorQueue.
Hypothesis Hadv : consume_advances env utf8 q0.

(** When every [consume] advances, [advanceRuns] returns. *)
Lemma advanceRuns_returns (q : RunIteratorQueue) (e : Z) :
  consumed_from env utf8 q0 q ->
  iters_inv env utf8 bidi0 q -> queue_ok q -> queue_endOfCurrentRun q = Ret e ->
  e <= Z.of_nat (length utf8) /\
  ((e = Z.of_nat (length utf8) /\ advanceRuns env utf8 q = Ret (false, q)) \/
   (e < Z.of_nat (length utf8) /\
    exists q' e', advanceRuns env utf8 q = Ret (true, q') /\
      consumed_from env utf8 q0 q' /\
      iters_inv env utf8 bidi0 q' /\ queue_ok q' /\
      queue_endOfCurrentRun q' = Ret e' /\ e < e' <= Z.of_nat (length utf8))).
Proof using Hdec Hcons Hadv.
  intros Hfrom Hinv Hok He.
  destruct (advanceRuns_spec q e Hinv Hok He)
    as [Hle [?|(Hlt & [(_ & q1 & Hfrom1 & Hfault)|
                       (q' & e' & H & Hfrom' & Hinv' & Hok' & He' & Hee')])]];
    (split; [assumption|]).
  - by left.
  - exfalso. apply (consume_advances_no_fault env utf8 q0 q1 Hadv); [|assumption].
    by apply (consumed_from_trans _ _ _ q).
  - right. split; [assumption|]. exists q', e'.
    split; [assumption|]. split; [by apply (consumed_from_trans _ _ _ q)|].
    split; [assumption|]. split; [assumption|]. split; [assumption|lia].
Qed.

Lemma boundaries_spec (fuel : nat) :
  forall q e, consumed_from env utf8 q0 q ->
    iters_inv env utf8 bidi0 q -> queue_ok q ->
    queue_endOfCurrentRun q = Ret e ->
    (Z.to_nat (Z.of_nat (length utf8) - e) < fuel)%nat ->
    exists bs, boundaries env utf8 fuel q = Ret bs /\
      StronglySorted Z.lt (e :: bs) /\ last (e :: bs) = Some (Z.of_nat (length utf8)).
Proof using Hdec Hcons Hadv.
  induction fuel as [|fuel IH]; intros q e Hfrom Hinv Hok He Hfuel; [lia|].
  simpl.
  destruct (advanceRuns_returns q e Hfrom Hinv Hok He)
    as [Hle [[-> H]|(Hlt & q' & e' & H & Hfrom' & Hinv' & Hok' & He' & Hee')]];
    rewrite H; simpl.
  - exists []. repeat constructor.
  - rewrite He'. simpl.
    destruct (IH q' e' Hfrom' Hinv' Hok' He' ltac:(lia)) as (bs & Hbs & Hsorted & Hlast).
    rewrite Hbs. simpl. exists (e' :: bs). split; [reflexivity|]. split.
    + constructor; [assumption|]. constructor; [lia|].
      apply StronglySorted_inv in Hsorted as [_ Hall].
      eapply Forall_impl; [exact Hall|]. simpl. intros. lia.
    + rewrite <- Hlast. reflexivity.
Qed.
End Advancing.

(** The states the queue goes through keep the invariants and the
    typeface of the font iterator. *)
Lemma consumed_from_inv (q0 q : RunIteratorQueue) :
  iters_inv env utf8 bidi0 q0 -> queue_ok q0 -> consumed_from env utf8 q0 q ->
  iters_inv env utf8 bidi0 q /\ queue_ok q /\
  FontRunIterator.fTypeface (font q) = FontRunIterator.fTypeface (font q0).
Proof using Hdec Hcons.
  intros Hinv0 Hok0 Hfrom.
  induction Hfrom as [|q q' r _ IH Hpeek Hlt Hret]; [done|].
  destruct IH as (Hinv & [Hsorted Hperm] & Htf).
  assert (iters_inv env utf8 bidi0 (pop q)) as Hinvp by (by destruct Hinv).
  destruct (ref_consume_spec env utf8 bidi0 Hdec Hcons (pop q) r Hinvp Hlt)
    as [(_ & _ & Hfault)|(q1 & H1 & Hinv1 & Hadv & Hother & Hlist)]; [congruence|].
  assert (q1 = q') as -> by congruence.
  destruct (fRunIterators q) as [|r0 l] eqn:Hl.
  { unfold peek, index in Hpeek. rewrite Hl in Hpeek. discriminate. }
  assert (r0 = r) as -> by (unfold peek, index in Hpeek; rewrite Hl in Hpeek; by inversion Hpeek).
  assert (fRunIterators q' = l) as Hl1.
  { rewrite Hlist. unfold pop. simpl. by rewrite Hl. }
  assert (NoDup (r :: l)) as Hnd by (rewrite Hperm; apply all_refs_NoDup).
  apply NoDup_cons in Hnd as [Hnotin Hnd].
  assert (forall x, x ∈ l -> ref_endOfCurrentRun q' x = ref_endOfCurrentRun q x) as Hsame.
  { intros x Hx. rewrite Hother; [reflexivity|]. intros ->. contradiction. }
  apply StronglySorted_inv in Hsorted as [Hsl Hall].
  split; [by destruct Hinv1|]. split.
  - split.
    + unfold insert. simpl. rewrite Hl1. apply (pq_insert_sorted q' r l).
      by apply (sorted_same_ends q q').
    + unfold insert. simpl. rewrite Hl1, pq_insert_perm. assumption.
  - rewrite <- Htf. clear -Hret Hdec Hinvp Hlt. destruct r; simpl in Hret.
    + bind_inv Hret as it Hit. by inversion Hret.
    + bind_inv Hret as it Hit. by inversion Hret.
    + bind_inv Hret as it Hit. inversion Hret; subst q'. simpl.
      destruct Hinvp as [_ _ _ _ _ _ Hfe _ Hfd].
      destruct (font_consume_cases env utf8 Hdec (font (pop q)) Hfe Hfd)
        as [Hfault|(it' & H1 & _ & _ & H4 & _)].
      * simpl in *. unfold FontRunIterator.endOfCurrentRun in Hlt. lia.
      * simpl in *. congruence.
      * simpl in *. assert (it' = it) as -> by congruence. exact H4.
Qed.

(** On a text that never brings the font iterator to a null typeface,
    every [consume] advances. *)
Lemma no_null_advances (q0 : RunIteratorQueue) :
  iters_inv env utf8 bidi0 q0 -> queue_ok q0 ->
  no_null_typeface env utf8 (FontRunIterator.fTypeface (font q0)) ->
  consume_advances env utf8 q0.
Proof using Hdec Hcons.
  intros Hinv0 Hok0 Hnn q r Hfrom Hpeek Hlt.
  destruct (consumed_from_inv q0 q Hinv0 Hok0 Hfrom) as (Hinv & Hok & Htf).
  assert (iters_inv env utf8 bidi0 (pop q)) as Hinvp by (by destruct Hinv).
  destruct (ref_consume_spec env utf8 bidi0 Hdec Hcons (pop q) r Hinvp Hlt)
    as [(-> & Hfault & _)|(q1 & H1 & _ & Hadv & _)].
  - exfalso. destruct Hinv as [_ _ _ _ _ _ Hfe _ Hfd].
    apply (font_consume_safe env utf8 Hdec _ (font q) Hnn Htf Hfe Hfd); [|exact Hfault].
    simpl in Hlt. unfold FontRunIterator.endOfCurrentRun in Hlt. lia.
  - exists q1. split; [assumption|]. exact (proj1 Hadv).
Qed.
End Boundaries.

(** The queue that [shape] builds: the three iterators at the start of
    the input. *)
Lemma segmenter_init (env : Env) (impl : Impl) (utf8 : list Z) (leftToRight : bool)
    (q : RunIteratorQueue) :
  make_segmenter env impl utf8 leftToRight = Ret (inr q) ->
  exists level bidi0, ubidi_setPara env utf8 level = Some bidi0 /\
    iters_inv env utf8 bidi0 q /\ queue_ok q /\ queue_endOfCurrentRun q = Ret 0.
Proof.
  intros Hq.
  destruct (make_segmenter_inr _ _ _ _ _ Hq)
    as (level & bidi0 & Hpara & Hbidi & Hscript & Hf1 & Hf2 & Hlist).
  exists level, bidi0. split; [assumption|]. split; [|split].
  - constructor; rewrite ?Hbidi, ?Hscript, ?Hf1, ?Hf2; simpl; try reflexivity; try lia.
    + constructor.
    + exists 0. constructor.
  - split; [|by rewrite Hlist]. rewrite Hlist. unfold all_refs.
    repeat constructor; simpl;
      rewrite ?Hbidi, ?Hscript; unfold FontRunIterator.endOfCurrentRun; rewrite ?Hf1;
      simpl; lia.
  - unfold queue_endOfCurrentRun, peek, index. rewrite Hlist. simpl. by rewrite Hbidi.
Qed.

(** The same fuel gives the same boundaries. *)
Lemma boundaries_more_fuel (env : Env) (utf8 : list Z) (k : nat) :
  forall fuel q bs bs',
    boundaries env utf8 fuel q = Ret bs -> boundaries env utf8 (fuel + k) q = Ret bs' ->
    bs = bs'.
Proof.
  induction fuel as [|fuel IH]; intros q bs bs' H1 H2; simpl in *; [discriminate|].
  destruct (advanceRuns env utf8 q) as [[more q']| |]; simpl in *; try discriminate.
  destruct more; [|congruence].
  destruct (queue_endOfCurrentRun q') as [e'| |]; simpl in *; try discriminate.
  destruct (boundaries env utf8 fuel q') as [r1| |] eqn:E1; simpl in *; try discriminate.
  destruct (boundaries env utf8 (fuel + k) q') as [r2| |] eqn:E2; simpl in *;
    try discriminate.
  specialize (IH q' r1 r2 E1 E2). congruence.
Qed.

Lemma boundaries_of_segmenter (env : Env) (impl : Impl) (utf8 : list Z)
    (leftToRight : bool) (q : RunIteratorQueue) :
  decoder_advances env utf8 -> bidi_consistent env utf8 ->
  make_segmenter env impl utf8 leftToRight = Ret (inr q) ->
  consume_advances env utf8 q ->
  exists bs, (forall k, boundaries env utf8 (S (length utf8) + k) q = Ret bs) /\
    StronglySorted Z.lt (0 :: bs) /\ last (0 :: bs) = Some (Z.of_nat (length utf8)).
Proof.
  intros Hdec Hcons Hq Hadv.
  destruct (segmenter_init _ _ _ _ _ Hq) as (level & bidi0 & Hpara & Hinv & Hok & He).
  destruct (boundaries_spec env utf8 bidi0 Hdec (Hcons level bidi0 Hpara) q Hadv
              (S (length utf8)) q 0 (consumed_start _ _ _) Hinv Hok He ltac:(lia))
    as (bs & Hbs & Hs & Hl).
  exists bs. split; [|split; assumption].
  intros k.
  destruct (boundaries_spec env utf8 bidi0 Hdec (Hcons level bidi0 Hpara) q Hadv
              (S (length utf8) + k) q 0 (consumed_start _ _ _) Hinv Hok He ltac:(lia))
    as (bs' & Hbs' & _).
  rewrite Hbs'. f_equal. symmetry. by eapply boundaries_more_fuel.
Qed.

(** The precondition on [consume] holds for the queue of [shape] on a
    text that never brings the font iterator to a null typeface. *)
Lemma segmenter_advances (env : Env) (impl : Impl) (utf8 : list Z)
    (leftToRight : bool) (q : RunIteratorQueue) :
  decoder_advances env utf8 -> bidi_consistent env utf8 ->
  no_null_typeface env utf8 (impl_fTypeface impl) ->
  make_segmenter env impl utf8 leftToRight = Ret (inr q) ->
  consume_advances env utf8 q.
Proof.
  intros Hdec Hcons Hnn Hq.
  destruct (segmenter_init _ _ _ _ _ Hq) as (level & bidi0 & Hpara & Hinv & Hok & He).
  apply (no_null_advances env utf8 bidi0 Hdec (Hcons level bidi0 Hpara) q Hinv Hok).
  by rewrite (make_segmenter_typeface _ _ _ _ _ Hq).
Qed.
(** ** The stand-ins meet what is assumed of the collaborators *)

Lemma demo_decoder_advances (d : Demo) (utf8 : list Z) :
  decoder_advances (demo_env d) utf8.
Proof.
  intros p e Hlt. simpl. unfold demo_NextUTF8.
  destruct ((p <? 0) || (e <=? p)) eqn:H0; simpl; [lia|].
  apply orb_false_iff in H0 as [H1 H2]. apply Z.ltb_ge in H1. apply Z.leb_gt in H2.
  destruct (byte_at utf8 p <? 128); simpl; [lia|].
  destruct (_ && (p + 2 <=? e)) eqn:Ha; simpl.
  { apply andb_true_iff in Ha as [_ Ha]. apply Z.leb_le in Ha. lia. }
  destruct (_ && (p + 3 <=? e)) eqn:Hb; simpl.
  { apply andb_true_iff in Hb as [_ Hb]. apply Z.leb_le in Hb. lia. }
  destruct (_ && (p + 4 <=? e)) eqn:Hc; simpl.
  { apply andb_true_iff in Hc as [_ Hc]. apply Z.leb_le in Hc. lia. }
  lia.
Qed.

Lemma reverse_runs_perm (lv : Z) (levels : list Z) :
  forall m acc, reverse_runs lv levels m acc ≡ₚ acc ++ m.
Proof.
  induction levels as [|l ls IH]; intros m acc; simpl; [reflexivity|].
  destruct m as [|x xs]; [reflexivity|].
  destruct (lv <=? l).
  - rewrite IH. simpl. by rewrite Permutation_middle.
  - by rewrite IH.
Qed.

Lemma reorder_down_perm (n : nat) :
  forall lv minLevel levels m, reorder_down n lv minLevel levels m ≡ₚ m.
Proof.
  induction n as [|n IH]; intros lv minLevel levels m; simpl; [reflexivity|].
  destruct (lv <? minLevel); [reflexivity|].
  by rewrite IH, reverse_runs_perm.
Qed.

Lemma demo_reorder_permutes (d : Demo) : reorder_permutes (demo_env d).
Proof. intros levels. simpl. unfold demo_reorderVisual. apply reorder_down_perm. Qed.

Lemma StronglySorted_snoc {A : Type} (R : A -> A -> Prop) (l : list A) (x : A) :
  StronglySorted R l -> Forall (fun y => R y x) l -> StronglySorted R (l ++ [x]).
Proof.
  induction 1 as [|a l Hs IH Hall]; intros Hx; simpl.
  - repeat constructor.
  - apply Forall_cons in Hx as [Hax Hx]. constructor; [by apply IH|].
    apply Forall_app. split; [assumption|]. by constructor.
Qed.

Lemma StronglySorted_reverse {A : Type} (R : A -> A -> Prop) (l : list A) :
  StronglySorted R l -> StronglySorted (flip R) (reverse l).
Proof.
  induction 1 as [|a l Hs IH Hall]; [constructor|].
  rewrite reverse_cons. apply StronglySorted_snoc; [assumption|].
  rewrite Forall_forall in *. intros y Hy. apply Hall. by apply elem_of_reverse.
Qed.

Lemma demo_shaper_keeps_clusters (d : Demo) : shaper_keeps_clusters (demo_env d).
Proof.
  intros hbFont buffer Hsorted. simpl. unfold demo_shape.
  set (f := fun item : Z * Z => MkHBGlyph item.1 item.2 0 0 (demo_advance d item.1) 0).
  assert (cluster <$> (f <$> buf_items buffer) = snd <$> buf_items buffer) as Hcl.
  { rewrite <- list_fmap_compose. reflexivity. }
  assert (Forall (fun g => cluster g ∈ (snd <$> buf_items buffer)) (f <$> buf_items buffer))
    as Hin.
  { rewrite Forall_forall. intros g Hg. rewrite <- Hcl. by apply list_elem_of_fmap_2. }
  destruct (decide (buf_direction buffer = HB_DIRECTION_RTL)); split.
  - rewrite Forall_forall in *. intros g Hg. apply Hin. by apply elem_of_reverse.
  - rewrite fmap_reverse, Hcl. by apply StronglySorted_reverse.
  - assumption.
  - by rewrite Hcl.
Qed.

Lemma demo_plain_fallback : fallback_never_null (demo_env demo_plain).
Proof. intros tf u. discriminate. Qed.

(** Decoding "a" and beta reaches the offsets 0, 1 and 3, after 0, 1 and
    2 UTF-16 units. *)
Lemma decodes_a_beta (p q : Z) :
  decodes (demo_env demo_plain) text_a_beta p q ->
  (p = 0 /\ q = 0) \/ (p = 1 /\ q = 1) \/ (p = 3 /\ q = 2).
Proof.
  induction 1 as [|p q _ IH Hlt]; [auto|].
  destruct IH as [[-> ->]|[[-> ->]|[-> ->]]].
  - right. left. vm_compute. auto.
  - right. right. vm_compute. auto.
  - simpl in Hlt. lia.
Qed.

Lemma demo_plain_bidi_consistent : bidi_consistent (demo_env demo_plain) text_a_beta.
Proof.
  intros level bidi Hpara p q Hd. simpl in Hpara. inversion Hpara; subst bidi. simpl.
  apply decodes_a_beta in Hd.
  change (Z.of_nat (length (demo_utf16 text_a_beta))) with 2.
  destruct Hd as [[-> ->]|[[-> ->]|[-> ->]]]; lia.
Qed.
(** ** The clusters of the stored runs *)

Lemma buffer_items_clusters (env : Env) (utf8 : list Z) (utf8Start utf8End : Z) :
  decoder_advances env utf8 -> utf8End - utf8Start < 2 ^ 32 ->
  forall fuel utf8Current items last,
    utf8Start <= utf8Current ->
    buffer_items env utf8 fuel utf8Start utf8End utf8Current = Ret (items, last) ->
    Forall (fun c => utf8Current - utf8Start <= c < utf8End - utf8Start) (snd <$> items) /\
    StronglySorted Z.le (snd <$> items).
Proof.
  intros Hdec Hsmall. induction fuel as [|fuel IH]; intros cur items last Hle H; simpl in H.
  - destruct (cur <? utf8End); inv_ret. split; constructor.
  - destruct (cur <? utf8End) eqn:Hlt; [|inv_ret; split; constructor].
    apply Z.ltb_lt in Hlt. pose proof (utf8_next_advances env utf8 Hdec cur utf8End Hlt) as Hadv.
    destruct (utf8_next env utf8 cur utf8End) as [u p]. simpl in Hadv.
    bind_inv H as r Hrest. destruct r as [rest last']. inv_ret.
    destruct (IH p rest last ltac:(lia) Hrest) as [Hall Hsorted].
    rewrite fmap_cons. simpl. rewrite Z.mod_small by lia. split.
    + constructor; [lia|]. eapply Forall_impl; [exact Hall|]. simpl. intros. lia.
    + constructor; [assumption|]. eapply Forall_impl; [exact Hall|]. simpl. intros. lia.
Qed.

Lemma stored_run_clusters (env : Env) (utf8 : list Z) (st : SegmentState)
    (q : RunIteratorQueue) (run : ShapedRun) :
  decoder_advances env utf8 -> shaper_keeps_clusters env ->
  stored_run env utf8 st q run -> clusters_in_run run.
Proof.
  intros Hdec Hshaper (utf8End & items & utf8Current & hbFont & _ & Hitems & Hs & He
                       & Hfits & _ & _ & _ & Hclusters).
  destruct (buffer_items_clusters env utf8 (seg_utf8End st) utf8End Hdec ltac:(lia)
              _ (seg_utf8End st) _ _ ltac:(lia) Hitems) as [Hrange Hsorted].
  set (buffer := segment_buffer utf8 (seg_utf8End st) utf8Current items q) in *.
  destruct (Hshaper hbFont buffer Hsorted) as [Hin Hmono].
  assert (Forall (fun c => 0 <= c < fUtf8End run - fUtf8Start run)
                 (cluster <$> logical_glyphs env hbFont buffer) /\
          StronglySorted Z.le (cluster <$> logical_glyphs env hbFont buffer)) as [H1 H2].
  { assert (Forall (fun c => 0 <= c < fUtf8End run - fUtf8Start run)
                   (cluster <$> hb_shape env hbFont buffer)) as Hb.
    { rewrite Forall_fmap. eapply Forall_impl; [exact Hin|]. simpl. intros g Hg.
      rewrite Forall_forall in Hrange. specialize (Hrange _ Hg). rewrite Hs, He. lia. }
    unfold logical_glyphs. destruct (decide (buf_direction buffer = HB_DIRECTION_RTL)).
    - rewrite fmap_reverse. split.
      + rewrite Forall_forall in *. intros c Hc. apply Hb. by apply elem_of_reverse.
      + exact (StronglySorted_reverse _ _ Hmono).
    - split; assumption. }
  unfold clusters_in_run. rewrite <- Hclusters in H1, H2.
  split; [|assumption]. by rewrite Forall_fmap in H1.
Qed.

Lemma shape_segments_Forall (P : ShapedRun -> Prop) (env : Env) (srcFont : SkFont)
    (utf8 : list Z) :
  (forall st q run, stored_run env utf8 st q run -> P run) ->
  forall fuel st runs,
    shape_segments env srcFont utf8 fuel st = Ret (inr runs) ->
    Forall P (seg_runs st) -> Forall P runs.
Proof.
  intros HP. induction fuel as [|fuel IH]; intros st runs H Hst; simpl in H; [inv_ret|].
  bind_inv H as r Hadv. destruct r as [more q]. destruct more; [|by inv_ret].
  bind_inv H as r Hseg. destruct r as [e|st']; [inv_ret|].
  apply (IH st' runs H).
  destruct (shape_segment_Ret _ _ _ _ _ _ Hseg) as (_ & _ & [->|(run & -> & Hrun)]);
    [assumption|].
  apply Forall_app. split; [assumption|]. constructor; [|constructor]. by eapply HP.
Qed.

Lemma segment_and_shape_clusters (env : Env) (impl : Impl) (srcFont : SkFont)
    (utf8 : list Z) (leftToRight : bool) (runs : list ShapedRun) :
  decoder_advances env utf8 -> shaper_keeps_clusters env ->
  segment_and_shape env impl srcFont utf8 leftToRight = Ret (inr runs) ->
  Forall clusters_in_run runs.
Proof.
  intros Hdec Hshaper H. unfold segment_and_shape in H.
  bind_inv H as mk Hmk. destruct mk as [e|q]; [inv_ret|].
  eapply (shape_segments_Forall clusters_in_run); [|exact H|constructor].
  intros st q' run. by apply stored_run_clusters.
Qed.

(** Marking glyphs keeps the clusters of a run. *)
Lemma clusters_in_run_same (a b : ShapedRun) :
  fUtf8Start b = fUtf8Start a -> fUtf8End b = fUtf8End a ->
  set_must <$> fGlyphs b = set_must <$> fGlyphs a ->
  clusters_in_run a -> clusters_in_run b.
Proof.
  intros Hs He Hg [H1 H2].
  assert (fCluster <$> fGlyphs b = fCluster <$> fGlyphs a) as Hc.
  { change fCluster with (fCluster ∘ set_must). by rewrite !list_fmap_compose, Hg. }
  unfold clusters_in_run. rewrite Hs, He, Hc. split; [|assumption].
  assert (Forall (fun c => 0 <= c < fUtf8End a - fUtf8Start a) (fCluster <$> fGlyphs b))
    as Hb by (rewrite Hc; by rewrite Forall_fmap).
  by rewrite Forall_fmap in Hb.
Qed.
(** ** The reorder-and-emit pass returns *)

(** A [for] loop returns when its body does under an invariant. *)
Lemma for_loop_returns {S : Type} (P : nat -> S -> Prop) (body : nat -> S -> outcome S) :
  forall n i s,
    (forall j t, (i <= j < i + n)%nat -> P j t ->
                 exists t', body j t = Ret t' /\ P (Datatypes.S j) t') ->
    P i s -> exists s', for_loop n i body s = Ret s' /\ P (i + n)%nat s'.
Proof.
  induction n as [|n IH]; intros i s Hstep Hi; simpl.
  - exists s. by rewrite Nat.add_0_r.
  - destruct (Hstep i s ltac:(lia) Hi) as (t & -> & Ht). simpl.
    replace (i + Datatypes.S n)%nat with (Datatypes.S i + n)%nat by lia.
    apply IH; [|assumption]. intros j u Hj. apply Hstep. lia.
Qed.

Lemma indexZ_lt {A : Type} (l : list A) (i : Z) :
  0 <= i < Z.of_nat (length l) -> exists a, indexZ l i = Ret a.
Proof.
  intros Hi. destruct (lookup_lt_is_Some_2 l (Z.to_nat i) ltac:(lia)) as [a Ha].
  exists a. apply indexZ_Ret. split; [lia|assumption].
Qed.

Lemma index_lt {A : Type} (l : list A) (i : nat) :
  (i < length l)%nat -> exists a, index l i = Ret a.
Proof.
  intros Hi. destruct (lookup_lt_is_Some_2 l i Hi) as [a Ha].
  exists a. by apply index_Ret.
Qed.

(** [append] returns for a range of glyphs of the run. *)
Lemma append_returns (env : Env) (info : RunInfo) (run : ShapedRun) (start end_ : Z)
    (p : SkPoint) :
  0 <= start <= end_ -> end_ <= Z.of_nat (fNumGlyphs run) -> end_ - start < 2 ^ 32 ->
  exists c p', append env info run start end_ p = Ret (c, p').
Proof.
  intros Hstart Hend Hsmall. unfold append.
  rewrite Z.mod_small by lia.
  destruct (for_loop_returns (fun _ _ => True)
              (append_body (newRunBuffer env info (fFont run) (end_ - start)
                              (fUtf8End run - fUtf8Start run)) run start end_)
              (Z.to_nat (end_ - start)) 0 ([], p)) as ([slots p'] & -> & _);
    [|done|simpl; eauto].
  intros j [sl q] Hj _. unfold append_body.
  destruct (indexZ_lt (fGlyphs run) (append_glyph_index run start end_ j)) as [g ->].
  { unfold append_glyph_index, fNumGlyphs in *. destruct (is_LTR _); lia. }
  simpl. eauto.
Qed.

(** The levels of a line are read. *)
Lemma runLevels_returns (runs : list ShapedRun) (first n : nat) :
  (first + n <= length runs)%nat ->
  exists levels, for_loop n 0 (runLevels_body runs first) [] = Ret levels /\
                 length levels = n.
Proof.
  intros Hn.
  destruct (for_loop_returns (fun i (acc : list Z) => length acc = i)
              (runLevels_body runs first) n 0 []) as (levels & H & Hlen);
    [|reflexivity|by eauto].
  intros j acc Hj Hacc. unfold runLevels_body.
  destruct (index_lt runs (first + j) ltac:(lia)) as [run ->]. simpl.
  eexists. split; [reflexivity|]. rewrite length_app. simpl. lia.
Qed.

(** What a permutation of [0 .. n) has at each place. *)
Lemma reorder_lookup (env : Env) (levels : list Z) (i : nat) :
  reorder_permutes env -> (i < length levels)%nat ->
  exists lv, ubidi_reorderVisual env levels !! i = Some lv /\
             0 <= lv < Z.of_nat (length levels).
Proof.
  intros Hperm Hi. specialize (Hperm levels).
  assert (length (ubidi_reorderVisual env levels) = length levels) as Hlen.
  { rewrite Hperm. rewrite length_seqZ. lia. }
  destruct (lookup_lt_is_Some_2 (ubidi_reorderVisual env levels) i ltac:(lia)) as [lv Hlv].
  exists lv. split; [assumption|].
  apply list_elem_of_lookup_2 in Hlv. rewrite Hperm in Hlv.
  apply elem_of_seqZ in Hlv. lia.
Qed.

(** The runs of a line are appended. *)
Lemma emit_line_returns (env : Env) (runs : list ShapedRun)
    (first last : ShapedRunGlyphIterator) (j : Z) (ascent descent leading : SkScalar)
    (p : SkPoint) :
  wf_runs runs -> reorder_permutes env ->
  at_glyph runs first -> at_glyph runs last -> iter_le first last ->
  exists calls p',
    emit_line env runs first (fRunIndex last) (fGlyphIndex last) j ascent descent leading p
      = Ret (calls, p').
Proof.
  intros Hwf Hperm (run1 & Hrun1 & Hg1) (run2 & Hrun2 & Hg2) [Hle Hsame].
  pose proof (lookup_lt_Some _ _ _ Hrun2) as Hlast.
  unfold emit_line.
  set (n := Z.to_nat (Z.of_nat (fRunIndex last) - Z.of_nat (fRunIndex first) + 1)).
  destruct (runLevels_returns runs (fRunIndex first) n ltac:(lia)) as (levels & -> & Hlen).
  simpl.
  destruct (for_loop_returns (fun _ _ => True)
              (emit_body env runs first (fRunIndex last) (fGlyphIndex last) j ascent
                 descent leading (ubidi_reorderVisual env levels)) n 0 ([], p))
    as ([calls p'] & -> & _); [|done|by eauto].
  intros i [cs q] Hi _. unfold emit_body.
  destruct (reorder_lookup env levels i Hperm ltac:(lia)) as (lv & Hlv & Hrange).
  apply index_Ret in Hlv. rewrite Hlv. simpl.
  set (L := Z.of_nat (fRunIndex first) + lv).
  destruct (indexZ_lt runs L ltac:(lia)) as [run Hrun]. rewrite Hrun.
  apply indexZ_Ret in Hrun as [_ Hrun].
  pose proof (Forall_lookup_1 _ _ _ _ Hwf Hrun) as [Hone Hmax].
  fold L.
  assert (L = Z.of_nat (fRunIndex last) -> run = run2) as Hl.
  { intros Hl. replace (Z.to_nat L) with (fRunIndex last) in Hrun by lia. congruence. }
  assert (L = Z.of_nat (fRunIndex first) -> run = run1) as Hf.
  { intros Hf. replace (Z.to_nat L) with (fRunIndex first) in Hrun by lia. congruence. }
  destruct (decide (L = Z.of_nat (fRunIndex last))) as [Hl'|Hl'];
    destruct (decide (L = Z.of_nat (fRunIndex first))) as [Hf'|Hf']; simpl;
    try (specialize (Hl Hl'); subst run2); try (specialize (Hf Hf'); subst run1).
  - assert (fRunIndex first = fRunIndex last) as Heq by lia. specialize (Hsame Heq).
    edestruct append_returns as (c & q' & ->); [| | |simpl; by eauto]; lia.
  - edestruct append_returns as (c & q' & ->); [| | |simpl; by eauto]; lia.
  - edestruct append_returns as (c & q' & ->); [| | |simpl; by eauto]; lia.
  - edestruct append_returns as (c & q' & ->); [| | |simpl; by eauto]; lia.
Qed.

Section EmitReturns.
Variable env : Env.
Variable point : SkPoint.
Variable runs : list ShapedRun.
Hypothesis Hwf : wf_runs runs.
Hypothesis Hperm : reorder_permutes env.

(** A turn of the loop returns. *)
Lemma emit_step_returns (st : EmitState) :
  em_inv env point runs st -> exists r, emit_step env point runs st = Ret r.
Proof using Hwf Hperm.
  intros [Hvit Hvpb Hile Hpos Hend Hstart Hmid Hindex Hpoint Hlines Hchain].
  unfold emit_step.
  set (it := em_glyphIterator st) in *. set (pb := em_previousBreak st) in *.
  destruct (current runs it) as [ptr|] eqn:Hcur; [|by eauto].
  destruct (current_Some _ _ _ Hvit Hcur)
    as (_ & run & glyph & Hrun & Hglyph & _ & _ & Hlt).
  pose proof (lookup_lt_Some _ _ _ Hglyph) as Hg.
  destruct (next_valid runs it run (wf_nonempty runs Hwf) Hrun Hg)
    as (it' & Hnext & Hvit' & Hpit' & Hrle & Hrsame).
  rewrite Hnext. simpl.
  assert (at_glyph runs pb) as Hpbg by (apply valid_at_glyph; [assumption|lia]).
  assert (at_glyph runs it) as Hitg by (exists run; split; assumption).
  assert (forall a d l, exists cp,
    emit_line env runs pb (fRunIndex it) (fGlyphIndex it) (lineIndex st) a d l
      (MkPoint (fX (currentPoint st)) (scalar_sub (fY (currentPoint st)) a)) = Ret cp) as Hline.
  { intros a d l.
    destruct (emit_line_returns env runs pb it (lineIndex st) a d l
                (MkPoint (fX (currentPoint st)) (scalar_sub (fY (currentPoint st)) a))
                Hwf Hperm Hpbg Hitg Hile) as (calls & p' & ->). by eauto. }
  apply index_Ret in Hrun as Hidx.
  destruct (decide (previousRunIndex st ≠ Z.of_nat (fRunIndex it)));
    [rewrite Hidx|]; simpl.
  all: destruct (current runs it') as [ptr'|] eqn:Hcur';
    [destruct (current_Some _ _ _ Hvit' Hcur') as (_ & run' & glyph' & _ & _ & -> & _);
     simpl; destruct (fMustLineBreakBefore glyph'); simpl; [|by eauto]
    |simpl].
  all: match goal with
       | |- context [emit_line _ _ _ _ _ _ ?a ?d ?l _] =>
         destruct (Hline a d l) as [[calls p'] ->]
       end; simpl; by eauto.
Qed.

(** The loop returns within one turn per glyph and the exit test. *)
Lemma emit_loop_returns (fuel : nat) :
  forall st, em_inv env point runs st ->
    (glyph_count runs - position runs (em_glyphIterator st) < fuel)%nat ->
    exists st', emit_loop fuel env point runs st = Ret st'.
Proof using Hwf Hperm.
  induction fuel as [|fuel IH]; intros st Hinv Hfuel; [lia|]. simpl.
  destruct (emit_step_returns st Hinv) as [[st1|] Hstep]; rewrite Hstep; simpl.
  - destruct (emit_step_Some env point runs Hwf _ _ Hinv Hstep) as [Hinv1 Hpos1].
    apply IH; [assumption|].
    pose proof (valid_position_le _ _ (ei_valid_it _ _ _ _ Hinv1)). lia.
  - by eauto.
Qed.

(** The pass returns. *)
Lemma emit_returns : exists pt lines, emit env point runs = Ret (pt, lines).
Proof using Hwf Hperm.
  unfold emit.
  destruct (emit_loop_returns (S (glyph_count runs)) (emit_init point)
              (em_inv_init env point runs Hwf) ltac:(lia)) as [st ->].
  simpl. by eauto.
Qed.
End EmitReturns.
(** ** The segment-and-shape pass returns *)

Lemma demo_ubrk_advances (d : Demo) (utf8 : list Z) : ubrk_advances (demo_env d) utf8.
Proof.
  intros position. simpl. induction (demo_breaks d) as [|b rest IH]; simpl; [by left|].
  destruct (position <? b) eqn:Hlt; [|assumption].
  apply Z.ltb_lt in Hlt. by right.
Qed.

(** The loop that fills the buffer returns within one turn per byte. *)
Lemma buffer_items_returns (env : Env) (utf8 : list Z) (utf8Start utf8End : Z) :
  decoder_advances env utf8 ->
  forall fuel utf8Current,
    (Z.to_nat (utf8End - utf8Current) <= fuel)%nat ->
    exists r, buffer_items env utf8 fuel utf8Start utf8End utf8Current = Ret r.
Proof.
  intros Hdec. induction fuel as [|fuel IH]; intros cur Hfuel; simpl.
  - destruct (cur <? utf8End) eqn:Hlt; [apply Z.ltb_lt in Hlt; lia|by eauto].
  - destruct (cur <? utf8End) eqn:Hlt; [|by eauto].
    apply Z.ltb_lt in Hlt.
    pose proof (utf8_next_advances env utf8 Hdec cur utf8End Hlt) as Hadv.
    destruct (utf8_next env utf8 cur utf8End) as [u p]. simpl in Hadv.
    destruct (IH p ltac:(lia)) as [[items last] ->]. simpl. by eauto.
Qed.

(** The break iterator is moved up to a cluster in at most one turn per
    byte between its position and the cluster. *)
Lemma ubrk_seek_returns (env : Env) (utf8 : list Z) (glyphCluster : Z) :
  ubrk_advances env utf8 ->
  forall fuel breakIteratorCurrent position,
    breakIteratorCurrent = UBRK_DONE \/
    (breakIteratorCurrent = position /\
     (Z.to_nat (glyphCluster - position) <= fuel)%nat) ->
    exists r, ubrk_seek env utf8 fuel glyphCluster breakIteratorCurrent position = Ret r.
Proof.
  intros Hbrk. induction fuel as [|fuel IH]; intros cur pos Hcur; simpl.
  - destruct Hcur as [->|[-> Hfuel]].
    + rewrite bool_decide_false by (intros H; by apply H). simpl. by eauto.
    + destruct (pos <? glyphCluster) eqn:Hlt; [apply Z.ltb_lt in Hlt; lia|].
      rewrite andb_false_r. by eauto.
  - destruct (bool_decide (cur ≠ UBRK_DONE) && (cur <? glyphCluster)) eqn:Hgo;
      [|by eauto].
    apply andb_true_iff in Hgo as [Hne Hlt].
    apply bool_decide_eq_true in Hne. apply Z.ltb_lt in Hlt.
    destruct Hcur as [?|[-> Hfuel]]; [done|].
    destruct (decide (ubrk_next env utf8 pos = UBRK_DONE)) as [Hdone|Hmore].
    + apply IH. by left.
    + apply IH. right. split; [reflexivity|].
      destruct (Hbrk pos) as [?|?]; [done|lia].
Qed.

(** The loop that sets [fMayLineBreakBefore] returns. *)
Lemma break_flags_returns (env : Env) (utf8 : list Z) (clusterOffset : Z) :
  ubrk_advances env utf8 ->
  forall glyphs previousCluster position,
    exists r, break_flags env utf8 clusterOffset glyphs previousCluster position = Ret r.
Proof.
  intros Hbrk. induction glyphs as [|glyph rest IH]; intros prev pos; simpl; [by eauto|].
  destruct (ubrk_seek_returns env utf8 (to_int32 (fCluster glyph + clusterOffset)) Hbrk
              (Z.to_nat (to_int32 (fCluster glyph + clusterOffset) - pos)) pos pos)
    as [[cur pos'] ->]; [right; split; [reflexivity|lia]|].
  simpl. destruct (IH (fCluster glyph) pos') as [[rest' pos''] ->]. simpl. by eauto.
Qed.

(** The body of the loop returns. *)
Lemma shape_segment_returns (env : Env) (srcFont : SkFont) (utf8 : list Z)
    (st : SegmentState) (q : RunIteratorQueue) (utf8End : Z) :
  decoder_advances env utf8 -> ubrk_advances env utf8 ->
  queue_endOfCurrentRun q = Ret utf8End ->
  exists r, shape_segment env srcFont utf8 st q = Ret r.
Proof.
  intros Hdec Hbrk Hend. unfold shape_segment. rewrite Hend. simpl.
  destruct (buffer_items_returns env utf8 (seg_utf8End st) utf8End Hdec
              (Z.to_nat (utf8End - seg_utf8End st)) (seg_utf8End st) ltac:(lia))
    as [[items cur] ->].
  simpl. destruct (negb (fits_int _)); [by eauto|].
  destruct (FontRunIterator.currentHBFont (font q)) as [hbFont|]; [|by eauto].
  destruct (_ =? 0); [by eauto|].
  destruct (negb (fits_int _)); [by eauto|].
  destruct (hb_font_get_scale env hbFont) as [scaleX scaleY].
  match goal with
  | |- context [break_flags env utf8 ?o ?gs ?c ?p] =>
    destruct (break_flags_returns env utf8 o Hbrk gs c p) as [[glyphs' position] ->]
  end.
  simpl. by eauto.
Qed.

Section SegmentReturns.
Variable env : Env.
Variable srcFont : SkFont.
Variable utf8 : list Z.
Variable bidi0 : UBiDi.
Variable q0 : RunIteratorQueue.
Hypothesis Hdec : decoder_advances env utf8.
Hypothesis Hadv : consume_advances env utf8 q0.
Hypothesis Hbrk : ubrk_advances env utf8.
Hypothesis Hcons :
  forall p q, decodes env utf8 p q ->
    (q = ubidi_getLength bidi0 <-> p = Z.of_nat (length utf8)).

(** The loop returns within one turn per byte and the exit test. *)
Lemma shape_segments_returns (fuel : nat) :
  forall st e, consumed_from env utf8 q0 (runSegmenter st) ->
    iters_inv env utf8 bidi0 (runSegmenter st) -> queue_ok (runSegmenter st) ->
    queue_endOfCurrentRun (runSegmenter st) = Ret e ->
    (Z.to_nat (Z.of_nat (length utf8) - e) < fuel)%nat ->
    exists r, shape_segments env srcFont utf8 fuel st = Ret r.
Proof using Hdec Hadv Hbrk Hcons.
  induction fuel as [|fuel IH]; intros st e Hfrom Hinv Hok He Hfuel; [lia|]. simpl.
  destruct (advanceRuns_returns env utf8 bidi0 Hdec Hcons q0 Hadv _ e Hfrom Hinv Hok He)
    as [Hle [[-> H]|(Hlt & q' & e' & H & Hfrom' & Hinv' & Hok' & He' & Hee')]];
    rewrite H; simpl; [by eauto|].
  destruct (shape_segment_returns env srcFont utf8 st q' e' Hdec Hbrk He') as [r Hr].
  rewrite Hr. simpl. destruct r as [err|st']; [by eauto|].
  destruct (shape_segment_Ret _ _ _ _ _ _ Hr) as (Hq & _ & _).
  apply (IH st' e'); rewrite ?Hq; try assumption. lia.
Qed.
End SegmentReturns.

(** With the length of the text in UTF-16 reported, the queue is built or
    [shape] takes a [return point]. *)
Lemma make_segmenter_returns (env : Env) (impl : Impl) (utf8 : list Z)
    (leftToRight : bool) :
  length_reported env utf8 ->
  exists r, make_segmenter env impl utf8 leftToRight = Ret r.
Proof.
  intros (n & Hn & Hnn). unfold make_segmenter, BiDiRunIterator.Make.
  destruct (negb (fits_int _)); simpl; [by eauto|]. rewrite Hn.
  destruct (n <? 0) eqn:Hneg; [apply Z.ltb_lt in Hneg; lia|].
  destruct (negb (u_strFromUTF8 env utf8 n)); simpl; [by eauto|].
  destruct (negb (ubidi_openSized env n)); simpl; [by eauto|].
  destruct (ubidi_setPara env utf8 _); simpl; [|by eauto].
  destruct (negb (utext_openUTF8 env utf8)); [by eauto|].
  destruct (negb (ubrk_setUText env utf8)); by eauto.
Qed.

(** The first block returns: with an error or with the runs. *)
Lemma segment_and_shape_returns (env : Env) (impl : Impl) (srcFont : SkFont)
    (utf8 : list Z) (leftToRight : bool) :
  decoder_advances env utf8 -> bidi_consistent env utf8 -> length_reported env utf8 ->
  (forall q0, make_segmenter env impl utf8 leftToRight = Ret (inr q0) ->
     consume_advances env utf8 q0) ->
  ubrk_advances env utf8 ->
  exists r, segment_and_shape env impl srcFont utf8 leftToRight = Ret r.
Proof.
  intros Hdec Hcons Hlen Hadv Hbrk. unfold segment_and_shape.
  destruct (make_segmenter_returns env impl utf8 leftToRight Hlen) as [[e|q] Hq];
    rewrite Hq; simpl; [by eauto|].
  destruct (segmenter_init _ _ _ _ _ Hq) as (level & bidi0 & Hpara & Hinv & Hok & He).
  apply (shape_segments_returns env srcFont utf8 bidi0 q Hdec (Hadv q Hq) Hbrk
           (Hcons level bidi0 Hpara) (S (length utf8)) (MkSeg q 0 [] 0) 0);
    simpl; try assumption; [constructor|lia].
Qed.

(** ** [shape] returns *)

(** When the decoder and the break iterator move forward, ICU reports
    the length of the text in UTF-16, the levels of the paragraph are read
    at the places the decoder reaches, every [consume] of an iterator
    advances, and the visual reordering is a permutation, [shape] returns
    a point and the lines it has written. *)
Lemma shape_returns (env : Env) (impl : Impl) (srcFont : SkFont) (utf8 : list Z)
    (leftToRight : bool) (point : SkPoint) (width : SkScalar) :
  decoder_advances env utf8 -> bidi_consistent env utf8 -> length_reported env utf8 ->
  (forall q0, make_segmenter env impl utf8 leftToRight = Ret (inr q0) ->
     consume_advances env utf8 q0) ->
  ubrk_advances env utf8 -> reorder_permutes env ->
  exists pt lines, shape env impl srcFont utf8 leftToRight point width = Ret (pt, lines).
Proof.
  intros Hdec Hcons Hlen Hadv Hbrk Hperm. unfold shape.
  destruct (segment_and_shape_returns env impl srcFont utf8 leftToRight
              Hdec Hcons Hlen Hadv Hbrk) as [[e|runs] Hruns]; rewrite Hruns; simpl;
    [by eauto|].
  destruct (segment_and_shape_runs _ _ _ _ _ _ Hruns) as [Hwf Hno].
  destruct (linebreak_spec runs width (wf_nonempty runs Hwf))
    as (runs' & Hbreak & _).
  specialize (Hbreak 0%nat). rewrite Nat.add_0_r in Hbreak.
  assert (linebreak runs width = Ret runs') as Hlb by exact Hbreak.
  rewrite Hlb. simpl.
  destruct (linebreak_Ret _ _ _ _ _ _ _ _ Hruns Hlb) as (Hwf' & _).
  destruct (emit_returns env point runs' Hwf' Hperm) as (pt & lines & ->). by eauto.
Qed.

(** The same for a text that never brings the font iterator to a null
    typeface. *)
Lemma shape_returns_no_null (env : Env) (impl : Impl) (srcFont : SkFont) (utf8 : list Z)
    (leftToRight : bool) (point : SkPoint) (width : SkScalar) :
  decoder_advances env utf8 -> bidi_consistent env utf8 -> length_reported env utf8 ->
  no_null_typeface env utf8 (impl_fTypeface impl) ->
  ubrk_advances env utf8 -> reorder_permutes env ->
  exists pt lines, shape env impl srcFont utf8 leftToRight point width = Ret (pt, lines).
Proof.
  intros Hdec Hcons Hlen Hnn Hbrk Hperm.
  apply shape_returns; try assumption.
  intros q0 Hq0. by apply (segmenter_advances env impl utf8 leftToRight).
Qed.

Lemma demo_length_reported (d : Demo) (utf8 : list Z) :
  demo_well_formed utf8 (length utf8) 0 = true -> length_reported (demo_env d) utf8.
Proof. intros H. unfold length_reported. simpl. rewrite H. eexists. split; [done|lia]. Qed.

(** A font manager that finds a typeface for every code point never
    brings the font iterator to a null typeface. *)
Lemma fallback_no_null (env : Env) (utf8 : list Z) (primary : SkTypeface) :
  fallback_never_null env -> no_null_typeface env utf8 primary.
Proof. intros Hfb p q _ _ _ Hnone. by apply Hfb in Hnone. Qed.

(** [shape] returns on the stand-ins, for "a" and beta. *)
Example shape_returns_a_beta (point : SkPoint) (width : SkScalar) :
  exists pt lines,
    shape (demo_env demo_plain) demo_impl demo_font text_a_beta true point width
      = Ret (pt, lines).
Proof.
  apply shape_returns_no_null.
  - apply demo_decoder_advances.
  - apply demo_plain_bidi_consistent.
  - by apply demo_length_reported.
  - apply fallback_no_null, demo_plain_fallback.
  - apply demo_ubrk_advances.
  - apply demo_reorder_permutes.
Qed.
(** ** The 32-bit limits of a segment *)

Section SegmentLimits.
Variable env : Env.
Variable srcFont : SkFont.
Variable utf8 : list Z.
Variable bidi0 : UBiDi.
Hypothesis Hdec : decoder_advances env utf8.
Hypothesis Hcons :
  forall p q, decodes env utf8 p q ->
    (q = ubidi_getLength bidi0 <-> p = Z.of_nat (length utf8)).

(** What the loop of the first block keeps between its turns. *)
Let at_boundary (st : SegmentState) : Prop :=
  iters_inv env utf8 bidi0 (runSegmenter st) /\ queue_ok (runSegmenter st) /\
  queue_endOfCurrentRun (runSegmenter st) = Ret (seg_utf8End st).

(** A segment is never longer than the text. *)
Lemma segment_length (st : SegmentState) (q : RunIteratorQueue) :
  at_boundary st -> advanceRuns env utf8 (runSegmenter st) = Ret (true, q) ->
  iters_inv env utf8 bidi0 q /\ queue_ok q /\
  exists utf8End, queue_endOfCurrentRun q = Ret utf8End /\
    seg_utf8End st < utf8End <= Z.of_nat (length utf8).
Proof using Hdec Hcons.
  intros (Hinv & Hok & He) Hadv.
  destruct (advanceRuns_Ret env utf8 bidi0 Hdec Hcons _ q _ true Hinv Hok He Hadv)
    as (_ & _ & _ & Hinv' & Hok' & e' & He' & Hgt).
  eauto.
Qed.

Lemma segment_step (st st' : SegmentState) (q : RunIteratorQueue) :
  at_boundary st -> advanceRuns env utf8 (runSegmenter st) = Ret (true, q) ->
  shape_segment env srcFont utf8 st q = Ret (inr st') ->
  at_boundary st' /\ seg_utf8End st < seg_utf8End st' <= Z.of_nat (length utf8).
Proof using Hdec Hcons.
  intros Hst Hadv Hseg.
  destruct (segment_length st q Hst Hadv) as (Hinv' & Hok' & e' & He' & Hgt).
  destruct (shape_segment_Ret _ _ _ _ _ _ Hseg) as (Hq & Hend & _).
  assert (seg_utf8End st' = e') as -> by congruence.
  unfold at_boundary. rewrite Hq. split; [|assumption].
  split; [assumption|]. split; [assumption|]. congruence.
Qed.

(** The length of a segment fits [int] when the length of the text
    does: the first [return point] of the loop is never taken. *)
Lemma shape_segment_not_too_long (st : SegmentState) (q : RunIteratorQueue)
    (e : ShapeError) :
  at_boundary st -> 0 <= seg_utf8End st ->
  fits_int (Z.of_nat (length utf8)) = true ->
  advanceRuns env utf8 (runSegmenter st) = Ret (true, q) ->
  shape_segment env srcFont utf8 st q = Ret (inl e) -> e = TooManyGlyphs.
Proof using Hdec Hcons.
  intros Hst H0 Hfits Hadv Hseg.
  destruct (segment_length st q Hst Hadv) as (_ & _ & e' & He' & Hgt).
  unfold shape_segment in Hseg. rewrite He' in Hseg. simpl in Hseg.
  bind_inv Hseg as r Hitems. destruct r as [items cur].
  assert (fits_int (e' - seg_utf8End st) = true) as Hlen.
  { unfold fits_int in *. apply Z.leb_le. apply Z.leb_le in Hfits. lia. }
  rewrite Hlen in Hseg. simpl in Hseg.
  destruct (FontRunIterator.currentHBFont (font q)); [|inv_ret].
  destruct (_ =? 0); [inv_ret|].
  destruct (negb (fits_int _)); [by inv_ret|].
  destruct (hb_font_get_scale env _) as [scaleX scaleY].
  bind_inv Hseg as r Hflags. destruct r as [glyphs' position]. inv_ret.
Qed.

Lemma shape_segments_not_too_long (fuel : nat) :
  forall st e, at_boundary st -> 0 <= seg_utf8End st ->
    fits_int (Z.of_nat (length utf8)) = true ->
    shape_segments env srcFont utf8 fuel st = Ret (inl e) -> e = TooManyGlyphs.
Proof using Hdec Hcons.
  induction fuel as [|fuel IH]; intros st e Hst H0 Hfits H; simpl in H; [inv_ret|].
  bind_inv H as r Hadv. destruct r as [more q]. destruct more; [|inv_ret].
  bind_inv H as r Hseg. destruct r as [e1|st'].
  - assert (e1 = e) as -> by (by inv_ret).
    by apply (shape_segment_not_too_long st q).
  - destruct (segment_step st st' q Hst Hadv Hseg) as [Hst' Hgt].
    apply (IH st' e Hst'); [lia|assumption|assumption].
Qed.

(** Every turn of the loop moves the boundary at least one byte on. *)
Lemma segment_steps_boundary (k : nat) (st st' : SegmentState) :
  segment_steps env srcFont utf8 k st st' -> at_boundary st ->
  at_boundary st' /\ seg_utf8End st + Z.of_nat k <= seg_utf8End st'.
Proof using Hdec Hcons.
  induction 1 as [st|k st st1 st' q Hadv Hseg _ IH]; intros Hst; [split; [assumption|lia]|].
  destruct (segment_step st st1 q Hst Hadv Hseg) as [Hst1 Hgt].
  destruct (IH Hst1) as [Hst' Hle]. split; [assumption|lia].
Qed.

(** A [return point] in a turn of the loop that is reached is that of the
    loop. *)
Lemma shape_segments_reaches (k : nat) (st st' : SegmentState) :
  segment_steps env srcFont utf8 k st st' ->
  forall fuel q e,
    advanceRuns env utf8 (runSegmenter st') = Ret (true, q) ->
    shape_segment env srcFont utf8 st' q = Ret (inl e) ->
    (k < fuel)%nat ->
    shape_segments env srcFont utf8 fuel st = Ret (inl e).
Proof.
  induction 1 as [st|k st st1 st' q1 Hadv1 Hseg1 _ IH]; intros fuel q e Hadv Hseg Hfuel;
    (destruct fuel as [|fuel]; [lia|]); simpl.
  - rewrite Hadv. simpl. by rewrite Hseg.
  - rewrite Hadv1. simpl. rewrite Hseg1. simpl. apply (IH fuel q e Hadv Hseg). lia.
Qed.
End SegmentLimits.

(** The errors of the queue are not [Utf8TooLong]. *)
Lemma make_segmenter_error (env : Env) (impl : Impl) (utf8 : list Z) (leftToRight : bool)
    (e : ShapeError) :
  make_segmenter env impl utf8 leftToRight = Ret (inl e) ->
  e = BidiError \/ e = UTextError \/ e = BreakIteratorError.
Proof.
  unfold make_segmenter. intros H. bind_inv H as mk Hmk.
  destruct mk as [b|]; [|inv_ret; by left]. simpl in H.
  destruct (negb (utext_openUTF8 env utf8)); [inv_ret; by right; left|].
  destruct (negb (ubrk_setUText env utf8)); [inv_ret; by right; right|inv_ret].
Qed.

Lemma make_segmenter_fits (env : Env) (impl : Impl) (utf8 : list Z) (leftToRight : bool)
    (r : ShapeError + RunIteratorQueue) :
  make_segmenter env impl utf8 leftToRight = Ret r ->
  (exists q, r = inr q) -> fits_int (Z.of_nat (length utf8)) = true.
Proof.
  unfold make_segmenter, BiDiRunIterator.Make. intros H [q ->].
  destruct (fits_int (Z.of_nat (length utf8))); [reflexivity|].
  simpl in H. discriminate.
Qed.

(** The test of the length of a segment (line 624) never fails: a
    segment is a part of the text, whose length fits [int] when the
    queue has been built. *)
Lemma utf8_too_long_unreachable (env : Env) (impl : Impl) (srcFont : SkFont)
    (utf8 : list Z) (leftToRight : bool) :
  decoder_advances env utf8 -> bidi_consistent env utf8 ->
  segment_and_shape env impl srcFont utf8 leftToRight <> Ret (inl Utf8TooLong).
Proof.
  intros Hdec Hcons H. unfold segment_and_shape in H.
  bind_inv H as mk Hq. destruct mk as [e|q0].
  - assert (e = Utf8TooLong) as -> by (by inv_ret).
    destruct (make_segmenter_error _ _ _ _ _ Hq) as [?|[?|?]]; discriminate.
  - destruct (segmenter_init _ _ _ _ _ Hq) as (level & bidi0 & Hpara & Hinv & Hok & He).
    pose proof (make_segmenter_fits _ _ _ _ _ Hq ltac:(eauto)) as Hfits.
    assert (Utf8TooLong = TooManyGlyphs); [|discriminate].
    apply (shape_segments_not_too_long env srcFont utf8 bidi0 Hdec
             (Hcons level bidi0 Hpara) _ (MkSeg q0 0 [] 0) _ (conj Hinv (conj Hok He))
             ltac:(simpl; lia) Hfits H).
Qed.

(** A [return point] of the first block leaves nothing for the handler. *)
Lemma shape_of_error (env : Env) (impl : Impl) (srcFont : SkFont) (utf8 : list Z)
    (leftToRight : bool) (point : SkPoint) (width : SkScalar) (e : ShapeError) :
  segment_and_shape env impl srcFont utf8 leftToRight = Ret (inl e) ->
  shape env impl srcFont utf8 leftToRight point width = Ret (point, []).
Proof. intros H. unfold shape. by rewrite H. Qed.

(** A segment for which the shaping engine returns more glyphs than fit
    [int] ends the loop with [return point]. *)
Lemma shape_segment_too_many_glyphs (env : Env) (srcFont : SkFont) (utf8 : list Z)
    (st : SegmentState) (q : RunIteratorQueue) (utf8End : Z)
    (items : list (Z * Z)) (utf8Current : Z) (hbFont : hb_font_t) :
  queue_endOfCurrentRun q = Ret utf8End ->
  buffer_items env utf8 (Z.to_nat (utf8End - seg_utf8End st)) (seg_utf8End st) utf8End
    (seg_utf8End st) = Ret (items, utf8Current) ->
  fits_int (utf8End - seg_utf8End st) = true ->
  FontRunIterator.currentHBFont (font q) = Some hbFont ->
  fits_int (Z.of_nat (length (hb_shape env hbFont
    {| buf_precontext := (0, seg_utf8End st); buf_items := items;
       buf_postcontext := (utf8Current, Z.of_nat (length utf8));
       buf_script := ScriptRunIterator.currentScript (script q);
       buf_direction := if is_LTR (BiDiRunIterator.currentLevel (bidi q))
                        then HB_DIRECTION_LTR else HB_DIRECTION_RTL |}))) = false ->
  shape_segment env srcFont utf8 st q = Ret (inl TooManyGlyphs).
Proof.
  intros Hend Hitems Hfits Hfont Hmany. unfold shape_segment.
  rewrite Hend. simpl. rewrite Hitems. simpl. rewrite Hfits. simpl. rewrite Hfont.
  unfold fits_int in Hmany. apply Z.leb_gt in Hmany.
  destruct (_ =? 0) eqn:Hz; [apply Z.eqb_eq in Hz; lia|].
  unfold fits_int. destruct (_ <=? _) eqn:Hle; [|reflexivity].
  apply Z.leb_le in Hle. lia.
Qed.

(** A segment for which the shaping engine returns more glyphs than fit
    [int]: whatever was shaped before it, [shape] returns the point it
    was given and nothing is written. *)
Lemma too_many_glyphs_emit_nothing (env : Env) (impl : Impl) (srcFont : SkFont)
    (utf8 : list Z) (leftToRight : bool) (point : SkPoint) (width : SkScalar)
    (q0 q : RunIteratorQueue) (k : nat) (st : SegmentState) (utf8End : Z)
    (items : list (Z * Z)) (utf8Current : Z) (hbFont : hb_font_t) :
  decoder_advances env utf8 -> bidi_consistent env utf8 ->
  make_segmenter env impl utf8 leftToRight = Ret (inr q0) ->
  segment_steps env srcFont utf8 k (MkSeg q0 0 [] 0) st ->
  advanceRuns env utf8 (runSegmenter st) = Ret (true, q) ->
  queue_endOfCurrentRun q = Ret utf8End ->
  buffer_items env utf8 (Z.to_nat (utf8End - seg_utf8End st)) (seg_utf8End st) utf8End
    (seg_utf8End st) = Ret (items, utf8Current) ->
  FontRunIterator.currentHBFont (font q) = Some hbFont ->
  fits_int (Z.of_nat (length (hb_shape env hbFont
    {| buf_precontext := (0, seg_utf8End st); buf_items := items;
       buf_postcontext := (utf8Current, Z.of_nat (length utf8));
       buf_script := ScriptRunIterator.currentScript (script q);
       buf_direction := if is_LTR (BiDiRunIterator.currentLevel (bidi q))
                        then HB_DIRECTION_LTR else HB_DIRECTION_RTL |}))) = false ->
  shape env impl srcFont utf8 leftToRight point width = Ret (point, []).
Proof.
  intros Hdec Hcons Hq0 Hsteps Hadv Hend Hitems Hfont Hmany.
  destruct (segmenter_init _ _ _ _ _ Hq0) as (level & bidi0 & Hpara & Hinv & Hok & He).
  pose proof (Hcons level bidi0 Hpara) as Hb.
  pose proof (make_segmenter_fits _ _ _ _ _ Hq0 ltac:(eauto)) as Hfits.
  destruct (segment_steps_boundary env srcFont utf8 bidi0 Hdec Hb k (MkSeg q0 0 [] 0) st
              Hsteps (conj Hinv (conj Hok He))) as [Hst Hk].
  simpl in Hk.
  destruct (segment_length env utf8 bidi0 Hdec Hb st q Hst Hadv)
    as (_ & _ & e' & He' & Hgt).
  assert (e' = utf8End) as -> by congruence.
  assert (fits_int (utf8End - seg_utf8End st) = true) as Hlen.
  { unfold fits_int in *. apply Z.leb_le. apply Z.leb_le in Hfits. lia. }
  apply (shape_of_error env impl srcFont utf8 leftToRight point width TooManyGlyphs).
  unfold segment_and_shape. rewrite Hq0.
  apply (shape_segments_reaches env srcFont utf8 k _ st Hsteps (S (length utf8)) q
           TooManyGlyphs Hadv); [|lia].
  by eapply shape_segment_too_many_glyphs.
Qed.
(** * The properties of the specification *)

(** ** C1: clusters *)

(** C1, as stated, fails: for "a" followed by a Greek beta the second run
    starts at byte 1 and its glyph has the stored cluster 0, which is
    before the start of the run: the stored cluster is not an absolute
    offset into the input. *)
Lemma stored_cluster_not_absolute :
  ~ (forall runs,
       segment_and_shape (demo_env demo_plain) demo_impl demo_font text_a_beta true
         = Ret (inr runs) ->
       forall r g, r ∈ runs -> g ∈ fGlyphs r ->
         fUtf8Start r <= fCluster g < fUtf8End r).
Proof.
  intros H.
  assert (segment_and_shape (demo_env demo_plain) demo_impl demo_font text_a_beta true
          = Ret (inr runs_a_beta)) as Hruns by (vm_compute; reflexivity).
  specialize (H _ Hruns).
  destruct (runs_a_beta !! 1%nat) as [r|] eqn:Hr; [|vm_compute in Hr; discriminate].
  destruct (fGlyphs r !! 0%nat) as [g|] eqn:Hg;
    [|vm_compute in Hr; inversion Hr; subst r; vm_compute in Hg; discriminate].
  specialize (H r g (list_elem_of_lookup_2 _ _ _ Hr) (list_elem_of_lookup_2 _ _ _ Hg)).
  vm_compute in Hr. inversion Hr; subst r. vm_compute in Hg. inversion Hg; subst g.
  simpl in H. lia.
Qed.

(** C1, amended: for every ShapedRun r that the segment-and-shape pass
    stores, the stored cluster of every glyph is a byte offset relative to
    the start of the run, 0 <= cluster < r.utf8_end - r.utf8_start, the
    clusters do not decrease with the glyph index, and the same holds of
    the run of every call of append that shape makes, where the cluster
    written to the buffer, when the buffer has a cluster array, is the
    stored cluster of the glyph that the slot shows. This assumes that the
    decoder moves forward and that the shaping engine returns clusters of
    the items it was given, monotone in the direction of the text. *)
Theorem stored_clusters_relative (env : Env) (impl : Impl) (srcFont : SkFont)
    (utf8 : list Z) (leftToRight : bool) (point : SkPoint) (width : SkScalar) :
  decoder_advances env utf8 -> shaper_keeps_clusters env ->
  (forall runs,
     segment_and_shape env impl srcFont utf8 leftToRight = Ret (inr runs) ->
     forall r, r ∈ runs -> clusters_in_run r) /\
  (forall pt lines,
     shape env impl srcFont utf8 leftToRight point width = Ret (pt, lines) ->
     forall l c, l ∈ lines -> c ∈ line_calls l ->
       clusters_in_run (call_run c) /\
       forall i slot, call_slots c !! i = Some slot ->
         exists g,
           indexZ (fGlyphs (call_run c))
             (append_glyph_index (call_run c) (call_start c) (call_end c) i) = Ret g /\
           (slot_cluster slot = Some (fCluster g) \/ slot_cluster slot = None)).
Proof.
  intros Hdec Hshaper. split.
  - intros runs Hruns r Hr.
    pose proof (segment_and_shape_clusters _ _ _ _ _ _ Hdec Hshaper Hruns) as Hall.
    rewrite Forall_forall in Hall. by apply Hall.
  - intros pt lines Hshape l c Hl Hc.
    destruct (shape_Ret _ _ _ _ _ _ _ _ _ Hshape)
      as [(e & _ & _ & ->)|(runs & runs' & Hruns & Hbreak & Hemit)].
    { by apply elem_of_nil in Hl. }
    destruct (linebreak_Ret _ _ _ _ _ _ _ _ Hruns Hbreak) as (Hwf & Hskel & _).
    destruct (emit_spec env point runs' Hwf pt lines Hemit) as (_ & Hlines & _).
    apply list_elem_of_lookup_1 in Hl as [j Hj]. apply list_elem_of_lookup_1 in Hc as [i Hi].
    destruct (lo_calls _ _ _ _ _ _ (Hlines j l Hj) i c Hi)
      as ((lv & _ & _ & Hrun & _) & _ & _ & _ & _ & _ & _ & _ & Hslots).
    split.
    + destruct (same_run _ _ Hskel _ _ Hrun) as (r & Hr & _ & _ & _ & Hs & He & _ & Hg).
      pose proof (segment_and_shape_clusters _ _ _ _ _ _ Hdec Hshaper Hruns) as Hall.
      apply (clusters_in_run_same r (call_run c)); [congruence|congruence|congruence|].
      rewrite Forall_forall in Hall. apply Hall. by eapply list_elem_of_lookup_2.
    + intros k slot Hslot. destruct (Hslots k slot Hslot) as (g & H1 & _ & H3). eauto.
Qed.

(** The amended C1 on the stand-ins, for "a" and beta at width 15. *)
Lemma stored_clusters_relative_witness :
  (forall r, r ∈ runs_a_beta -> clusters_in_run r) /\
  (forall l c, l ∈ shape_a_beta.2 -> c ∈ line_calls l ->
     clusters_in_run (call_run c) /\
     forall i slot, call_slots c !! i = Some slot ->
       exists g,
         indexZ (fGlyphs (call_run c))
           (append_glyph_index (call_run c) (call_start c) (call_end c) i) = Ret g /\
         (slot_cluster slot = Some (fCluster g) \/ slot_cluster slot = None)).
Proof.
  destruct (stored_clusters_relative (demo_env demo_plain) demo_impl demo_font
              text_a_beta true (demo_point 0 0) (int_to_float 15)
              (demo_decoder_advances demo_plain text_a_beta)
              (demo_shaper_keeps_clusters demo_plain)) as [H1 H2].
  split.
  - apply (H1 runs_a_beta). vm_compute. reflexivity.
  - apply (H2 shape_a_beta.1 shape_a_beta.2). vm_compute. reflexivity.
Defined.


(** ** C2: the width of a line *)

Lemma at_glyph_lookup (runs : list ShapedRun) (it : ShapedRunGlyphIterator) :
  at_glyph runs it -> exists g, all_glyphs runs !! position runs it = Some g.
Proof.
  intros (run & Hrun & Hg). apply lookup_lt_is_Some_2.
  change (length (all_glyphs runs)) with (glyph_count runs).
  destruct it as [r g]. by eapply position_lt.
Qed.

(** C2, as stated, fails: a zero width no-break space, which has no
    advance, followed by a "W" ten wide, at width 5, comes out as one line
    of two glyphs whose advances sum to 10. *)
Lemma wide_glyph_after_zero_width :
  ~ (forall pt lines,
       shape (demo_env demo_bom) demo_impl demo_font text_bom_W true (demo_point 0 0)
         (int_to_float 5) = Ret (pt, lines) ->
       forall l, l ∈ lines ->
         scalar_le (sum_x (line_glyphs l)) (int_to_float 5) = true \/
         length (line_glyphs l) = 1%nat).
Proof.
  intros H.
  destruct (shape (demo_env demo_bom) demo_impl demo_font text_bom_W true
              (demo_point 0 0) (int_to_float 5))
    as [[pt lines]| |] eqn:Hshape; [|vm_compute in Hshape; discriminate..].
  specialize (H pt lines eq_refl).
  destruct (lines !! 0%nat) as [l|] eqn:Hl;
    [|vm_compute in Hshape; inversion Hshape; subst lines; discriminate].
  specialize (H l (list_elem_of_lookup_2 _ _ _ Hl)).
  vm_compute in Hshape. inversion Hshape; subst pt lines. clear Hshape.
  vm_compute in Hl. inversion Hl; subst l. clear Hl.
  vm_compute in H. destruct H as [H|H]; discriminate.
Qed.

(** C2, amended: for every call to shape and every line it emits, the
    glyphs handed to the handler for the line are those of the line in
    logical order, rearranged, and either the sum S of their x-advances,
    added up in binary32 from 0 in logical order as the line-break pass
    does, is less than width (so S <= width), or the line ends with a
    glyph with which S is not less than width while the x-advances of the
    glyphs before it on the line sum to a value equal to 0 (the emergency
    overflow case, which is a line of exactly one glyph when no glyph
    stands before it on the line). This assumes that the visual reordering
    returns a permutation of the run indices. *)
Theorem line_width (env : Env) (impl : Impl) (srcFont : SkFont) (utf8 : list Z)
    (leftToRight : bool) (point : SkPoint) (width : SkScalar)
    (pt : SkPoint) (lines : list EmittedLine) :
  reorder_permutes env ->
  shape env impl srcFont utf8 leftToRight point width = Ret (pt, lines) ->
  forall l, l ∈ lines ->
    exists runs runs',
      segment_and_shape env impl srcFont utf8 leftToRight = Ret (inr runs) /\
      linebreak runs width = Ret runs' /\
      line_glyphs l ≡ₚ line_logical runs' l /\
      (scalar_lt (sum_x (line_logical runs' l)) width = true \/
       exists before g, line_logical runs' l = before ++ [g] /\
         scalar_eq (sum_x before) scalar_zero = true /\
         scalar_lt (sum_x (line_logical runs' l)) width = false).
Proof.
  intros Hperm Hshape l Hl.
  destruct (shape_Ret _ _ _ _ _ _ _ _ _ Hshape)
    as [(e & _ & _ & ->)|(runs & runs' & Hruns & Hbreak & Hemit)].
  { by apply elem_of_nil in Hl. }
  exists runs, runs'. split; [assumption|]. split; [assumption|].
  destruct (linebreak_Ret _ _ _ _ _ _ _ _ Hruns Hbreak) as (Hwf & _ & _ & Hok).
  destruct (emit_spec env point runs' Hwf pt lines Hemit) as (_ & Hlines & _).
  apply list_elem_of_lookup_1 in Hl as [j Hj].
  destruct (Hlines j l Hj) as [Hfirst Hlast Hle Hpos Hseg Hcount Hcalls _ _].
  pose proof (line_glyphs_logical env runs' _ _ _ _ _ _ _ Hperm Hfirst Hlast Hle Hcount
                Hcalls) as Hglyphs.
  fold (line_glyphs l) in Hglyphs. fold (line_logical runs' l) in Hglyphs.
  split; [assumption|]. unfold line_logical.
  set (a := position runs' (line_first l)) in *.
  set (b := position runs' (line_last l)) in *.
  destruct (Hok a (S b) Hseg) as [Hfit|(_ & Hzero & Hwide)].
  - left. exact Hfit.
  - right. destruct (at_glyph_lookup runs' _ Hlast) as [g Hg]. fold b in Hg.
    exists (take (b - a) (drop a (all_glyphs runs'))), g.
    replace (S b - 1)%nat with b in Hzero by lia.
    split; [|split; [exact Hzero|exact Hwide]].
    replace (S b - a)%nat with (S (b - a)) by lia.
    rewrite (take_S_r _ _ g); [reflexivity|].
    rewrite lookup_drop. by replace (a + (b - a))%nat with b by lia.
Qed.

(** The amended C2 on the stand-ins, for "a" and beta at width 25: one
    line of two glyphs, whose advances sum to 20. *)
Lemma line_width_witness :
  exists pt l,
    shape (demo_env demo_plain) demo_impl demo_font text_a_beta true (demo_point 0 0)
      (int_to_float 25) = Ret (pt, [l]) /\
    length (line_glyphs l) = 2%nat /\
    exists runs runs',
      segment_and_shape (demo_env demo_plain) demo_impl demo_font text_a_beta true
        = Ret (inr runs) /\
      linebreak runs (int_to_float 25) = Ret runs' /\
      line_glyphs l ≡ₚ line_logical runs' l /\
      (scalar_lt (sum_x (line_logical runs' l)) (int_to_float 25) = true \/
       exists before g, line_logical runs' l = before ++ [g] /\
         scalar_eq (sum_x before) scalar_zero = true /\
         scalar_lt (sum_x (line_logical runs' l)) (int_to_float 25) = false).
Proof.
  eexists _, _. split; [vm_compute; reflexivity|]. split; [reflexivity|].
  eapply (line_width (demo_env demo_plain) demo_impl demo_font text_a_beta true
            (demo_point 0 0) (int_to_float 25) _ _ (demo_reorder_permutes demo_plain)).
  - vm_compute. reflexivity.
  - by left.
Defined.

(** ** C3: the boundaries of the segments *)

(** Decoding "a", U+4E2D and "b" reaches the offsets 0, 1, 4 and 5,
    after 0, 1, 2 and 3 UTF-16 units. *)
Lemma decodes_a_cjk_b (p q : Z) :
  decodes (demo_env demo_no_fallback) text_a_cjk_b p q ->
  (p = 0 /\ q = 0) \/ (p = 1 /\ q = 1) \/ (p = 4 /\ q = 2) \/ (p = 5 /\ q = 3).
Proof.
  induction 1 as [|p q _ IH Hlt]; [auto|].
  destruct IH as [[-> ->]|[[-> ->]|[[-> ->]|[-> ->]]]].
  - right. left. vm_compute. auto.
  - right. right. left. vm_compute. auto.
  - right. right. right. vm_compute. auto.
  - simpl in Hlt. lia.
Qed.

Lemma a_cjk_b_bidi_consistent : bidi_consistent (demo_env demo_no_fallback) text_a_cjk_b.
Proof.
  intros level bidi Hpara p q Hd. simpl in Hpara. inversion Hpara; subst bidi. simpl.
  apply decodes_a_cjk_b in Hd.
  change (Z.of_nat (length (demo_utf16 text_a_cjk_b))) with 3.
  destruct Hd as [[-> ->]|[[-> ->]|[[-> ->]|[-> ->]]]]; lia.
Qed.

(** The font manager finds no typeface for U+4E2D, but "b", which
    follows it, is of the primary typeface. *)
Lemma a_cjk_b_no_null : no_null_typeface (demo_env demo_no_fallback) text_a_cjk_b 1.
Proof.
  intros p q Hd Hlt Hcov Hnone Hnext. apply decodes_a_cjk_b in Hd.
  destruct Hd as [[-> ->]|[[-> ->]|[[-> ->]|[-> ->]]]].
  - vm_compute in Hcov. discriminate.
  - vm_compute. reflexivity.
  - vm_compute in Hcov. discriminate.
  - simpl in Hlt. lia.
Qed.

(** C3: under the precondition that every [consume] which the queue makes
    returns with the end of the run moved forward, and when the decoder
    moves forward and the levels of the paragraph are read at the places
    the decoder reaches, the queue that [shape] builds reports, through
    successive successful calls of [advanceRuns], boundaries [bs] such
    that [0 :: bs] rises strictly and ends with the length N of the
    input: the first segment starts at byte 0, segment i is
    [(0 :: bs)[i], bs[i]), and the last boundary is N. The loop returns
    for every fuel from N + 1 on. *)
Theorem segments_partition_input (env : Env) (impl : Impl) (utf8 : list Z)
    (leftToRight : bool) (q : RunIteratorQueue) :
  decoder_advances env utf8 -> bidi_consistent env utf8 ->
  make_segmenter env impl utf8 leftToRight = Ret (inr q) ->
  consume_advances env utf8 q ->
  exists bs, (forall k, boundaries env utf8 (S (length utf8) + k) q = Ret bs) /\
    StronglySorted Z.lt (0 :: bs) /\ last (0 :: bs) = Some (Z.of_nat (length utf8)).
Proof. apply boundaries_of_segmenter. Qed.

(** C3 on the stand-ins, for "a", U+4E2D and "b" with a font manager that
    finds no typeface: the boundaries are 1, 4 and 5. *)
Lemma segments_partition_input_witness :
  exists q,
    make_segmenter (demo_env demo_no_fallback) demo_impl text_a_cjk_b true = Ret (inr q) /\
    boundaries (demo_env demo_no_fallback) text_a_cjk_b 6 q = Ret [1; 4; 5] /\
    exists bs,
      (forall k, boundaries (demo_env demo_no_fallback) text_a_cjk_b
                   (S (length text_a_cjk_b) + k) q = Ret bs) /\
      StronglySorted Z.lt (0 :: bs) /\
      last (0 :: bs) = Some (Z.of_nat (length text_a_cjk_b)).
Proof.
  destruct (make_segmenter (demo_env demo_no_fallback) demo_impl text_a_cjk_b true)
    as [[e|q]| |] eqn:Hq; try (vm_compute in Hq; discriminate).
  exists q. split; [reflexivity|]. split.
  - vm_compute in Hq. inversion Hq; subst q. vm_compute. reflexivity.
  - apply (segments_partition_input (demo_env demo_no_fallback) demo_impl text_a_cjk_b
             true q (demo_decoder_advances demo_no_fallback text_a_cjk_b)
             a_cjk_b_bidi_consistent Hq).
    apply (segmenter_advances (demo_env demo_no_fallback) demo_impl text_a_cjk_b true q
             (demo_decoder_advances demo_no_fallback text_a_cjk_b)
             a_cjk_b_bidi_consistent a_cjk_b_no_null Hq).
Defined.

(** ** C4: the marks of the line-break pass *)

(** Every glyph lies on one of the lines written. *)
Lemma lines_cover (env : Env) (point : SkPoint) (runs : list ShapedRun)
    (lines : list EmittedLine) :
  (forall j l, lines !! j = Some l -> line_spec env point runs lines j l) ->
  forall k q, (k <= length lines)%nat -> (q < line_start_of runs lines k)%nat ->
    exists j l, lines !! j = Some l /\
      (position runs (line_first l) <= q <= position runs (line_last l))%nat.
Proof.
  intros Hlines. induction k as [|k IH]; intros q Hk Hq; simpl in Hq; [lia|].
  destruct (lines !! k) as [l|] eqn:Hl; [|lia].
  destruct (decide (q < line_start_of runs lines k)%nat) as [Hlt|Hge].
  - apply IH; [lia|done].
  - exists k, l. split; [done|].
    rewrite (lo_start _ _ _ _ _ _ (Hlines k l Hl)). lia.
Qed.

(** C4: after the line-break pass a glyph has [fMustLineBreakBefore] set
    if and only if it is the first glyph, in logical order, of a line
    other than the first of the lines that the last pass writes; so every
    other glyph, and the first glyph of the first line, has it clear. *)
Theorem must_break_marks_line_starts (env : Env) (impl : Impl) (srcFont : SkFont)
    (utf8 : list Z) (leftToRight : bool) (point : SkPoint) (width : SkScalar)
    (runs runs' : list ShapedRun) (pt : SkPoint) (lines : list EmittedLine) :
  segment_and_shape env impl srcFont utf8 leftToRight = Ret (inr runs) ->
  linebreak runs width = Ret runs' ->
  emit env point runs' = Ret (pt, lines) ->
  forall q, must_at runs' q = true <->
            exists j l, lines !! S j = Some l /\ position runs' (line_first l) = q.
Proof.
  intros Hruns Hbreak Hemit q.
  destruct (linebreak_Ret _ _ _ _ _ _ _ _ Hruns Hbreak) as (Hwf & _ & Hzero & _).
  destruct (emit_spec env point runs' Hwf pt lines Hemit) as (_ & Hlines & Hend).
  split.
  - intros Hq.
    assert (q < glyph_count runs')%nat as Hlt.
    { unfold must_at in Hq. destruct (all_glyphs runs' !! q) eqn:Hg; [|discriminate].
      by apply lookup_lt_Some in Hg. }
    rewrite <- Hend in Hlt.
    destruct (lines_cover env point runs' lines Hlines (length lines) q (le_n _) Hlt)
      as (j & l & Hl & Hle).
    pose proof (Hlines j l Hl) as Hspec.
    destruct (lo_seg _ _ _ _ _ _ Hspec) as (_ & _ & _ & Hin).
    destruct (decide (position runs' (line_first l) = q)) as [Heq|Hne].
    + destruct j as [|j]; [|by exists j, l].
      rewrite (lo_start _ _ _ _ _ _ Hspec) in Heq. simpl in Heq. subst q. congruence.
    + rewrite Hin in Hq by lia. discriminate.
  - intros (j & l & Hl & <-).
    pose proof (Hlines (S j) l Hl) as Hspec.
    destruct (lo_seg _ _ _ _ _ _ Hspec) as (_ & [H0|Hm] & _); [|done].
    rewrite (lo_start _ _ _ _ _ _ Hspec) in H0. simpl in H0.
    destruct (lines !! j) eqn:Hj; [lia|].
    apply lookup_ge_None in Hj. apply lookup_lt_Some in Hl. lia.
Qed.

(** C4 on the stand-ins, for "a" and beta at width 15: two lines. *)
Lemma must_break_marks_line_starts_witness :
  must_at broken_a_beta 1 = true <->
  exists j l, lines_a_beta.2 !! S j = Some l /\
              position broken_a_beta (line_first l) = 1%nat.
Proof.
  apply (must_break_marks_line_starts (demo_env demo_plain) demo_impl demo_font
           text_a_beta true (demo_point 0 0) (int_to_float 15) runs_a_beta broken_a_beta
           lines_a_beta.1).
  - vm_compute. reflexivity.
  - vm_compute. reflexivity.
  - vm_compute. reflexivity.
Defined.

(** ** C5: the order of the runs and of the lines *)

(** C5: line j of a call of [shape] starts at the first glyph when j is 0
    and right after the last glyph of line j - 1 otherwise, so the lines
    come in logical order from the top; it makes one call of [append] for
    each run from that of its first glyph to that of its last glyph, and
    call i is the one for the logical run
    [previousBreak.fRunIndex + logicalFromVisual[i]] of the visual
    reordering of the levels of these runs, with the glyph range that
    starts at the break glyph in the first run and ends after the last
    glyph of the line in the last run, and with line index j. *)
Theorem lines_in_visual_order (env : Env) (impl : Impl) (srcFont : SkFont)
    (utf8 : list Z) (leftToRight : bool) (point : SkPoint) (width : SkScalar)
    (runs runs' : list ShapedRun) (pt : SkPoint) (lines : list EmittedLine) :
  segment_and_shape env impl srcFont utf8 leftToRight = Ret (inr runs) ->
  linebreak runs width = Ret runs' ->
  emit env point runs' = Ret (pt, lines) ->
  forall j l, lines !! j = Some l ->
    position runs' (line_first l) = line_start_of runs' lines j /\
    (position runs' (line_first l) <= position runs' (line_last l))%nat /\
    length (line_calls l) =
      (fRunIndex (line_last l) - fRunIndex (line_first l) + 1)%nat /\
    forall i c, line_calls l !! i = Some c ->
      call_of_line env runs' (line_first l) (line_last l) (Z.of_nat j) i c.
Proof.
  intros Hruns Hbreak Hemit j l Hl.
  destruct (linebreak_Ret _ _ _ _ _ _ _ _ Hruns Hbreak) as (Hwf & _).
  destruct (emit_spec env point runs' Hwf pt lines Hemit) as (_ & Hlines & _).
  destruct (Hlines j l Hl) as [_ _ _ Hpos _ Hcount Hcalls Hstart _].
  repeat split; try assumption.
  intros i c Hc. by destruct (Hcalls i c Hc) as [Hcall _].
Qed.

(** C5 on the stand-ins, for ALEF and BET at width 100, the second
    letter in a fallback typeface: one line of two runs right to left,
    which the visual reordering swaps, so that the first call of [append]
    is for the second run. *)
Lemma lines_in_visual_order_witness :
  exists l c0 c1,
    lines_alef_bet.2 = [l] /\ line_calls l = [c0; c1] /\
    broken_alef_bet !! 1%nat = Some (call_run c0) /\
    broken_alef_bet !! 0%nat = Some (call_run c1) /\
    ubidi_reorderVisual (demo_env demo_hebrew)
      (line_levels broken_alef_bet (line_first l) (line_last l)) = [1; 0] /\
    position broken_alef_bet (line_first l) = line_start_of broken_alef_bet lines_alef_bet.2 0 /\
    (position broken_alef_bet (line_first l) <= position broken_alef_bet (line_last l))%nat /\
    length (line_calls l) =
      (fRunIndex (line_last l) - fRunIndex (line_first l) + 1)%nat /\
    forall i c, line_calls l !! i = Some c ->
      call_of_line (demo_env demo_hebrew) broken_alef_bet (line_first l) (line_last l)
        (Z.of_nat 0) i c.
Proof.
  eexists _, _, _. split; [reflexivity|]. split; [reflexivity|].
  split; [reflexivity|]. split; [reflexivity|]. split; [reflexivity|].
  apply (lines_in_visual_order (demo_env demo_hebrew) demo_impl demo_font
           text_alef_bet true (demo_point 0 0) (int_to_float 100) runs_alef_bet
           broken_alef_bet lines_alef_bet.1 lines_alef_bet.2).
  - vm_compute. reflexivity.
  - vm_compute. reflexivity.
  - vm_compute. reflexivity.
  - reflexivity.
Defined.

(** ** C6: the pen *)

(** C6: for every call of [shape], in binary32 as the code computes: the
    pen of line j, when its first run is appended, is the current point
    with its y decreased by the ascent of the line; the current point
    after a line is the pen moved by the advance of each glyph written,
    with the sum of the descent and the leading of the line added to its y
    and its x set to that of the origin; and the point returned is the
    current point after the last line. So, where no glyph moves the pen
    in y, as in horizontal text, the baseline of line j is at the x of the
    origin and at the y that results from the y of the origin by
    subtracting the ascent and adding descent plus leading for each line
    before, in turn, and subtracting the ascent of line j; and the point
    returned has the x of the origin and the y that results in this way
    from all lines. *)
Theorem pen_positions (env : Env) (impl : Impl) (srcFont : SkFont) (utf8 : list Z)
    (leftToRight : bool) (point : SkPoint) (width : SkScalar)
    (pt : SkPoint) (lines : list EmittedLine) :
  shape env impl srcFont utf8 leftToRight point width = Ret (pt, lines) ->
  (forall j l, lines !! j = Some l ->
     line_pen l = baseline_pen (point_after_lines point (take j lines)) l) /\
  pt = point_after_lines point lines /\
  (no_y_advance lines ->
   (forall j l, lines !! j = Some l ->
      fX (line_pen l) = fX point /\
      same_value (fY (line_pen l))
        (scalar_sub (fY (spec_point_after_lines point (take j lines))) (line_ascent l))) /\
   fX pt = fX point /\
   same_value (fY pt) (fY (spec_point_after_lines point lines))).
Proof.
  intros Hshape.
  assert ((forall j l, lines !! j = Some l ->
             line_pen l = baseline_pen (point_after_lines point (take j lines)) l) /\
          pt = point_after_lines point lines) as [Hpens Hpt].
  { destruct (shape_Ret _ _ _ _ _ _ _ _ _ Hshape)
      as [(e & _ & -> & ->)|(runs & runs' & Hruns & Hbreak & Hemit)].
    { split; [intros j l Hl; by rewrite lookup_nil in Hl|reflexivity]. }
    destruct (linebreak_Ret _ _ _ _ _ _ _ _ Hruns Hbreak) as (Hwf & _).
    destruct (emit_spec env point runs' Hwf pt lines Hemit) as (Hpt & Hlines & _).
    split; [|assumption].
    intros j l Hl. exact (lo_pen _ _ _ _ _ _ (Hlines j l Hl)). }
  split; [assumption|]. split; [assumption|].
  intros Hzero. split; [|split].
  - intros j l Hl. rewrite (Hpens j l Hl). unfold baseline_pen. simpl.
    split; [apply point_after_lines_fX|].
    apply scalar_sub_same, point_after_lines_spec.
    unfold no_y_advance in *. rewrite <- (take_drop j lines) in Hzero.
    by apply Forall_app in Hzero as [? _].
  - rewrite Hpt. apply point_after_lines_fX.
  - rewrite Hpt. by apply point_after_lines_spec.
Qed.

(** The glyphs of "a" and beta do not move the pen in y. *)
Example a_beta_no_y_advance : no_y_advance shape_a_beta.2.
Proof. repeat (constructor; [repeat constructor; by exists false|]). constructor. Qed.

(** C6 on the stand-ins, for "a" and beta at width 15: two lines with
    ascent -10, descent 3 and leading 1; the baselines are at 10 and at
    24, and the point returned is at 28. *)
Lemma pen_positions_witness :
  (exists l0 l1, shape_a_beta.2 = [l0; l1] /\
     line_pen l0 = demo_point 0 10 /\ line_pen l1 = demo_point 0 24 /\
     shape_a_beta.1 = demo_point 0 28) /\
  (forall j l, shape_a_beta.2 !! j = Some l ->
     line_pen l =
       baseline_pen (point_after_lines (demo_point 0 0) (take j shape_a_beta.2)) l) /\
  shape_a_beta.1 = point_after_lines (demo_point 0 0) shape_a_beta.2 /\
  (forall j l, shape_a_beta.2 !! j = Some l ->
     fX (line_pen l) = fX (demo_point 0 0) /\
     same_value (fY (line_pen l))
       (scalar_sub
          (fY (spec_point_after_lines (demo_point 0 0) (take j shape_a_beta.2)))
          (line_ascent l))) /\
  fX shape_a_beta.1 = fX (demo_point 0 0) /\
  same_value (fY shape_a_beta.1)
    (fY (spec_point_after_lines (demo_point 0 0) shape_a_beta.2)).
Proof.
  split; [eexists _, _; repeat split; reflexivity|].
  destruct (pen_positions (demo_env demo_plain) demo_impl demo_font text_a_beta true
              (demo_point 0 0) (int_to_float 15) shape_a_beta.1 shape_a_beta.2)
    as (Hpens & Hpt & Hspec); [vm_compute; reflexivity|].
  split; [exact Hpens|]. split; [exact Hpt|]. apply Hspec, a_beta_no_y_advance.
Defined.

(** ** C7: the returns before anything is written *)

Lemma segmenter_error (env : Env) (impl : Impl) (srcFont : SkFont) (utf8 : list Z)
    (leftToRight : bool) (e : ShapeError) :
  make_segmenter env impl utf8 leftToRight = Ret (inl e) ->
  segment_and_shape env impl srcFont utf8 leftToRight = Ret (inl e).
Proof. intros H. unfold segment_and_shape. by rewrite H. Qed.

(** [return point] in a turn of the loop is [return point] of the block. *)
Lemma shape_segments_error (env : Env) (srcFont : SkFont) (utf8 : list Z) (fuel : nat)
    (st : SegmentState) (q : RunIteratorQueue) (e : ShapeError) :
  advanceRuns env utf8 (runSegmenter st) = Ret (true, q) ->
  shape_segment env srcFont utf8 st q = Ret (inl e) ->
  shape_segments env srcFont utf8 (S fuel) st = Ret (inl e).
Proof. intros Hadv Hseg. simpl. rewrite Hadv. simpl. by rewrite Hseg. Qed.

(** [ScriptRunIterator::Make] and [FontRunIterator::Make] always give
    an iterator. *)
Lemma script_font_made (utf8Bytes : Z) (typeface : SkTypeface) (hbFace : option hb_font_t) :
  ScriptRunIterator.Make utf8Bytes <> None /\
  FontRunIterator.Make utf8Bytes typeface hbFace <> None.
Proof. done. Qed.

(** The returns of [shape] before anything is written: when the length of
    the text does not fit [int]; when, the length in UTF-16 having been
    written, the conversion fails, the [UBiDi] cannot be opened, the
    paragraph cannot be set, or the text cannot be opened or set on the
    break iterator; and when the loop of the first block takes a
    [return point] (see [too_many_glyphs_emit_nothing]). *)
Lemma errors_emit_nothing (env : Env) (impl : Impl) (srcFont : SkFont)
    (utf8 : list Z) (leftToRight : bool) (point : SkPoint) (width : SkScalar) :
  fits_int (Z.of_nat (length utf8)) = false \/
  (exists n, u_strFromUTF8_length env utf8 = Some n /\ 0 <= n /\
     (u_strFromUTF8 env utf8 n = false \/
      ubidi_openSized env n = false \/
      ubidi_setPara env utf8
        (if leftToRight then UBIDI_DEFAULT_LTR else UBIDI_DEFAULT_RTL) = None \/
      utext_openUTF8 env utf8 = false \/
      ubrk_setUText env utf8 = false)) \/
  (exists e, segment_and_shape env impl srcFont utf8 leftToRight = Ret (inl e)) ->
  shape env impl srcFont utf8 leftToRight point width = Ret (point, []).
Proof.
  intros H.
  assert (exists e, segment_and_shape env impl srcFont utf8 leftToRight = Ret (inl e))
    as [e He]; [|by eapply shape_of_error].
  destruct H as [H|[(n & Hn & Hnn & H)|H]]; [| |assumption].
  - exists BidiError. apply segmenter_error. unfold make_segmenter, BiDiRunIterator.Make.
    by rewrite H.
  - assert (exists e, make_segmenter env impl utf8 leftToRight = Ret (inl e)) as [e He];
      [|by eauto using segmenter_error].
    unfold make_segmenter, BiDiRunIterator.Make.
    destruct (negb (fits_int _)); simpl; [by eauto|]. rewrite Hn.
    destruct (n <? 0) eqn:Hneg; [apply Z.ltb_lt in Hneg; lia|].
    destruct H as [H|[H|[H|[H|H]]]].
    + rewrite H. simpl. by eauto.
    + destruct (negb (u_strFromUTF8 env utf8 n)); simpl; [by eauto|].
      rewrite H. simpl. by eauto.
    + destruct (negb (u_strFromUTF8 env utf8 n)); simpl; [by eauto|].
      destruct (negb (ubidi_openSized env n)); simpl; [by eauto|].
      rewrite H. simpl. by eauto.
    + destruct (negb (u_strFromUTF8 env utf8 n)); simpl; [by eauto|].
      destruct (negb (ubidi_openSized env n)); simpl; [by eauto|].
      destruct (ubidi_setPara env utf8 _); simpl; [|by eauto].
      rewrite H. simpl. by eauto.
    + destruct (negb (u_strFromUTF8 env utf8 n)); simpl; [by eauto|].
      destruct (negb (ubidi_openSized env n)); simpl; [by eauto|].
      destruct (ubidi_setPara env utf8 _); simpl; [|by eauto].
      destruct (negb (utext_openUTF8 env utf8)); [by eauto|].
      rewrite H. simpl. by eauto.
Qed.

(** The second call of the conversion fails after the first has written
    the length: [shape] returns the point it was given and nothing is
    written. *)
Example errors_emit_nothing_a_beta :
  shape (demo_env demo_bad_utf16) demo_impl demo_font text_a_beta true (demo_point 3 4)
    (int_to_float 15) = Ret (demo_point 3 4, []).
Proof.
  apply errors_emit_nothing. right. left. eexists. split; [vm_compute; reflexivity|].
  split; [lia|]. by left.
Qed.

(** When the first call of [u_strFromUTF8] returns without writing
    [utf16Units], [BiDiRunIterator::Make] reads the variable that was
    never written. *)
Lemma unwritten_length_faults (env : Env) (impl : Impl) (srcFont : SkFont)
    (utf8 : list Z) (leftToRight : bool) (point : SkPoint) (width : SkScalar) :
  fits_int (Z.of_nat (length utf8)) = true ->
  u_strFromUTF8_length env utf8 = None ->
  shape env impl srcFont utf8 leftToRight point width = Fault.
Proof.
  intros Hfits Hnone.
  unfold shape, segment_and_shape, make_segmenter, BiDiRunIterator.Make.
  by rewrite Hfits, Hnone.
Qed.

(** C7 does not hold of the code where the conversion to UTF-16 fails:
    for every text whose length in UTF-16 the first call of
    [u_strFromUTF8] does not write, as for an ill-formed text, [shape]
    reads [utf16Units], which was never written, for the size of an array
    (line 150) instead of returning the point; the text that is the byte
    FF alone is such a text. The other causes that the claim names make
    [shape] return the point with nothing written
    ([errors_emit_nothing], [too_many_glyphs_emit_nothing]); the length
    of a segment always fits ([utf8_too_long_unreachable]). *)
Theorem conversion_failure_faults :
  (forall env impl srcFont utf8 leftToRight point width,
     fits_int (Z.of_nat (length utf8)) = true ->
     u_strFromUTF8_length env utf8 = None ->
     shape env impl srcFont utf8 leftToRight point width = Fault) /\
  shape (demo_env demo_plain) demo_impl demo_font text_ill_formed true (demo_point 3 4)
    (int_to_float 15) = Fault.
Proof.
  split; [exact unwritten_length_faults|]. vm_compute. reflexivity.
Qed.

(** ** C8: a font manager that finds no typeface *)

(** When the font manager has returned null, [fCurrentTypeface] is null;
    if a further code point of the input is not covered by the primary
    typeface either, the loop of [consume] calls
    [fCurrentTypeface->charsToGlyphs] on the null pointer. *)
Lemma font_consume_loop_null (env : Env) (utf8 : list Z) (fuel : nat)
    (it : FontRunIterator.t) :
  FontRunIterator.fCurrentTypeface it = None ->
  FontRunIterator.fCurrent it < FontRunIterator.fEnd it ->
  charsToGlyphs env (FontRunIterator.fTypeface it)
    (utf8_next env utf8 (FontRunIterator.fCurrent it) (FontRunIterator.fEnd it)).1 = false ->
  FontRunIterator.consume_loop env utf8 (S fuel) it = Fault.
Proof.
  intros Hnull Hlt Hcover. simpl.
  apply Z.ltb_lt in Hlt. rewrite Hlt.
  destruct (utf8_next env utf8 _ _) as [u p]. simpl in Hcover.
  rewrite Hcover, Hnull. by rewrite andb_false_r.
Qed.

(** One code point without a typeface between code points of the primary
    typeface is passed over: "a", U+4E2D, "b" gives the runs of "a" and
    of "b". *)
Example null_fallback_single_skipped :
  exists r1 r2,
    segment_and_shape (demo_env demo_no_fallback) demo_impl demo_font
      text_a_cjk_b true = Ret (inr [r1; r2]) /\
    (fUtf8Start r1, fUtf8End r1) = (0, 1) /\ (fUtf8Start r2, fUtf8End r2) = (4, 5).
Proof. vm_compute. eauto. Qed.

(** C8 does not hold of the code: with a primary typeface that covers
    ASCII only and a font manager that returns null, the input U+4E2D
    U+6587 makes [shape] call a method on the null [fCurrentTypeface]
    (line 323) instead of passing over the segment. *)
Theorem null_fallback_faults :
  shape (demo_env demo_no_fallback) demo_impl demo_font text_cjk true (demo_point 0 0)
    (int_to_float 100) = Fault.
Proof. vm_compute. reflexivity. Qed.

(** ** C9: the line-break pass returns *)

(** C9: for runs that have at least one glyph each, as the first block
    stores them, and every width, the loop of the line-break pass
    returns: from [linebreak_fuel] turns on it ends in a state in which
    the iterator has no current glyph. Every turn of the loop moves the
    iterator one glyph on, or sets [widthSoFar] to 0 and is followed by a
    turn that moves the iterator one glyph on; and the places at which
    the lines start rise strictly. *)
Theorem linebreak_terminates (runs : list ShapedRun) (width : SkScalar) :
  Forall (fun r => (1 <= fNumGlyphs r)%nat) runs ->
  (exists st,
     (forall k, linebreak_loop (linebreak_fuel runs + k) width (linebreak_init runs)
                = Ret st) /\
     linebreak_step width st = Ret None /\
     linebreak runs width = Ret (lb_runs st)) /\
  Forall (fun st => forall st', linebreak_step width st = Ret (Some st') ->
            position runs (glyphIterator st') = S (position runs (glyphIterator st)) \/
            (widthSoFar st' = scalar_zero /\
             exists st'', linebreak_step width st' = Ret (Some st'') /\
               position runs (glyphIterator st'') =
                 S (position runs (glyphIterator st'))))
         (linebreak_trace (linebreak_fuel runs) width (linebreak_init runs)) /\
  StronglySorted lt
    (line_starts runs (linebreak_trace (linebreak_fuel runs) width (linebreak_init runs))).
Proof.
  intros Hnonempty.
  pose proof (lb_inv_init runs width Hnonempty) as Hinit.
  split; [|split].
  - destruct (linebreak_loop_terminates runs width Hnonempty (linebreak_fuel runs)
                _ _ Hinit) as (st & s & Hloop & _ & _ & Hstep).
    { unfold linebreak_fuel. lia. }
    exists st. split; [|split].
    + intros k. by apply linebreak_loop_more_fuel.
    + assumption.
    + unfold linebreak. by rewrite Hloop.
  - eapply Forall_impl; [exact (linebreak_trace_inv runs width Hnonempty _ _ _ Hinit)|].
    simpl. intros st [s Hinv] st' Hstep.
    exact (linebreak_step_progress runs width Hnonempty st st' s Hinv Hstep).
  - exact (proj1 (line_starts_sorted runs width Hnonempty _ _ _ Hinit)).
Qed.

(** C9 on the runs of "a" and beta, at width 0. *)
Lemma linebreak_terminates_witness :
  (exists st,
     (forall k, linebreak_loop (linebreak_fuel runs_a_beta + k) scalar_zero
                  (linebreak_init runs_a_beta) = Ret st) /\
     linebreak_step scalar_zero st = Ret None /\
     linebreak runs_a_beta scalar_zero = Ret (lb_runs st)) /\
  Forall (fun st => forall st', linebreak_step scalar_zero st = Ret (Some st') ->
            position runs_a_beta (glyphIterator st') =
              S (position runs_a_beta (glyphIterator st)) \/
            (widthSoFar st' = scalar_zero /\
             exists st'', linebreak_step scalar_zero st' = Ret (Some st'') /\
               position runs_a_beta (glyphIterator st'') =
                 S (position runs_a_beta (glyphIterator st'))))
         (linebreak_trace (linebreak_fuel runs_a_beta) scalar_zero
            (linebreak_init runs_a_beta)) /\
  StronglySorted lt
    (line_starts runs_a_beta
       (linebreak_trace (linebreak_fuel runs_a_beta) scalar_zero
          (linebreak_init runs_a_beta))).
Proof.
  apply (linebreak_terminates runs_a_beta scalar_zero).
  repeat (constructor; [vm_compute; lia|]). constructor.
Defined.

(** ** C10: no empty run *)

(** C10: every run that the first block stores has at least one glyph,
    and every call of [append] that [shape] makes asks the handler for a
    buffer of [end - start] glyphs, which is at least one. *)
Theorem no_empty_run_buffer (env : Env) (impl : Impl) (srcFont : SkFont)
    (utf8 : list Z) (leftToRight : bool) (point : SkPoint) (width : SkScalar) :
  (forall runs,
     segment_and_shape env impl srcFont utf8 leftToRight = Ret (inr runs) ->
     forall r, r ∈ runs -> (1 <= fNumGlyphs r)%nat) /\
  (forall pt lines,
     shape env impl srcFont utf8 leftToRight point width = Ret (pt, lines) ->
     forall l c, l ∈ lines -> c ∈ line_calls l ->
       call_glyphCount c = call_end c - call_start c /\ 1 <= call_glyphCount c).
Proof.
  split.
  - intros runs Hruns r Hr.
    destruct (segment_and_shape_runs _ _ _ _ _ _ Hruns) as [Hwf _].
    unfold wf_runs in Hwf. rewrite Forall_forall in Hwf. by destruct (Hwf r Hr).
  - intros pt lines Hshape l c Hl Hc.
    destruct (shape_Ret _ _ _ _ _ _ _ _ _ Hshape)
      as [(e & _ & _ & ->)|(runs & runs' & Hruns & Hbreak & Hemit)].
    { by apply elem_of_nil in Hl. }
    destruct (linebreak_Ret _ _ _ _ _ _ _ _ Hruns Hbreak) as (Hwf & _).
    destruct (emit_spec env point runs' Hwf pt lines Hemit) as (_ & Hlines & _).
    apply list_elem_of_lookup_1 in Hl as [j Hj]. apply list_elem_of_lookup_1 in Hc as [i Hi].
    destruct (lo_calls _ _ _ _ _ _ (Hlines j l Hj) i c Hi)
      as (_ & _ & _ & _ & Hcount & Hone & _).
    by split.
Qed.

(** C10 on the stand-ins, for "a" and beta at width 15. *)
Lemma no_empty_run_buffer_witness :
  (forall r, r ∈ runs_a_beta -> (1 <= fNumGlyphs r)%nat) /\
  (forall l c, l ∈ shape_a_beta.2 -> c ∈ line_calls l ->
     call_glyphCount c = call_end c - call_start c /\ 1 <= call_glyphCount c).
Proof.
  destruct (no_empty_run_buffer (demo_env demo_plain) demo_impl demo_font text_a_beta
              true (demo_point 0 0) (int_to_float 15)) as [Hruns Hcalls].
  split.
  - apply Hruns. vm_compute. reflexivity.
  - apply (Hcalls shape_a_beta.1). vm_compute. reflexivity.
Defined.
(** * Further properties of the code *)

(** ** ScriptRunIterator *)

Lemma script_loop_run (env : Env) (utf8 : list Z) (fuel : nat) :
  decoder_advances env utf8 ->
  forall it : ScriptRunIterator.t,
    ScriptRunIterator.fCurrent it <= ScriptRunIterator.fEnd it ->
    ScriptRunIterator.fEnd it - ScriptRunIterator.fCurrent it <= Z.of_nat fuel ->
    exists it' us,
      ScriptRunIterator.consume_loop env utf8 fuel it = Ret it' /\
      ScriptRunIterator.fEnd it' = ScriptRunIterator.fEnd it /\
      decoded env utf8 (ScriptRunIterator.fEnd it) (ScriptRunIterator.fCurrent it) us
        (ScriptRunIterator.fCurrent it') /\
      ScriptRunIterator.fCurrent it <= ScriptRunIterator.fCurrent it'
        <= ScriptRunIterator.fEnd it /\
      (ScriptRunIterator.fCurrentScript it' = ScriptRunIterator.fCurrentScript it \/
       joins (ScriptRunIterator.fCurrentScript it)) /\
      Forall (fun u => hb_unicode_script env u = ScriptRunIterator.fCurrentScript it' \/
                       joins (hb_unicode_script env u)) us /\
      (ScriptRunIterator.fCurrent it' < ScriptRunIterator.fEnd it ->
       ~ joins (ScriptRunIterator.fCurrentScript it') /\
       hb_unicode_script env
         (utf8_next env utf8 (ScriptRunIterator.fCurrent it') (ScriptRunIterator.fEnd it)).1
         <> ScriptRunIterator.fCurrentScript it' /\
       ~ joins (hb_unicode_script env
                  (utf8_next env utf8 (ScriptRunIterator.fCurrent it')
                     (ScriptRunIterator.fEnd it)).1)).
Proof.
  intros Hdec. induction fuel as [|fuel IH]; intros [cur e s] Hle Hfuel; simpl in *.
  - destruct (cur <? e) eqn:Hlt; [apply Z.ltb_lt in Hlt; lia|].
    exists (ScriptRunIterator.Mk cur e s), []. simpl. apply Z.ltb_ge in Hlt.
    split; [reflexivity|]. split; [reflexivity|]. split; [constructor|].
      split; [lia|]. split; [by left|]. split; [constructor|]. intros ?. lia.
  - destruct (cur <? e) eqn:Hlt.
    2:{ exists (ScriptRunIterator.Mk cur e s), []. simpl. apply Z.ltb_ge in Hlt.
        split; [reflexivity|]. split; [reflexivity|]. split; [constructor|].
      split; [lia|]. split; [by left|]. split; [constructor|]. intros ?. lia. }
    apply Z.ltb_lt in Hlt.
    pose proof (utf8_next_advances env utf8 Hdec cur e Hlt) as Hadv.
    destruct (utf8_next env utf8 cur e) as [u p] eqn:Hnext. simpl in Hadv.
    assert (forall s1,
      (hb_unicode_script env u = s1 \/ joins (hb_unicode_script env u)) ->
      (s1 = s \/ joins s) ->
      exists it' us,
        ScriptRunIterator.consume_loop env utf8 fuel (ScriptRunIterator.Mk p e s1)
          = Ret it' /\
        ScriptRunIterator.fEnd it' = e /\
        decoded env utf8 e cur us (ScriptRunIterator.fCurrent it') /\
        cur <= ScriptRunIterator.fCurrent it' <= e /\
        (ScriptRunIterator.fCurrentScript it' = s \/ joins s) /\
        Forall (fun u => hb_unicode_script env u = ScriptRunIterator.fCurrentScript it' \/
                         joins (hb_unicode_script env u)) us /\
        (ScriptRunIterator.fCurrent it' < e ->
         ~ joins (ScriptRunIterator.fCurrentScript it') /\
         hb_unicode_script env (utf8_next env utf8 (ScriptRunIterator.fCurrent it') e).1
           <> ScriptRunIterator.fCurrentScript it' /\
         ~ joins (hb_unicode_script env
                    (utf8_next env utf8 (ScriptRunIterator.fCurrent it') e).1))) as Hgo.
    { intros s1 Hu Hs1.
      destruct (IH (ScriptRunIterator.Mk p e s1)) as
        (it' & us & Hloop & Hend & Hdecoded & Hrange & Hscript & Hall & Hmax);
        simpl; [lia|lia|]. simpl in *.
      exists it', (u :: us). split; [assumption|]. split; [assumption|]. split.
      { replace u with (utf8_next env utf8 cur e).1 by (by rewrite Hnext).
        constructor. by rewrite Hnext. }
      split; [lia|]. split.
      { destruct Hscript as [->|Hj]; [assumption|]. destruct Hs1 as [->|?]; auto. }
      split; [|assumption]. constructor; [|assumption].
      destruct Hu as [<-|Hj]; [|by right].
      destruct Hscript as [->|Hj]; [by left|by right]. }
    destruct (decide (hb_unicode_script env u ≠ s)) as [Hne|Heq].
    + destruct (decide (s = HB_SCRIPT_INHERITED ∨ s = HB_SCRIPT_COMMON)) as [Hjs|Hnjs].
      * apply Hgo; [by left|by right].
      * destruct (decide (hb_unicode_script env u = HB_SCRIPT_INHERITED
                          ∨ hb_unicode_script env u = HB_SCRIPT_COMMON)) as [Hju|Hnju].
        -- apply Hgo; [by right|by left].
        -- exists (ScriptRunIterator.Mk cur e s), []. simpl.
           split; [reflexivity|]. split; [reflexivity|]. split; [constructor|].
           split; [lia|]. split; [by left|]. split; [constructor|]. intros _.
           rewrite Hnext. simpl. auto.
    + apply Hgo; [left; by apply dec_stable|by left].
Qed.

(** X1. [ScriptRunIterator::consume] takes at least one code point; the
    script it reports is never [HB_SCRIPT_INHERITED]; every code point of
    the run has the script of the run or a joining script (inherited or
    common); and the run ends before the end of the input only at a code
    point whose script is neither the script of the run nor joining, the
    script of the run being then not joining either. *)
Theorem script_run (env : Env) (utf8 : list Z) (it : ScriptRunIterator.t) :
  decoder_advances env utf8 ->
  ScriptRunIterator.fCurrent it < ScriptRunIterator.fEnd it ->
  exists it' us,
    ScriptRunIterator.consume env utf8 it = Ret it' /\
    ScriptRunIterator.fEnd it' = ScriptRunIterator.fEnd it /\
    decoded env utf8 (ScriptRunIterator.fEnd it) (ScriptRunIterator.endOfCurrentRun it) us
      (ScriptRunIterator.endOfCurrentRun it') /\
    us <> [] /\
    ScriptRunIterator.endOfCurrentRun it < ScriptRunIterator.endOfCurrentRun it'
      <= ScriptRunIterator.fEnd it /\
    ScriptRunIterator.currentScript it' <> HB_SCRIPT_INHERITED /\
    Forall (fun u => hb_unicode_script env u = ScriptRunIterator.currentScript it' \/
                     joins (hb_unicode_script env u)) us /\
    (ScriptRunIterator.atEnd it' = false ->
     ~ joins (ScriptRunIterator.currentScript it') /\
     hb_unicode_script env
       (utf8_next env utf8 (ScriptRunIterator.endOfCurrentRun it')
          (ScriptRunIterator.fEnd it)).1 <> ScriptRunIterator.currentScript it' /\
     ~ joins (hb_unicode_script env
                (utf8_next env utf8 (ScriptRunIterator.endOfCurrentRun it')
                   (ScriptRunIterator.fEnd it)).1)).
Proof.
  intros Hdec Hlt. destruct it as [cur e s]. simpl in *.
  unfold ScriptRunIterator.consume, ScriptRunIterator.endOfCurrentRun,
    ScriptRunIterator.currentScript, ScriptRunIterator.atEnd. simpl.
  pose proof (utf8_next_advances env utf8 Hdec cur e Hlt) as Hadv.
  destruct (utf8_next env utf8 cur e) as [u p] eqn:Hnext. simpl in Hadv.
  destruct (script_loop_run env utf8 (Z.to_nat (e - p)) Hdec
              (ScriptRunIterator.Mk p e (hb_unicode_script env u)))
    as (it' & us & Hloop & Hend & Hdecoded & Hrange & Hscript & Hall & Hmax);
    simpl; [lia|lia|]. simpl in *.
  rewrite Hloop. simpl.
  assert (decoded env utf8 e cur (u :: us) (ScriptRunIterator.fCurrent it')) as Hrun.
  { replace u with (utf8_next env utf8 cur e).1 by (by rewrite Hnext).
    constructor. by rewrite Hnext. }
  assert (hb_unicode_script env u = ScriptRunIterator.fCurrentScript it' \/
          joins (hb_unicode_script env u)) as Hu.
  { destruct Hscript as [->|?]; auto. }
  destruct (decide (ScriptRunIterator.fCurrentScript it' = HB_SCRIPT_INHERITED))
    as [Hinh|Hninh].
  - eexists _, (u :: us). split; [reflexivity|]. simpl.
    split; [assumption|]. split; [assumption|]. split; [done|]. split; [lia|].
    split; [done|]. split.
    + constructor.
      * right. destruct Hu as [->|?]; [|assumption]. rewrite Hinh. by left.
      * eapply Forall_impl; [exact Hall|]. simpl. intros v [->|?]; [|by right].
        right. rewrite Hinh. by left.
    + intros Hne. apply Z.eqb_neq in Hne.
      destruct (Hmax ltac:(lia)) as [Hnj _]. exfalso. apply Hnj. rewrite Hinh. by left.
  - exists it', (u :: us). split; [reflexivity|].
    split; [assumption|]. split; [assumption|]. split; [done|]. split; [lia|].
    split; [assumption|]. split; [by constructor|].
    rewrite Hend. intros Hne. apply Z.eqb_neq in Hne. apply Hmax. lia.
Qed.

(** X1 on the stand-ins: the first run of scripts of "a" and beta. *)
Lemma script_run_witness :
  exists it' us,
    ScriptRunIterator.consume (demo_env demo_plain) text_a_beta
      (ScriptRunIterator.Mk 0 3 HB_SCRIPT_UNKNOWN) = Ret it' /\
    ScriptRunIterator.fEnd it' = 3 /\
    decoded (demo_env demo_plain) text_a_beta 3 0 us
      (ScriptRunIterator.endOfCurrentRun it') /\
    us <> [] /\
    0 < ScriptRunIterator.endOfCurrentRun it' <= 3 /\
    ScriptRunIterator.currentScript it' <> HB_SCRIPT_INHERITED /\
    Forall (fun u => hb_unicode_script (demo_env demo_plain) u
                       = ScriptRunIterator.currentScript it' \/
                     joins (hb_unicode_script (demo_env demo_plain) u)) us /\
    (ScriptRunIterator.atEnd it' = false ->
     ~ joins (ScriptRunIterator.currentScript it') /\
     hb_unicode_script (demo_env demo_plain)
       (utf8_next (demo_env demo_plain) text_a_beta
          (ScriptRunIterator.endOfCurrentRun it') 3).1
       <> ScriptRunIterator.currentScript it' /\
     ~ joins (hb_unicode_script (demo_env demo_plain)
                (utf8_next (demo_env demo_plain) text_a_beta
                   (ScriptRunIterator.endOfCurrentRun it') 3).1)).
Proof.
  apply (script_run (demo_env demo_plain) text_a_beta
           (ScriptRunIterator.Mk 0 3 HB_SCRIPT_UNKNOWN)
           (demo_decoder_advances demo_plain text_a_beta)).
  simpl. lia.
Defined.

(** ** FontRunIterator *)

Lemma font_with_current (it : FontRunIterator.t) (p q : Z) :
  FontRunIterator.with_current (FontRunIterator.with_current it p) q
    = FontRunIterator.with_current it q.
Proof. reflexivity. Qed.

Lemma font_with_current_id (it : FontRunIterator.t) :
  FontRunIterator.with_current it (FontRunIterator.fCurrent it) = it.
Proof. by destruct it. Qed.

Lemma font_loop_run (env : Env) (utf8 : list Z) (fuel : nat) :
  decoder_advances env utf8 ->
  forall it it' : FontRunIterator.t,
    FontRunIterator.consume_loop env utf8 fuel it = Ret it' ->
    FontRunIterator.fCurrent it <= FontRunIterator.fEnd it ->
    exists us,
      decoded env utf8 (FontRunIterator.fEnd it) (FontRunIterator.fCurrent it) us
        (FontRunIterator.fCurrent it') /\
      FontRunIterator.fCurrent it <= FontRunIterator.fCurrent it'
        <= FontRunIterator.fEnd it /\
      it' = FontRunIterator.with_current it (FontRunIterator.fCurrent it') /\
      Forall (fun u =>
        (FontRunIterator.fCurrentTypeface it = Some (FontRunIterator.fTypeface it) \/
         charsToGlyphs env (FontRunIterator.fTypeface it) u = false) /\
        exists tf, FontRunIterator.fCurrentTypeface it = Some tf /\
                   charsToGlyphs env tf u = true) us /\
      (FontRunIterator.fCurrent it' < FontRunIterator.fEnd it ->
       (FontRunIterator.fCurrentTypeface it <> Some (FontRunIterator.fTypeface it) /\
        charsToGlyphs env (FontRunIterator.fTypeface it)
          (utf8_next env utf8 (FontRunIterator.fCurrent it') (FontRunIterator.fEnd it)).1
          = true) \/
       exists tf, FontRunIterator.fCurrentTypeface it = Some tf /\
         charsToGlyphs env tf
           (utf8_next env utf8 (FontRunIterator.fCurrent it') (FontRunIterator.fEnd it)).1
           = false).
Proof.
  intros Hdec. induction fuel as [|fuel IH]; intros it it' H Hle; simpl in H.
  - destruct (FontRunIterator.fCurrent it <? FontRunIterator.fEnd it) eqn:Hlt; [inv_ret|].
    inv_ret. apply Z.ltb_ge in Hlt. exists []. split; [constructor|]. split; [lia|].
    split; [by rewrite font_with_current_id|]. split; [constructor|]. intros ?. lia.
  - destruct (FontRunIterator.fCurrent it <? FontRunIterator.fEnd it) eqn:Hlt.
    2:{ inv_ret. apply Z.ltb_ge in Hlt. exists []. split; [constructor|]. split; [lia|].
        split; [by rewrite font_with_current_id|]. split; [constructor|]. intros ?. lia. }
    apply Z.ltb_lt in Hlt.
    pose proof (utf8_next_advances env utf8 Hdec _ _ Hlt) as Hadv.
    destruct (utf8_next env utf8 (FontRunIterator.fCurrent it) (FontRunIterator.fEnd it))
      as [u p] eqn:Hnext. simpl in Hadv.
    destruct (bool_decide (FontRunIterator.fCurrentTypeface it
                           ≠ Some (FontRunIterator.fTypeface it))
              && charsToGlyphs env (FontRunIterator.fTypeface it) u) eqn:Hprimary.
    { inv_ret. apply andb_true_iff in Hprimary as [Hne Hcov].
      apply bool_decide_eq_true in Hne. exists []. simpl.
      split; [constructor|]. split; [lia|]. split; [reflexivity|]. split; [constructor|].
      intros _. left. rewrite Hnext. simpl. auto. }
    destruct (FontRunIterator.fCurrentTypeface it) as [cur|] eqn:Hcur; [|inv_ret].
    destruct (negb (charsToGlyphs env cur u)) eqn:Hcov.
    { inv_ret. apply negb_true_iff in Hcov. exists []. simpl.
      split; [constructor|]. split; [lia|]. split; [reflexivity|]. split; [constructor|].
      intros _. right. exists cur. rewrite Hnext. simpl. auto. }
    apply negb_false_iff in Hcov.
    destruct (IH _ _ H) as (us & Hdecoded & Hrange & Heq & Hall & Hmax); [simpl; lia|].
    simpl in *. exists (u :: us). split.
    { replace u with (utf8_next env utf8 (FontRunIterator.fCurrent it)
                        (FontRunIterator.fEnd it)).1 by (by rewrite Hnext).
      constructor. by rewrite Hnext. }
    split; [lia|]. split; [assumption|]. rewrite Hcur in *. split; [|assumption].
    constructor; [|assumption]. split; [|by eauto].
    apply andb_false_iff in Hprimary as [Hp|Hp]; [|by right].
    apply bool_decide_eq_false in Hp. left. by apply dec_stable.
Qed.

(** X2. [FontRunIterator::consume], when it returns, has taken at least
    one code point; the primary typeface is the typeface of the run when
    it has a glyph for some code point of the run; every code point of the
    run after the first has a glyph in the typeface of the run, and the
    first has one unless the typeface is the one the font manager gave for
    it; a cached fallback that has a glyph for the first code point is
    kept; and the run ends before the end of the input only at a code
    point that the primary typeface has a glyph for while the run is in
    another typeface, or that the typeface of the run has no glyph for.
    It returns whenever the font manager finds a typeface. *)
Theorem font_run (env : Env) (utf8 : list Z) (it : FontRunIterator.t) :
  decoder_advances env utf8 ->
  FontRunIterator.fCurrent it < FontRunIterator.fEnd it ->
  (fallback_never_null env -> exists it', FontRunIterator.consume env utf8 it = Ret it') /\
  forall it', FontRunIterator.consume env utf8 it = Ret it' ->
    exists u0 us,
      decoded env utf8 (FontRunIterator.fEnd it) (FontRunIterator.endOfCurrentRun it)
        (u0 :: us) (FontRunIterator.endOfCurrentRun it') /\
      FontRunIterator.endOfCurrentRun it < FontRunIterator.endOfCurrentRun it'
        <= FontRunIterator.fEnd it /\
      FontRunIterator.fEnd it' = FontRunIterator.fEnd it /\
      FontRunIterator.fTypeface it' = FontRunIterator.fTypeface it /\
      (forall u, u ∈ u0 :: us ->
         charsToGlyphs env (FontRunIterator.fTypeface it) u = true ->
         FontRunIterator.currentTypeface it' = Some (FontRunIterator.fTypeface it)) /\
      (forall u, u ∈ us ->
         exists tf, FontRunIterator.currentTypeface it' = Some tf /\
                    charsToGlyphs env tf u = true) /\
      ((exists tf, FontRunIterator.currentTypeface it' = Some tf /\
                   charsToGlyphs env tf u0 = true) \/
       FontRunIterator.currentTypeface it'
         = matchFamilyStyleCharacter env (FontRunIterator.fTypeface it) u0) /\
      (charsToGlyphs env (FontRunIterator.fTypeface it) u0 = true \/
       (exists fb, FontRunIterator.fFallbackTypeface it = Some fb /\
                   charsToGlyphs env fb u0 = true) ->
       FontRunIterator.fFallbackTypeface it' = FontRunIterator.fFallbackTypeface it) /\
      (FontRunIterator.atEnd it' = false ->
       (FontRunIterator.currentTypeface it' <> Some (FontRunIterator.fTypeface it) /\
        charsToGlyphs env (FontRunIterator.fTypeface it)
          (utf8_next env utf8 (FontRunIterator.endOfCurrentRun it')
             (FontRunIterator.fEnd it)).1 = true) \/
       exists tf, FontRunIterator.currentTypeface it' = Some tf /\
         charsToGlyphs env tf
           (utf8_next env utf8 (FontRunIterator.endOfCurrentRun it')
              (FontRunIterator.fEnd it)).1 = false).
Proof.
  intros Hdec Hlt. split.
  { intros Hfb. destruct (font_consume env utf8 Hdec it Hfb Hlt) as (it' & H & _). eauto. }
  intros it' H.
  unfold FontRunIterator.consume, FontRunIterator.endOfCurrentRun,
    FontRunIterator.currentTypeface, FontRunIterator.atEnd in *.
  pose proof (utf8_next_advances env utf8 Hdec _ _ Hlt) as Hadv.
  destruct (utf8_next env utf8 (FontRunIterator.fCurrent it) (FontRunIterator.fEnd it))
    as [u0 p] eqn:Hnext. simpl in Hadv.
  set (it1 := FontRunIterator.select env u0 (FontRunIterator.with_current it p)) in *.
  assert (FontRunIterator.fCurrent it1 = p /\
          FontRunIterator.fEnd it1 = FontRunIterator.fEnd it /\
          FontRunIterator.fTypeface it1 = FontRunIterator.fTypeface it) as (Hc1 & He1 & Ht1).
  { unfold it1, FontRunIterator.select. simpl. by repeat destruct (_ : bool). }
  destruct (font_loop_run env utf8 _ Hdec it1 it' H) as (us & Hdecoded & Hrange & -> & Hall & Hmax);
    [lia|].
  rewrite Hc1, He1, Ht1 in *. simpl in *.
  exists u0, us. split.
  { replace u0 with (utf8_next env utf8 (FontRunIterator.fCurrent it)
                       (FontRunIterator.fEnd it)).1 by (by rewrite Hnext).
    constructor. by rewrite Hnext. }
  split; [lia|]. split; [assumption|]. split; [assumption|].
  rewrite Forall_forall in Hall.
  assert (charsToGlyphs env (FontRunIterator.fTypeface it) u0 = true ->
          FontRunIterator.fCurrentTypeface it1 = Some (FontRunIterator.fTypeface it)) as Hfirst.
  { intros Hcov. unfold it1, FontRunIterator.select. simpl. by rewrite Hcov. }
  split.
  { intros u Hu Hcov. apply elem_of_cons in Hu as [->|Hu]; [by apply Hfirst|].
    destruct (Hall u Hu) as [[?|Hno] _]; [assumption|congruence]. }
  split; [intros u Hu; by destruct (Hall u Hu) as [_ ?]|].
  split.
  { unfold it1, FontRunIterator.select. simpl.
    destruct (charsToGlyphs env (FontRunIterator.fTypeface it) u0) eqn:Hcov; simpl.
    - left. eauto.
    - destruct (FontRunIterator.fFallbackTypeface it) as [fb|] eqn:Hfb; simpl; [|by right].
      destruct (charsToGlyphs env fb u0) eqn:Hcov'; simpl; [left; eauto|by right]. }
  split.
  { unfold it1, FontRunIterator.select. simpl.
    intros [Hcov|(fb & Hfb & Hcov)].
    - by rewrite Hcov.
    - destruct (charsToGlyphs env (FontRunIterator.fTypeface it) u0); [reflexivity|].
      rewrite Hfb, Hcov. reflexivity. }
  intros Hne. apply Z.eqb_neq in Hne. apply Hmax. lia.
Qed.

(** X2 on the stand-ins: the run of typefaces of "a" and beta. *)
Lemma font_run_witness :
  (fallback_never_null (demo_env demo_plain) ->
   exists it', FontRunIterator.consume (demo_env demo_plain) text_a_beta
                 (FontRunIterator.Mk 0 3 (Some 1) 1 None None (Some 1) (Some 1)) = Ret it') /\
  forall it', FontRunIterator.consume (demo_env demo_plain) text_a_beta
                (FontRunIterator.Mk 0 3 (Some 1) 1 None None (Some 1) (Some 1)) = Ret it' ->
    exists u0 us,
      decoded (demo_env demo_plain) text_a_beta 3 0 (u0 :: us)
        (FontRunIterator.endOfCurrentRun it') /\
      0 < FontRunIterator.endOfCurrentRun it' <= 3 /\
      FontRunIterator.fEnd it' = 3 /\
      FontRunIterator.fTypeface it' = 1 /\
      (forall u, u ∈ u0 :: us ->
         charsToGlyphs (demo_env demo_plain) 1 u = true ->
         FontRunIterator.currentTypeface it' = Some 1) /\
      (forall u, u ∈ us ->
         exists tf, FontRunIterator.currentTypeface it' = Some tf /\
                    charsToGlyphs (demo_env demo_plain) tf u = true) /\
      ((exists tf, FontRunIterator.currentTypeface it' = Some tf /\
                   charsToGlyphs (demo_env demo_plain) tf u0 = true) \/
       FontRunIterator.currentTypeface it'
         = matchFamilyStyleCharacter (demo_env demo_plain) 1 u0) /\
      (charsToGlyphs (demo_env demo_plain) 1 u0 = true \/
       (exists fb, None = Some fb /\ charsToGlyphs (demo_env demo_plain) fb u0 = true) ->
       FontRunIterator.fFallbackTypeface it' = None) /\
      (FontRunIterator.atEnd it' = false ->
       (FontRunIterator.currentTypeface it' <> Some 1 /\
        charsToGlyphs (demo_env demo_plain) 1
          (utf8_next (demo_env demo_plain) text_a_beta
             (FontRunIterator.endOfCurrentRun it') 3).1 = true) \/
       exists tf, FontRunIterator.currentTypeface it' = Some tf /\
         charsToGlyphs (demo_env demo_plain) tf
           (utf8_next (demo_env demo_plain) text_a_beta
              (FontRunIterator.endOfCurrentRun it') 3).1 = false).
Proof.
  apply (font_run (demo_env demo_plain) text_a_beta
           (FontRunIterator.Mk 0 3 (Some 1) 1 None None (Some 1) (Some 1))
           (demo_decoder_advances demo_plain text_a_beta)).
  simpl. lia.
Defined.
(** ** BiDiRunIterator *)

Lemma utf16_length_cons (u : Z) (us : list Z) :
  utf16_length (u :: us) = ToUTF16 u + utf16_length us.
Proof. reflexivity. Qed.

Lemma bidi_loop_run (env : Env) (utf8 : list Z) (endPosition : Z) (fuel : nat) :
  forall it it' : BiDiRunIterator.t,
    BiDiRunIterator.consume_loop env utf8 fuel endPosition it = Ret it' ->
    exists us,
      decoded env utf8 (BiDiRunIterator.fEndOfAllRuns it)
        (BiDiRunIterator.fEndOfCurrentRun it) us (BiDiRunIterator.fEndOfCurrentRun it') /\
      BiDiRunIterator.fUTF16LogicalPosition it'
        = BiDiRunIterator.fUTF16LogicalPosition it + utf16_length us /\
      BiDiRunIterator.fLevel it' = BiDiRunIterator.fLevel it /\
      BiDiRunIterator.fBidi it' = BiDiRunIterator.fBidi it /\
      BiDiRunIterator.fEndOfAllRuns it' = BiDiRunIterator.fEndOfAllRuns it /\
      (forall k, (k < length us)%nat ->
         ubidi_getLevelAt (BiDiRunIterator.fBidi it)
           (BiDiRunIterator.fUTF16LogicalPosition it + utf16_length (take k us))
           = BiDiRunIterator.fLevel it) /\
      (BiDiRunIterator.fUTF16LogicalPosition it' < endPosition ->
       ubidi_getLevelAt (BiDiRunIterator.fBidi it)
         (BiDiRunIterator.fUTF16LogicalPosition it') <> BiDiRunIterator.fLevel it).
Proof.
  assert (forall it : BiDiRunIterator.t, exists us,
    decoded env utf8 (BiDiRunIterator.fEndOfAllRuns it)
      (BiDiRunIterator.fEndOfCurrentRun it) us (BiDiRunIterator.fEndOfCurrentRun it) /\
    BiDiRunIterator.fUTF16LogicalPosition it
      = BiDiRunIterator.fUTF16LogicalPosition it + utf16_length us /\
    (forall k, (k < length us)%nat ->
       ubidi_getLevelAt (BiDiRunIterator.fBidi it)
         (BiDiRunIterator.fUTF16LogicalPosition it + utf16_length (take k us))
         = BiDiRunIterator.fLevel it)) as Hstop.
  { intros it. exists []. split; [constructor|]. split; [unfold utf16_length; simpl; lia|].
    intros k Hk. simpl in Hk. lia. }
  induction fuel as [|fuel IH]; intros it it' H; simpl in H.
  - destruct (BiDiRunIterator.fUTF16LogicalPosition it <? endPosition) eqn:Hlt.
    + destruct (decide _) as [Hne|Heq]; inv_ret.
      destruct (Hstop it') as (us & H1 & H2 & H3). exists us. by repeat split.
    + inv_ret. apply Z.ltb_ge in Hlt.
      destruct (Hstop it') as (us & H1 & H2 & H3). exists us. repeat split; try done. lia.
  - destruct (BiDiRunIterator.fUTF16LogicalPosition it <? endPosition) eqn:Hlt.
    2:{ inv_ret. apply Z.ltb_ge in Hlt.
        destruct (Hstop it') as (us & H1 & H2 & H3). exists us. repeat split; try done. lia. }
    destruct (decide _) as [Hne|Heq].
    { inv_ret. destruct (Hstop it') as (us & H1 & H2 & H3). exists us. by repeat split. }
    apply dec_stable in Heq.
    destruct (IH _ _ H) as (us & Hdecoded & Hpos & Hlevel & Hbidi & Hall & Hlevels & Hmax).
    unfold BiDiRunIterator.advance in *.
    destruct (utf8_next env utf8 (BiDiRunIterator.fEndOfCurrentRun it)
                (BiDiRunIterator.fEndOfAllRuns it)) as [u p] eqn:Hnext.
    simpl in *. exists (u :: us). split.
    { replace u with (utf8_next env utf8 (BiDiRunIterator.fEndOfCurrentRun it)
                        (BiDiRunIterator.fEndOfAllRuns it)).1 by (by rewrite Hnext).
      constructor. by rewrite Hnext. }
    rewrite utf16_length_cons. split; [lia|]. split; [assumption|].
    split; [assumption|]. split; [assumption|]. split; [|assumption].
    intros [|k] Hk; simpl.
    + unfold utf16_length. simpl. by rewrite Z.add_0_r.
    + rewrite utf16_length_cons, Z.add_assoc. apply Hlevels. simpl in Hk. lia.
Qed.

(** X3. [BiDiRunIterator::consume], when it returns, has taken at least
    one code point; its UTF-16 position has moved by the UTF-16 length of
    the code points taken; the level it reports is the level that ICU
    gives at the UTF-16 position of every code point of the run; and when
    it stops before the length of the paragraph, the level at the position
    it stops at differs from the level it reports. It returns, and has
    moved forward in the input, when the decoder moves forward and the
    length of the paragraph is reached exactly at the end of the input. *)
Theorem bidi_run (env : Env) (utf8 : list Z) (it : BiDiRunIterator.t) :
  (decoder_advances env utf8 ->
   (forall p q, decodes env utf8 p q ->
      (q = ubidi_getLength (BiDiRunIterator.fBidi it) <-> p = Z.of_nat (length utf8))) ->
   BiDiRunIterator.fEndOfAllRuns it = Z.of_nat (length utf8) ->
   decodes env utf8 (BiDiRunIterator.endOfCurrentRun it)
     (BiDiRunIterator.fUTF16LogicalPosition it) ->
   BiDiRunIterator.endOfCurrentRun it < Z.of_nat (length utf8) ->
   exists it', BiDiRunIterator.consume env utf8 it = Ret it' /\
     BiDiRunIterator.endOfCurrentRun it < BiDiRunIterator.endOfCurrentRun it'
       <= Z.of_nat (length utf8)) /\
  forall it', BiDiRunIterator.consume env utf8 it = Ret it' ->
    exists u0 us,
      decoded env utf8 (BiDiRunIterator.fEndOfAllRuns it)
        (BiDiRunIterator.endOfCurrentRun it) (u0 :: us)
        (BiDiRunIterator.endOfCurrentRun it') /\
      BiDiRunIterator.fUTF16LogicalPosition it'
        = BiDiRunIterator.fUTF16LogicalPosition it + utf16_length (u0 :: us) /\
      BiDiRunIterator.fBidi it' = BiDiRunIterator.fBidi it /\
      (forall k, (k <= length us)%nat ->
         ubidi_getLevelAt (BiDiRunIterator.fBidi it)
           (BiDiRunIterator.fUTF16LogicalPosition it + utf16_length (take k (u0 :: us)))
           = BiDiRunIterator.currentLevel it') /\
      (BiDiRunIterator.fUTF16LogicalPosition it'
         < ubidi_getLength (BiDiRunIterator.fBidi it) ->
       ubidi_getLevelAt (BiDiRunIterator.fBidi it)
         (BiDiRunIterator.fUTF16LogicalPosition it') <> BiDiRunIterator.currentLevel it').
Proof.
  split.
  { intros Hdec Hcons Hall Hdecodes Hlt.
    destruct (bidi_consume env utf8 Hdec it Hcons Hall Hdecodes Hlt)
      as (it' & H & _ & _ & _ & Hrange). eauto. }
  intros it' H.
  unfold BiDiRunIterator.consume, BiDiRunIterator.endOfCurrentRun,
    BiDiRunIterator.currentLevel in *.
  apply bidi_loop_run in H
    as (us & Hdecoded & Hpos & Hlevel & Hbidi & Hall & Hlevels & Hmax).
  unfold BiDiRunIterator.advance in *. simpl in *.
  destruct (utf8_next env utf8 (BiDiRunIterator.fEndOfCurrentRun it)
              (BiDiRunIterator.fEndOfAllRuns it)) as [u p] eqn:Hnext.
  simpl in *. exists u, us. split.
  { replace u with (utf8_next env utf8 (BiDiRunIterator.fEndOfCurrentRun it)
                      (BiDiRunIterator.fEndOfAllRuns it)).1 by (by rewrite Hnext).
    constructor. by rewrite Hnext. }
  rewrite utf16_length_cons. split; [lia|]. split; [assumption|].
  rewrite Hlevel. split; [|assumption].
  intros [|k] Hk; simpl.
  - unfold utf16_length. simpl. by rewrite Z.add_0_r.
  - rewrite utf16_length_cons, Z.add_assoc. apply Hlevels. lia.
Qed.

(** X3 on the stand-ins: the first run of "a" and beta. *)
Lemma bidi_run_witness :
  exists bidi0,
    ubidi_setPara (demo_env demo_plain) text_a_beta UBIDI_DEFAULT_LTR = Some bidi0 /\
    exists it',
      BiDiRunIterator.consume (demo_env demo_plain) text_a_beta
        (BiDiRunIterator.Mk bidi0 0 3 0 UBIDI_DEFAULT_LTR) = Ret it' /\
      0 < BiDiRunIterator.endOfCurrentRun it' <= 3.
Proof.
  eexists. split; [reflexivity|].
  refine (proj1 (bidi_run (demo_env demo_plain) text_a_beta
                   (BiDiRunIterator.Mk _ 0 3 0 UBIDI_DEFAULT_LTR)) _ _ _ _ _).
  - exact (demo_decoder_advances demo_plain text_a_beta).
  - apply (demo_plain_bidi_consistent UBIDI_DEFAULT_LTR). reflexivity.
  - reflexivity.
  - constructor.
  - reflexivity.
Defined.
(** ** RunIteratorQueue::advanceRuns *)

Lemma ref_same_end (q q' : RunIteratorQueue) (r : RunIteratorRef) :
  ref_same q q' r -> ref_endOfCurrentRun q' r = ref_endOfCurrentRun q r.
Proof. destruct r; simpl; by intros ->. Qed.

Lemma ref_consume_Ret (env : Env) (utf8 : list Z) (q q' : RunIteratorQueue)
    (r : RunIteratorRef) :
  ref_consume env utf8 q r = Ret q' ->
  ref_consumed env utf8 q q' r /\ forall r', r' <> r -> ref_same q q' r'.
Proof.
  destruct r; simpl; intros H; bind_inv H as it Hit; inv_ret; simpl;
    (split; [assumption|]); intros r' Hr'; by destruct r'.
Qed.

Section QueueTracks.
Variable env : Env.
Variable utf8 : list Z.
Variable bidi0 : UBiDi.
Hypothesis Hdec : decoder_advances env utf8.
Hypothesis Hcons :
  forall p q, decodes env utf8 p q ->
    (q = ubidi_getLength bidi0 <-> p = Z.of_nat (length utf8)).
Variable q : RunIteratorQueue.
Variable leastEnd : Z.
Hypothesis HleastEnd : leastEnd < Z.of_nat (length utf8).

(** Where an iterator stands in the loop of [advanceRuns]: waiting at the
    least end, consumed once and beyond it, or beyond it from the start. *)
Let status (qc : RunIteratorQueue) (r : RunIteratorRef) : Prop :=
  (ref_endOfCurrentRun q r = leastEnd /\ ref_same q qc r) \/
  (ref_endOfCurrentRun q r = leastEnd /\ ref_consumed env utf8 q qc r /\
   leastEnd < ref_endOfCurrentRun qc r) \/
  (leastEnd < ref_endOfCurrentRun q r /\ ref_same q qc r).

Lemma advanceRuns_loop_tracks (fuel : nat) :
  forall qc q', advanceRuns_loop env utf8 fuel leastEnd qc = Ret q' ->
    iters_inv env utf8 bidi0 qc -> (forall r, status qc r) -> forall r, status q' r.
Proof using Hdec Hcons HleastEnd.
  induction fuel as [|fuel IH]; intros qc q' H Hinv Hstatus; simpl in H.
  - bind_inv H as r0 Hpeek. destruct (_ <=? _); inv_ret. assumption.
  - bind_inv H as r0 Hpeek. destruct (_ <=? _) eqn:Hcmp; [|by inv_ret].
    apply Z.leb_le in Hcmp. bind_inv H as q1 Hconsume.
    assert (ref_endOfCurrentRun q r0 = leastEnd /\ ref_same q qc r0) as [Hend0 Hsame0].
    { destruct (Hstatus r0) as [?|[(_ & _ & Hgt)|[Hgt Hsame]]]; [assumption|lia|].
      rewrite (ref_same_end _ _ _ Hsame) in Hcmp. lia. }
    assert (iters_inv env utf8 bidi0 (pop qc)) as Hinvp by (by destruct Hinv).
    destruct (ref_consume_spec env utf8 bidi0 Hdec Hcons (pop qc) r0 Hinvp)
      as [(_ & _ & Hfault)|(q1' & H1 & Hinv1 & Hadv & _)]; [|congruence|].
    { change (ref_endOfCurrentRun qc r0 < Z.of_nat (length utf8)). lia. }
    assert (q1' = q1) as -> by congruence.
    change (ref_endOfCurrentRun (pop qc) r0) with (ref_endOfCurrentRun qc r0) in Hadv.
    destruct (ref_consume_Ret _ _ _ _ _ Hconsume) as [Hconsumed Hothers].
    apply (IH _ _ H); [by destruct Hinv1|].
    intros r. destruct (decide (r = r0)) as [->|Hne].
    + right. left. split; [assumption|]. split.
      * clear -Hconsumed Hsame0. destruct r0; simpl in *; congruence.
      * change (leastEnd < ref_endOfCurrentRun q1 r0).
        rewrite (ref_same_end _ _ _ Hsame0) in Hadv. lia.
    + specialize (Hothers r Hne).
      destruct (Hstatus r) as [[He Hs]|[(He & Hc & Hgt)|[Hgt Hs]]].
      * left. split; [assumption|]. clear -Hothers Hs. destruct r; simpl in *; congruence.
      * right. left. split; [assumption|]. split.
        -- clear -Hothers Hc. destruct r; simpl in *; congruence.
        -- change (leastEnd < ref_endOfCurrentRun q1 r).
           rewrite (ref_same_end _ _ _ Hothers). assumption.
      * right. right. split; [assumption|].
        clear -Hothers Hs. destruct r; simpl in *; congruence.
Qed.
End QueueTracks.

(** The invariants of the iterators and of the queue hold after every
    successful call of [advanceRuns]. *)
Lemma advanced_inv (env : Env) (impl : Impl) (utf8 : list Z) (leftToRight : bool)
    (q0 q : RunIteratorQueue) :
  decoder_advances env utf8 -> bidi_consistent env utf8 ->
  make_segmenter env impl utf8 leftToRight = Ret (inr q0) ->
  advanced env utf8 q0 q ->
  exists bidi0,
    (forall p q, decodes env utf8 p q ->
       (q = ubidi_getLength bidi0 <-> p = Z.of_nat (length utf8))) /\
    iters_inv env utf8 bidi0 q /\ queue_ok q.
Proof.
  intros Hdec Hcons Hq0 Hadv.
  destruct (segmenter_init _ _ _ _ _ Hq0) as (level & bidi0 & Hpara & Hinv0 & Hok0 & _).
  exists bidi0. split; [exact (Hcons level bidi0 Hpara)|].
  induction Hadv as [|q q' _ [Hinv Hok] Hstep]; [by split|].
  destruct (queue_head env utf8 bidi0 q Hinv Hok) as (r0 & _ & Hend & _).
  destruct (advanceRuns_Ret env utf8 bidi0 Hdec (Hcons level bidi0 Hpara) q q' _ true
              Hinv Hok Hend Hstep) as (_ & _ & _ & Hinv' & Hok' & _).
  by split.
Qed.

(** X4. On the queue of [shape], [advanceRuns] returns false and leaves
    the queue as it is exactly when the least end of a run is the end of
    the input, and then all three iterators are at their end (the
    assertion [allRunsAreAtEnd] holds); otherwise it returns true after
    consuming once each iterator whose run ends at the least end and none
    of the others, and every run then ends beyond the former least end,
    unless a [consume] of the font iterator that it makes uses a null
    typeface: then it does not return. *)
Theorem advanceRuns_consumes_least (env : Env) (impl : Impl) (utf8 : list Z)
    (leftToRight : bool) (q0 q : RunIteratorQueue) :
  decoder_advances env utf8 -> bidi_consistent env utf8 ->
  make_segmenter env impl utf8 leftToRight = Ret (inr q0) ->
  advanced env utf8 q0 q ->
  exists leastEnd,
    queue_endOfCurrentRun q = Ret leastEnd /\
    (forall r, leastEnd <= ref_endOfCurrentRun q r) /\
    ((leastEnd = Z.of_nat (length utf8) /\ advanceRuns env utf8 q = Ret (false, q) /\
      forall r, ref_atEnd q r = true) \/
     (leastEnd < Z.of_nat (length utf8) /\
      ((advanceRuns env utf8 q = Fault /\
        exists q1, consumed_from env utf8 q q1 /\ font_faults env utf8 q1) \/
       exists q', advanceRuns env utf8 q = Ret (true, q') /\
         forall r,
           leastEnd < ref_endOfCurrentRun q' r /\
           (ref_endOfCurrentRun q r = leastEnd -> ref_consumed env utf8 q q' r) /\
           (ref_endOfCurrentRun q r <> leastEnd -> ref_same q q' r)))).
Proof.
  intros Hdec Hcons Hq0 Hadv.
  destruct (advanced_inv _ _ _ _ _ _ Hdec Hcons Hq0 Hadv) as (bidi0 & Hb & Hinv & Hok).
  destruct (queue_head env utf8 bidi0 q Hinv Hok) as (r0 & Hpeek & Hend & Hmin).
  exists (ref_endOfCurrentRun q r0). split; [assumption|]. split; [assumption|].
  destruct (advanceRuns_spec env utf8 bidi0 Hdec Hb q _ Hinv Hok Hend)
    as [_ [[HN Hfalse]|(Hlt & [Hfault|
                               (q' & e' & Htrue & _ & Hinv' & Hok' & Hend' & Hgt)])]].
  - left. split; [assumption|]. split; [assumption|]. intros r.
    apply (ref_atEnd_iff env utf8 bidi0 Hb q r Hinv).
    pose proof (ref_end_le env utf8 bidi0 q r Hinv). specialize (Hmin r). lia.
  - right. split; [assumption|]. by left.
  - right. split; [assumption|]. right. exists q'. split; [assumption|].
    assert (forall r, ref_endOfCurrentRun q r0 < ref_endOfCurrentRun q' r) as Hbeyond.
    { intros r. destruct (queue_head env utf8 bidi0 q' Hinv' Hok') as (r1 & _ & He1 & Hmin').
      rewrite He1 in Hend'. inversion Hend'; subst e'. specialize (Hmin' r). lia. }
    unfold advanceRuns in Htrue. rewrite Hpeek in Htrue. simpl in Htrue.
    destruct (ref_atEnd q r0); [discriminate|].
    bind_inv Htrue as q1 Hloop. inv_ret.
    pose proof (advanceRuns_loop_tracks env utf8 bidi0 Hdec Hb q
                  (ref_endOfCurrentRun q r0) Hlt _ q q' Hloop Hinv) as Htracks.
    intros r. split; [apply Hbeyond|].
    assert (forall r', ref_same q q r') as Hrefl by (intros r'; by destruct r').
    match type of Htracks with (?P -> _) => assert P as Hinit end.
    { intros r'. specialize (Hmin r').
      destruct (decide (ref_endOfCurrentRun q r' = ref_endOfCurrentRun q r0));
        [by left|right; right; split; [lia|done]]. }
    destruct (Htracks Hinit r) as [[He Hs]|[(He & Hc & _)|[Hgt' Hs]]].
    + specialize (Hbeyond r). rewrite (ref_same_end _ _ _ Hs) in Hbeyond. lia.
    + split; [done|]. intros Hne. contradiction.
    + split; [lia|done].
Qed.

(** X4 on the stand-ins: the first call of [advanceRuns] for "a", U+4E2D
    and "b" with a font manager that finds no typeface. *)
Lemma advanceRuns_consumes_least_witness :
  exists q0,
    make_segmenter (demo_env demo_no_fallback) demo_impl text_a_cjk_b true
      = Ret (inr q0) /\
    exists leastEnd,
      queue_endOfCurrentRun q0 = Ret leastEnd /\
      (forall r, leastEnd <= ref_endOfCurrentRun q0 r) /\
      ((leastEnd = Z.of_nat (length text_a_cjk_b) /\
        advanceRuns (demo_env demo_no_fallback) text_a_cjk_b q0 = Ret (false, q0) /\
        forall r, ref_atEnd q0 r = true) \/
       (leastEnd < Z.of_nat (length text_a_cjk_b) /\
        ((advanceRuns (demo_env demo_no_fallback) text_a_cjk_b q0 = Fault /\
          exists q1, consumed_from (demo_env demo_no_fallback) text_a_cjk_b q0 q1 /\
                     font_faults (demo_env demo_no_fallback) text_a_cjk_b q1) \/
         exists q', advanceRuns (demo_env demo_no_fallback) text_a_cjk_b q0
                      = Ret (true, q') /\
           forall r,
             leastEnd < ref_endOfCurrentRun q' r /\
             (ref_endOfCurrentRun q0 r = leastEnd ->
              ref_consumed (demo_env demo_no_fallback) text_a_cjk_b q0 q' r) /\
             (ref_endOfCurrentRun q0 r <> leastEnd -> ref_same q0 q' r)))).
Proof.
  destruct (make_segmenter (demo_env demo_no_fallback) demo_impl text_a_cjk_b true)
    as [[e|q0]| |] eqn:Hq0; try (vm_compute in Hq0; discriminate).
  exists q0. split; [reflexivity|].
  exact (advanceRuns_consumes_least (demo_env demo_no_fallback) demo_impl text_a_cjk_b
           true q0 q0 (demo_decoder_advances demo_no_fallback text_a_cjk_b)
           a_cjk_b_bidi_consistent Hq0 (advanced_start _ _ _)).
Defined.
(** ** ShapedRunGlyphIterator *)

Lemma valid_iter_start (runs : list ShapedRun) :
  Forall (fun r => (1 <= fNumGlyphs r)%nat) runs -> valid_iterator runs iter_start.
Proof.
  intros Hne. destruct (runs !! 0%nat) as [run|] eqn:Hrun.
  - left. exists run. split; [assumption|]. exact (Forall_lookup_1 _ _ _ _ Hne Hrun).
  - right. apply lookup_ge_None in Hrun. simpl. split; lia.
Qed.

Lemma nexts_valid (runs : list ShapedRun) :
  Forall (fun r => (1 <= fNumGlyphs r)%nat) runs ->
  forall k it, valid_iterator runs it ->
    (position runs it + k <= glyph_count runs)%nat ->
    exists it', nexts runs k it = Ret it' /\ valid_iterator runs it' /\
                position runs it' = (position runs it + k)%nat.
Proof.
  intros Hne. induction k as [|k IH]; intros it Hvalid Hk; simpl.
  - exists it. split; [reflexivity|]. split; [assumption|lia].
  - destruct (valid_at_glyph runs it Hvalid ltac:(lia)) as (run & Hrun & Hg).
    destruct (next_valid runs it run Hne Hrun Hg) as (it1 & -> & Hv1 & Hp1 & _).
    simpl. destruct (IH it1 Hv1 ltac:(lia)) as (it' & -> & Hv' & Hp').
    exists it'. split; [reflexivity|]. split; [assumption|lia].
Qed.

(** X5. On runs that have at least one glyph each, [k] calls of [next]
    from the start, for [k] up to the number of glyphs, return, and
    [current] then points at glyph [k] of the glyphs in logical order, or
    is null when [k] is the number of glyphs: the iterator visits every
    glyph once, in logical order, and then reports the end. *)
Theorem iterator_visits_in_order (runs : list ShapedRun) (k : nat) :
  Forall (fun r => (1 <= fNumGlyphs r)%nat) runs ->
  (k <= glyph_count runs)%nat ->
  exists it, nexts runs k iter_start = Ret it /\
    position runs it = k /\
    match all_glyphs runs !! k with
    | Some g => exists ptr, current runs it = Some ptr /\ deref runs ptr = Ret g
    | None => current runs it = None
    end.
Proof.
  intros Hne Hk.
  destruct (nexts_valid runs Hne k iter_start (valid_iter_start runs Hne))
    as (it & Hnexts & Hvalid & Hpos).
  { unfold position. simpl. replace (glyph_count (take 0 runs)) with 0%nat by reflexivity.
    lia. }
  assert (position runs iter_start = 0%nat) as H0 by reflexivity.
  rewrite H0 in Hpos. simpl in Hpos.
  exists it. split; [assumption|]. split; [assumption|].
  destruct (current runs it) as [ptr|] eqn:Hcur.
  - destruct (current_Some _ _ _ Hvalid Hcur) as (_ & run & g & _ & _ & Hderef & Hall & _).
    rewrite Hpos in Hall. rewrite Hall. eauto.
  - pose proof (current_None _ _ Hvalid Hcur) as Hend. rewrite Hpos in Hend.
    rewrite (proj2 (lookup_ge_None (all_glyphs runs) k)); [reflexivity|].
    unfold glyph_count in Hend. lia.
Qed.

(** X5 on the runs of "a" and beta: one call of [next]. *)
Lemma iterator_visits_in_order_witness :
  exists it, nexts runs_a_beta 1 iter_start = Ret it /\
    position runs_a_beta it = 1%nat /\
    match all_glyphs runs_a_beta !! 1%nat with
    | Some g => exists ptr, current runs_a_beta it = Some ptr /\ deref runs_a_beta ptr = Ret g
    | None => current runs_a_beta it = None
    end.
Proof.
  apply (iterator_visits_in_order runs_a_beta 1).
  - repeat (constructor; [vm_compute; lia|]). constructor.
  - vm_compute. lia.
Defined.

(** ** [append] *)

Lemma pen_after_nil (p : SkPoint) : pen_after p [] = p.
Proof. reflexivity. Qed.

Lemma layout_app (b : bool) (l k : list ShapedGlyph) :
  forall p, layout b p (l ++ k) = layout b p l ++ layout b (pen_after p l) k.
Proof.
  induction l as [|g l IH]; intros p; simpl; [reflexivity|]. by rewrite IH.
Qed.

Lemma layout_length (b : bool) (l : list ShapedGlyph) :
  forall p, length (layout b p l) = length l.
Proof. induction l as [|g l IH]; intros p; simpl; [reflexivity|]. by rewrite IH. Qed.

(** The glyph that [append] reads for slot [i]. *)
Lemma visual_range_lookup (run : ShapedRun) (start end_ : Z) (i : nat) :
  0 <= start <= end_ -> end_ <= Z.of_nat (fNumGlyphs run) ->
  (i < Z.to_nat (end_ - start))%nat ->
  exists g, visual_range run start end_ !! i = Some g /\
            indexZ (fGlyphs run) (append_glyph_index run start end_ i) = Ret g.
Proof.
  intros Hstart Hend Hi. unfold visual_range, append_glyph_index, fNumGlyphs in *.
  set (range := take (Z.to_nat (end_ - start)) (drop (Z.to_nat start) (fGlyphs run))).
  assert (length range = Z.to_nat (end_ - start)) as Hlen.
  { unfold range. rewrite length_take, length_drop. lia. }
  assert (forall j, (j < Z.to_nat (end_ - start))%nat ->
            range !! j = fGlyphs run !! (Z.to_nat start + j)%nat) as Hrange.
  { intros j Hj. unfold range. rewrite lookup_take_lt by assumption.
    by rewrite lookup_drop. }
  destruct (is_LTR (fLevel run)).
  - destruct (lookup_lt_is_Some_2 range i ltac:(lia)) as [g Hg].
    exists g. split; [assumption|]. apply indexZ_Ret. split; [lia|].
    rewrite <- Hg, Hrange by assumption. f_equal. lia.
  - destruct (lookup_lt_is_Some_2 (reverse range) i) as [g Hg];
      [rewrite length_reverse; lia|].
    exists g. split; [assumption|]. apply indexZ_Ret. split; [lia|].
    rewrite <- Hg, reverse_lookup by lia. rewrite Hrange by lia. f_equal. lia.
Qed.

Lemma visual_range_length (run : ShapedRun) (start end_ : Z) :
  0 <= start <= end_ -> end_ <= Z.of_nat (fNumGlyphs run) ->
  length (visual_range run start end_) = Z.to_nat (end_ - start).
Proof.
  intros Hstart Hend. unfold visual_range, fNumGlyphs in *.
  destruct (is_LTR _); rewrite ?length_reverse, length_take, length_drop; lia.
Qed.

(** X6. For a range of glyphs of the run, [append] returns after asking
    the handler for a buffer of [end - start] glyphs and as many bytes as
    the run has; the slots it writes are the glyphs of the range in the
    order stored when the run goes left to right and in reverse when it
    goes right to left, each placed at the pen moved by its offset (the y
    of the offset counted upwards), the pen moving by the advance of each
    glyph written, with the stored cluster when the buffer has clusters;
    the bytes of the run are copied when the buffer has a text; and the
    pen it leaves is the pen it was given moved by the advance of each
    glyph of the range, in the order written. Positions and the pen are
    computed in binary32. *)
Theorem append_lays_out (env : Env) (info : RunInfo) (run : ShapedRun) (start end_ : Z)
    (p : SkPoint) :
  0 <= start <= end_ -> end_ <= Z.of_nat (fNumGlyphs run) -> end_ - start < 2 ^ 32 ->
  let buffer := newRunBuffer env info (fFont run) (end_ - start)
                  (fUtf8End run - fUtf8Start run) in
  exists c,
    append env info run start end_ p
      = Ret (c, pen_after p (visual_range run start end_)) /\
    call_info c = info /\ call_run c = run /\
    call_start c = start /\ call_end c = end_ /\
    call_glyphCount c = end_ - start /\
    call_utf8Bytes c = fUtf8End run - fUtf8Start run /\
    call_utf8text c = (if has_utf8text buffer then Some (fUtf8Start run, fUtf8End run)
                       else None) /\
    call_slots c = layout (has_clusters buffer) p (visual_range run start end_).
Proof.
  intros Hstart Hend Hsmall buffer. unfold append.
  rewrite Z.mod_small by lia. fold buffer.
  set (vis := visual_range run start end_).
  pose proof (visual_range_length run start end_ Hstart Hend) as Hlen. fold vis in Hlen.
  destruct (for_loop_returns
              (fun i (acc : list Slot * SkPoint) =>
                 acc = (layout (has_clusters buffer) p (take i vis),
                        pen_after p (take i vis)))
              (append_body buffer run start end_) (Z.to_nat (end_ - start)) 0 ([], p))
    as ([slots p'] & Hloop & Hinv).
  - intros j [sl q] Hj Hacc. inversion Hacc; subst sl q. clear Hacc.
    unfold append_body.
    destruct (visual_range_lookup run start end_ j Hstart Hend ltac:(lia))
      as (g & Hg & ->). fold vis in Hg. simpl.
    eexists. split; [reflexivity|].
    by rewrite (take_S_r _ _ _ Hg), layout_app, pen_after_app.
  - by destruct vis.
  - rewrite Hloop. simpl in Hinv. inversion Hinv; subst slots p'. clear Hinv.
    rewrite take_ge by lia. simpl. eexists. split; [reflexivity|]. simpl.
    repeat (split; [reflexivity|]). reflexivity.
Qed.

(** X6 on a run of two glyphs that goes right to left: the glyph 8 is
    written first, at (101, 48), and the glyph 7 at (121, 48); the pen is
    left at (130, 50). *)
Lemma append_lays_out_witness :
  let buffer := newRunBuffer (demo_env demo_plain) demo_info (fFont demo_run_rtl) (2 - 0)
                  (fUtf8End demo_run_rtl - fUtf8Start demo_run_rtl) in
  (layout (has_clusters buffer) (demo_point 100 50) (visual_range demo_run_rtl 0 2)
     = [MkSlot 8 (demo_point 101 48) (Some 0); MkSlot 7 (demo_point 121 48) (Some 0)] /\
   pen_after (demo_point 100 50) (visual_range demo_run_rtl 0 2) = demo_point 130 50) /\
  exists c,
    append (demo_env demo_plain) demo_info demo_run_rtl 0 2 (demo_point 100 50)
      = Ret (c, pen_after (demo_point 100 50) (visual_range demo_run_rtl 0 2)) /\
    call_info c = demo_info /\ call_run c = demo_run_rtl /\
    call_start c = 0 /\ call_end c = 2 /\
    call_glyphCount c = 2 - 0 /\
    call_utf8Bytes c = fUtf8End demo_run_rtl - fUtf8Start demo_run_rtl /\
    call_utf8text c = (if has_utf8text buffer
                       then Some (fUtf8Start demo_run_rtl, fUtf8End demo_run_rtl)
                       else None) /\
    call_slots c = layout (has_clusters buffer) (demo_point 100 50)
                     (visual_range demo_run_rtl 0 2).
Proof.
  split; [split; vm_compute; reflexivity|].
  apply (append_lays_out (demo_env demo_plain) demo_info demo_run_rtl 0 2
           (demo_point 100 50)).
  - lia.
  - vm_compute. discriminate.
  - lia.
Defined.

(** The pen is a binary32 value: at 2^24 two glyphs of advance 1 leave it
    where it is, each sum being rounded back to 2^24. *)
Example append_rounds :
  pen_after (demo_point 16777216 0) [demo_glyph 7 1; demo_glyph 8 1]
    = demo_point 16777216 0.
Proof. vm_compute. reflexivity. Qed.
(** ** The segment-and-shape pass: more on the runs it stores *)

(** An invariant of the loop holds of the state it ends in. *)
Lemma shape_segments_invariant (I : SegmentState -> Prop) (env : Env) (srcFont : SkFont)
    (utf8 : list Z) :
  (forall st q st', I st -> advanceRuns env utf8 (runSegmenter st) = Ret (true, q) ->
     shape_segment env srcFont utf8 st q = Ret (inr st') -> I st') ->
  forall fuel st runs,
    shape_segments env srcFont utf8 fuel st = Ret (inr runs) -> I st ->
    exists st', I st' /\ seg_runs st' = runs.
Proof.
  intros Hstep. induction fuel as [|fuel IH]; intros st runs H Hst; simpl in H; [inv_ret|].
  bind_inv H as r Hadv. destruct r as [more q]. destruct more.
  - bind_inv H as r Hseg. destruct r as [e|st']; [inv_ret|].
    apply (IH st' runs H). by eapply Hstep.
  - inv_ret. eauto.
Qed.

Lemma set_may_pen (glyphs glyphs' : list ShapedGlyph) :
  Forall2 (fun g g' => exists b, g' = set_may g b) glyphs glyphs' ->
  forall p, pen_after p glyphs' = pen_after p glyphs.
Proof.
  induction 1 as [|g g' l l' [b ->] _ IH]; intros p; [done|].
  unfold pen_after in *. simpl. rewrite IH. by destruct g.
Qed.

(** What the break iterator does while the flags of a run are set. *)
Lemma ubrk_seek_boundary (env : Env) (utf8 : list Z) (glyphCluster : Z) (fuel : nat) :
  forall cur pos cur' pos',
    ubrk_seek env utf8 fuel glyphCluster cur pos = Ret (cur', pos') ->
    is_boundary env utf8 pos -> is_boundary env utf8 cur ->
    is_boundary env utf8 pos' /\ is_boundary env utf8 cur'.
Proof.
  induction fuel as [|fuel IH]; intros cur pos cur' pos' H Hpos Hcur; simpl in H.
  - destruct (_ && _); inv_ret. auto.
  - destruct (_ && _); [|inv_ret; auto].
    apply IH in H; [assumption| |].
    + destruct (decide _); [assumption|]. right. eauto.
    + right. eauto.
Qed.

Lemma break_flags_boundaries (env : Env) (utf8 : list Z) (clusterOffset : Z)
    (glyphs : list ShapedGlyph) :
  forall previousCluster position glyphs' position',
    break_flags env utf8 clusterOffset glyphs previousCluster position
      = Ret (glyphs', position') ->
    is_boundary env utf8 position ->
    is_boundary env utf8 position' /\
    forall i g, glyphs' !! i = Some g -> fMayLineBreakBefore g = true ->
      is_boundary env utf8 (to_int32 (fCluster g + clusterOffset)) /\
      (i = 0%nat -> fCluster g <> previousCluster) /\
      forall j h, i = S j -> glyphs' !! j = Some h -> fCluster h <> fCluster g.
Proof.
  induction glyphs as [|glyph rest IH]; intros prev pos glyphs' pos' H Hpos; simpl in H.
  - inv_ret. split; [assumption|]. intros i g Hg. by rewrite lookup_nil in Hg.
  - bind_inv H as r Hseek. destruct r as [cur pos1].
    bind_inv H as r Hrest. destruct r as [rest' pos2]. inv_ret.
    destruct (ubrk_seek_boundary _ _ _ _ _ _ _ _ Hseek Hpos Hpos) as [Hpos1 Hcur].
    destruct (IH _ _ _ _ Hrest Hpos1) as [Hpos2 Hflags].
    split; [assumption|]. intros [|i] g Hg Hmay; simpl in Hg.
    + inversion Hg; subst g. clear Hg. simpl in Hmay.
      apply andb_true_iff in Hmay as [Hne Heq].
      apply bool_decide_eq_true in Hne, Heq.
      destruct (set_may_fields glyph
                  (bool_decide (fCluster glyph ≠ prev)
                   && bool_decide (cur = to_int32 (fCluster glyph + clusterOffset))))
        as (-> & _).
      split; [by rewrite <- Heq|]. split; [done|]. intros j h Hj. discriminate Hj.
    + destruct (Hflags i g Hg Hmay) as (Hb & Hfirst & Hprev).
      split; [assumption|]. split; [discriminate|].
      intros j h Hj Hh. inversion Hj; subst j. clear Hj.
      destruct i as [|i]; simpl in Hh.
      * inversion Hh; subst h.
        destruct (set_may_fields glyph
                    (bool_decide (fCluster glyph ≠ prev)
                     && bool_decide (cur = to_int32 (fCluster glyph + clusterOffset))))
          as (-> & _). intros Heq. apply (Hfirst eq_refl). by symmetry.
      * by apply (Hprev i).
Qed.

(** What [shape_segment] stores, beyond [stored_run]. *)
Lemma shape_segment_stores (env : Env) (srcFont : SkFont) (utf8 : list Z)
    (st st' : SegmentState) (q : RunIteratorQueue) :
  shape_segment env srcFont utf8 st q = Ret (inr st') ->
  is_boundary env utf8 (breakIterator st) ->
  is_boundary env utf8 (breakIterator st') /\
  (seg_runs st' = seg_runs st \/
   exists run, seg_runs st' = seg_runs st ++ [run] /\
     fUtf8Start run = seg_utf8End st /\
     fFont run = setTypeface srcFont (FontRunIterator.currentTypeface (font q)) /\
     FontRunIterator.currentHBFont (font q) <> None /\
     fRunAdvance run = advance_sum (fGlyphs run) /\
     breaks_at_boundaries env utf8 run).
Proof.
  unfold shape_segment. intros H Hpos.
  bind_inv H as utf8End Hend. bind_inv H as r Hitems. destruct r as [items utf8Current].
  destruct (negb (fits_int (utf8End - seg_utf8End st))); [inv_ret|].
  destruct (FontRunIterator.currentHBFont (font q)) as [hbFont|] eqn:Hfont.
  2:{ inv_ret. simpl. auto. }
  destruct (_ =? 0); [inv_ret; simpl; by auto|].
  destruct (negb (fits_int _)); [inv_ret|].
  destruct (hb_font_get_scale env hbFont) as [scaleX scaleY].
  bind_inv H as r Hflags. destruct r as [glyphs' position]. inv_ret. simpl.
  destruct (break_flags_boundaries _ _ _ _ _ _ _ _ Hflags Hpos) as [Hpos' Hmay].
  split; [assumption|]. right. eexists. split; [reflexivity|]. simpl.
  split; [reflexivity|]. split; [reflexivity|]. split; [done|].
  pose proof (break_flags_keeps _ _ _ _ _ _ _ _ Hflags) as Hkeep.
  split.
  - unfold advance_sum. by rewrite (set_may_pen _ _ Hkeep).
  - intros i g Hg Hm. simpl in *. destruct (Hmay i g Hg Hm) as (Hb & _ & Hprev).
    split; assumption.
Qed.

(** A property of every run stored holds of the runs of the first block. *)
Lemma segment_and_shape_Forall (P : ShapedRun -> Prop) (env : Env) (impl : Impl)
    (srcFont : SkFont) (utf8 : list Z) (leftToRight : bool) (runs : list ShapedRun) :
  (forall st q st' run,
     is_boundary env utf8 (breakIterator st) ->
     shape_segment env srcFont utf8 st q = Ret (inr st') ->
     seg_runs st' = seg_runs st ++ [run] -> P run) ->
  segment_and_shape env impl srcFont utf8 leftToRight = Ret (inr runs) ->
  Forall P runs.
Proof.
  intros HP H. unfold segment_and_shape in H.
  bind_inv H as mk Hmk. destruct mk as [e|q0]; [inv_ret|].
  assert (forall st q st',
    is_boundary env utf8 (breakIterator st) /\ Forall P (seg_runs st) ->
    advanceRuns env utf8 (runSegmenter st) = Ret (true, q) ->
    shape_segment env srcFont utf8 st q = Ret (inr st') ->
    is_boundary env utf8 (breakIterator st') /\ Forall P (seg_runs st')) as Hstep.
  { intros st q st' [Hb Hall] _ Hseg.
    destruct (shape_segment_stores _ _ _ _ _ _ Hseg Hb) as [Hb' Hruns].
    split; [assumption|]. destruct Hruns as [->|(run & Hrun & _)]; [assumption|].
    rewrite Hrun. apply Forall_app. split; [assumption|].
    constructor; [|constructor]. exact (HP st q st' run Hb Hseg Hrun). }
  destruct (shape_segments_invariant _ env srcFont utf8 Hstep _ _ _ H)
    as (st' & [_ Hall] & <-); [|assumption].
  simpl. split; [by left|constructor].
Qed.

Lemma pen_same (l l' : list ShapedGlyph) :
  set_must <$> l = set_must <$> l' -> forall p, pen_after p l = pen_after p l'.
Proof.
  revert l'. induction l as [|g l IH]; intros [|g' l'] H p; simpl in H; try discriminate.
  - done.
  - apply (f_equal tail) in H as Hl. apply (f_equal head) in H as Hg.
    simpl in Hl, Hg. assert (set_must g = set_must g') as Hg' by congruence.
    destruct (set_must_advance g g' Hg') as (Hadv & _).
    unfold pen_after in *. simpl. unfold add_advance at 2 4. rewrite Hadv.
    by apply IH.
Qed.

(** X7. The runs that the first block stores are in the order of the
    input: the bytes of each run are a range of the input that is not
    empty, and each run starts where the run before ends or later. *)
Theorem runs_in_input_order (env : Env) (impl : Impl) (srcFont : SkFont)
    (utf8 : list Z) (leftToRight : bool) (runs : list ShapedRun) :
  decoder_advances env utf8 -> bidi_consistent env utf8 ->
  segment_and_shape env impl srcFont utf8 leftToRight = Ret (inr runs) ->
  ranges_ordered runs (Z.of_nat (length utf8)).
Proof.
  intros Hdec Hcons H. unfold segment_and_shape in H.
  bind_inv H as mk Hq0. destruct mk as [e|q0]; [inv_ret|].
  destruct (segmenter_init _ _ _ _ _ Hq0) as (level & bidi0 & Hpara & Hinv0 & Hok0 & He0).
  pose proof (Hcons level bidi0 Hpara) as Hb.
  set (I := fun st : SegmentState =>
    iters_inv env utf8 bidi0 (runSegmenter st) /\ queue_ok (runSegmenter st) /\
    queue_endOfCurrentRun (runSegmenter st) = Ret (seg_utf8End st) /\
    0 <= seg_utf8End st <= Z.of_nat (length utf8) /\
    ranges_ordered (seg_runs st) (seg_utf8End st)).
  assert (forall st q st', I st ->
            advanceRuns env utf8 (runSegmenter st) = Ret (true, q) ->
            shape_segment env srcFont utf8 st q = Ret (inr st') -> I st') as Hstep.
  { intros st q st' (Hinv & Hok & He & Hrange & Hall & Hsorted) Hadv Hseg.
    destruct (advanceRuns_Ret env utf8 bidi0 Hdec Hb _ q _ true Hinv Hok He Hadv)
      as (_ & _ & _ & Hinv' & Hok' & e' & He' & Hgt).
    destruct (shape_segment_Ret _ _ _ _ _ _ Hseg) as (Hq & Hend & Hruns).
    assert (seg_utf8End st' = e') as Hst' by congruence.
    unfold I. rewrite Hq, Hst'.
    split; [assumption|]. split; [assumption|]. split; [assumption|].
    split; [lia|].
    assert (Forall (fun r => 0 <= fUtf8Start r < fUtf8End r /\ fUtf8End r <= e')
              (seg_runs st)) as Hall'.
    { eapply Forall_impl; [exact Hall|]. simpl. intros r. lia. }
    destruct Hruns as [->|(run & -> & Hrun)]; [by split|].
    destruct Hrun as (utf8End & _ & _ & _ & Hend' & _ & Hs & Hee & _).
    assert (utf8End = e') as -> by congruence.
    split.
    - apply Forall_app. split; [assumption|]. constructor; [lia|constructor].
    - apply StronglySorted_snoc; [assumption|].
      eapply Forall_impl; [exact Hall|]. simpl. intros r. lia. }
  destruct (shape_segments_invariant I env srcFont utf8 Hstep _ _ _ H)
    as (st' & (_ & _ & _ & Hrange & Hall & Hsorted) & <-).
  { unfold I. simpl. split; [assumption|]. split; [assumption|]. split; [assumption|].
    split; [lia|]. split; constructor. }
  split; [|assumption]. eapply Forall_impl; [exact Hall|]. simpl. intros r. lia.
Qed.

(** X7 on the stand-ins, for "a", U+4E2D and "b" with a font manager
    that finds no typeface: the runs of "a" and of "b". *)
Lemma runs_in_input_order_witness :
  exists r1 r2,
    segment_and_shape (demo_env demo_no_fallback) demo_impl demo_font text_a_cjk_b true
      = Ret (inr [r1; r2]) /\
    ranges_ordered [r1; r2] (Z.of_nat (length text_a_cjk_b)).
Proof.
  eexists _, _. split; [vm_compute; reflexivity|].
  apply (runs_in_input_order (demo_env demo_no_fallback) demo_impl demo_font text_a_cjk_b
           true _ (demo_decoder_advances demo_no_fallback text_a_cjk_b)
           a_cjk_b_bidi_consistent).
  vm_compute. reflexivity.
Defined.

(** X8. The advance stored with a run is the sum of the advances of all
    its glyphs, added up in binary32 from (0, 0) in the order stored, and
    the advance in the [RunInfo] of every call of [append] is this advance
    of the whole run, also when the call writes only the part of the run
    that is on the line. *)
Theorem run_advance_is_sum (env : Env) (impl : Impl) (srcFont : SkFont)
    (utf8 : list Z) (leftToRight : bool) (point : SkPoint) (width : SkScalar)
    (runs : list ShapedRun) :
  segment_and_shape env impl srcFont utf8 leftToRight = Ret (inr runs) ->
  (forall r, r ∈ runs -> fRunAdvance r = advance_sum (fGlyphs r)) /\
  (forall pt lines,
     shape env impl srcFont utf8 leftToRight point width = Ret (pt, lines) ->
     forall l c, l ∈ lines -> c ∈ line_calls l ->
       info_advance (call_info c) = advance_sum (fGlyphs (call_run c))).
Proof.
  intros Hruns.
  assert (Forall (fun r => fRunAdvance r = advance_sum (fGlyphs r)) runs) as Hall.
  { apply (segment_and_shape_Forall _ env impl srcFont utf8 leftToRight runs);
      [|assumption].
    intros st q st' run Hb Hseg Hrun.
    destruct (shape_segment_stores _ _ _ _ _ _ Hseg Hb) as [_ [Hsame|(run' & Hrun' & H)]].
    - rewrite Hsame in Hrun. apply (f_equal length) in Hrun.
      rewrite length_app in Hrun. simpl in Hrun. lia.
    - rewrite Hrun' in Hrun. apply app_inj_tail in Hrun as [_ ->].
      by destruct H as (_ & _ & _ & ? & _). }
  rewrite Forall_forall in Hall. split; [assumption|].
  intros pt lines Hshape l c Hl Hc.
  destruct (shape_Ret _ _ _ _ _ _ _ _ _ Hshape)
    as [(e & _ & _ & ->)|(runs0 & runs' & Hruns0 & Hbreak & Hemit)].
  { by apply elem_of_nil in Hl. }
  assert (runs0 = runs) as -> by congruence.
  destruct (linebreak_Ret _ _ _ _ _ _ _ _ Hruns Hbreak) as (Hwf & Hskel & _).
  destruct (emit_spec env point runs' Hwf pt lines Hemit) as (_ & Hlines & _).
  apply list_elem_of_lookup_1 in Hl as [j Hj]. apply list_elem_of_lookup_1 in Hc as [i Hi].
  destruct (lo_calls _ _ _ _ _ _ (Hlines j l Hj) i c Hi)
    as ((lv & _ & _ & Hrun & _ & _ & _ & Hadv) & _).
  destruct (same_run _ _ Hskel _ _ Hrun) as (r & Hr & _ & _ & _ & _ & _ & Hra & Hg).
  rewrite Hadv, <- Hra, (Hall r (list_elem_of_lookup_2 _ _ _ Hr)).
  unfold advance_sum. symmetry. by apply pen_same.
Qed.

(** X8 on the stand-ins, for "a" and beta at width 25: one line, whose
    two calls carry the advance (10, 0) of their runs. *)
Lemma run_advance_is_sum_witness :
  (forall r, r ∈ runs_a_beta -> fRunAdvance r = advance_sum (fGlyphs r)) /\
  (forall pt lines,
     shape (demo_env demo_plain) demo_impl demo_font text_a_beta true (demo_point 0 0)
       (int_to_float 25) = Ret (pt, lines) ->
     forall l c, l ∈ lines -> c ∈ line_calls l ->
       info_advance (call_info c) = advance_sum (fGlyphs (call_run c))).
Proof.
  apply (run_advance_is_sum (demo_env demo_plain) demo_impl demo_font text_a_beta true
           (demo_point 0 0) (int_to_float 25) runs_a_beta).
  vm_compute. reflexivity.
Defined.

(** X9. In the runs that the first block stores, a glyph is marked as one
    a line may break before only when its cluster differs from the cluster
    of the glyph before it in the run and, as an offset into the input, is
    the start of the text or an offset that [ubrk_next] has returned. *)
Theorem may_break_only_at_boundaries (env : Env) (impl : Impl) (srcFont : SkFont)
    (utf8 : list Z) (leftToRight : bool) (runs : list ShapedRun) :
  segment_and_shape env impl srcFont utf8 leftToRight = Ret (inr runs) ->
  forall r, r ∈ runs -> breaks_at_boundaries env utf8 r.
Proof.
  intros Hruns. apply Forall_forall.
  apply (segment_and_shape_Forall _ env impl srcFont utf8 leftToRight runs); [|assumption].
  intros st q st' run Hb Hseg Hrun.
  destruct (shape_segment_stores _ _ _ _ _ _ Hseg Hb) as [_ [Hsame|(run' & Hrun' & H)]].
  - rewrite Hsame in Hrun. apply (f_equal length) in Hrun.
    rewrite length_app in Hrun. simpl in Hrun. lia.
  - rewrite Hrun' in Hrun. apply app_inj_tail in Hrun as [_ ->].
    by destruct H as (_ & _ & _ & _ & ?).
Qed.

(** X9 on the stand-ins, for "a" and beta. *)
Lemma may_break_only_at_boundaries_witness :
  Forall (breaks_at_boundaries (demo_env demo_plain) text_a_beta) runs_a_beta.
Proof.
  apply Forall_forall.
  apply (may_break_only_at_boundaries (demo_env demo_plain) demo_impl demo_font
           text_a_beta true runs_a_beta).
  vm_compute. reflexivity.
Defined.
(** ** [SkShaper::shape]: edge cases *)

Lemma demo_bidi_consistent_empty (d : Demo) : bidi_consistent (demo_env d) [].
Proof.
  intros level bidi Hpara p q Hd. simpl in Hpara. inversion Hpara; subst bidi. simpl.
  assert (p = 0 /\ q = 0) as [-> ->]; [|done].
  induction Hd as [|p q _ [-> ->] Hlt]; [done|]. simpl in Hlt. lia.
Qed.

(** The last two blocks write nothing when there is no run. *)
Lemma no_runs_no_lines (env : Env) (point : SkPoint) (width : SkScalar) :
  (runs' ← linebreak [] width; emit env point runs') = Ret (point, []).
Proof. reflexivity. Qed.

(** X10. For an input of no bytes, when ICU reports a paragraph of length
    0 for it, [shape] returns the point it was given and asks the handler
    for no buffer, whatever the iterators and the break iterator do. *)
Theorem shape_empty_input (env : Env) (impl : Impl) (srcFont : SkFont)
    (leftToRight : bool) (point : SkPoint) (width : SkScalar) :
  length_reported env [] -> bidi_consistent env [] ->
  shape env impl srcFont [] leftToRight point width = Ret (point, []).
Proof.
  intros Hlen Hcons. unfold shape, segment_and_shape.
  destruct (make_segmenter_returns env impl [] leftToRight Hlen) as [[e|q0] Hq0];
    rewrite Hq0; [reflexivity|].
  destruct (segmenter_init _ _ _ _ _ Hq0) as (level & bidi0 & Hpara & Hinv & Hok & He).
  destruct (queue_head env [] bidi0 q0 Hinv Hok) as (r0 & Hpeek & Hend & _).
  assert (ref_endOfCurrentRun q0 r0 = 0) as H0 by congruence.
  assert (ref_atEnd q0 r0 = true) as Hat.
  { apply (ref_atEnd_iff env [] bidi0 (Hcons level bidi0 Hpara) q0 r0 Hinv). exact H0. }
  simpl. unfold advanceRuns. rewrite Hpeek. simpl. rewrite Hat. reflexivity.
Qed.

(** X10 on the stand-ins. *)
Lemma shape_empty_input_witness :
  shape (demo_env demo_plain) demo_impl demo_font [] true (demo_point 3 4)
    (int_to_float 15) = Ret (demo_point 3 4, []).
Proof.
  apply shape_empty_input.
  - by apply demo_length_reported.
  - apply demo_bidi_consistent_empty.
Defined.

(** X11. [shape], for a shaper that has a typeface, returns a point and
    the lines it has written, without reading outside an array, through a
    null pointer or a variable that was not written, whenever the decoder
    and the break iterator move forward, ICU reports the length of the
    text in UTF-16 and reaches the length of the paragraph exactly at the
    end of the input, the text never brings the font iterator to a null
    typeface (where the primary typeface lacks a code point and the font
    manager finds no typeface for it, the text ends after it or the
    primary typeface has the next code point), and the visual reordering
    is a permutation of the runs of the line. *)
Theorem shape_terminates (env : Env) (impl : Impl) (srcFont : SkFont) (utf8 : list Z)
    (leftToRight : bool) (point : SkPoint) (width : SkScalar) :
  decoder_advances env utf8 -> bidi_consistent env utf8 -> length_reported env utf8 ->
  no_null_typeface env utf8 (impl_fTypeface impl) ->
  ubrk_advances env utf8 -> reorder_permutes env ->
  exists pt lines, shape env impl srcFont utf8 leftToRight point width = Ret (pt, lines).
Proof. apply shape_returns_no_null. Qed.

(** X11 on the stand-ins, for "a", U+4E2D and "b" at width 0, with a
    font manager that finds no typeface. *)
Lemma shape_terminates_witness :
  exists pt lines,
    shape (demo_env demo_no_fallback) demo_impl demo_font text_a_cjk_b true
      (demo_point 0 0) scalar_zero = Ret (pt, lines).
Proof.
  apply (shape_terminates (demo_env demo_no_fallback) demo_impl demo_font text_a_cjk_b
           true (demo_point 0 0) scalar_zero
           (demo_decoder_advances demo_no_fallback text_a_cjk_b)
           a_cjk_b_bidi_consistent).
  - by apply demo_length_reported.
  - apply a_cjk_b_no_null.
  - apply demo_ubrk_advances.
  - apply demo_reorder_permutes.
Defined.

(** What every [consume] of the font iterator that the queue makes keeps,
    the states of the queue keep. *)
Lemma consumed_from_keeps_font (P : FontRunIterator.t -> Prop) (env : Env)
    (utf8 : list Z) (bidi0 : UBiDi) :
  decoder_advances env utf8 ->
  (forall p q, decodes env utf8 p q ->
     (q = ubidi_getLength bidi0 <-> p = Z.of_nat (length utf8))) ->
  (forall it it', P it -> FontRunIterator.fEnd it = Z.of_nat (length utf8) ->
     (exists u, decodes env utf8 (FontRunIterator.fCurrent it) u) ->
     FontRunIterator.fCurrent it < Z.of_nat (length utf8) ->
     FontRunIterator.consume env utf8 it = Ret it' -> P it') ->
  forall q0 q, iters_inv env utf8 bidi0 q0 -> queue_ok q0 ->
    consumed_from env utf8 q0 q -> P (font q0) -> P (font q).
Proof.
  intros Hdec Hcons HP q0 q Hinv0 Hok0 Hfrom Hq0.
  induction Hfrom as [|q q' r Hfrom IH Hpeek Hlt Hret]; [assumption|].
  destruct (consumed_from_inv env utf8 bidi0 Hdec Hcons q0 q Hinv0 Hok0 Hfrom)
    as ([_ _ _ _ _ _ Hfe _ Hfd] & _ & _).
  destruct r; simpl in Hret; bind_inv Hret as it Hit; inv_ret; simpl; try assumption.
  apply (HP (font q)); try assumption.
Qed.

Lemma font_loop_with_current (env : Env) (utf8 : list Z) (fuel : nat) :
  forall a b, FontRunIterator.consume_loop env utf8 fuel a = Ret b ->
    b = FontRunIterator.with_current a (FontRunIterator.fCurrent b).
Proof.
  induction fuel as [|fuel IH]; intros a b Hab; simpl in Hab.
  - destruct (_ <? _); inv_ret. by rewrite font_with_current_id.
  - destruct (_ <? _); [|inv_ret; by rewrite font_with_current_id].
    destruct (utf8_next env utf8 (FontRunIterator.fCurrent a) (FontRunIterator.fEnd a))
      as [v r].
    destruct (_ && _); [by inv_ret|].
    destruct (FontRunIterator.fCurrentTypeface a); [|inv_ret].
    destruct (negb _); [by inv_ret|]. apply IH in Hab. by rewrite Hab.
Qed.

(** With no HarfBuzz font for the primary typeface, a font iterator that
    is on the primary typeface stays without a HarfBuzz font as long as the
    primary typeface has a glyph for the code point at which a run starts. *)
Lemma font_consume_no_hb_font (env : Env) (utf8 : list Z) (it it' : FontRunIterator.t) :
  charsToGlyphs env (FontRunIterator.fTypeface it)
    (utf8_next env utf8 (FontRunIterator.fCurrent it) (FontRunIterator.fEnd it)).1 = true ->
  FontRunIterator.fHBFont it = None ->
  FontRunIterator.consume env utf8 it = Ret it' ->
  FontRunIterator.fTypeface it' = FontRunIterator.fTypeface it /\
  FontRunIterator.fHBFont it' = None /\ FontRunIterator.currentHBFont it' = None.
Proof.
  intros Hcov Hhb H. unfold FontRunIterator.consume in H.
  destruct (utf8_next env utf8 (FontRunIterator.fCurrent it) (FontRunIterator.fEnd it))
    as [u p].
  unfold FontRunIterator.select in H. simpl in H, Hcov. rewrite Hcov in H.
  apply font_loop_with_current in H. rewrite H.
  unfold FontRunIterator.currentHBFont. simpl. auto.
Qed.

(** No run is stored while the font iterator has no HarfBuzz font. *)
Lemma segment_and_shape_no_hb_font (env : Env) (impl : Impl) (srcFont : SkFont)
    (utf8 : list Z) (leftToRight : bool) (runs : list ShapedRun) :
  decoder_advances env utf8 -> bidi_consistent env utf8 ->
  fHarfBuzzFont impl = None -> covers_text env utf8 (impl_fTypeface impl) ->
  segment_and_shape env impl srcFont utf8 leftToRight = Ret (inr runs) ->
  runs = [].
Proof.
  intros Hdec Hcons Hhb Hcov H. unfold segment_and_shape in H.
  bind_inv H as mk Hq0. destruct mk as [e|q0]; [inv_ret|].
  destruct (segmenter_init _ _ _ _ _ Hq0) as (level & bidi0 & Hpara & Hinv0 & Hok0 & He0).
  pose proof (Hcons level bidi0 Hpara) as Hb.
  pose proof (make_segmenter_typeface _ _ _ _ _ Hq0) as Htf0.
  set (P := fun it : FontRunIterator.t =>
    FontRunIterator.fTypeface it = impl_fTypeface impl /\
    FontRunIterator.fHBFont it = None /\ FontRunIterator.currentHBFont it = None).
  assert (P (font q0)) as HP0.
  { unfold P. split; [assumption|]. clear -Hq0 Hhb. unfold make_segmenter in Hq0.
    bind_inv Hq0 as b Hmk. destruct b; [|discriminate]. simpl in Hq0.
    destruct (negb _); [discriminate|]. destruct (negb _); [discriminate|].
    inversion Hq0. simpl. by rewrite Hhb. }
  set (I := fun st : SegmentState =>
    iters_inv env utf8 bidi0 (runSegmenter st) /\ queue_ok (runSegmenter st) /\
    queue_endOfCurrentRun (runSegmenter st) = Ret (seg_utf8End st) /\
    P (font (runSegmenter st)) /\ is_boundary env utf8 (breakIterator st) /\
    seg_runs st = []).
  assert (forall st q st', I st ->
            advanceRuns env utf8 (runSegmenter st) = Ret (true, q) ->
            shape_segment env srcFont utf8 st q = Ret (inr st') -> I st') as Hstep.
  { intros st q st' (Hinv & Hok & He & HP & Hbd & Hnil) Hadv Hseg.
    destruct (advanceRuns_Ret env utf8 bidi0 Hdec Hb _ q _ true Hinv Hok He Hadv)
      as (_ & _ & Hfrom & Hinv' & Hok' & e' & He' & Hgt).
    assert (P (font q)) as HPq.
    { apply (consumed_from_keeps_font P env utf8 bidi0 Hdec Hb) with (q0 := runSegmenter st);
        try assumption.
      intros it it' (Ht & Hh & _) Hfe Hfd Hlt Hc.
      destruct (font_consume_no_hb_font env utf8 it it') as (Ht' & Hh' & Hc');
        try assumption.
      - destruct Hfd as [u Hu]. rewrite Ht, Hfe. exact (Hcov _ _ Hu Hlt).
      - unfold P. rewrite Ht'. auto. }
    destruct (shape_segment_Ret _ _ _ _ _ _ Hseg) as (Hq & Hend & _).
    destruct (shape_segment_stores env srcFont utf8 st st' q Hseg Hbd)
      as [Hb' [Hsame|(run & _ & H')]].
    - unfold I. rewrite Hq, Hsame. repeat (split; [assumption|]). assumption.
    - destruct H' as (_ & _ & Hne & _). by destruct HPq as (_ & _ & ?). }
  destruct (shape_segments_invariant I env srcFont utf8 Hstep _ _ _ H)
    as (st' & (_ & _ & _ & _ & _ & Hnil) & <-); [|assumption].
  unfold I. simpl. repeat (split; [assumption|]). split; [by left|reflexivity].
Qed.

(** A typeface that has a glyph for every code point of the text never
    leaves the font iterator with a null typeface. *)
Lemma covers_no_null (env : Env) (utf8 : list Z) (tf : SkTypeface) :
  covers_text env utf8 tf -> no_null_typeface env utf8 tf.
Proof. intros Hcov p q Hd Hlt Hno. rewrite (Hcov p q Hd Hlt) in Hno. discriminate. Qed.

(** X12. A shaper that has no HarfBuzz font for its typeface (the state in
    which [good] is false after [create_hb_font] has failed) writes
    nothing for a text that its typeface has a glyph for every code point
    of: [shape] returns the point it was given and asks the handler for no
    buffer. This assumes that the decoder and the break iterator move
    forward, and that ICU reports the length of the text in UTF-16 and
    reaches the length of the paragraph exactly at the end of the input. *)
Theorem shape_without_hb_font (env : Env) (impl : Impl) (srcFont : SkFont)
    (utf8 : list Z) (leftToRight : bool) (point : SkPoint) (width : SkScalar) :
  decoder_advances env utf8 -> bidi_consistent env utf8 -> length_reported env utf8 ->
  ubrk_advances env utf8 ->
  fHarfBuzzFont impl = None ->
  covers_text env utf8 (impl_fTypeface impl) ->
  shape env impl srcFont utf8 leftToRight point width = Ret (point, []).
Proof.
  intros Hdec Hcons Hlen Hbrk Hhb Hcov.
  destruct (segment_and_shape_returns env impl srcFont utf8 leftToRight Hdec Hcons Hlen)
    as [[e|runs] Hruns]; try assumption.
  - intros q0 Hq0. apply (segmenter_advances env impl utf8 leftToRight); try assumption.
    by apply covers_no_null.
  - unfold shape. by rewrite Hruns.
  - rewrite (segment_and_shape_no_hb_font _ _ _ _ _ _ Hdec Hcons Hhb Hcov Hruns) in Hruns.
    unfold shape. rewrite Hruns. reflexivity.
Qed.

(** The primary typeface of the stand-in without fallback has the glyphs
    of "ab". *)
Lemma ab_covered : covers_text (demo_env demo_no_fallback) text_ab 1.
Proof.
  assert (forall p q, decodes (demo_env demo_no_fallback) text_ab p q ->
            p = 0 \/ p = 1 \/ p = 2) as Hpos.
  { induction 1 as [|p q _ IH Hlt]; [auto|].
    destruct IH as [-> | [-> | ->]]; vm_compute; auto. }
  intros p q Hd Hlt. destruct (Hpos p q Hd) as [-> | [-> | ->]];
    [reflexivity|reflexivity|simpl in Hlt; lia].
Qed.

Lemma ab_bidi_consistent : bidi_consistent (demo_env demo_no_fallback) text_ab.
Proof.
  assert (forall p q, decodes (demo_env demo_no_fallback) text_ab p q ->
            (p = 0 /\ q = 0) \/ (p = 1 /\ q = 1) \/ (p = 2 /\ q = 2)) as Hpos.
  { induction 1 as [|p q _ IH Hlt]; [auto|].
    destruct IH as [[-> ->]|[[-> ->]|[-> ->]]];
      [vm_compute; auto|vm_compute; auto|simpl in Hlt; lia]. }
  intros level bidi Hpara p q Hd. simpl in Hpara. inversion Hpara; subst bidi. simpl.
  change (Z.of_nat (length (demo_utf16 text_ab))) with 2.
  destruct (Hpos p q Hd) as [[-> ->]|[[-> ->]|[-> ->]]]; lia.
Qed.

(** X12 on the stand-ins: a shaper on typeface 1, which has glyphs for
    ASCII only, without a HarfBuzz font, and the text "ab". *)
Lemma shape_without_hb_font_witness :
  shape (demo_env demo_no_fallback) (MkImpl None 1) demo_font text_ab true
    (demo_point 3 4) (int_to_float 15) = Ret (demo_point 3 4, []).
Proof.
  apply (shape_without_hb_font (demo_env demo_no_fallback) (MkImpl None 1) demo_font
           text_ab true (demo_point 3 4) (int_to_float 15)
           (demo_decoder_advances demo_no_fallback text_ab) ab_bidi_consistent).
  - by apply demo_length_reported.
  - apply demo_ubrk_advances.
  - reflexivity.
  - apply ab_covered.
Defined.

(** ** [SkShaper::SkShaper] and [SkShaper::good] *)

(** X13. The constructor aborts exactly when [ubrk_open] fails. The shaper
    it makes otherwise has the typeface it was given, or the default
    typeface when it was given none, and is [good] exactly when that
    typeface is not null, its stream opens, HarfBuzz makes a face and a
    font of it, and the buffer and the break iterator were made; and when
    its typeface has no stream it is not [good] and has no HarfBuzz font. *)
Theorem constructor_and_good (env : Env) (platform : Platform) (tf : option SkTypeface) :
  let typeface := match tf with Some t => Some t | None => MakeDefault platform end in
  (SkShaper_new env platform tf = None <-> ubrk_open platform = None) /\
  forall s, SkShaper_new env platform tf = Some s ->
    si_fTypeface s = typeface /\
    (good s = true <->
     exists t, typeface = Some t /\ openStream env t = true /\
       hb_face_create env t = true /\ hb_font_create env t = true /\
       hb_buffer_create platform = true /\ ubrk_open platform = Some true) /\
    (forall t, typeface = Some t -> openStream env t = false ->
       good s = false /\ si_fHarfBuzzFont s = None /\
       impl_of s = Some {| fHarfBuzzFont := None; impl_fTypeface := t |}).
Proof.
  intros typeface. unfold SkShaper_new. fold typeface.
  destruct (ubrk_open platform) as [brk|] eqn:Hbrk.
  2:{ split; [done|]. intros s Hs. discriminate Hs. }
  split; [split; discriminate|].
  intros s Hs. inversion Hs; subst s. clear Hs. unfold good, impl_of. simpl.
  split; [reflexivity|]. split.
  - destruct typeface as [t|]; simpl.
    + destruct (openStream env t) eqn:Ho, (hb_face_create env t) eqn:Hf,
        (hb_font_create env t) eqn:Hh, (hb_buffer_create platform) eqn:Hb, brk;
        simpl; (split; [first [discriminate | intros _; exists t; done] |]);
        intros (t' & Ht & Ho' & Hf' & Hh' & Hb' & Hk); inversion Ht; subst t';
        congruence.
    + split; [discriminate|]. intros (t' & Ht & _). discriminate Ht.
  - intros t Ht Ho. rewrite Ht. simpl. rewrite Ho. simpl. done.
Qed.
(** ** The line-break pass on text that fits *)

Section FittingText.
Variable runs0 : list ShapedRun.
Variable width : SkScalar.
Hypothesis Hnonempty : Forall (fun r => (1 <= fNumGlyphs r)%nat) runs0.
Hypothesis Hfits :
  forall q, (0 < q <= glyph_count runs0)%nat ->
    scalar_lt (seg_x (all_glyphs runs0) 0 q) width = true.

(** A turn of the loop on the first line takes the branch of the glyph
    that fits. *)
Lemma linebreak_step_fits (st st' : LineBreakState) :
  lb_inv runs0 width st 0 -> linebreak_step width st = Ret (Some st') ->
  lb_inv runs0 width st' 0 /\ lb_runs st' = lb_runs st.
Proof using Hnonempty Hfits.
  intros Hinv Hstep.
  destruct (linebreak_step_spec runs0 width Hnonempty st 0%nat Hinv)
    as [[_ Hnone]|(Hlt & st1 & Hstep1 & Hcase)]; [congruence|].
  assert (st1 = st') as -> by congruence. clear Hstep1.
  destruct Hcase as [(Hinv' & _ & _ & Hruns)|(s' & _ & Hs & _ & Hcan & _)]; [done|].
  exfalso.
  pose proof (inv_skel _ _ _ _ Hinv) as Hskel.
  pose proof (inv_valid _ _ _ _ Hinv) as Hvalid.
  pose proof (inv_width _ _ _ _ Hinv) as Hw.
  assert (valid_iterator (lb_runs st) (glyphIterator st)) as Hvalid'
    by (eapply same_valid; [symmetry|]; eassumption).
  unfold linebreak_step in Hstep.
  destruct (current (lb_runs st) (glyphIterator st)) as [ptr|] eqn:Hcur; [|inv_ret].
  destruct (current_Some _ _ _ Hvalid' Hcur)
    as (-> & run & glyph & Hrun & Hglyph & Hderef & Hall & _).
  rewrite (same_position _ _ Hskel) in Hall.
  rewrite Hderef in Hstep. simpl in Hstep.
  destruct (same_glyph _ _ Hskel _ _ Hall) as (g0 & Hg0 & Hsame).
  destruct (set_must_advance _ _ Hsame) as (Hadv & _).
  pose proof (seg_x_snoc _ 0%nat _ _ ltac:(lia) Hg0) as Hsnoc.
  assert (scalar_lt (scalar_add (widthSoFar st) (fX (fAdvance glyph))) width = true)
    as Hfit.
  { rewrite Hw. unfold advance_x in Hsnoc. rewrite Hadv in Hsnoc. rewrite <- Hsnoc.
    apply Hfits. lia. }
  rewrite Hfit in Hstep.
  bind_inv Hstep as r Hnext. destruct r as [it x]. inv_ret.
  simpl in Hcan. discriminate.
Qed.

Lemma linebreak_loop_fits (fuel : nat) :
  forall st st', lb_inv runs0 width st 0 -> linebreak_loop fuel width st = Ret st' ->
    lb_runs st' = lb_runs st.
Proof using Hnonempty Hfits.
  induction fuel as [|fuel IH]; intros st st' Hinv H; simpl in H; [inv_ret|].
  bind_inv H as r Hstep. destruct r as [st1|]; [|by inv_ret].
  destruct (linebreak_step_fits _ _ Hinv Hstep) as [Hinv1 <-]. by apply IH.
Qed.

Lemma linebreak_fits : linebreak runs0 width = Ret runs0.
Proof using Hnonempty Hfits.
  destruct (linebreak_spec runs0 width Hnonempty) as (runs' & Hloop & _).
  specialize (Hloop 0%nat). rewrite Nat.add_0_r in Hloop.
  unfold linebreak. rewrite Hloop. f_equal.
  bind_inv Hloop as st Hst. inv_ret.
  exact (linebreak_loop_fits _ _ _ (lb_inv_init runs0 width Hnonempty) Hst).
Qed.
End FittingText.

(** X14. When every prefix of the glyphs of the stored runs is narrower
    than the width, the x-advances of a prefix being added up in binary32
    from 0 in logical order as the line-break pass does, the line-break
    pass returns the runs as they are, with no glyph marked, and the last
    pass writes them as one line from the first glyph to the last (no line
    when there is no run). *)
Theorem fitting_text_one_line (env : Env) (impl : Impl) (srcFont : SkFont)
    (utf8 : list Z) (leftToRight : bool) (point : SkPoint) (width : SkScalar)
    (runs : list ShapedRun) :
  segment_and_shape env impl srcFont utf8 leftToRight = Ret (inr runs) ->
  (forall q, (0 < q <= glyph_count runs)%nat ->
     scalar_lt (seg_x (all_glyphs runs) 0 q) width = true) ->
  linebreak runs width = Ret runs /\
  forall pt lines, emit env point runs = Ret (pt, lines) ->
    (runs = [] /\ lines = []) \/
    (exists l, lines = [l] /\ position runs (line_first l) = 0%nat /\
               S (position runs (line_last l)) = glyph_count runs).
Proof.
  intros Hseg Hfits.
  destruct (segment_and_shape_runs _ _ _ _ _ _ Hseg) as [Hwf Hno].
  assert (Forall (fun r => (1 <= fNumGlyphs r)%nat) runs) as Hne
    by (eapply Forall_impl; [exact Hwf|]; by intros r [? _]).
  split; [by apply linebreak_fits|].
  intros pt lines Hemit.
  destruct (emit_spec env point runs Hwf pt lines Hemit) as (_ & Hlines & Hend).
  assert (forall q, must_at runs q = false) as Hfalse.
  { intros q. unfold must_at. destruct (all_glyphs runs !! q) as [g|] eqn:Hq; [|done].
    exact (Forall_lookup_1 _ _ _ _ Hno Hq). }
  destruct lines as [|l rest].
  - left. split; [|reflexivity]. simpl in Hend.
    destruct runs as [|run runs]; [reflexivity|exfalso].
    pose proof (Forall_lookup_1 _ (run :: runs) 0%nat run Hne eq_refl) as H1.
    simpl in H1. unfold glyph_count in Hend. rewrite all_glyphs_cons, length_app in Hend.
    unfold fNumGlyphs in H1. lia.
  - right. exists l.
    pose proof (Hlines 0%nat l eq_refl) as Hspec.
    pose proof (lo_start _ _ _ _ _ _ Hspec) as Hstart. simpl in Hstart.
    destruct (lo_seg _ _ _ _ _ _ Hspec) as (_ & _ & Hb & _).
    assert (S (position runs (line_last l)) = glyph_count runs) as Hlast.
    { destruct Hb as [?|Hb]; [assumption|]. rewrite Hfalse in Hb. discriminate. }
    split; [|split; assumption].
    destruct rest as [|l2 rest]; [reflexivity|exfalso].
    pose proof (Hlines 1%nat l2 eq_refl) as Hspec2.
    pose proof (lo_start _ _ _ _ _ _ Hspec2) as Hstart2. simpl in Hstart2.
    destruct (lo_first _ _ _ _ _ _ Hspec2) as (run & Hrun & Hg).
    pose proof (position_lt _ _ _ _ Hrun Hg) as Hlt.
    replace (MkIter (fRunIndex (line_first l2)) (fGlyphIndex (line_first l2)))
      with (line_first l2) in Hlt by (by destruct (line_first l2)).
    lia.
Qed.

(** X14 on the stand-ins: "a" and beta, each 10 wide, at width 100. *)
Lemma fitting_text_one_line_witness :
  linebreak runs_a_beta (int_to_float 100) = Ret runs_a_beta /\
  forall pt lines,
    emit (demo_env demo_plain) (demo_point 0 0) runs_a_beta = Ret (pt, lines) ->
    (runs_a_beta = [] /\ lines = []) \/
    (exists l, lines = [l] /\ position runs_a_beta (line_first l) = 0%nat /\
               S (position runs_a_beta (line_last l)) = glyph_count runs_a_beta).
Proof.
  apply (fitting_text_one_line (demo_env demo_plain) demo_impl demo_font text_a_beta true
           (demo_point 0 0) (int_to_float 100) runs_a_beta).
  - vm_compute. reflexivity.
  - intros q Hq. change (glyph_count runs_a_beta) with 2%nat in Hq.
    assert (q = 1%nat \/ q = 2%nat) as [-> | ->] by lia; vm_compute; reflexivity.
Defined.

(** ** Every glyph is written once *)

(** The lines up to line [k] hand over the glyphs before the start of
    line [k], rearranged. *)
Lemma lines_glyphs_prefix (env : Env) (point : SkPoint) (runs : list ShapedRun)
    (lines : list EmittedLine) :
  reorder_permutes env ->
  (forall j l, lines !! j = Some l -> line_spec env point runs lines j l) ->
  forall k, (k <= length lines)%nat ->
    concat (line_glyphs <$> take k lines) ≡ₚ
      take (line_start_of runs lines k) (all_glyphs runs).
Proof.
  intros Hperm Hlines. induction k as [|k IH]; intros Hk; [reflexivity|].
  destruct (lookup_lt_is_Some_2 lines k ltac:(lia)) as [l Hl].
  rewrite (take_S_r _ _ l Hl), fmap_app, concat_app. simpl. rewrite app_nil_r.
  rewrite Hl. rewrite (IH ltac:(lia)).
  pose proof (Hlines k l Hl) as Hspec.
  unfold line_glyphs.
  rewrite (line_glyphs_logical env runs (line_first l) (line_last l) (Z.of_nat k)
             (line_ascent l) (line_descent l) (line_leading l) (line_calls l) Hperm
             (lo_first _ _ _ _ _ _ Hspec) (lo_last _ _ _ _ _ _ Hspec)
             (lo_le _ _ _ _ _ _ Hspec) (lo_count _ _ _ _ _ _ Hspec)
             (lo_calls _ _ _ _ _ _ Hspec)).
  pose proof (lo_pos _ _ _ _ _ _ Hspec) as Hpos.
  rewrite (lo_start _ _ _ _ _ _ Hspec) in *.
  rewrite take_take_drop. apply reflexive_eq. f_equal. lia.
Qed.

(** X15. The glyph ranges that the last pass hands to [append], over all
    lines, are the glyphs of the runs after the line-break pass, each one
    once; and these are the glyphs that the first block stored, in the
    same order, up to [fMustLineBreakBefore]. *)
Theorem glyphs_written_once (env : Env) (impl : Impl) (srcFont : SkFont)
    (utf8 : list Z) (leftToRight : bool) (point : SkPoint) (width : SkScalar)
    (runs runs' : list ShapedRun) (pt : SkPoint) (lines : list EmittedLine) :
  reorder_permutes env ->
  segment_and_shape env impl srcFont utf8 leftToRight = Ret (inr runs) ->
  linebreak runs width = Ret runs' ->
  emit env point runs' = Ret (pt, lines) ->
  concat (line_glyphs <$> lines) ≡ₚ all_glyphs runs' /\
  set_must <$> all_glyphs runs' = set_must <$> all_glyphs runs.
Proof.
  intros Hperm Hseg Hbreak Hemit.
  destruct (linebreak_Ret _ _ _ _ _ _ _ _ Hseg Hbreak) as (Hwf & Hskel & _).
  destruct (emit_spec env point runs' Hwf pt lines Hemit) as (_ & Hlines & Hend).
  split.
  - pose proof (lines_glyphs_prefix env point runs' lines Hperm Hlines (length lines)
                  (le_n _)) as H.
    rewrite firstn_all in H. rewrite H, Hend. by rewrite take_ge.
  - by rewrite <- !all_glyphs_skeleton, Hskel.
Qed.

(** X15 on the stand-ins, for "a" and beta at width 15. *)
Lemma glyphs_written_once_witness :
  concat (line_glyphs <$> lines_a_beta.2) ≡ₚ all_glyphs broken_a_beta /\
  set_must <$> all_glyphs broken_a_beta = set_must <$> all_glyphs runs_a_beta.
Proof.
  apply (glyphs_written_once (demo_env demo_plain) demo_impl demo_font text_a_beta true
           (demo_point 0 0) (int_to_float 15) runs_a_beta broken_a_beta lines_a_beta.1
           lines_a_beta.2 (demo_reorder_permutes demo_plain)).
  - vm_compute. reflexivity.
  - vm_compute. reflexivity.
  - vm_compute. reflexivity.
Defined.

(** ** The metrics of a line *)

Lemma line_runs_snoc (runs : list ShapedRun) (first r : nat) (run : ShapedRun) :
  (first <= r)%nat -> runs !! S r = Some run ->
  line_runs runs first (S r) = line_runs runs first r ++ [run].
Proof.
  intros Hle Hrun. unfold line_runs.
  replace (S r - first + 1)%nat with (S (r - first + 1)) by lia.
  apply take_S_r. rewrite lookup_drop.
  by replace (first + (r - first + 1))%nat with (S r) by lia.
Qed.

Lemma line_runs_one (runs : list ShapedRun) (r : nat) (run : ShapedRun) :
  runs !! r = Some run -> line_runs runs r r = [run].
Proof.
  intros Hrun. unfold line_runs. rewrite Nat.sub_diag. simpl.
  rewrite (drop_S _ run _ Hrun). reflexivity.
Qed.

Lemma next_run_index (runs : list ShapedRun) (it it' : ShapedRunGlyphIterator)
    (x : option GlyphPtr) :
  next runs it = Ret (it', x) ->
  fRunIndex it' = fRunIndex it \/
  (fRunIndex it' = S (fRunIndex it) /\ fGlyphIndex it' = 0%nat).
Proof.
  unfold next. intros H. bind_inv H as run Hrun.
  repeat case_decide; inv_ret; simpl; auto.
Qed.

Section EmitMetrics.
Variable env : Env.
Variable point : SkPoint.
Variable runs : list ShapedRun.
Hypothesis Hwf : wf_runs runs.

Lemma metrics_inv_init : metrics_inv env runs (emit_init point).
Proof. left. simpl. auto. Qed.

Lemma emit_step_metrics (st st' : EmitState) :
  em_inv env point runs st -> metrics_inv env runs st ->
  Forall (line_metrics_ok env runs) (em_lines st) ->
  emit_step env point runs st = Ret (Some st') ->
  metrics_inv env runs st' /\ Forall (line_metrics_ok env runs) (em_lines st').
Proof using Hwf.
  intros [Hvit Hvpb Hile Hpos Hend Hstart Hmid Hindex Hpoint Hlines Hchain] HM Hall H.
  unfold emit_step in H. unfold metrics_inv in HM.
  set (it := em_glyphIterator st) in *. set (pb := em_previousBreak st) in *.
  destruct (current runs it) as [ptr|] eqn:Hcur; [|inv_ret].
  destruct (current_Some _ _ _ Hvit Hcur)
    as (_ & run & glyph & Hrun & Hglyph & _ & _ & Hlt).
  pose proof (lookup_lt_Some _ _ _ Hglyph) as Hg.
  destruct (next_valid runs it run (wf_nonempty runs Hwf) Hrun Hg)
    as (it' & Hnext & Hvit' & Hpit' & Hrle & Hrsame).
  pose proof (next_run_index _ _ _ _ Hnext) as Hnri.
  rewrite Hnext in H. simpl in H.
  bind_inv H as metrics Hmetrics. destruct metrics as [[ascent descent] leading].
  assert ((fRunIndex pb <= fRunIndex it)%nat /\
          ascent = least_ascent env (line_runs runs (fRunIndex pb) (fRunIndex it)) /\
          descent = greatest_descent env (line_runs runs (fRunIndex pb) (fRunIndex it)) /\
          leading = greatest_leading env (line_runs runs (fRunIndex pb) (fRunIndex it)))
    as (Hple & Hasc & Hdesc & Hlead).
  { assert (index runs (fRunIndex it) = Ret run) as Hidx
      by (unfold index; by rewrite Hrun).
    destruct HM as [(Heq & Hprev & Ha & Hd & Hl)|(r & Hprev & Hpr & Hcase & Ha & Hd & Hl)].
    - rewrite Hprev in Hmetrics. rewrite decide_True in Hmetrics by lia.
      rewrite Hidx in Hmetrics. simpl in Hmetrics. inv_ret.
      rewrite Heq. split; [lia|]. rewrite Heq in Hrun.
      rewrite (line_runs_one _ _ _ Hrun), Ha, Hd, Hl.
      repeat split; reflexivity.
    - rewrite Hprev in Hmetrics. destruct Hcase as [Hsame|Hnext'].
      + rewrite decide_False in Hmetrics by lia. inv_ret.
        split; [lia|]. auto.
      + rewrite decide_True in Hmetrics by lia.
        rewrite Hidx in Hmetrics. simpl in Hmetrics. inv_ret.
        rewrite Hnext'. split; [lia|]. rewrite Hnext' in Hrun.
        rewrite (line_runs_snoc _ _ _ _ Hpr Hrun), Ha, Hd, Hl.
        unfold least_ascent, greatest_descent, greatest_leading.
        rewrite !fmap_app, !foldl_app. repeat split; reflexivity. }
  bind_inv H as lineEnds HlineEnds.
  destruct lineEnds; simpl in H.
  - bind_inv H as cp Hline. destruct cp as [calls p]. inv_ret. simpl.
    split; [left; simpl; auto|].
    apply Forall_app. split; [assumption|]. constructor; [|constructor].
    assert (at_glyph runs pb) as Hpbg by (apply valid_at_glyph; [assumption|lia]).
    assert (at_glyph runs it) as Hitg by (exists run; split; assumption).
    destruct (emit_line_Ret env runs pb it _ _ _ _ _ _ _ Hwf Hpbg Hitg Hile Hline)
      as (Hcount & Hcalls & _).
    unfold line_metrics_ok, line_ascent, line_descent, line_leading. simpl.
    destruct calls as [|c0 cs]; [simpl in Hcount; lia|].
    destruct (Hcalls 0%nat c0 eq_refl) as (_ & -> & -> & -> & _).
    auto.
  - inv_ret. simpl. split; [|assumption].
    right. exists (fRunIndex it). simpl.
    split; [reflexivity|]. split; [assumption|].
    split; [destruct Hnri as [?|[? _]]; auto|]. auto.
Qed.

Lemma emit_loop_metrics (fuel : nat) :
  forall st st', em_inv env point runs st -> metrics_inv env runs st ->
    Forall (line_metrics_ok env runs) (em_lines st) ->
    emit_loop fuel env point runs st = Ret st' ->
    Forall (line_metrics_ok env runs) (em_lines st').
Proof using Hwf.
  induction fuel as [|fuel IH]; intros st st' Hinv HM Hall H; simpl in H; [inv_ret|].
  bind_inv H as r Hstep. destruct r as [st1|]; [|by inv_ret].
  destruct (emit_step_Some env point runs Hwf _ _ Hinv Hstep) as [Hinv1 _].
  destruct (emit_step_metrics _ _ Hinv HM Hall Hstep) as [HM1 Hall1].
  by apply (IH st1).
Qed.

Lemma emit_metrics (pt : SkPoint) (lines : list EmittedLine) :
  emit env point runs = Ret (pt, lines) -> Forall (line_metrics_ok env runs) lines.
Proof using Hwf.
  unfold emit. intros H. bind_inv H as st Hloop. inv_ret.
  eapply emit_loop_metrics; [apply em_inv_init; exact Hwf|apply metrics_inv_init| |exact Hloop].
  constructor.
Qed.
End EmitMetrics.

(** X16. Every [RunInfo] that the last pass hands to the handler for a
    line carries the same metrics: as ascent the least of 0 and the
    ascents of the fonts of the runs from that of the first glyph of the
    line to that of its last glyph, as descent and leading the greatest of
    0 and their descents and leadings, as [SkTMin] and [SkTMax] find them
    from 0 through the runs in their order. Where the metrics are numbers
    (none is NaN) these are the least and the greatest by [<], so the
    ascent is at most 0 and the descent and the leading are at least
    0. *)
Theorem line_metrics (env : Env) (impl : Impl) (srcFont : SkFont)
    (utf8 : list Z) (leftToRight : bool) (point : SkPoint) (width : SkScalar)
    (runs runs' : list ShapedRun) (pt : SkPoint) (lines : list EmittedLine) :
  segment_and_shape env impl srcFont utf8 leftToRight = Ret (inr runs) ->
  linebreak runs width = Ret runs' ->
  emit env point runs' = Ret (pt, lines) ->
  forall j l i c, lines !! j = Some l -> line_calls l !! i = Some c ->
    let rs := line_runs runs' (fRunIndex (line_first l)) (fRunIndex (line_last l)) in
    info_ascent (call_info c) = least_ascent env rs /\
    info_descent (call_info c) = greatest_descent env rs /\
    info_leading (call_info c) = greatest_leading env rs /\
    (metrics_are_numbers env rs ->
     is_least (info_ascent (call_info c))
       (scalar_zero :: ((fun run => fAscent (run_metrics env run)) <$> rs)) /\
     is_greatest (info_descent (call_info c))
       (scalar_zero :: ((fun run => fDescent (run_metrics env run)) <$> rs)) /\
     is_greatest (info_leading (call_info c))
       (scalar_zero :: ((fun run => fLeading (run_metrics env run)) <$> rs)) /\
     scalar_le (info_ascent (call_info c)) scalar_zero = true /\
     scalar_le scalar_zero (info_descent (call_info c)) = true /\
     scalar_le scalar_zero (info_leading (call_info c)) = true).
Proof.
  intros Hseg Hbreak Hemit j l i c Hl Hc rs.
  destruct (linebreak_Ret _ _ _ _ _ _ _ _ Hseg Hbreak) as (Hwf & _).
  destruct (emit_spec env point runs' Hwf pt lines Hemit) as (_ & Hlines & _).
  pose proof (Forall_lookup_1 _ _ _ _ (emit_metrics env point runs' Hwf pt lines Hemit) Hl)
    as (Ha & Hd & Hld).
  destruct (lo_calls _ _ _ _ _ _ (Hlines j l Hl) i c Hc) as (_ & -> & -> & -> & _).
  fold rs in Ha, Hd, Hld. rewrite Ha, Hd, Hld.
  split; [reflexivity|]. split; [reflexivity|]. split; [reflexivity|].
  intros Hnum. unfold least_ascent, greatest_descent, greatest_leading.
  assert (is_number scalar_zero) as H0 by discriminate.
  destruct (foldl_SkTMin_least ((fun run => fAscent (run_metrics env run)) <$> rs)
              scalar_zero H0) as [HA NA].
  { apply Forall_fmap. eapply Forall_impl; [exact Hnum|]. by intros r (? & _). }
  destruct (foldl_SkTMax_greatest ((fun run => fDescent (run_metrics env run)) <$> rs)
              scalar_zero H0) as [HD ND].
  { apply Forall_fmap. eapply Forall_impl; [exact Hnum|]. by intros r (_ & ? & _). }
  destruct (foldl_SkTMax_greatest ((fun run => fLeading (run_metrics env run)) <$> rs)
              scalar_zero H0) as [HL NL].
  { apply Forall_fmap. eapply Forall_impl; [exact Hnum|]. by intros r (_ & _ & ?). }
  split; [assumption|]. split; [assumption|]. split; [assumption|].
  split; [apply (scalar_not_lt_le _ _ NA H0), (proj2 HA); by left|].
  split; [apply (scalar_not_lt_le _ _ H0 ND), (proj2 HD); by left|].
  apply (scalar_not_lt_le _ _ H0 NL), (proj2 HL); by left.
Qed.

(** X16 on the stand-ins: the first call of the second line of "a" and
    beta at width 15: ascent -10, descent 3 and leading 1. *)
Lemma line_metrics_witness :
  exists l c, lines_a_beta.2 !! 1%nat = Some l /\ line_calls l !! 0%nat = Some c /\
    (info_ascent (call_info c) = int_to_float (-10) /\
     info_descent (call_info c) = int_to_float 3 /\
     info_leading (call_info c) = int_to_float 1) /\
    let rs := line_runs broken_a_beta (fRunIndex (line_first l)) (fRunIndex (line_last l)) in
    info_ascent (call_info c) = least_ascent (demo_env demo_plain) rs /\
    info_descent (call_info c) = greatest_descent (demo_env demo_plain) rs /\
    info_leading (call_info c) = greatest_leading (demo_env demo_plain) rs /\
    is_least (info_ascent (call_info c))
      (scalar_zero :: ((fun run => fAscent (run_metrics (demo_env demo_plain) run)) <$> rs)) /\
    is_greatest (info_descent (call_info c))
      (scalar_zero :: ((fun run => fDescent (run_metrics (demo_env demo_plain) run)) <$> rs)) /\
    is_greatest (info_leading (call_info c))
      (scalar_zero :: ((fun run => fLeading (run_metrics (demo_env demo_plain) run)) <$> rs)) /\
    scalar_le (info_ascent (call_info c)) scalar_zero = true /\
    scalar_le scalar_zero (info_descent (call_info c)) = true /\
    scalar_le scalar_zero (info_leading (call_info c)) = true.
Proof.
  eexists _, _. split; [vm_compute; reflexivity|]. split; [vm_compute; reflexivity|].
  split; [repeat split; reflexivity|].
  destruct (line_metrics (demo_env demo_plain) demo_impl demo_font text_a_beta true
              (demo_point 0 0) (int_to_float 15) runs_a_beta broken_a_beta lines_a_beta.1
              lines_a_beta.2 eq_refl eq_refl eq_refl 1%nat _ 0%nat _ eq_refl eq_refl)
    as (Ha & Hd & Hl & Hnum).
  split; [exact Ha|]. split; [exact Hd|]. split; [exact Hl|].
  apply Hnum. repeat constructor; discriminate.
Defined.
(** ** Where the line-break pass puts its marks *)

Section GreedyBreaks.
Variable runs0 : list ShapedRun.
Variable width : SkScalar.
Hypothesis Hnonempty : Forall (fun r => (1 <= fNumGlyphs r)%nat) runs0.
Hypothesis Hno : no_must runs0.

Lemma no_must_at (q : nat) : must_at runs0 q = false.
Proof using Hno.
  unfold must_at. destruct (all_glyphs runs0 !! q) as [g|] eqn:Hq; [|done].
  exact (Forall_lookup_1 _ _ _ _ Hno Hq).
Qed.

Lemma brk_inv_init : brk_inv runs0 width (linebreak_init runs0) 0.
Proof using Hno.
  constructor; simpl.
  - discriminate.
  - intros _ x Hx. unfold position in Hx. simpl in Hx.
    change (glyph_count []) with 0%nat in Hx. lia.
  - intros q Hq. rewrite no_must_at in Hq. discriminate.
Qed.

Lemma linebreak_step_greedy (st st' : LineBreakState) (s : nat) :
  lb_inv runs0 width st s -> brk_inv runs0 width st s ->
  linebreak_step width st = Ret (Some st') ->
  exists s', lb_inv runs0 width st' s' /\ brk_inv runs0 width st' s'.
Proof using Hnonempty Hno.
  intros Hinv HB Hstep.
  destruct (linebreak_step_spec runs0 width Hnonempty st s Hinv)
    as [[_ Hnone]|(Hlt & st1 & Hstep1 & Hcase)]; [congruence|].
  assert (st1 = st') as -> by congruence. clear Hstep1.
  destruct Hinv as [Hskel Hvalid Hle Hw Hcf Hct Hprev Hprefix Hstart Hbeyond Hzero Hlines].
  destruct HB as [Bv Bn Bm].
  specialize (Hstart Hno). specialize (Hbeyond Hno).
  set (runs := lb_runs st) in *. set (it := glyphIterator st) in *.
  assert (valid_iterator runs it) as Hvalid' by (eapply same_valid; [symmetry|]; eassumption).
  assert (forall i, position runs i = position runs0 i) as Hpos
    by (intros i; by apply same_position).
  assert (glyph_count runs = glyph_count runs0) as Hcount by (by apply same_glyph_count).
  assert (Forall (fun r => (1 <= fNumGlyphs r)%nat) runs) as Hne'
    by (eapply same_nonempty; [symmetry|]; eassumption).
  unfold linebreak_step in Hstep. fold runs in Hstep. fold it in Hstep.
  destruct (current runs it) as [ptr|] eqn:Hcur; [|inv_ret].
  destruct (current_Some _ _ _ Hvalid' Hcur)
    as (-> & run & glyph & Hrun & Hglyph & Hderef & Hall & _).
  rewrite Hpos in Hall.
  rewrite Hderef in Hstep. simpl in Hstep.
  destruct (same_glyph _ _ Hskel _ _ Hall) as (g0 & Hg0 & Hsame).
  destruct (set_must_advance _ _ Hsame) as (Hadv & Hmay & _).
  assert (fMayLineBreakBefore glyph = may_at runs0 (position runs0 it)) as Hmayat
    by (unfold may_at; rewrite Hg0; congruence).
  destruct (next_valid runs it run Hne' Hrun (lookup_lt_Some _ _ _ Hglyph))
    as (it' & Hnext & Hvit' & Hpit' & _).
  rewrite Hpos in Hpit'. rewrite Hpos in Hpit'.
  pose proof (seg_x_snoc _ s _ _ Hle Hg0) as Hsnoc.
  unfold advance_x in Hsnoc. rewrite Hadv in Hsnoc.
  assert (seg_x (all_glyphs runs0) s (S (position runs0 it)) =
          scalar_add (widthSoFar st) (fX (fAdvance glyph))) as Hsum
    by (by rewrite Hsnoc, Hw).
  set (p := position runs0 it) in *.
  set (mark := canAddBreakNow st && fMayLineBreakBefore glyph) in *.
  set (valid := if mark then true else previousBreakValid st) in *.
  set (prev := if mark then it else previousBreak st) in *.
  assert (mark = true -> (s < p)%nat /\ may_at runs0 p = true) as Hmark.
  { unfold mark. intros Hm. apply andb_true_iff in Hm as [Hm1 Hm2].
    split; [auto|congruence]. }
  assert (mark = false -> (s < p)%nat -> may_at runs0 p = false) as Hnomark.
  { unfold mark. intros Hm Hsp. apply andb_false_iff in Hm as [Hm|Hm]; [|congruence].
    destruct (canAddBreakNow st) eqn:Hc; [discriminate|]. specialize (Hcf eq_refl).
    unfold p in Hsp. lia. }
  (* [previousBreak] after the test of the glyph *)
  assert (valid = true ->
          valid_iterator runs0 prev /\ (s < position runs0 prev <= p)%nat /\
          may_at runs0 (position runs0 prev) = true /\
          forall x, (position runs0 prev < x <= p)%nat -> may_at runs0 x = false) as Bv'.
  { unfold valid, prev. destruct mark eqn:Hm.
    - intros _. destruct (Hmark eq_refl) as [Hsp Hmp]. fold p.
      split; [assumption|]. split; [lia|]. split; [assumption|]. intros x Hx. lia.
    - intros Hv. destruct (Hprev Hv) as [Hvp Hpp]. destruct (Bv Hv) as [Hmp Hbetween].
      fold p in Hpp, Hbetween.
      split; [assumption|]. split; [lia|]. split; [assumption|].
      intros x Hx. destruct (decide (x = p)) as [->|Hne].
      + apply Hnomark; [reflexivity|lia].
      + apply Hbetween. lia. }
  assert (valid = false -> forall x, (s < x <= p)%nat -> may_at runs0 x = false) as Bn'.
  { unfold valid. destruct mark eqn:Hm; [discriminate|].
    intros Hv x Hx. destruct (decide (x = p)) as [->|Hne].
    - apply Hnomark; [reflexivity|lia].
    - apply (Bn Hv). fold p. lia. }
  destruct (scalar_lt (scalar_add (widthSoFar st) (fX (fAdvance glyph))) width) eqn:Hfit.
  - (* the glyph fits *)
    rewrite Hnext in Hstep. simpl in Hstep. inv_ret.
    destruct Hcase as [(Hinv' & _)|(s' & _ & _ & _ & Hcan & _)]; [|discriminate Hcan].
    exists s. split; [assumption|].
    constructor; simpl.
    + intros Hv. destruct (Bv' Hv) as (_ & _ & Hmp & Hbetween).
      split; [assumption|]. intros x Hx. apply Hbetween. lia.
    + intros Hv x Hx. apply (Bn' Hv). lia.
    + assumption.
  - (* the glyph does not fit: a line ends *)
    rewrite <- Hsum in Hfit.
    assert (exists prev',
      (if scalar_eq (widthSoFar st) scalar_zero then '(i, _) ← next runs it; Ret i
       else if negb valid then Ret it else Ret prev) = Ret prev' /\
      valid_iterator runs0 prev' /\
      greedy_break runs0 width s (position runs0 prev')) as Hbreak.
    { assert (forall q,
        (scalar_eq (seg_x (all_glyphs runs0) s p) scalar_zero = true /\ q = S p) \/
        (scalar_eq (seg_x (all_glyphs runs0) s p) scalar_zero = false /\ (s < q <= p)%nat /\
         may_at runs0 q = true /\
         forall x, (q < x <= p)%nat -> may_at runs0 x = false) \/
        (scalar_eq (seg_x (all_glyphs runs0) s p) scalar_zero = false /\ q = p /\
         forall x, (s < x <= p)%nat -> may_at runs0 x = false) ->
        greedy_break runs0 width s q) as Hgreedy.
      { intros q Hq. exists p. split; [lia|]. split; [exact Hprefix|].
        split; [exact Hfit|exact Hq]. }
      destruct (scalar_eq (widthSoFar st) scalar_zero) eqn:Hzw.
      - exists it'. rewrite Hnext. simpl.
        split; [reflexivity|].
        split; [eapply same_valid; eassumption|].
        apply Hgreedy. left. split; [by rewrite <- Hw|assumption].
      - rewrite Hw in Hzw. destruct valid eqn:Hv; simpl.
        + exists prev. destruct (Bv' eq_refl) as (Hvp & Hsp & Hmp & Hbetween).
          split; [reflexivity|]. split; [assumption|].
          apply Hgreedy. right. left. split; [assumption|]. auto.
        + exists it. split; [reflexivity|]. split; [assumption|].
          apply Hgreedy. right. right. split; [assumption|]. split; [reflexivity|].
          exact (Bn' eq_refl). }
    destruct Hbreak as (prev' & Hprev' & Hvp & Hgreedy). rewrite Hprev' in Hstep.
    simpl in Hstep.
    assert (valid_iterator runs prev') as Hvp'
      by (eapply same_valid; [symmetry|]; eassumption).
    pose proof (valid_position_le _ _ Hvp) as Hpn.
    assert (exists runs',
      match current runs prev' with
      | Some ptr' => mark_must runs ptr'
      | None => Ret runs
      end = Ret runs' /\
      forall q, q <> position runs0 prev' -> must_at runs' q = must_at runs q) as Hmarked.
    { destruct (current runs prev') as [ptr'|] eqn:Hcur'.
      - destruct (current_Some _ _ _ Hvp' Hcur')
          as (-> & run' & glyph' & Hrun' & Hglyph' & _ & _ & Hlt').
        destruct (mark_must_spec _ _ _ _ _ Hrun' Hglyph') as (runs' & Hm & Hs & Ha).
        replace (MkIter (fRunIndex prev') (fGlyphIndex prev')) with prev' in Ha
          by (by destruct prev').
        exists runs'. split; [assumption|].
        rewrite <- Hpos.
        intros q Hq. rewrite (must_at_insert _ _ _ _ _ Ha Hlt'). by rewrite decide_False.
      - exists runs. split; reflexivity. }
    destruct Hmarked as (runs' & Hruns' & Hother). rewrite Hruns' in Hstep.
    simpl in Hstep. inv_ret.
    destruct Hcase as [(_ & _ & Hcan & _)|(s' & Hinv' & Hs & Hps & _)];
      [discriminate Hcan|].
    simpl in Hps. exists s'. split; [assumption|].
    constructor; simpl.
    + discriminate.
    + intros _ x Hx. lia.
    + intros q Hq. destruct (decide (q = s')) as [->|Hne].
      * exists s. split; [lia|]. split.
        { destruct Hstart as [?|[?|Hst]]; [by left|lia|].
          right. rewrite Hother by lia. assumption. }
        split.
        { intros x Hx. rewrite Hother by lia. apply Hbeyond. lia. }
        rewrite <- Hps. assumption.
      * rewrite Hother in Hq by lia.
        destruct (Bm q Hq) as (a & Haq & Ha & Hbetween & Hg).
        exists a. split; [lia|]. split.
        { destruct Ha as [?|Ha]; [by left|right]. rewrite Hother by lia. assumption. }
        split; [|assumption].
        intros x Hx. rewrite Hother by lia. by apply Hbetween.
Qed.

Lemma linebreak_loop_greedy (fuel : nat) :
  forall st st' s, lb_inv runs0 width st s -> brk_inv runs0 width st s ->
    linebreak_loop fuel width st = Ret st' ->
    exists s', brk_inv runs0 width st' s'.
Proof using Hnonempty Hno.
  induction fuel as [|fuel IH]; intros st st' s Hinv HB H; simpl in H; [inv_ret|].
  bind_inv H as r Hstep. destruct r as [st1|]; [|inv_ret; eauto].
  destruct (linebreak_step_greedy _ _ _ Hinv HB Hstep) as (s1 & Hinv1 & HB1).
  by apply (IH st1 st' s1).
Qed.
End GreedyBreaks.

(** X17. Every mark of the line-break pass ends its line greedily: with
    [a] the start of the line before the marked glyph [q] (the first
    glyph or the mark before), there is a first glyph [p] of that line
    that does not fit, every shorter prefix of the line being narrower
    than the width; when the glyphs before [p] add no width the mark is
    right after [p]; otherwise it is at the last glyph after [a] and up to
    [p] that has [fMayLineBreakBefore], and at [p] itself when no such
    glyph exists. *)
Theorem breaks_are_greedy (env : Env) (impl : Impl) (srcFont : SkFont)
    (utf8 : list Z) (leftToRight : bool) (width : SkScalar) (runs runs' : list ShapedRun) :
  segment_and_shape env impl srcFont utf8 leftToRight = Ret (inr runs) ->
  linebreak runs width = Ret runs' ->
  forall q, must_at runs' q = true ->
    exists a, (a < q)%nat /\ (a = 0%nat \/ must_at runs' a = true) /\
      (forall x, (a < x < q)%nat -> must_at runs' x = false) /\
      greedy_break runs width a q.
Proof.
  intros Hseg Hbreak q Hq.
  destruct (segment_and_shape_runs _ _ _ _ _ _ Hseg) as [Hwf Hno].
  assert (Forall (fun r => (1 <= fNumGlyphs r)%nat) runs) as Hne
    by (eapply Forall_impl; [exact Hwf|]; by intros r [? _]).
  unfold linebreak in Hbreak. bind_inv Hbreak as st Hloop. inv_ret.
  destruct (linebreak_loop_greedy runs width Hne Hno _ _ _ _
              (lb_inv_init runs width Hne) (brk_inv_init runs width Hno) Hloop)
    as (s' & HB).
  destruct (bi_marks _ _ _ _ HB q Hq) as (a & Haq & Ha & Hbetween & Hg).
  exists a. split; [lia|]. auto.
Qed.

(** X17 on the stand-ins: the mark before beta of "a" and beta, each ten
    wide, at width 15. *)
Lemma breaks_are_greedy_witness :
  exists a, (a < 1)%nat /\ (a = 0%nat \/ must_at broken_a_beta a = true) /\
    (forall x, (a < x < 1)%nat -> must_at broken_a_beta x = false) /\
    greedy_break runs_a_beta (int_to_float 15) a 1.
Proof.
  refine (breaks_are_greedy (demo_env demo_plain) demo_impl demo_font text_a_beta true
            (int_to_float 15) runs_a_beta broken_a_beta _ _ 1%nat _).
  - vm_compute. reflexivity.
  - vm_compute. reflexivity.
  - vm_compute. reflexivity.
Defined.
(** ** The runs are uniform *)

Section Decoding.
Variable env : Env.
Variable utf8 : list Z.
Hypothesis Hdec : decoder_advances env utf8.

Lemma decodes_nth (p q : Z) :
  decodes env utf8 p q ->
  exists n, nth_decode env utf8 n = (p, q) /\
    forall m, (m < n)%nat -> (nth_decode env utf8 m).1 < Z.of_nat (length utf8).
Proof.
  induction 1 as [|p q _ (n & Hn & Hlt) Hp].
  - exists 0%nat. split; [reflexivity|]. intros m Hm. lia.
  - exists (S n). cbn [nth_decode]. rewrite Hn. split; [reflexivity|].
    intros m Hm. destruct (decide (m = n)) as [->|Hne]; [by rewrite Hn|].
    apply Hlt. lia.
Qed.

Lemma nth_decode_step (n : nat) :
  (nth_decode env utf8 n).1 < Z.of_nat (length utf8) ->
  (nth_decode env utf8 n).1 < (nth_decode env utf8 (S n)).1.
Proof using Hdec.
  intros Hlt. cbn [nth_decode]. destruct (nth_decode env utf8 n) as [p q].
  cbn [fst snd] in *.
  pose proof (utf8_next_advances env utf8 Hdec _ _ Hlt). lia.
Qed.

Lemma nth_decode_mono (n m : nat) :
  (forall k, (k < n + m)%nat -> (nth_decode env utf8 k).1 < Z.of_nat (length utf8)) ->
  (nth_decode env utf8 n).1 <= (nth_decode env utf8 (n + m)).1.
Proof using Hdec.
  induction m as [|m IH]; intros Hlt.
  - rewrite Nat.add_0_r. lia.
  - replace (n + S m)%nat with (S (n + m)) by lia.
    assert ((nth_decode env utf8 (n + m)).1 < Z.of_nat (length utf8)) as Hnm
      by (apply Hlt; lia).
    pose proof (nth_decode_step (n + m) Hnm).
    assert (forall k, (k < n + m)%nat ->
              (nth_decode env utf8 k).1 < Z.of_nat (length utf8)) as Hlt'
      by (intros k Hk; apply Hlt; lia).
    specialize (IH Hlt'). lia.
Qed.

(** The offsets that decoding reaches are in a line: one that is not
    before another is that one, or not before the next after it. *)
Lemma decodes_step (a qa p q : Z) :
  decodes env utf8 a qa -> decodes env utf8 p q -> a <= p ->
  (p = a /\ q = qa) \/
  (utf8_next env utf8 a (Z.of_nat (length utf8))).2 <= p.
Proof using Hdec.
  intros Ha Hp Hle.
  destruct (decodes_nth _ _ Ha) as (n & Hn & Hnlt).
  destruct (decodes_nth _ _ Hp) as (m & Hm & Hmlt).
  destruct (decide (n = m)) as [->|Hne].
  { left. rewrite Hn in Hm. by inversion Hm. }
  destruct (decide (n < m)%nat) as [Hlt|Hge].
  - right.
    pose proof (nth_decode_mono (S n) (m - S n)) as Hmono.
    replace (S n + (m - S n))%nat with m in Hmono by lia.
    specialize (Hmono Hmlt). rewrite Hm in Hmono. cbn [nth_decode] in Hmono.
    rewrite Hn in Hmono. exact Hmono.
  - exfalso.
    pose proof (nth_decode_mono (S m) (n - S m)) as Hmono.
    replace (S m + (n - S m))%nat with n in Hmono by lia.
    specialize (Hmono Hnlt). rewrite Hn in Hmono.
    assert ((nth_decode env utf8 m).1 < Z.of_nat (length utf8)) as Hm'
      by (apply Hnlt; lia).
    pose proof (nth_decode_step m Hm') as Hstep.
    rewrite Hm in Hstep. cbn [fst snd] in *. lia.
Qed.
End Decoding.

Section BidiLevels.
Variable env : Env.
Variable utf8 : list Z.
Variable bidi0 : UBiDi.
Hypothesis Hdec : decoder_advances env utf8.
Hypothesis Hcons :
  forall p q, decodes env utf8 p q ->
    (q = ubidi_getLength bidi0 <-> p = Z.of_nat (length utf8)).

Lemma bidi_advance_fields (it : BiDiRunIterator.t) :
  BiDiRunIterator.fLevel (BiDiRunIterator.advance env utf8 it) = BiDiRunIterator.fLevel it /\
  BiDiRunIterator.fEndOfCurrentRun (BiDiRunIterator.advance env utf8 it)
    = (utf8_next env utf8 (BiDiRunIterator.fEndOfCurrentRun it)
         (BiDiRunIterator.fEndOfAllRuns it)).2.
Proof.
  unfold BiDiRunIterator.advance. destruct (utf8_next env utf8 _ _) as [u p]. by split.
Qed.

Lemma bidi_loop_levels (fuel : nat) :
  forall it it' : BiDiRunIterator.t,
    BiDiRunIterator.consume_loop env utf8 fuel (ubidi_getLength bidi0) it = Ret it' ->
    BiDiRunIterator.fEndOfAllRuns it = Z.of_nat (length utf8) ->
    BiDiRunIterator.fBidi it = bidi0 ->
    decodes env utf8 (BiDiRunIterator.fEndOfCurrentRun it)
      (BiDiRunIterator.fUTF16LogicalPosition it) ->
    BiDiRunIterator.fLevel it' = BiDiRunIterator.fLevel it /\
    forall p q, decodes env utf8 p q ->
      BiDiRunIterator.fEndOfCurrentRun it <= p < BiDiRunIterator.fEndOfCurrentRun it' ->
      ubidi_getLevelAt bidi0 q = BiDiRunIterator.fLevel it.
Proof using Hdec Hcons.
  induction fuel as [|fuel IH]; intros it it' H Hall Hb Hd; simpl in H.
  - destruct (_ <? _); [destruct (decide _)|]; inv_ret; (split; [reflexivity|]);
      intros p q _ Hrange; lia.
  - destruct (_ <? _) eqn:Hlt.
    2:{ inv_ret. split; [reflexivity|]. intros p q _ Hrange. lia. }
    apply Z.ltb_lt in Hlt.
    destruct (decide _) as [Hne|Heq].
    { inv_ret. split; [reflexivity|]. intros p q _ Hrange. lia. }
    apply dec_stable in Heq.
    assert (BiDiRunIterator.fEndOfCurrentRun it < Z.of_nat (length utf8)) as Hin.
    { destruct (decide (BiDiRunIterator.fEndOfCurrentRun it = Z.of_nat (length utf8)))
        as [Hend|].
      - apply (Hcons _ _ Hd) in Hend. lia.
      - assert (BiDiRunIterator.fEndOfCurrentRun it <= Z.of_nat (length utf8)); [|lia].
        clear -Hd Hdec. induction Hd as [|p q _ _ Hp]; [lia|].
        pose proof (utf8_next_advances env utf8 Hdec _ _ Hp). lia. }
    destruct (bidi_advance_decodes env utf8 Hdec it Hall Hd Hin)
      as (Ha1 & Ha2 & Ha3 & _).
    destruct (bidi_advance_fields it) as [Hl He].
    destruct (IH _ _ H Ha1 ltac:(congruence) Ha3) as [Hlevel Hlevels].
    split; [congruence|].
    intros p q Hpq Hrange.
    destruct (decodes_step env utf8 Hdec _ _ _ _ Hd Hpq ltac:(lia)) as [[-> ->]|Hnext].
    + by rewrite <- Hb.
    + rewrite <- Hl. apply (Hlevels p q Hpq). rewrite He, Hall. lia.
Qed.

Lemma bidi_consume_levels (it it' : BiDiRunIterator.t) :
  BiDiRunIterator.consume env utf8 it = Ret it' ->
  BiDiRunIterator.fEndOfAllRuns it = Z.of_nat (length utf8) ->
  BiDiRunIterator.fBidi it = bidi0 ->
  decodes env utf8 (BiDiRunIterator.fEndOfCurrentRun it)
    (BiDiRunIterator.fUTF16LogicalPosition it) ->
  BiDiRunIterator.fEndOfCurrentRun it < Z.of_nat (length utf8) ->
  forall p q, decodes env utf8 p q ->
    BiDiRunIterator.fEndOfCurrentRun it <= p < BiDiRunIterator.fEndOfCurrentRun it' ->
    ubidi_getLevelAt bidi0 q = BiDiRunIterator.currentLevel it'.
Proof using Hdec Hcons.
  intros H Hall Hb Hd Hin p q Hpq Hrange.
  unfold BiDiRunIterator.consume in H. rewrite Hb in H.
  set (it1 := BiDiRunIterator.Mk _ _ _ _ _) in H.
  assert (decodes env utf8 (BiDiRunIterator.fEndOfCurrentRun it1)
            (BiDiRunIterator.fUTF16LogicalPosition it1)) as Hd1 by exact Hd.
  destruct (bidi_advance_decodes env utf8 Hdec it1 Hall Hd1 Hin) as (Ha1 & Ha2 & Ha3 & _).
  destruct (bidi_advance_fields it1) as [Hl He].
  destruct (bidi_loop_levels _ _ _ H Ha1 Ha2 Ha3) as [Hlevel Hlevels].
  unfold BiDiRunIterator.currentLevel. rewrite Hlevel.
  destruct (decodes_step env utf8 Hdec _ _ _ _ Hd Hpq ltac:(lia)) as [[-> ->]|Hnext].
  - rewrite Hl. reflexivity.
  - apply (Hlevels p q Hpq). rewrite He. simpl. rewrite Hall. lia.
Qed.
End BidiLevels.

(** A successful call of [advanceRuns] has consumed once the iterators
    whose run ended at the least end, and left the others as they were. *)
Lemma advanceRuns_tracks (env : Env) (utf8 : list Z) (bidi0 : UBiDi)
    (q q' : RunIteratorQueue) (leastEnd : Z) :
  decoder_advances env utf8 ->
  (forall p u, decodes env utf8 p u ->
     (u = ubidi_getLength bidi0 <-> p = Z.of_nat (length utf8))) ->
  iters_inv env utf8 bidi0 q -> queue_ok q ->
  queue_endOfCurrentRun q = Ret leastEnd ->
  advanceRuns env utf8 q = Ret (true, q') ->
  leastEnd < Z.of_nat (length utf8) /\
  forall r, leastEnd <= ref_endOfCurrentRun q r /\
    (ref_endOfCurrentRun q r = leastEnd -> ref_consumed env utf8 q q' r) /\
    (ref_endOfCurrentRun q r <> leastEnd -> ref_same q q' r).
Proof.
  intros Hdec Hb Hinv Hok Hleast Htrue.
  destruct (queue_head env utf8 bidi0 q Hinv Hok) as (r0 & Hpeek & Hend & Hmin).
  assert (leastEnd = ref_endOfCurrentRun q r0) as -> by congruence.
  destruct (advanceRuns_Ret env utf8 bidi0 Hdec Hb q q' _ true Hinv Hok Hend Htrue)
    as (_ & Hlt & _ & Hinv' & Hok' & e' & Hend' & Hgt).
  split; [assumption|].
  unfold advanceRuns in Htrue. rewrite Hpeek in Htrue. simpl in Htrue.
  destruct (ref_atEnd q r0) eqn:Hat; [discriminate|].
  bind_inv Htrue as q1 Hloop. inv_ret.
  pose proof (advanceRuns_loop_tracks env utf8 bidi0 Hdec Hb q
                (ref_endOfCurrentRun q r0) Hlt _ q q' Hloop Hinv) as Htracks.
  assert (forall r', ref_same q q r') as Hrefl by (intros r'; by destruct r').
  match type of Htracks with (?P -> _) => assert P as Hinit end.
  { intros r'. specialize (Hmin r').
    destruct (decide (ref_endOfCurrentRun q r' = ref_endOfCurrentRun q r0));
      [by left|right; right; split; [lia|done]]. }
  intros r. split; [apply Hmin|].
  destruct (Htracks Hinit r) as [[He Hs]|[(He & Hc & _)|[Hgt' Hs]]].
  - (* not possible: the loop ends with every run beyond the least end *)
    split; [|intros Hne; contradiction]. intros _.
    exfalso.
    destruct (queue_head env utf8 bidi0 q' Hinv' Hok') as (r1 & _ & He1 & Hmin').
    rewrite He1 in Hend'. inversion Hend'; subst e'. specialize (Hmin' r).
    rewrite (ref_same_end _ _ _ Hs) in Hmin'. lia.
  - split; [done|]. intros Hne. contradiction.
  - split; [lia|done].
Qed.

Lemma make_segmenter_level (env : Env) (impl : Impl) (utf8 : list Z) (leftToRight : bool)
    (q : RunIteratorQueue) :
  make_segmenter env impl utf8 leftToRight = Ret (inr q) ->
  ubidi_setPara env utf8 (if leftToRight then UBIDI_DEFAULT_LTR else UBIDI_DEFAULT_RTL)
    = Some (BiDiRunIterator.fBidi (bidi q)).
Proof.
  unfold make_segmenter. intros H.
  bind_inv H as mk Hb. destruct mk as [b|]; [|inv_ret].
  apply bidi_Make_Some in Hb as (bidi0 & Hpara & ->).
  simpl in H.
  destruct (negb (utext_openUTF8 env utf8)); [discriminate|].
  destruct (negb (ubrk_setUText env utf8)); [discriminate|].
  inversion H; subst q. simpl. exact Hpara.
Qed.

(** X18. Every run that the first block stores has one bidi level: the
    level that ICU gives for the paragraph at the UTF-16 position of every
    code point that starts in the bytes of the run is the level of the
    run. *)
Theorem runs_have_one_level (env : Env) (impl : Impl) (srcFont : SkFont)
    (utf8 : list Z) (leftToRight : bool) (runs : list ShapedRun) :
  decoder_advances env utf8 -> bidi_consistent env utf8 ->
  segment_and_shape env impl srcFont utf8 leftToRight = Ret (inr runs) ->
  exists bidi0,
    ubidi_setPara env utf8 (if leftToRight then UBIDI_DEFAULT_LTR else UBIDI_DEFAULT_RTL)
      = Some bidi0 /\
    Forall (one_level env utf8 bidi0) runs.
Proof.
  intros Hdec Hcons H. unfold segment_and_shape in H.
  bind_inv H as mk Hq0. destruct mk as [e|q0]; [inv_ret|].
  destruct (segmenter_init _ _ _ _ _ Hq0) as (level & bidi0 & Hpara & Hinv0 & Hok0 & He0).
  pose proof (Hcons level bidi0 Hpara) as Hb.
  exists bidi0. split.
  { rewrite (make_segmenter_level _ _ _ _ _ Hq0). f_equal.
    exact (qi_bidi_obj _ _ _ _ Hinv0). }
  set (I := fun st : SegmentState =>
    iters_inv env utf8 bidi0 (runSegmenter st) /\ queue_ok (runSegmenter st) /\
    queue_endOfCurrentRun (runSegmenter st) = Ret (seg_utf8End st) /\
    (forall p u, decodes env utf8 p u ->
       seg_utf8End st <= p < BiDiRunIterator.fEndOfCurrentRun (bidi (runSegmenter st)) ->
       ubidi_getLevelAt bidi0 u = BiDiRunIterator.currentLevel (bidi (runSegmenter st))) /\
    Forall (one_level env utf8 bidi0) (seg_runs st)).
  assert (forall st q st', I st ->
            advanceRuns env utf8 (runSegmenter st) = Ret (true, q) ->
            shape_segment env srcFont utf8 st q = Ret (inr st') -> I st') as Hstep.
  { intros st q st' (Hinv & Hok & He & Hlevel & Hall) Hadv Hseg.
    destruct (advanceRuns_Ret env utf8 bidi0 Hdec Hb _ q _ true Hinv Hok He Hadv)
      as (_ & _ & _ & Hinv' & Hok' & e' & He' & Hgt).
    destruct (advanceRuns_tracks env utf8 bidi0 _ _ _ Hdec Hb Hinv Hok He Hadv)
      as [Hlt Htracks].
    destruct (Htracks BidiRef) as (Hle & Hconsumed & Hsame). simpl in Hle, Hconsumed, Hsame.
    destruct (shape_segment_Ret _ _ _ _ _ _ Hseg) as (Hq & Hend & Hruns).
    assert (seg_utf8End st' = e') as Hst' by congruence.
    (* the level of the run of the bidi iterator from the former least end *)
    assert (forall p u, decodes env utf8 p u ->
              seg_utf8End st <= p < BiDiRunIterator.fEndOfCurrentRun (bidi q) ->
              ubidi_getLevelAt bidi0 u = BiDiRunIterator.currentLevel (bidi q)) as Hcur.
    { destruct (decide (BiDiRunIterator.endOfCurrentRun (bidi (runSegmenter st))
                        = seg_utf8End st)) as [Heq|Hne].
      - specialize (Hconsumed Heq). intros p u Hpu Hrange.
        unfold BiDiRunIterator.endOfCurrentRun in Heq.
        apply (bidi_consume_levels env utf8 bidi0 Hdec Hb _ _ Hconsumed
                 (qi_bidi_all _ _ _ _ Hinv) (qi_bidi_obj _ _ _ _ Hinv)
                 (qi_bidi_dec _ _ _ _ Hinv) ltac:(lia) p u Hpu).
        lia.
      - specialize (Hsame Hne). rewrite Hsame. exact Hlevel. }
    (* the least end of the queue is not beyond the end of the bidi run *)
    assert (e' <= BiDiRunIterator.fEndOfCurrentRun (bidi q)) as Hbound.
    { destruct (queue_head env utf8 bidi0 q Hinv' Hok') as (r1 & _ & He1 & Hmin').
      rewrite He1 in He'. inversion He'; subst e'. exact (Hmin' BidiRef). }
    unfold I. rewrite Hq, Hst'.
    split; [assumption|]. split; [assumption|]. split; [assumption|]. split.
    { intros p u Hpu Hrange. apply (Hcur p u Hpu). lia. }
    destruct Hruns as [->|(run & -> & Hrun)]; [assumption|].
    apply Forall_app. split; [assumption|]. constructor; [|constructor].
    destruct Hrun as (utf8End & _ & _ & _ & Hend' & _ & Hs & Hee & _ & Hlv & _).
    assert (utf8End = e') as -> by congruence.
    intros p u Hpu Hrange. rewrite Hlv. apply (Hcur p u Hpu). lia. }
  destruct (shape_segments_invariant I env srcFont utf8 Hstep _ _ _ H)
    as (st' & (_ & _ & _ & _ & Hall) & <-); [|assumption].
  unfold I. simpl. split; [assumption|]. split; [assumption|]. split; [assumption|].
  split; [|constructor].
  intros p u _ Hrange.
  destruct (make_segmenter_inr _ _ _ _ _ Hq0) as (level1 & bidi1 & _ & Hbidi & _).
  rewrite Hbidi in Hrange. simpl in Hrange. lia.
Qed.

(** X18 on the stand-ins, for "a", U+4E2D and "b" with a font manager
    that finds no typeface: the runs of "a" and of "b". *)
Lemma runs_have_one_level_witness :
  exists r1 r2,
    segment_and_shape (demo_env demo_no_fallback) demo_impl demo_font text_a_cjk_b true
      = Ret (inr [r1; r2]) /\
    exists bidi0,
      ubidi_setPara (demo_env demo_no_fallback) text_a_cjk_b UBIDI_DEFAULT_LTR
        = Some bidi0 /\
      Forall (one_level (demo_env demo_no_fallback) text_a_cjk_b bidi0) [r1; r2].
Proof.
  eexists _, _. split; [vm_compute; reflexivity|].
  apply (runs_have_one_level (demo_env demo_no_fallback) demo_impl demo_font text_a_cjk_b
           true _ (demo_decoder_advances demo_no_fallback text_a_cjk_b)
           a_cjk_b_bidi_consistent).
  vm_compute. reflexivity.
Defined.

Section FontRuns.
Variable env : Env.
Variable utf8 : list Z.
Hypothesis Hdec : decoder_advances env utf8.

Lemma font_loop_fonts (fuel : nat) :
  forall (it it' : FontRunIterator.t) (u0 : Z),
    FontRunIterator.consume_loop env utf8 fuel it = Ret it' ->
    FontRunIterator.fEnd it = Z.of_nat (length utf8) ->
    decodes env utf8 (FontRunIterator.fCurrent it) u0 ->
    FontRunIterator.fCurrentTypeface it' = FontRunIterator.fCurrentTypeface it /\
    FontRunIterator.fTypeface it' = FontRunIterator.fTypeface it /\
    (exists u', decodes env utf8 (FontRunIterator.fCurrent it') u') /\
    forall p u, decodes env utf8 p u ->
      FontRunIterator.fCurrent it <= p < FontRunIterator.fCurrent it' ->
      font_ok env utf8 (FontRunIterator.fTypeface it)
        (FontRunIterator.fCurrentTypeface it) p.
Proof using Hdec.
  induction fuel as [|fuel IH]; intros it it' u0 H Hend Hd; simpl in H.
  - destruct (_ <? _); inv_ret. split; [reflexivity|]. split; [reflexivity|].
    split; [eauto|]. intros p u _ Hrange. lia.
  - destruct (_ <? _) eqn:Hlt.
    2:{ inv_ret. split; [reflexivity|]. split; [reflexivity|].
        split; [eauto|]. intros p u _ Hrange. lia. }
    apply Z.ltb_lt in Hlt.
    pose proof (decodes_next _ _ _ _ Hd ltac:(lia)) as Hd'.
    rewrite <- Hend in Hd'.
    destruct (utf8_next env utf8 (FontRunIterator.fCurrent it) (FontRunIterator.fEnd it))
      as [u p1] eqn:Hnext.
    simpl in Hd'.
    destruct (bool_decide _ && charsToGlyphs env (FontRunIterator.fTypeface it) u)
      eqn:Hprimary.
    { inv_ret. simpl. split; [reflexivity|]. split; [reflexivity|].
      split; [eauto|]. intros p u' _ Hrange. lia. }
    destruct (FontRunIterator.fCurrentTypeface it) as [cur|] eqn:Hcur; [|inv_ret].
    destruct (negb (charsToGlyphs env cur u)) eqn:Hcov.
    { inv_ret. simpl. split; [by rewrite Hcur|]. split; [reflexivity|].
      split; [eauto|]. intros p u' _ Hrange. lia. }
    apply negb_false_iff in Hcov.
    destruct (IH _ _ _ H Hend Hd') as (Hc & Ht & Hd'' & Hall). simpl in *.
    split; [congruence|]. split; [assumption|]. split; [assumption|].
    intros p u' Hpu Hrange.
    destruct (decodes_step env utf8 Hdec _ _ _ _ Hd Hpu ltac:(lia)) as [[-> ->]|Hstep].
    + unfold font_ok, code_point_at. rewrite <- Hend, Hnext. simpl. split.
      * intros Hp. rewrite Hp, andb_true_r in Hprimary.
        apply bool_decide_eq_false in Hprimary. by apply dec_stable.
      * left. eauto.
    + rewrite <- Hcur. apply (Hall p u' Hpu).
      rewrite <- Hend, Hnext in Hstep. simpl in Hstep. lia.
Qed.

Lemma font_consume_fonts (it it' : FontRunIterator.t) (u0 : Z) :
  FontRunIterator.consume env utf8 it = Ret it' ->
  FontRunIterator.fEnd it = Z.of_nat (length utf8) ->
  decodes env utf8 (FontRunIterator.fCurrent it) u0 ->
  FontRunIterator.fCurrent it < FontRunIterator.fEnd it ->
  FontRunIterator.fTypeface it' = FontRunIterator.fTypeface it /\
  (exists u', decodes env utf8 (FontRunIterator.fCurrent it') u') /\
  forall p u, decodes env utf8 p u ->
    FontRunIterator.fCurrent it <= p < FontRunIterator.fCurrent it' ->
    font_ok env utf8 (FontRunIterator.fTypeface it)
      (FontRunIterator.currentTypeface it') p.
Proof using Hdec.
  intros H Hend Hd Hlt. unfold FontRunIterator.consume in H.
  pose proof (decodes_next _ _ _ _ Hd ltac:(lia)) as Hd'.
  rewrite <- Hend in Hd'.
  destruct (utf8_next env utf8 (FontRunIterator.fCurrent it) (FontRunIterator.fEnd it))
    as [u p1] eqn:Hnext.
  simpl in Hd'.
  set (it1 := FontRunIterator.select env u (FontRunIterator.with_current it p1)) in *.
  assert (FontRunIterator.fCurrent it1 = p1 /\
          FontRunIterator.fEnd it1 = FontRunIterator.fEnd it /\
          FontRunIterator.fTypeface it1 = FontRunIterator.fTypeface it /\
          (charsToGlyphs env (FontRunIterator.fTypeface it) u = true ->
           FontRunIterator.fCurrentTypeface it1 = Some (FontRunIterator.fTypeface it)) /\
          ((exists tf, FontRunIterator.fCurrentTypeface it1 = Some tf /\
                       charsToGlyphs env tf u = true) \/
           FontRunIterator.fCurrentTypeface it1
             = matchFamilyStyleCharacter env (FontRunIterator.fTypeface it) u))
    as (H1 & H2 & H3 & H4 & H5).
  { unfold it1, FontRunIterator.select. simpl.
    destruct (charsToGlyphs env (FontRunIterator.fTypeface it) u) eqn:Hp; simpl.
    - repeat split; eauto.
    - destruct (FontRunIterator.fFallbackTypeface it) as [fb|] eqn:Hfb.
      + destruct (charsToGlyphs env fb u) eqn:Hc; simpl.
        * repeat split; try discriminate. eauto.
        * repeat split; try discriminate. by right.
      + simpl. repeat split; try discriminate. by right. }
  rewrite <- H1 in Hd'.
  destruct (font_loop_fonts _ _ _ _ H ltac:(congruence) Hd') as (Hc & Ht & Hd'' & Hall).
  split; [congruence|]. split; [assumption|].
  intros p u' Hpu Hrange. unfold FontRunIterator.currentTypeface. rewrite Hc.
  destruct (decodes_step env utf8 Hdec _ _ _ _ Hd Hpu ltac:(lia)) as [[-> ->]|Hstep].
  - unfold font_ok, code_point_at. rewrite <- Hend, Hnext. simpl. split; assumption.
  - rewrite <- H3. apply (Hall p u' Hpu).
    rewrite <- Hend, Hnext in Hstep. simpl in Hstep. lia.
Qed.
End FontRuns.

Lemma make_segmenter_font (env : Env) (impl : Impl) (utf8 : list Z) (leftToRight : bool)
    (q : RunIteratorQueue) :
  make_segmenter env impl utf8 leftToRight = Ret (inr q) ->
  FontRunIterator.fTypeface (font q) = impl_fTypeface impl /\
  FontRunIterator.fCurrent (font q) = 0.
Proof.
  unfold make_segmenter. intros H.
  bind_inv H as mk Hb. destruct mk as [b|]; [|inv_ret].
  simpl in H.
  destruct (negb (utext_openUTF8 env utf8)); [discriminate|].
  destruct (negb (ubrk_setUText env utf8)); [discriminate|].
  inversion H; subst q. simpl. by split.
Qed.

(** X19. Every run that the first block stores has one typeface that is
    right for each code point that starts in its bytes: the typeface of
    the font of the run is the primary typeface when that has a glyph for
    the code point, and it has a glyph for the code point or is what the
    font manager gave for that code point. *)
Theorem runs_have_one_font (env : Env) (impl : Impl) (srcFont : SkFont)
    (utf8 : list Z) (leftToRight : bool) (runs : list ShapedRun) :
  decoder_advances env utf8 -> bidi_consistent env utf8 ->
  segment_and_shape env impl srcFont utf8 leftToRight = Ret (inr runs) ->
  Forall (one_font env utf8 (impl_fTypeface impl)) runs.
Proof.
  intros Hdec Hcons H. unfold segment_and_shape in H.
  bind_inv H as mk Hq0. destruct mk as [e|q0]; [inv_ret|].
  destruct (segmenter_init _ _ _ _ _ Hq0) as (level & bidi0 & Hpara & Hinv0 & Hok0 & He0).
  destruct (make_segmenter_font _ _ _ _ _ Hq0) as [Htf0 Hcur0].
  pose proof (Hcons level bidi0 Hpara) as Hb.
  set (primary := impl_fTypeface impl) in *.
  set (I := fun st : SegmentState =>
    iters_inv env utf8 bidi0 (runSegmenter st) /\ queue_ok (runSegmenter st) /\
    queue_endOfCurrentRun (runSegmenter st) = Ret (seg_utf8End st) /\
    is_boundary env utf8 (breakIterator st) /\
    FontRunIterator.fTypeface (font (runSegmenter st)) = primary /\
    (exists u, decodes env utf8 (FontRunIterator.fCurrent (font (runSegmenter st))) u) /\
    (forall p u, decodes env utf8 p u ->
       seg_utf8End st <= p < FontRunIterator.fCurrent (font (runSegmenter st)) ->
       font_ok env utf8 primary
         (FontRunIterator.currentTypeface (font (runSegmenter st))) p) /\
    Forall (one_font env utf8 primary) (seg_runs st)).
  assert (forall st q st', I st ->
            advanceRuns env utf8 (runSegmenter st) = Ret (true, q) ->
            shape_segment env srcFont utf8 st q = Ret (inr st') -> I st') as Hstep.
  { intros st q st' (Hinv & Hok & He & Hbrk & Htf & [u0 Hd0] & Hfont & Hall) Hadv Hseg.
    destruct (advanceRuns_Ret env utf8 bidi0 Hdec Hb _ q _ true Hinv Hok He Hadv)
      as (_ & _ & _ & Hinv' & Hok' & e' & He' & Hgt).
    destruct (advanceRuns_tracks env utf8 bidi0 _ _ _ Hdec Hb Hinv Hok He Hadv)
      as [Hlt Htracks].
    destruct (Htracks FontRef) as (Hle & Hconsumed & Hsame). simpl in Hle, Hconsumed, Hsame.
    unfold FontRunIterator.endOfCurrentRun in *.
    destruct (shape_segment_Ret _ _ _ _ _ _ Hseg) as (Hq & Hend & Hruns).
    destruct (shape_segment_stores _ _ _ _ _ _ Hseg Hbrk) as (Hbrk' & Hstored).
    assert (seg_utf8End st' = e') as Hst' by congruence.
    assert (FontRunIterator.fTypeface (font q) = primary /\
            (exists u, decodes env utf8 (FontRunIterator.fCurrent (font q)) u) /\
            forall p u, decodes env utf8 p u ->
              seg_utf8End st <= p < FontRunIterator.fCurrent (font q) ->
              font_ok env utf8 primary (FontRunIterator.currentTypeface (font q)) p)
      as (Htf' & Hd' & Hcur).
    { destruct (decide (FontRunIterator.fCurrent (font (runSegmenter st))
                        = seg_utf8End st)) as [Heq|Hne].
      - specialize (Hconsumed Heq).
        destruct (font_consume_fonts env utf8 Hdec _ _ u0 Hconsumed
                    (qi_font_end _ _ _ _ Hinv) Hd0)
          as (Ht & Hd' & Hok1).
        { rewrite (qi_font_end _ _ _ _ Hinv). lia. }
        split; [congruence|]. split; [assumption|].
        intros p u Hpu Hrange. rewrite <- Htf. apply (Hok1 p u Hpu). lia.
      - specialize (Hsame Hne). rewrite Hsame. split; [assumption|]. split; [eauto|].
        exact Hfont. }
    assert (e' <= FontRunIterator.fCurrent (font q)) as Hbound.
    { destruct (queue_head env utf8 bidi0 q Hinv' Hok') as (r1 & _ & He1 & Hmin').
      rewrite He1 in He'. inversion He'; subst e'. exact (Hmin' FontRef). }
    unfold I. rewrite Hq, Hst'.
    split; [assumption|]. split; [assumption|]. split; [assumption|].
    split; [assumption|]. split; [assumption|]. split; [assumption|]. split.
    { intros p u Hpu Hrange. apply (Hcur p u Hpu). lia. }
    destruct Hruns as [->|(run & Hrun' & Hrun)]; [assumption|].
    destruct Hstored as [Hnone|(run2 & Hrun2 & Hstart2 & Hfont2 & _)].
    { rewrite Hnone in Hrun'. apply (f_equal length) in Hrun'.
      rewrite length_app in Hrun'. simpl in Hrun'. lia. }
    assert (run2 = run) as ->.
    { rewrite Hrun2 in Hrun'. by apply app_inj_tail in Hrun' as [_ ?]. }
    rewrite Hrun2. apply Forall_app. split; [assumption|]. constructor; [|constructor].
    destruct Hrun as (utf8End & _ & _ & _ & Hend' & _ & Hs & Hee & _).
    assert (utf8End = e') as -> by congruence.
    intros p u Hpu Hrange. rewrite Hfont2. simpl. apply (Hcur p u Hpu). lia. }
  destruct (shape_segments_invariant I env srcFont utf8 Hstep _ _ _ H)
    as (st' & (_ & _ & _ & _ & _ & _ & _ & Hall) & <-); [|assumption].
  unfold I. simpl. split; [assumption|]. split; [assumption|]. split; [assumption|].
  split; [by left|]. split; [assumption|]. rewrite Hcur0.
  split; [exists 0; constructor|]. split; [|constructor].
  intros p u _ Hrange. lia.
Qed.

(** X19 on the stand-ins, for "a", U+4E2D and "b" with a font manager
    that finds no typeface: the runs of "a" and of "b". *)
Lemma runs_have_one_font_witness :
  exists r1 r2,
    segment_and_shape (demo_env demo_no_fallback) demo_impl demo_font text_a_cjk_b true
      = Ret (inr [r1; r2]) /\
    Forall (one_font (demo_env demo_no_fallback) text_a_cjk_b (impl_fTypeface demo_impl))
      [r1; r2].
Proof.
  eexists _, _. split; [vm_compute; reflexivity|].
  apply (runs_have_one_font (demo_env demo_no_fallback) demo_impl demo_font text_a_cjk_b
           true _ (demo_decoder_advances demo_no_fallback text_a_cjk_b)
           a_cjk_b_bidi_consistent).
  vm_compute. reflexivity.
Defined.
